(** * Ants Vs. SomeBees: a shallow embedding of [ants.py]

    The game state of [ants.py] is a graph of mutable Python objects:
    insects point to their place, places point to their insects, a
    bodyguard points to the ant it hides, status effects are closures
    over a private counter.  The embedding keeps that graph explicit: a
    store of insect objects, a store of place objects and a store of
    closure cells, all addressed by index, and every method becomes a
    computation in a state-and-exception monad.  An exception leaves the
    store as it was when it was raised, as in Python. *)

From Stdlib Require Import ZArith String DecimalString List Bool Lia.
From stdpp Require Import base option list.
Import ListNotations.
Local Open Scope string_scope.
Local Open Scope list_scope.
Local Open Scope Z_scope.

(** ** Classes and their class attributes *)

Inductive klass :=
| Insect | Bee | Ant
| HarvesterAnt | ThrowerAnt | FireAnt | LongThrower | ShortThrower
| WallAnt | NinjaAnt | ScubaThrower | HungryAnt | BodyguardAnt
| QueenAnt | AntRemover | SlowThrower | StunThrower.

Definition klass_eqb (a b : klass) : bool :=
  match a, b with
  | Insect, Insect | Bee, Bee | Ant, Ant | HarvesterAnt, HarvesterAnt
  | ThrowerAnt, ThrowerAnt | FireAnt, FireAnt | LongThrower, LongThrower
  | ShortThrower, ShortThrower | WallAnt, WallAnt | NinjaAnt, NinjaAnt
  | ScubaThrower, ScubaThrower | HungryAnt, HungryAnt
  | BodyguardAnt, BodyguardAnt | QueenAnt, QueenAnt
  | AntRemover, AntRemover | SlowThrower, SlowThrower
  | StunThrower, StunThrower => true
  | _, _ => false
  end.

(** [is_ant]: [Insect.is_ant] returns False, [Ant.is_ant] returns True. *)
Definition class_is_ant (k : klass) : bool :=
  match k with Insect | Bee => false | _ => true end.

(** [watersafe]: False on [Insect], True on [Bee] and [ScubaThrower]
    (inherited by [QueenAnt]). *)
Definition class_watersafe (k : klass) : bool :=
  match k with Bee | ScubaThrower | QueenAnt => true | _ => false end.

(** [damage], a class attribute of [Ant] and its subclasses. *)
Definition class_damage (k : klass) : Z :=
  match k with
  | ThrowerAnt | LongThrower | ShortThrower | ScubaThrower | QueenAnt
  | SlowThrower | StunThrower | NinjaAnt => 1
  | FireAnt => 3
  | _ => 0
  end.

Definition class_food_cost (k : klass) : Z :=
  match k with
  | HarvesterAnt => 2
  | ThrowerAnt | FireAnt | WallAnt | HungryAnt | BodyguardAnt
  | SlowThrower => 4
  | LongThrower | ShortThrower => 3
  | ScubaThrower => 5
  | NinjaAnt | QueenAnt | StunThrower => 6
  | _ => 0
  end.

Definition class_blocks_path (k : klass) : bool :=
  match k with NinjaAnt => false | _ => true end.

Definition class_container (k : klass) : bool :=
  match k with BodyguardAnt => true | _ => false end.

Definition class_implemented (k : klass) : bool :=
  match k with
  | Insect | Bee | Ant | BodyguardAnt => false
  | _ => true
  end.

Definition class_name (k : klass) : string :=
  match k with
  | Insect => "Insect" | Bee => "Bee" | Ant => "Ant"
  | HarvesterAnt => "Harvester" | ThrowerAnt => "Thrower"
  | FireAnt => "Fire" | LongThrower => "Long" | ShortThrower => "Short"
  | WallAnt => "Wall" | NinjaAnt => "Ninja" | ScubaThrower => "Scuba"
  | HungryAnt => "Hungry" | BodyguardAnt => "Bodyguard"
  | QueenAnt => "Queen" | AntRemover => "Remover"
  | SlowThrower => "Slow" | StunThrower => "Stun"
  end.

(** The classes on which [ThrowerAnt.nearest_bee] is defined. *)
Definition class_is_thrower (k : klass) : bool :=
  match k with
  | ThrowerAnt | LongThrower | ShortThrower | ScubaThrower | QueenAnt
  | SlowThrower | StunThrower => true
  | _ => false
  end.

Definition class_min_range (k : klass) : Z :=
  match k with LongThrower => 4 | _ => 0 end.

Definition class_max_range (k : klass) : Z :=
  match k with ShortThrower => 2 | _ => 10 end.

(** The armor an ant constructor passes to [Ant.__init__]. *)
Definition class_armor (k : klass) : Z :=
  match k with
  | WallAnt => 4 | BodyguardAnt => 2 | AntRemover => 0 | _ => 1
  end.

Definition time_to_digest : Z := 3.

(** ** Objects *)

Abbreviation iid := nat.   (* identity of an insect object *)
Abbreviation pid := nat.   (* identity of a place object *)
Abbreviation cid := nat.   (* the [count] cell of one
                                         [apply_effect] call *)

(** The two effects of the module, [make_slow] and [make_stun]. *)
Inductive effect := MakeSlow | MakeStun.

(** The closure [make_duration_effect] that [apply_effect] appends to
    [bee.effects]: it captures [effect], [duration] and the cell of
    [count]. *)
Record closure := Closure {
  cl_effect : effect;
  cl_duration : Z;
  cl_count : cid
}.

Record insect := MkInsect {
  i_class : klass;
  i_armor : Z;
  i_place : option pid;
  i_effects : list closure;     (* Bee.effects *)
  i_damage : Z;                 (* Ant.damage, as seen from the instance *)
  i_damage_doubled : bool;      (* Ant.damage_doubled *)
  i_ant : option iid;           (* BodyguardAnt.ant *)
  i_digesting : Z;              (* HungryAnt.digesting *)
  i_is_true_queen : bool        (* QueenAnt.is_true_queen of the instance *)
}.

Inductive place_kind := PlainPlace | WaterPlace | HivePlace.

Record place := MkPlace {
  p_kind : place_kind;
  p_name : string;
  p_exit : option pid;
  p_bees : list iid;
  p_ant : option iid;
  p_entrance : option pid;
  p_assault_plan : list (Z * list iid)   (* Hive.assault_plan *)
}.

(** [AntColony.queen] is a [Place] until the true queen acts, then a
    [QueenPlace] over two places. *)
Inductive queen_ref :=
| QPlain (p : pid)
| QueenPlace (colony_queen : pid) (ant_queen : option pid).

Record state := MkState {
  insects : list insect;
  places : list place;
  cells : list Z;
  queen_class_flag : bool;              (* QueenAnt.is_true_queen *)
  time : Z;                             (* AntColony.time *)
  food : Z;                             (* AntColony.food *)
  c_places : list (string * pid);       (* AntColony.places *)
  c_queen : queen_ref;                  (* AntColony.queen *)
  c_hive : pid;                         (* AntColony.hive *)
  c_ant_types : list (string * klass);  (* AntColony.ant_types *)
  c_bee_entrances : list pid;           (* AntColony.bee_entrances *)
  rand_src : nat -> nat;                (* the outcomes of [random] *)
  rand_pos : nat
}.

Definition set_insects (f : list insect -> list insect) (s : state) : state :=
  MkState (f (insects s)) (places s) (cells s) (queen_class_flag s) (time s)
    (food s) (c_places s) (c_queen s) (c_hive s) (c_ant_types s)
    (c_bee_entrances s) (rand_src s) (rand_pos s).

Definition set_places (f : list place -> list place) (s : state) : state :=
  MkState (insects s) (f (places s)) (cells s) (queen_class_flag s) (time s)
    (food s) (c_places s) (c_queen s) (c_hive s) (c_ant_types s)
    (c_bee_entrances s) (rand_src s) (rand_pos s).

Definition set_cells (f : list Z -> list Z) (s : state) : state :=
  MkState (insects s) (places s) (f (cells s)) (queen_class_flag s) (time s)
    (food s) (c_places s) (c_queen s) (c_hive s) (c_ant_types s)
    (c_bee_entrances s) (rand_src s) (rand_pos s).

Definition set_queen_class_flag (b : bool) (s : state) : state :=
  MkState (insects s) (places s) (cells s) b (time s)
    (food s) (c_places s) (c_queen s) (c_hive s) (c_ant_types s)
    (c_bee_entrances s) (rand_src s) (rand_pos s).

Definition set_time (t : Z) (s : state) : state :=
  MkState (insects s) (places s) (cells s) (queen_class_flag s) t
    (food s) (c_places s) (c_queen s) (c_hive s) (c_ant_types s)
    (c_bee_entrances s) (rand_src s) (rand_pos s).

Definition set_food (n : Z) (s : state) : state :=
  MkState (insects s) (places s) (cells s) (queen_class_flag s) (time s)
    n (c_places s) (c_queen s) (c_hive s) (c_ant_types s)
    (c_bee_entrances s) (rand_src s) (rand_pos s).

Definition set_c_places (l : list (string * pid)) (s : state) : state :=
  MkState (insects s) (places s) (cells s) (queen_class_flag s) (time s)
    (food s) l (c_queen s) (c_hive s) (c_ant_types s)
    (c_bee_entrances s) (rand_src s) (rand_pos s).

Definition set_c_queen (q : queen_ref) (s : state) : state :=
  MkState (insects s) (places s) (cells s) (queen_class_flag s) (time s)
    (food s) (c_places s) q (c_hive s) (c_ant_types s)
    (c_bee_entrances s) (rand_src s) (rand_pos s).

Definition set_c_hive (h : pid) (s : state) : state :=
  MkState (insects s) (places s) (cells s) (queen_class_flag s) (time s)
    (food s) (c_places s) (c_queen s) h (c_ant_types s)
    (c_bee_entrances s) (rand_src s) (rand_pos s).

Definition set_c_ant_types (l : list (string * klass)) (s : state) : state :=
  MkState (insects s) (places s) (cells s) (queen_class_flag s) (time s)
    (food s) (c_places s) (c_queen s) (c_hive s) l
    (c_bee_entrances s) (rand_src s) (rand_pos s).

Definition set_c_bee_entrances (l : list pid) (s : state) : state :=
  MkState (insects s) (places s) (cells s) (queen_class_flag s) (time s)
    (food s) (c_places s) (c_queen s) (c_hive s) (c_ant_types s)
    l (rand_src s) (rand_pos s).

Definition set_rand_pos (n : nat) (s : state) : state :=
  MkState (insects s) (places s) (cells s) (queen_class_flag s) (time s)
    (food s) (c_places s) (c_queen s) (c_hive s) (c_ant_types s)
    (c_bee_entrances s) (rand_src s) n.

(** ** The monad: state, and Python's exceptions *)

Inductive exn :=
| AssertionError      (* a failed [assert] *)
| AttributeError      (* an attribute of [None], or a missing method *)
| KeyError            (* a missing dictionary key *)
| ValueError          (* [list.remove] of an absent element *)
| IndexError          (* [random.choice] of an empty list *)
| TypeError           (* a call with a missing argument *)
| IllFormed           (* a store Python cannot build: a dangling
                         identity, or a dispatch the code never makes *)
| OutOfFuel.          (* a loop bound of the model was reached *)

Inductive result (A : Type) :=
| Ok (a : A)
| Raise (e : exn).
Arguments Ok {A} a.
Arguments Raise {A} e.

Definition M (A : Type) : Type := state -> result A * state.

Definition ret {A} (a : A) : M A := fun s => (Ok a, s).

Definition bind {A B} (m : M A) (f : A -> M B) : M B :=
  fun s => match m s with
           | (Ok a, s') => f a s'
           | (Raise e, s') => (Raise e, s')
           end.

Definition raise {A} (e : exn) : M A := fun s => (Raise e, s).

Definition get : M state := fun s => (Ok s, s).

Definition modify (f : state -> state) : M unit := fun s => (Ok tt, f s).

Declare Scope ants_scope.
Delimit Scope ants_scope with ants.
Notation "'let*' x := m 'in' k" := (bind m (fun x => k))
  (at level 10, x name, m at level 100, k at level 200) : ants_scope.
Notation "m ;; k" := (bind m (fun _ => k))
  (at level 100, k at level 200, right associativity) : ants_scope.
Local Open Scope ants_scope.

(** [for x in l: body(x)] over a list fixed before the loop starts. *)
Fixpoint for_each {A} (l : list A) (body : A -> M unit) : M unit :=
  match l with
  | [] => ret tt
  | x :: l' => body x ;; for_each l' body
  end.

(** ** Reading and writing objects *)

Definition get_insect (i : iid) : M insect :=
  fun s => match insects s !! i with
           | Some x => (Ok x, s)
           | None => (Raise IllFormed, s)
           end.

Definition get_place (p : pid) : M place :=
  fun s => match places s !! p with
           | Some x => (Ok x, s)
           | None => (Raise IllFormed, s)
           end.

Definition upd_insect (i : iid) (f : insect -> insect) : M unit :=
  let* x := get_insect i in
  modify (set_insects (fun l => <[i := f x]> l)).

Definition upd_place (p : pid) (f : place -> place) : M unit :=
  let* x := get_place p in
  modify (set_places (fun l => <[p := f x]> l)).

(** An attribute of a reference that may be [None]. *)
Definition deref {A} (o : option A) : M A :=
  match o with
  | Some x => ret x
  | None => raise AttributeError
  end.

Definition with_armor (v : Z) (x : insect) : insect :=
  MkInsect (i_class x) v (i_place x) (i_effects x) (i_damage x)
    (i_damage_doubled x) (i_ant x) (i_digesting x) (i_is_true_queen x).

Definition with_place (o : option pid) (x : insect) : insect :=
  MkInsect (i_class x) (i_armor x) o (i_effects x) (i_damage x)
    (i_damage_doubled x) (i_ant x) (i_digesting x) (i_is_true_queen x).

Definition with_effects (l : list closure) (x : insect) : insect :=
  MkInsect (i_class x) (i_armor x) (i_place x) l (i_damage x)
    (i_damage_doubled x) (i_ant x) (i_digesting x) (i_is_true_queen x).

Definition with_damage (d : Z) (b : bool) (x : insect) : insect :=
  MkInsect (i_class x) (i_armor x) (i_place x) (i_effects x) d
    b (i_ant x) (i_digesting x) (i_is_true_queen x).

Definition with_ant (o : option iid) (x : insect) : insect :=
  MkInsect (i_class x) (i_armor x) (i_place x) (i_effects x) (i_damage x)
    (i_damage_doubled x) o (i_digesting x) (i_is_true_queen x).

Definition with_digesting (d : Z) (x : insect) : insect :=
  MkInsect (i_class x) (i_armor x) (i_place x) (i_effects x) (i_damage x)
    (i_damage_doubled x) (i_ant x) d (i_is_true_queen x).

Definition with_p_bees (l : list iid) (x : place) : place :=
  MkPlace (p_kind x) (p_name x) (p_exit x) l (p_ant x) (p_entrance x)
    (p_assault_plan x).

Definition with_p_ant (o : option iid) (x : place) : place :=
  MkPlace (p_kind x) (p_name x) (p_exit x) (p_bees x) o (p_entrance x)
    (p_assault_plan x).

Definition with_p_entrance (o : option pid) (x : place) : place :=
  MkPlace (p_kind x) (p_name x) (p_exit x) (p_bees x) (p_ant x) o
    (p_assault_plan x).

(** ** Dictionaries in insertion order ([OrderedDict], [dict]) *)

Fixpoint dict_get {K V} (eqb : K -> K -> bool) (k : K) (d : list (K * V))
  : option V :=
  match d with
  | [] => None
  | (k', v) :: d' => if eqb k k' then Some v else dict_get eqb k d'
  end.

Fixpoint dict_set {K V} (eqb : K -> K -> bool) (k : K) (v : V)
  (d : list (K * V)) : list (K * V) :=
  match d with
  | [] => [(k, v)]
  | (k', v') :: d' =>
      if eqb k k' then (k, v) :: d' else (k', v') :: dict_set eqb k v d'
  end.

(** [d[k]], raising [KeyError]. *)
Definition subscript {K V} (eqb : K -> K -> bool) (d : list (K * V)) (k : K)
  : M V :=
  match dict_get eqb k d with
  | Some v => ret v
  | None => raise KeyError
  end.

(** [l.remove(x)]: the first occurrence goes; [None] stands for the
    [ValueError] of an absent [x]. *)
Fixpoint list_remove (x : nat) (l : list nat) : option (list nat) :=
  match l with
  | [] => None
  | y :: l' =>
      if Nat.eqb x y then Some l'
      else match list_remove x l' with
           | Some r => Some (y :: r)
           | None => None
           end
  end.

(** ** Randomness *)

Definition next_random : M nat :=
  fun s => (Ok (rand_src s (rand_pos s)), set_rand_pos (S (rand_pos s)) s).

(** [random.choice(l)] *)
Definition random_choice {A} (l : list A) : M A :=
  match l with
  | [] => raise IndexError
  | _ =>
      let* r := next_random in
      match l !! (r mod length l)%nat with
      | Some x => ret x
      | None => raise IndexError
      end
  end.

(** [random_or_none(l)] *)
Definition random_or_none {A} (l : list A) : M (option A) :=
  match l with
  | [] => ret None
  | _ => let* x := random_choice l in ret (Some x)
  end.

(** ** Insect and Ant: the small methods *)

Definition is_ant (i : iid) : M bool :=
  let* x := get_insect i in ret (class_is_ant (i_class x)).

(** [Insect.is_queen] is False; [QueenAnt.is_queen] returns
    [self.is_true_queen]. *)
Definition insect_is_queen (x : insect) : bool :=
  match i_class x with
  | QueenAnt => i_is_true_queen x
  | _ => false
  end.

Definition is_queen (i : iid) : M bool :=
  let* x := get_insect i in ret (insect_is_queen x).

(** [Ant.contained_ant] is None; [BodyguardAnt.contained_ant] returns
    [self.ant]. *)
Definition insect_contained_ant (x : insect) : option iid :=
  match i_class x with
  | BodyguardAnt => i_ant x
  | _ => None
  end.

Definition contained_ant (i : iid) : M (option iid) :=
  let* x := get_insect i in ret (insect_contained_ant x).

(** [x.container], an attribute of ants only. *)
Definition container (i : iid) : M bool :=
  let* x := get_insect i in
  if class_is_ant (i_class x) then ret (class_container (i_class x))
  else raise AttributeError.

(** [Ant.can_contain] *)
Definition can_contain (self other : iid) : M bool :=
  let* c := container self in
  if negb c then ret false else
  let* inner := contained_ant self in
  match inner with
  | Some _ => ret false
  | None =>
      let* oc := container other in
      if oc then ret false else ret true
  end.

(** [BodyguardAnt.contain_ant]; no other class has the method. *)
Definition contain_ant (self a : iid) : M unit :=
  let* x := get_insect self in
  match i_class x with
  | BodyguardAnt => upd_insect self (with_ant (Some a))
  | _ => raise AttributeError
  end.

(** [Ant.double_damage] *)
Definition double_damage (self : iid) : M unit :=
  let* x := get_insect self in
  if i_damage_doubled x then ret tt
  else upd_insect self (with_damage (i_damage x * 2) true).

(** ** Place *)

(** [Place.remove_insect] *)
Definition remove_insect (self : pid) (insect : iid) : M unit :=
  let* q := is_queen insect in
  if q then ret tt else
  let* a := is_ant insect in
  (if negb a then
     let* p := get_place self in
     match list_remove insect (p_bees p) with
     | Some l => upd_place self (with_p_bees l)
     | None => raise ValueError
     end
   else
     let* p := get_place self in
     match p_ant p with
     | Some cur =>
         if Nat.eqb cur insect then
           let* inner := contained_ant cur in
           upd_place self (with_p_ant inner)
         else raise AssertionError
     | None => raise AssertionError
     end) ;;
  upd_insect insect (with_place None).

(** [Insect.reduce_armor] *)
Definition Insect_reduce_armor (self : iid) (amount : Z) : M unit :=
  let* x := get_insect self in
  upd_insect self (with_armor (i_armor x - amount)) ;;
  if i_armor x - amount <=? 0 then
    let* p := deref (i_place x) in
    remove_insect p self
  else ret tt.

(** [b.reduce_armor(amount)] for [b] taken from a [bees] list.
    [add_insect] appends to [bees] only insects for which [is_ant()] is
    False, none of which overrides [reduce_armor]. *)
Definition bee_reduce_armor (b : iid) (amount : Z) : M unit :=
  let* x := get_insect b in
  match i_class x with
  | FireAnt => raise IllFormed
  | _ => Insect_reduce_armor b amount
  end.

(** [FireAnt.reduce_armor] *)
Definition FireAnt_reduce_armor (self : iid) (amount : Z) : M unit :=
  let* x := get_insect self in
  (if i_armor x <=? amount then
     let* p := deref (i_place x) in
     let* pl := get_place p in
     for_each (p_bees pl) (fun bee =>
       let* me := get_insect self in
       bee_reduce_armor bee (i_damage me))
   else ret tt) ;;
  Insect_reduce_armor self amount.

(** [insect.reduce_armor(amount)], by the class of [insect]. *)
Definition reduce_armor (self : iid) (amount : Z) : M unit :=
  let* x := get_insect self in
  match i_class x with
  | FireAnt => FireAnt_reduce_armor self amount
  | _ => Insect_reduce_armor self amount
  end.

(** [Place.add_insect] *)
Definition Place_add_insect (self : pid) (insect : iid) : M unit :=
  let* a := is_ant insect in
  (if a then
     let* p := get_place self in
     match p_ant p with
     | None => upd_place self (with_p_ant (Some insect))
     | Some cur =>
         let* c1 := can_contain cur insect in
         if c1 then contain_ant cur insect
         else
           let* c2 := can_contain insect cur in
           if c2 then
             contain_ant insect cur ;;
             upd_place self (with_p_ant (Some insect))
           else raise AssertionError
     end
   else
     upd_place self (fun p => with_p_bees (p_bees p ++ [insect]) p)) ;;
  upd_insect insect (with_place (Some self)).

(** [Water.add_insect] *)
Definition Water_add_insect (self : pid) (insect : iid) : M unit :=
  Place_add_insect self insect ;;
  let* x := get_insect insect in
  if negb (class_watersafe (i_class x)) then
    let* y := get_insect insect in
    reduce_armor insect (i_armor y)
  else ret tt.

(** [place.add_insect(insect)], by the class of [place]. *)
Definition add_insect (self : pid) (insect : iid) : M unit :=
  let* p := get_place self in
  match p_kind p with
  | WaterPlace => Water_add_insect self insect
  | _ => Place_add_insect self insect
  end.

(** ** Bee *)

(** [Bee.sting] *)
Definition sting (self a : iid) : M unit := reduce_armor a 1.

(** [Bee.move_to]; the target may be [None]. *)
Definition move_to (self : iid) (target : option pid) : M unit :=
  let* x := get_insect self in
  let* p := deref (i_place x) in
  remove_insect p self ;;
  let* t := deref target in
  add_insect t self.

(** [Bee.blocked] *)
Definition blocked (self : iid) : M bool :=
  let* x := get_insect self in
  let* p := deref (i_place x) in
  let* pl := get_place p in
  match p_ant pl with
  | None => ret false
  | Some a =>
      let* y := get_insect a in ret (class_blocks_path (i_class y))
  end.

(** [Bee._action] *)
Definition Bee__action (self : iid) : M unit :=
  let* b := blocked self in
  if b then
    let* x := get_insect self in
    let* p := deref (i_place x) in
    let* pl := get_place p in
    let* a := deref (p_ant pl) in
    sting self a
  else
    let* x := get_insect self in
    let* p := deref (i_place x) in
    let* pl := get_place p in
    if negb (String.eqb (p_name pl) "Hive") && (i_armor x >? 0) then
      let* x' := get_insect self in
      let* p' := deref (i_place x') in
      let* pl' := get_place p' in
      move_to self (p_exit pl')
    else ret tt.

(** ** Status effects *)

(** An action method: a function of [self] (and of the colony, which is
    the state). *)
Definition action_method := iid -> M unit.

(** [make_slow] *)
Definition make_slow (action : action_method) : action_method :=
  fun self =>
    let* s := get in
    if time s mod 2 =? 0 then action self else ret tt.

(** [make_stun] *)
Definition make_stun (action : action_method) : action_method :=
  fun self => ret tt.

Definition effect_fn (e : effect) : action_method -> action_method :=
  match e with
  | MakeSlow => make_slow
  | MakeStun => make_stun
  end.

(** [make_duration_effect], the closure built inside [apply_effect];
    [count] is read and written in its cell. *)
Definition make_duration_effect (c : closure) (action : action_method)
  : action_method :=
  fun self =>
    let* s := get in
    match cells s !! cl_count c with
    | None => raise IllFormed
    | Some count =>
        if count <? cl_duration c then
          modify (set_cells (fun l => <[cl_count c := count + 1]> l)) ;;
          effect_fn (cl_effect c) action self
        else action self
    end.

(** [apply_effect]: a fresh [count = 0], then [bee.apply_effect], which
    only [Bee] defines. *)
Definition apply_effect (e : effect) (bee : iid) (duration : Z) : M unit :=
  let* s := get in
  let c := length (cells s) in
  modify (set_cells (fun l => l ++ [0])) ;;
  let* x := get_insect bee in
  match i_class x with
  | Bee =>
      upd_insect bee (fun y =>
        with_effects (i_effects y ++ [Closure e duration c]) y)
  | _ => raise AttributeError
  end.

(** [Bee.action] *)
Definition Bee_action (self : iid) : M unit :=
  let* x := get_insect self in
  fold_left (fun action_fn eff => make_duration_effect eff action_fn)
    (i_effects x) Bee__action self.

(** ** The actions of the ants *)

(** How many places there are: a walk along [entrance] or [exit] that
    takes more steps than that is in a cycle and never ends. *)
Definition walk_bound : M nat :=
  let* s := get in ret (S (length (places s))).

Definition is_not (place : option pid) (q : pid) : bool :=
  match place with
  | Some p => negb (Nat.eqb p q)
  | None => true
  end.

(** The loop of [ThrowerAnt.nearest_bee], for an ant of class [k]. *)
Fixpoint nearest_bee_loop (fuel : nat) (k : klass) (hive : pid)
  (place : option pid) (range : Z) : M (option iid) :=
  match fuel with
  | O => raise OutOfFuel
  | S fuel' =>
      if is_not place hive then
        let* target :=
          (if (class_min_range k <=? range) && (range <=? class_max_range k)
           then
             let* p := deref place in
             let* pl := get_place p in
             random_or_none (p_bees pl)
           else ret None) in
        match target with
        | Some t => ret (Some t)
        | None =>
            let* p := deref place in
            let* pl := get_place p in
            nearest_bee_loop fuel' k hive (p_entrance pl) (range + 1)
        end
      else ret None
  end.

(** [ThrowerAnt.nearest_bee] *)
Definition nearest_bee (self : iid) (hive : pid) : M (option iid) :=
  let* x := get_insect self in
  if class_is_thrower (i_class x) then
    let* n := walk_bound in
    nearest_bee_loop n (i_class x) hive (i_place x) 0
  else raise AttributeError.

(** [throw_at]: [ThrowerAnt]'s, overridden by [SlowThrower] and
    [StunThrower]. *)
Definition throw_at (self : iid) (target : option iid) : M unit :=
  let* x := get_insect self in
  match i_class x with
  | SlowThrower =>
      match target with
      | Some t => apply_effect MakeSlow t 3
      | None => ret tt
      end
  | StunThrower =>
      match target with
      | Some t => apply_effect MakeStun t 1
      | None => ret tt
      end
  | _ =>
      match target with
      | Some t =>
          let* me := get_insect self in
          bee_reduce_armor t (i_damage me)
      | None => ret tt
      end
  end.

(** [ThrowerAnt.action] *)
Definition ThrowerAnt_action (self : iid) : M unit :=
  let* s := get in
  let* target := nearest_bee self (c_hive s) in
  throw_at self target.

(** [NinjaAnt.action] *)
Definition NinjaAnt_action (self : iid) : M unit :=
  let* x := get_insect self in
  let* p := deref (i_place x) in
  let* pl := get_place p in
  for_each (p_bees pl) (fun bee =>
    let* me := get_insect self in
    bee_reduce_armor bee (i_damage me)).

(** [HungryAnt.eat_bee] *)
Definition eat_bee (self bee : iid) : M unit :=
  let* y := get_insect bee in
  bee_reduce_armor bee (i_armor y) ;;
  upd_insect self (with_digesting time_to_digest).

(** [HungryAnt.action] *)
Definition HungryAnt_action (self : iid) : M unit :=
  let* x := get_insect self in
  if i_digesting x >? 0 then
    upd_insect self (with_digesting (i_digesting x - 1))
  else
    let* p := deref (i_place x) in
    let* pl := get_place p in
    let* bee := random_or_none (p_bees pl) in
    match bee with
    | Some b => eat_bee self b
    | None => ret tt
    end.

(** [QueenAnt._double_place_damage] *)
Definition _double_place_damage (p : pid) : M unit :=
  let* pl := get_place p in
  match p_ant pl with
  | None => ret tt
  | Some a =>
      let* q := is_queen a in
      if q then ret tt else
      double_damage a ;;
      let* inner := contained_ant a in
      match inner with
      | None => ret tt
      | Some c =>
          let* qc := is_queen c in
          if qc then ret tt else double_damage c
      end
  end.

(** [while place is not None: ...; place = place.exit] (or
    [place.entrance], by [next]). *)
Fixpoint double_walk (fuel : nat) (next : place -> option pid)
  (place : option pid) : M unit :=
  match fuel with
  | O => raise OutOfFuel
  | S fuel' =>
      match place with
      | None => ret tt
      | Some p =>
          _double_place_damage p ;;
          let* pl := get_place p in
          double_walk fuel' next (next pl)
      end
  end.

(** [QueenAnt.action] *)
Definition QueenAnt_action (self : iid) : M unit :=
  let* x := get_insect self in
  if negb (i_is_true_queen x) then
    Insect_reduce_armor self (i_armor x)
  else
    let* s := get in
    match c_queen s with
    | QPlain q => modify (set_c_queen (QueenPlace q (i_place x)))
    | QueenPlace _ _ => ret tt
    end ;;
    ThrowerAnt_action self ;;
    let* n := walk_bound in
    let* x1 := get_insect self in
    double_walk n p_exit (i_place x1) ;;
    let* x2 := get_insect self in
    let* p := deref (i_place x2) in
    let* pl := get_place p in
    double_walk n p_entrance (p_entrance pl).

(** [insect.action(colony)] for every class but [BodyguardAnt]. *)
Definition own_action (k : klass) (self : iid) : M unit :=
  match k with
  | Insect | Ant | FireAnt | WallAnt | AntRemover => ret tt
  | Bee => Bee_action self
  | HarvesterAnt => modify (fun s => set_food (food s + 1) s)
  | ThrowerAnt | LongThrower | ShortThrower | ScubaThrower
  | SlowThrower | StunThrower => ThrowerAnt_action self
  | NinjaAnt => NinjaAnt_action self
  | HungryAnt => HungryAnt_action self
  | QueenAnt => QueenAnt_action self
  | BodyguardAnt => raise IllFormed
  end.

(** [insect.action(colony)].  [BodyguardAnt.action] hands over to the
    ant inside, which [can_contain] never lets be a bodyguard. *)
Definition action (self : iid) : M unit :=
  let* x := get_insect self in
  match i_class x with
  | BodyguardAnt =>
      match i_ant x with
      | None => ret tt
      | Some a =>
          let* y := get_insect a in
          own_action (i_class y) a
      end
  | k => own_action k self
  end.

(** ** Constructors *)

Definition new_insect (x : insect) : M iid :=
  fun s => (Ok (length (insects s)), set_insects (fun l => l ++ [x]) s).

(** [Bee(armor)] *)
Definition new_bee (armor : Z) : M iid :=
  new_insect (MkInsect Bee armor None [] 0 false None 0 false).

(** [constructor()] for an entry of [ant_types].  [QueenAnt.__init__]
    takes the class flag and clears it. *)
Definition construct (k : klass) : M iid :=
  match k with
  | Insect | Bee => raise TypeError
  | QueenAnt =>
      let* s := get in
      let* i := new_insect (MkInsect QueenAnt 1 None [] (class_damage QueenAnt)
                              false None 0 (queen_class_flag s)) in
      modify (set_queen_class_flag false) ;;
      ret i
  | _ =>
      new_insect (MkInsect k (class_armor k) None [] (class_damage k)
                    false None 0 false)
  end.

(** [Place(name, exit)] and [Water(name, exit)]: the exit learns its
    entrance. *)
Definition new_place (kind : place_kind) (name : string) (exit : option pid)
  : M pid :=
  let* s := get in
  let p := length (places s) in
  modify (set_places (fun l =>
    l ++ [MkPlace kind name exit [] None None []])) ;;
  match exit with
  | Some e => upd_place e (with_p_entrance (Some p))
  | None => ret tt
  end ;;
  ret p.

(** [AssaultPlan]: the armor of its bees and the waves. *)
Record assault_plan := MkPlan {
  bee_armor : Z;
  waves : list (Z * list iid)
}.

Fixpoint new_bees (count : nat) (armor : Z) : M (list iid) :=
  match count with
  | O => ret []
  | S n =>
      let* b := new_bee armor in
      let* l := new_bees n armor in
      ret (b :: l)
  end.

(** [AssaultPlan.add_wave] *)
Definition add_wave (t : Z) (count : nat) (plan : assault_plan)
  : M assault_plan :=
  let* bs := new_bees count (bee_armor plan) in
  let old := default [] (dict_get Z.eqb t (waves plan)) in
  ret (MkPlan (bee_armor plan) (dict_set Z.eqb t (old ++ bs) (waves plan))).

(** [AssaultPlan.all_bees] *)
Definition all_bees (w : list (Z * list iid)) : list iid :=
  concat (map snd w).

(** [Hive(assault_plan)]; [Hive] inherits [Place.add_insect]. *)
Definition new_hive (plan : assault_plan) : M pid :=
  let* s := get in
  let h := length (places s) in
  modify (set_places (fun l =>
    l ++ [MkPlace HivePlace "Hive" None [] None None (waves plan)])) ;;
  for_each (all_bees (waves plan)) (fun bee =>
    let* a := is_ant bee in
    if a then raise AttributeError else Place_add_insect h bee) ;;
  ret h.

(** ** AntColony *)

Fixpoint map_M {A B} (f : A -> M B) (l : list A) : M (list B) :=
  match l with
  | [] => ret []
  | x :: l' =>
      let* y := f x in
      let* r := map_M f l' in
      ret (y :: r)
  end.

Fixpoint fold_M {A S} (f : S -> A -> M S) (l : list A) (acc : S) : M S :=
  match l with
  | [] => ret acc
  | x :: l' => let* acc' := f acc x in fold_M f l' acc'
  end.

(** [colony.places.values()] *)
Definition place_values : M (list place) :=
  let* s := get in map_M get_place (map snd (c_places s)).

(** [AntColony.ants] *)
Definition ants : M (list iid) :=
  let* pls := place_values in ret (omap p_ant pls).

(** [AntColony.bees] *)
Definition bees : M (list iid) :=
  let* pls := place_values in ret (concat (map p_bees pls)).

(** [colony.queen.bees]: the bees of a [Place], or for a [QueenPlace]
    the union of two sets of bees, as a list. *)
Definition queen_bees : M (list iid) :=
  let* s := get in
  match c_queen s with
  | QPlain q => let* pl := get_place q in ret (p_bees pl)
  | QueenPlace cq aq =>
      let* pl1 := get_place cq in
      let* a := deref aq in
      let* pl2 := get_place a in
      ret (remove_dups (p_bees pl1 ++ p_bees pl2))
  end.

(** [Hive.strategy] *)
Definition Hive_strategy (self : pid) : M unit :=
  let* hv := get_place self in
  match p_kind hv with
  | HivePlace =>
      let* s := get in
      let* pls := place_values in
      let exits :=
        map fst (List.filter (fun e => negb (is_not (p_entrance (snd e)) self))
                   (zip (map snd (c_places s)) pls)) in
      for_each (default [] (dict_get Z.eqb (time s) (p_assault_plan hv)))
        (fun bee =>
           let* e := random_choice exits in
           move_to bee (Some e))
  | _ => raise AttributeError
  end.

(** [c.food_cost] for a class [c] of [ant_types]. *)
Definition food_cost (k : klass) : M Z :=
  if class_is_ant k then ret (class_food_cost k) else raise AttributeError.

(** [AntColony.deploy_ant] *)
Definition deploy_ant (place_name ant_type_name : string) : M unit :=
  let* s := get in
  let* constructor := subscript String.eqb (c_ant_types s) ant_type_name in
  let* cost := food_cost constructor in
  if food s <? cost then ret tt
  else
    let* p := subscript String.eqb (c_places s) place_name in
    let* a := construct constructor in
    add_insect p a ;;
    let* cost' := food_cost constructor in
    modify (fun s' => set_food (food s' - cost') s').

(** [AntColony.remove_ant] *)
Definition remove_ant (place_name : string) : M unit :=
  let* s := get in
  let* p := subscript String.eqb (c_places s) place_name in
  let* pl := get_place p in
  match p_ant pl with
  | Some a => remove_insect p a
  | None => ret tt
  end.

(** The body of the loop of [AntColony.simulate]: one turn. *)
Definition turn (strategy : M unit) : M unit :=
  let* s := get in
  Hive_strategy (c_hive s) ;;
  strategy ;;
  let* l := ants in
  for_each l (fun a =>
    let* x := get_insect a in
    if i_armor x >? 0 then action a else ret tt) ;;
  let* l' := bees in
  for_each l' (fun b =>
    let* x := get_insect b in
    if i_armor x >? 0 then action b else ret tt) ;;
  modify (fun s' => set_time (time s' + 1) s').

Inductive outcome :=
| Won      (* 'All bees are vanquished. You win!' *)
| Lost.    (* 'The ant queen has perished. Please try again.' *)

(** What [simulate] prints after its loop. *)
Definition verdict : M outcome :=
  let* qb := queen_bees in
  match qb with
  | [] => ret Won
  | _ => ret Lost
  end.

(** [AntColony.simulate]; [fuel] bounds the number of turns. *)
Fixpoint simulate (fuel : nat) (strategy : M unit) : M outcome :=
  match fuel with
  | O => raise OutOfFuel
  | S fuel' =>
      let* qb := queen_bees in
      match qb with
      | [] =>
          let* bs := bees in
          match bs with
          | [] => verdict
          | _ => turn strategy ;; simulate fuel' strategy
          end
      | _ => verdict
      end
  end.

(** [register_place], the local function of [AntColony.configure]. *)
Definition register_place (hive : pid) (p : pid) (is_bee_entrance : bool)
  : M unit :=
  let* pl := get_place p in
  modify (fun s => set_c_places (dict_set String.eqb (p_name pl) p
                                   (c_places s)) s) ;;
  if is_bee_entrance then
    upd_place p (with_p_entrance (Some hive)) ;;
    modify (fun s => set_c_bee_entrances (c_bee_entrances s ++ [p]) s)
  else ret tt.

Definition str (n : nat) : string := NilEmpty.string_of_uint (Nat.to_uint n).

(** [mixed_layout] *)
Definition mixed_layout (length tunnels moat_frequency : nat)
  (queen : pid) (register : pid -> bool -> M unit) : M unit :=
  for_each (seq 0 tunnels) (fun tunnel =>
    fold_M (fun exit step =>
      let* e :=
        (if negb (Nat.eqb moat_frequency 0)
            && Nat.eqb ((step + 1) mod moat_frequency) 0
         then new_place WaterPlace
                ("water_" ++ str tunnel ++ "_" ++ str step)%string (Some exit)
         else new_place PlainPlace
                ("tunnel_" ++ str tunnel ++ "_" ++ str step)%string
                (Some exit)) in
      register e (Nat.eqb step (length - 1)) ;;
      ret e) (seq 0 length) queen ;;
    ret tt).

Definition test_layout := mixed_layout 8 1 0.
Definition test_layout_multi_tunnels := mixed_layout 8 2 0.
Definition dry_layout := mixed_layout 8 3 0.

(** [AntColony.__init__] with [configure]. *)
Definition AntColony_init (hive : pid) (types : list klass)
  (create_places : pid -> (pid -> bool -> M unit) -> M unit) (food0 : Z)
  : M unit :=
  modify (set_time 0) ;;
  modify (set_food food0) ;;
  modify (set_c_hive hive) ;;
  modify (set_c_ant_types
            (fold_left (fun d a => dict_set String.eqb (class_name a) a d)
               types [])) ;;
  let* q := new_place PlainPlace "AntQueen" None in
  modify (set_c_queen (QPlain q)) ;;
  modify (set_c_places []) ;;
  modify (set_c_bee_entrances []) ;;
  register_place hive hive false ;;
  create_places q (register_place hive).

(** [c.__subclasses__()], in the order of the class definitions. *)
Definition subclasses (k : klass) : list klass :=
  match k with
  | Insect => [Bee; Ant]
  | Ant => [HarvesterAnt; ThrowerAnt; FireAnt; WallAnt; NinjaAnt; HungryAnt;
            BodyguardAnt; AntRemover]
  | ThrowerAnt => [LongThrower; ShortThrower; ScubaThrower; SlowThrower;
                   StunThrower]
  | ScubaThrower => [QueenAnt]
  | _ => []
  end.

Fixpoint ant_types_loop (fuel : nat) (new_types all : list klass)
  : list klass :=
  match fuel, new_types with
  | S fuel', _ :: _ =>
      let nt := flat_map subclasses new_types in
      ant_types_loop fuel' nt (all ++ nt)
  | _, _ => all
  end.

(** [ant_types()] *)
Definition ant_types : list klass :=
  List.filter class_implemented (ant_types_loop 17 [Ant] []).

(** The interpreter before anything is built: no objects, the class
    flag [QueenAnt.is_true_queen] still True. *)
Definition empty_state (rnd : nat -> nat) : state :=
  MkState [] [] [] true 0 0 [] (QPlain 0%nat) 0%nat [] [] rnd 0%nat.

(** The state after a computation, and its result. *)
Definition exec {A} (m : M A) (s : state) : state := snd (m s).
Definition eval {A} (m : M A) (s : state) : result A := fst (m s).

(** * Weakest preconditions

    [wp m Q E s]: run from [s], [m] returns a value and a state that
    satisfy [Q], or raises in a state that satisfies [E]. *)

Definition wp {A} (m : M A) (Q : A -> state -> Prop) (E : state -> Prop)
  (s : state) : Prop :=
  match m s with
  | (Ok a, s') => Q a s'
  | (Raise _, s') => E s'
  end.

(** [m] keeps the invariant [I], whether it returns or raises. *)
Definition keeps (I : state -> Prop) {A} (m : M A) : Prop :=
  forall s, I s -> wp m (fun _ => I) I s.


(** * The occupancy invariant

    What every store built by the program satisfies: an ant hidden in
    another ant is an ant that is not a container; the ant of a place
    is an ant; an ant's [damage] is its class's, doubled if and only if
    [damage_doubled] says so. *)

Definition is_ant_in (s : state) (a : iid) : Prop :=
  exists y, insects s !! a = Some y /\ class_is_ant (i_class y) = true.

Definition plain_ant_in (s : state) (a : iid) : Prop :=
  exists y, insects s !! a = Some y /\ class_is_ant (i_class y) = true /\
            class_container (i_class y) = false.

Definition nesting_ok (s : state) : Prop :=
  forall a x c, insects s !! a = Some x -> i_ant x = Some c -> plain_ant_in s c.

Definition slots_ok (s : state) : Prop :=
  forall p pl a, places s !! p = Some pl -> p_ant pl = Some a -> is_ant_in s a.

Definition damage_ok (s : state) : Prop :=
  forall a x, insects s !! a = Some x ->
    i_damage x = if i_damage_doubled x then class_damage (i_class x) * 2
                 else class_damage (i_class x).

Definition sound (s : state) : Prop :=
  nesting_ok s /\ slots_ok s /\ damage_ok s.

(** The Defender slot of a place, as the specification words it: empty,
    or one ant that is not a container, or one container that hides
    nothing or one ant that is not a container. *)
Definition slot_ok (s : state) (pl : place) : Prop :=
  match p_ant pl with
  | None => True
  | Some a =>
      exists x, insects s !! a = Some x /\ class_is_ant (i_class x) = true /\
        match insect_contained_ant x with
        | None => True
        | Some c =>
            class_container (i_class x) = true /\
            exists y, insects s !! c = Some y /\
                      class_is_ant (i_class y) = true /\
                      class_container (i_class y) = false /\
                      insect_contained_ant y = None
        end
  end.

(** An update of an insect that leaves alone what [sound] looks at. *)
Definition soft (x y : insect) : Prop :=
  i_class y = i_class x /\ i_ant y = i_ant x /\
  i_damage y = i_damage x /\ i_damage_doubled y = i_damage_doubled x.

(** A further invariant [F] carried along with [sound]: what it must
    survive, by the writes a computation may make. *)
Record frame_core (F : state -> Prop) : Prop := {
  fc_armor : forall s i x v, F s -> insects s !! i = Some x ->
      F (set_insects (fun l => <[i := with_armor v x]> l) s);
  fc_place : forall s i x o, F s -> insects s !! i = Some x ->
      F (set_insects (fun l => <[i := with_place o x]> l) s);
  fc_contain : forall s i x o, F s -> insects s !! i = Some x ->
      F (set_insects (fun l => <[i := with_ant o x]> l) s);
  fc_bees : forall s p pl l, F s -> places s !! p = Some pl ->
      F (set_places (fun ps => <[p := with_p_bees l pl]> ps) s);
  fc_slot : forall s p pl o, F s -> places s !! p = Some pl ->
      F (set_places (fun ps => <[p := with_p_ant o pl]> ps) s)
}.

Record frame_eff (F : state -> Prop) : Prop := {
  fe_core : frame_core F;
  fe_effects : forall s i x l, F s -> insects s !! i = Some x ->
      F (set_insects (fun l' => <[i := with_effects l x]> l') s);
  fe_digesting : forall s i x d, F s -> insects s !! i = Some x ->
      F (set_insects (fun l' => <[i := with_digesting d x]> l') s);
  fe_cells : forall s f, F s -> F (set_cells f s);
  fe_rand : forall s n, F s -> F (set_rand_pos n s)
}.

Record frame_all (F : state -> Prop) : Prop := {
  fa_eff : frame_eff F;
  fa_damage : forall s i x d b, F s -> insects s !! i = Some x ->
      F (set_insects (fun l' => <[i := with_damage d b x]> l') s);
  fa_food : forall s n, F s -> F (set_food n s);
  fa_time : forall s n, F s -> F (set_time n s);
  fa_c_queen : forall s q, F s -> F (set_c_queen q s);
  fa_flag : forall s b, F s -> F (set_queen_class_flag b s);
  fa_new : forall s x, F s -> F (set_insects (fun l => l ++ [x]) s)
}.

(** [sound] together with a frame. *)
Definition sound_and (F : state -> Prop) (s : state) : Prop := sound s /\ F s.

Definition no_frame (s : state) : Prop := True.

(** * Reachable stores

    What a strategy may ask of the colony, and every way the program (or
    a caller of its methods) moves from one store to the next. *)

Inductive command :=
| Deploy (place_name ant_type_name : string)
| Remove (place_name : string).

Definition run_command (c : command) : M unit :=
  match c with
  | Deploy p t => deploy_ant p t
  | Remove p => remove_ant p
  end.

(** A strategy looks at the colony and makes its calls in turn. *)
Definition strategy_of (f : state -> list command) : M unit :=
  let* s := get in for_each (f s) run_command.

Inductive operation :=
| OpNewBee (armor : Z)
| OpConstruct (k : klass)
| OpNewPlace (kind : place_kind) (name : string) (exit : option pid)
| OpNewHive (plan : assault_plan)
| OpColonyInit (hive : pid) (types : list klass)
    (length tunnels moat_frequency : nat) (food0 : Z)
| OpAddInsect (p : pid) (i : iid)
| OpRemoveInsect (p : pid) (i : iid)
| OpReduceArmor (i : iid) (amount : Z)
| OpAction (i : iid)
| OpApplyEffect (e : effect) (b : iid) (duration : Z)
| OpMoveTo (b : iid) (target : option pid)
| OpCommand (c : command)
| OpHiveStrategy (h : pid)
| OpTurn (f : state -> list command)
| OpSimulate (fuel : nat) (f : state -> list command).

Definition run_op (o : operation) (s : state) : state :=
  match o with
  | OpNewBee armor => exec (new_bee armor) s
  | OpConstruct k => exec (construct k) s
  | OpNewPlace kind name exit => exec (new_place kind name exit) s
  | OpNewHive plan => exec (new_hive plan) s
  | OpColonyInit hive types length tunnels moat food0 =>
      exec (AntColony_init hive types (mixed_layout length tunnels moat) food0) s
  | OpAddInsect p i => exec (add_insect p i) s
  | OpRemoveInsect p i => exec (remove_insect p i) s
  | OpReduceArmor i amount => exec (reduce_armor i amount) s
  | OpAction i => exec (action i) s
  | OpApplyEffect e b d => exec (apply_effect e b d) s
  | OpMoveTo b target => exec (move_to b target) s
  | OpCommand c => exec (run_command c) s
  | OpHiveStrategy h => exec (Hive_strategy h) s
  | OpTurn f => exec (turn (strategy_of f)) s
  | OpSimulate fuel f => exec (simulate fuel (strategy_of f)) s
  end.

Definition run_ops (ops : list operation) (s : state) : state :=
  fold_left (fun s' o => run_op o s') ops s.

Definition reachable (s : state) : Prop :=
  exists rnd ops, s = run_ops ops (empty_state rnd).

(** What [can_contain] answers, read off the two ants. *)
Definition can_contain_of (x other : insect) : bool :=
  class_container (i_class x)
  && match insect_contained_ant x with Some _ => false | None => true end
  && negb (class_container (i_class other)).

(** A store in which a bodyguard hides a thrower, built by the
    program's own calls. *)
Definition guarded_ops : list operation :=
  [ OpNewPlace PlainPlace "tunnel_0_0" None;
    OpConstruct ThrowerAnt;
    OpConstruct BodyguardAnt;
    OpConstruct BodyguardAnt;
    OpAddInsect 0 0;
    OpAddInsect 0 1 ]%nat.

Definition guarded_state : state :=
  Eval vm_compute in run_ops guarded_ops (empty_state (fun _ => 0%nat)).

(** * Status effects on a lone bee

    The test colony with one bee that has entered [tunnel_0_7] (its wave
    is far in the future, so the hive stays quiet), and the effects the
    throwers would attach. *)

Definition lone_bee_ops : list operation :=
  [ OpNewBee 3;
    OpNewHive (MkPlan 3 [(100, [0%nat])]);
    OpColonyInit 0 ant_types 8 1 0 2;
    OpMoveTo 0 (Some 9%nat) ].

Definition slowed_state : state :=
  Eval vm_compute in
    run_ops (lone_bee_ops ++ [OpApplyEffect MakeSlow 0 3])
      (empty_state (fun _ => 0%nat)).

Definition stun_slow_ops : list operation :=
  lone_bee_ops ++ [OpApplyEffect MakeStun 0 1; OpApplyEffect MakeSlow 0 3].

Definition stun_slow_state : state :=
  Eval vm_compute in run_ops stun_slow_ops (empty_state (fun _ => 0%nat)).

(** Where an insect is. *)
Definition place_of (s : state) (i : iid) : option pid :=
  match insects s !! i with
  | Some x => i_place x
  | None => None
  end.

(** What the specification says of a slowed bee: on an even tick its
    action is skipped, so the bee stays where it is. *)
Definition slow_skips_even_ticks (s : state) (b : iid) : Prop :=
  Z.even (time s) = true ->
  place_of (exec (Bee_action b) s) b = place_of s b.

(** The bee [b] over [n] turns of the colony in which no ant is
    deployed: for each turn, whether the bee moved. *)
Fixpoint moves (n : nat) (b : iid) (s : state) : list bool :=
  match n with
  | O => []
  | S n' =>
      let s' := exec (turn (ret tt)) s in
      negb (bool_decide (place_of s' b = place_of s b)) :: moves n' b s'
  end.

(** What the specification says of stun-for-1 then slow-for-3: one tick
    lost to the stun, then three ticks on which the bee acts every
    other tick. *)
Definition stun_then_slow_pattern (tr : list bool) : Prop :=
  exists a, tr = [false; a; negb a; a].

(** The writes of one call of a duration effect, and the end of a
    turn. *)
Definition count_up (c : cid) (k : Z) (s : state) : state :=
  set_cells (fun l => <[c := k]> l) s.

Definition tick : M unit := modify (fun s => set_time (time s + 1) s).

(** [n] calls of [Bee.action] on a bee, one per turn. *)
Fixpoint bee_turns (n : nat) (b : iid) : M unit :=
  match n with
  | O => ret tt
  | S n' => Bee_action b ;; tick ;; bee_turns n' b
  end.

(** What is left alone while a bee acts: the counters, the clock and
    the effects of the bee [b]. *)
Definition effects_frame (cs : list Z) (t : Z) (b : iid)
  (effs : list closure) (s : state) : Prop :=
  cells s = cs /\ time s = t /\
  (exists x, insects s !! b = Some x /\ i_effects x = effs).

(** The bee [b] carries a stun and then a slow, with counters at [k1]
    and [k2]. *)
Definition armed (s : state) (b : iid) (c1 c2 : cid) (k1 k2 : Z) : Prop :=
  (exists x, insects s !! b = Some x /\
             i_effects x = [Closure MakeStun 1 c1; Closure MakeSlow 3 c2]) /\
  c1 <> c2 /\ cells s !! c1 = Some k1 /\ cells s !! c2 = Some k2.

(** * The scheduler on an empty plan *)

(** The test colony with an empty assault plan and 2 food. *)
Definition quiet_ops : list operation :=
  [ OpNewHive (MkPlan 3 []); OpColonyInit 0 ant_types 8 1 0 2 ].

Definition quiet_colony : state :=
  Eval vm_compute in run_ops quiet_ops (empty_state (fun _ => 0%nat)).

(** A strategy that deploys one harvester at tick 0. *)
Definition harvester_strategy : M unit :=
  let* s := get in
  if time s =? 0 then deploy_ant "tunnel_0_0" "Harvester" else ret tt.

(** The body of the loop of [simulate], [n] times over, without the
    test at the top of the loop. *)
Fixpoint turns (n : nat) (strategy : M unit) : M unit :=
  match n with
  | O => ret tt
  | S n' => turn strategy ;; turns n' strategy
  end.

(** What the specification expects of that game: the scheduler ends
    with [won] at a tick by which five turns were played and the pool
    stands at 5. *)
Definition five_turns_then_won : Prop :=
  exists fuel s', simulate fuel harvester_strategy quiet_colony = (Ok Won, s') /\
                  5 <= time s' /\ food s' = 5.

(** * Deployment *)

(** The test colony with 10 food and a thrower already in
    [tunnel_0_0]. *)
Definition crowded_ops : list operation :=
  [ OpNewHive (MkPlan 3 []); OpColonyInit 0 ant_types 8 1 0 10;
    OpCommand (Deploy "tunnel_0_0" "Thrower") ].

Definition crowded_colony : state :=
  Eval vm_compute in run_ops crowded_ops (empty_state (fun _ => 0%nat)).

(** What the specification says of a deployment that the pool can pay
    for: the ant is placed and its cost deducted. *)
Definition affordable_deploy_places (s : state) (place_name type_name : string)
  : Prop :=
  forall k, dict_get String.eqb type_name (c_ant_types s) = Some k ->
    class_food_cost k <= food s ->
    eval (deploy_ant place_name type_name) s = Ok tt /\
    food (exec (deploy_ant place_name type_name) s) = food s - class_food_cost k.

Definition food_frame (n : Z) (s : state) : Prop := food s = n.

(** * A call on its way through the effects of a bee *)

(** [Bee.action] wraps the effects in the order of their registration,
    so a call meets the effect registered last first.  [passes ws s]
    follows a call through the wrappers [ws], the outermost first: a
    wrapper that has run out lets the call through; a slow that has
    turns left counts one and lets the call through on an even tick
    only; a stun that has turns left counts one and stops it.  The
    result is the store in which the call leaves the last of [ws], or
    [None] when it does not get that far. *)
Fixpoint passes (ws : list closure) (s : state) : option state :=
  match ws with
  | [] => Some s
  | o :: ws' =>
      match cells s !! cl_count o with
      | None => None
      | Some n =>
          if n <? cl_duration o then
            match cl_effect o with
            | MakeSlow =>
                if Z.even (time s)
                then passes ws' (count_up (cl_count o) (n + 1) s)
                else None
            | MakeStun => None
            end
          else passes ws' s
      end
  end.

(** The store in which a call of [Bee.action] reaches the effect that
    was registered just before the effects [outer]. *)
Definition reaches (outer : list closure) (s : state) : option state :=
  passes (rev outer) s.

(** The lone bee with a slow for 3 and then a stun for 1, after one
    turn of the colony: the stun has run out, the slow has not been
    reached yet, and the clock is at 1. *)
Definition spent_stun_state : state :=
  Eval vm_compute in
    run_ops (lone_bee_ops ++ [OpApplyEffect MakeSlow 0 3;
                              OpApplyEffect MakeStun 0 1;
                              OpTurn (fun _ => [])])
      (empty_state (fun _ => 0%nat)).

(** * Insects in their places *)

Definition armor_of (s : state) (i : iid) : option Z :=
  match insects s !! i with
  | Some x => Some (i_armor x)
  | None => None
  end.

(** The bees and the ant of a place, [[]] and [None] for a place that
    does not exist. *)
Definition bees_at (s : state) (p : pid) : list iid :=
  match places s !! p with
  | Some pl => p_bees pl
  | None => []
  end.

Definition ant_at (s : state) (p : pid) : option iid :=
  match places s !! p with
  | Some pl => p_ant pl
  | None => None
  end.

(** The bees of the place [p], as [add_insect] and [remove_insect] keep
    them: each once, none an ant, all pointing to [p]. *)
Definition bees_ok (s : state) (p : pid) : Prop :=
  NoDup (bees_at s p) /\
  forall b, b ∈ bees_at s p ->
    exists y, insects s !! b = Some y /\ class_is_ant (i_class y) = false /\
              i_place y = Some p.

(** Whether a blow of [d] leaves the insect [b] without armor. *)
Definition dies (s : state) (d : Z) (b : iid) : bool :=
  match insects s !! b with
  | Some y => i_armor y - d <=? 0
  | None => false
  end.

(** An insect after a blow of [d]: its armor is less, and with none left
    it points to no place. *)
Definition struck (d : Z) (y : insect) : insect :=
  if i_armor y - d <=? 0
  then with_place None (with_armor (i_armor y - d) y)
  else with_armor (i_armor y - d) y.

(** The store after the bee [b] of the place [p] took [amount]: the bee
    is struck, and with no armor left it is out of the bees of [p]. *)
Definition strike (p : pid) (amount : Z) (s : state) (b : iid) : state :=
  match insects s !! b, places s !! p with
  | Some y, Some pl =>
      let s1 := set_insects (fun l => <[b := struck amount y]> l) s in
      if i_armor y - amount <=? 0 then
        match list_remove b (p_bees pl) with
        | Some l => set_places (fun ps => <[p := with_p_bees l pl]> ps) s1
        | None => s1
        end
      else s1
  | _, _ => s
  end.

(** The loop [for bee in self.place.bees[:]: bee.reduce_armor(self.damage)]
    of [FireAnt.reduce_armor] and [NinjaAnt.action]. *)
Definition strike_loop (self : iid) (l : list iid) : M unit :=
  for_each l (fun bee =>
    let* me := get_insect self in
    bee_reduce_armor bee (i_damage me)).

(** [n] calls of [action] on the insect [a], one after the other. *)
Fixpoint acts (n : nat) (a : iid) : M unit :=
  match n with
  | O => ret tt
  | S n' => action a ;; acts n' a
  end.

(** * Queens *)

(** The true queens of a store. *)
Definition is_true_queen_in (s : state) (i : iid) : Prop :=
  exists x, insects s !! i = Some x /\ insect_is_queen x = true.

(** What the class flag [QueenAnt.is_true_queen] guarantees: while it
    is set no queen is the true one, and there is never more than one. *)
Definition one_true_queen (s : state) : Prop :=
  (queen_class_flag s = true -> forall i, ~ is_true_queen_in s i) /\
  (forall i j, is_true_queen_in s i -> is_true_queen_in s j -> i = j).

(** [colony.queen] after the true queen, whose place is [o], has
    acted. *)
Definition wrapped_queen (w : queen_ref) (o : option pid) : queen_ref :=
  match w with
  | QPlain q => QueenPlace q o
  | QueenPlace _ _ => w
  end.

Definition queen_frame (w : queen_ref) (s : state) : Prop := c_queen s = w.

(** * The clock *)

Definition clock_frame (t : Z) (s : state) : Prop := time s = t.

(** * The verdict of [simulate] *)

Definition verdict_fits (o : outcome) (s : state) : Prop :=
  match o with
  | Won => eval queen_bees s = Ok [] /\ eval bees s = Ok []
  | Lost => exists b l, eval queen_bees s = Ok (b :: l)
  end.

(** * The places of the colony *)

(** Every place registered with the colony is a place of the store. *)
Definition places_registered (s : state) : Prop :=
  Forall (fun q => is_Some (places s !! q)) (map snd (c_places s)).

(** The registered places whose entrance is [h]: the exits that
    [Hive.strategy] picks from, in the order of [colony.places]. *)
Definition hive_exits (s : state) (h : pid) : list pid :=
  List.filter (fun q =>
      match places s !! q with
      | Some pl => negb (is_not (p_entrance pl) h)
      | None => false
      end) (map snd (c_places s)).

(** * Stores for the examples *)

(** Two bees of armor 3 in [tunnel_0_7], and an ant of class [k]
    beside them. *)
Definition beside_bees (k : klass) : state :=
  run_ops [ OpNewBee 3; OpNewBee 3;
            OpNewHive (MkPlan 3 [(100, [0%nat; 1%nat])]);
            OpColonyInit 0 ant_types 8 1 0 10;
            OpMoveTo 0 (Some 9%nat); OpMoveTo 1 (Some 9%nat);
            OpConstruct k;
            OpAddInsect 9 2 ]
    (empty_state (fun _ => 0%nat)).

Definition ninja_colony : state := Eval vm_compute in beside_bees NinjaAnt.
Definition fire_colony : state := Eval vm_compute in beside_bees FireAnt.
Definition hungry_colony : state := Eval vm_compute in beside_bees HungryAnt.
Definition thrower_colony : state := Eval vm_compute in beside_bees ThrowerAnt.

(** A bodyguard in [tunnel_0_0] that hides an impostor queen: the
    second queen built. *)
Definition impostor_colony : state :=
  Eval vm_compute in
    run_ops [ OpNewHive (MkPlan 3 []);
              OpColonyInit 0 ant_types 8 1 0 10;
              OpConstruct QueenAnt; OpConstruct QueenAnt;
              OpConstruct BodyguardAnt;
              OpAddInsect 2 1; OpAddInsect 2 2 ]
      (empty_state (fun _ => 0%nat)).

(** A bee in [tunnel_0_0], in front of a bodyguard with 1 armor left
    that hides a thrower. *)
Definition stung_colony : state :=
  Eval vm_compute in
    run_ops [ OpNewBee 3;
              OpNewHive (MkPlan 3 [(100, [0%nat])]);
              OpColonyInit 0 ant_types 8 1 0 10;
              OpConstruct ThrowerAnt; OpConstruct BodyguardAnt;
              OpAddInsect 2 1; OpAddInsect 2 2;
              OpReduceArmor 2 1;
              OpMoveTo 0 (Some 2%nat) ]
      (empty_state (fun _ => 0%nat)).

(** A colony without tunnels, and a wave due at once. *)
Definition sealed_colony : state :=
  Eval vm_compute in
    run_ops [ OpNewBee 3;
              OpNewHive (MkPlan 3 [(0, [0%nat])]);
              OpColonyInit 0 ant_types 8 0 0 2 ]
      (empty_state (fun _ => 0%nat)).

(** The test colony at time 0 with a wave of two bees due at once. *)
Definition wave_colony : state :=
  Eval vm_compute in
    run_ops [ OpNewBee 3; OpNewBee 3;
              OpNewHive (MkPlan 3 [(0, [0%nat; 1%nat])]);
              OpColonyInit 0 ant_types 8 1 0 2 ]
      (empty_state (fun _ => 0%nat)).

(** The test colony with the true queen in [tunnel_0_0]. *)
Definition royal_colony : state :=
  Eval vm_compute in
    run_ops [ OpNewHive (MkPlan 3 []);
              OpColonyInit 0 ant_types 8 1 0 10;
              OpCommand (Deploy "tunnel_0_0" "Queen") ]
      (empty_state (fun _ => 0%nat)).

(** A bee in the Hive, and a ninja put there beside it. *)
Definition hive_ninja_state : state :=
  Eval vm_compute in
    run_ops [ OpNewBee 3;
              OpNewHive (MkPlan 3 [(100, [0%nat])]);
              OpConstruct NinjaAnt;
              OpAddInsect 0 1 ]
      (empty_state (fun _ => 0%nat)).

(** * What a blow leaves of an actor *)

(** The insect [i] is in the place [p]: the ant of its slot, or one of
    its bees. *)
Definition held (s : state) (i : iid) (p : pid) : Prop :=
  ant_at s p = Some i \/ i ∈ bees_at s p.

Definition present (s : state) (i : iid) (p : pid) : Prop :=
  place_of s i = Some p /\ held s i p.

Definition absent (s : state) (i : iid) (p : pid) : Prop :=
  place_of s i = None /\ ~ held s i p.

(** What the specification says of [reduce_armor(amount)] on an actor
    of the place [p]: it is still there with armor left, or it is gone
    with none. *)
Definition two_outcomes (s : state) (i : iid) (p : pid) (amount : Z) : Prop :=
  forall k, armor_of s i = Some k ->
    let s' := exec (reduce_armor i amount) s in
    (present s' i p /\ armor_of s' i = Some (k - amount) /\ k - amount > 0) \/
    (absent s' i p /\ exists k', armor_of s' i = Some k' /\ k' <= 0).

(** * Water *)

(** The slot of a Water place as [Water.add_insect] leaves it: no ant
    that is not watersafe stays in it. *)
Definition watersafe_slot (s : state) (pl : place) : Prop :=
  forall cur y, p_ant pl = Some cur -> insects s !! cur = Some y ->
    class_watersafe (i_class y) = true.

(** What the specification says of an actor that is not watersafe and
    is added to a Water place: it is left with armor 0 and out of the
    place. *)
Definition water_drowns (s : state) (p : pid) (i : iid) : Prop :=
  forall pl x, places s !! p = Some pl -> p_kind pl = WaterPlace ->
    insects s !! i = Some x -> class_watersafe (i_class x) = false ->
    armor_of (exec (add_insect p i) s) i = Some 0 /\
    absent (exec (add_insect p i) s) i p.

(** The test colony with one tunnel of Water places, a scuba thrower
    (insect 0) and a thrower (insect 1) not yet placed. *)
Definition wet_ops : list operation :=
  [ OpNewHive (MkPlan 3 []); OpColonyInit 0 ant_types 8 1 1 10;
    OpConstruct ScubaThrower; OpConstruct ThrowerAnt ].

Definition wet_colony : state :=
  Eval vm_compute in run_ops wet_ops (empty_state (fun _ => 0%nat)).

(** The same colony once the scuba thrower is in [water_0_0]. *)
Definition soaked_colony : state :=
  Eval vm_compute in
    run_ops (wet_ops ++ [OpAddInsect 2 0]) (empty_state (fun _ => 0%nat)).

(** * Walks along the tunnel *)

(** The places met from [place] by following [next] until [stop]: the
    loops [while place is not None] (with [stop = None]) and
    [while place is not hive] (with [stop = Some hive]). *)
Inductive path (next : place -> option pid) (s : state) (stop : option pid)
  : option pid -> list pid -> Prop :=
| path_end : path next s stop stop []
| path_step p pl l :
    Some p <> stop -> places s !! p = Some pl ->
    path next s stop (next pl) l -> path next s stop (Some p) (p :: l).

Definition in_range (k : klass) (d : nat) : bool :=
  (class_min_range k <=? Z.of_nat d) && (Z.of_nat d <=? class_max_range k).

(** The first place of [l], counted from hop [d], that is in the range
    of the class [k] and holds a bee, with its hop count. *)
Fixpoint first_bees (k : klass) (s : state) (l : list pid) (d : nat)
  : option (nat * pid) :=
  match l with
  | [] => None
  | p :: l' =>
      if in_range k d && negb (bool_decide (bees_at s p = []))
      then Some (d, p)
      else first_bees k s l' (S d)
  end.

(** The throwers that throw a leaf; [SlowThrower] and [StunThrower]
    override [throw_at]. *)
Definition throws_leaf (k : klass) : bool :=
  match k with
  | ThrowerAnt | LongThrower | ShortThrower | ScubaThrower | QueenAnt => true
  | _ => false
  end.

(** * The queen doubles damage *)

(** An ant after [double_damage]. *)
Definition double_insect (y : insect) : insect :=
  if i_damage_doubled y then y else with_damage (i_damage y * 2) true y.

Definition double_ant (s : state) (a : iid) : state :=
  match insects s !! a with
  | Some y =>
      if i_damage_doubled y then s
      else set_insects (fun l => <[a := with_damage (i_damage y * 2) true y]> l) s
  | None => s
  end.

(** The store after [_double_place_damage] on the place [r]. *)
Definition double_place (s : state) (r : pid) : state :=
  match ant_at s r with
  | None => s
  | Some a =>
      match insects s !! a with
      | None => s
      | Some y =>
          if insect_is_queen y then s else
          let s1 := double_ant s a in
          match insect_contained_ant y with
          | None => s1
          | Some c =>
              match insects s1 !! c with
              | None => s1
              | Some z => if insect_is_queen z then s1 else double_ant s1 c
              end
          end
      end
  end.

(** From [s] to [s'] nothing happened to the places, and to an insect
    at most this: it was not the true queen, its damage was not doubled
    yet, and now it is. *)
Definition doubling (s s' : state) : Prop :=
  places s' = places s /\
  forall a y, insects s !! a = Some y ->
    insects s' !! a = Some y \/
    i_damage_doubled y = false /\ insect_is_queen y = false /\
    insects s' !! a = Some (with_damage (i_damage y * 2) true y).

Definition flagged (s : state) (a : iid) : Prop :=
  exists y, insects s !! a = Some y /\ i_damage_doubled y = true.

(** The ants of the place [r] that [_double_place_damage] is after:
    the ant of the slot and the ant it contains, except the true queen
    and an ant she would contain. *)
Definition tunnel_ant (s : state) (r : pid) (a : iid) : Prop :=
  exists y, insects s !! a = Some y /\ insect_is_queen y = false /\
    (ant_at s r = Some a \/
     exists b z, ant_at s r = Some b /\ insects s !! b = Some z /\
                 insect_is_queen z = false /\ insect_contained_ant z = Some a).

(** * Throwers *)

(** The place [d] hops from [p] along [entrance]. *)
Fixpoint hop (s : state) (d : nat) (p : pid) : option pid :=
  match d with
  | O => Some p
  | S d' =>
      match places s !! p with
      | Some pl =>
          match p_entrance pl with
          | Some e => hop s d' e
          | None => None
          end
      | None => None
      end
  end.

(** The bee [b] is in a place whose hop distance from the place of the
    ant [self] is in the range of its class. *)
Definition within_range (s : state) (self b : iid) : Prop :=
  exists x p d r, insects s !! self = Some x /\ i_place x = Some p /\
    hop s d p = Some r /\ in_range (i_class x) d = true /\ b ∈ bees_at s r.

(** What the specification says of a thrower with exactly one bee
    within range: its action takes the ant's damage off the armor of
    that bee. *)
Definition single_target_is_hit (s : state) (self b : iid) : Prop :=
  within_range s self b -> (forall b', within_range s self b' -> b' = b) ->
  forall x y, insects s !! self = Some x -> insects s !! b = Some y ->
    armor_of (exec (action self) s) b = Some (i_armor y - i_damage x).

(** One bee in [tunnel_0_7] and a thrower in [tunnel_0_3]. *)
Definition far_bee_ops : list operation :=
  [ OpNewBee 3; OpNewHive (MkPlan 3 [(100, [0%nat])]);
    OpColonyInit 0 ant_types 8 1 0 10;
    OpMoveTo 0 (Some 9%nat); OpConstruct ThrowerAnt; OpAddInsect 5 1 ].

Definition far_bee_colony : state :=
  Eval vm_compute in run_ops far_bee_ops (empty_state (fun _ => 0%nat)).

(** One bee still in the Hive and a thrower in [tunnel_0_7], one hop
    from it. *)
Definition hive_bee_colony : state :=
  Eval vm_compute in
    run_ops [ OpNewBee 3; OpNewHive (MkPlan 3 [(100, [0%nat])]);
              OpColonyInit 0 ant_types 8 1 0 10;
              OpConstruct ThrowerAnt; OpAddInsect 9 1 ]
      (empty_state (fun _ => 0%nat)).

(** What a leaf thrown by the queen leaves as it was: the links and
    the slots of the places, and the ants. *)
Definition ants_kept (s s' : state) : Prop :=
  (forall q ql, places s !! q = Some ql ->
     exists ql', places s' !! q = Some ql' /\ p_exit ql' = p_exit ql /\
       p_entrance ql' = p_entrance ql /\ p_ant ql' = p_ant ql) /\
  (forall a y, insects s !! a = Some y -> class_is_ant (i_class y) = true ->
     insects s' !! a = Some y).

Definition damage_of (s : state) (a : iid) : option Z :=
  match insects s !! a with
  | Some y => Some (i_damage y)
  | None => None
  end.

(** What the specification says of the action of the true queen: the
    damage of the ant of every place on the path through her place,
    along [exit] or along [entrance], has been doubled. *)
Definition queen_doubles_every_defender (s : state) (q : iid) : Prop :=
  forall x p l r a, insects s !! q = Some x -> i_place x = Some p ->
    path p_exit s None (Some p) l \/ path p_entrance s None (Some p) l ->
    r ∈ l -> ant_at s r = Some a -> flagged (exec (action q) s) a.

(** The queen in [tunnel_0_1]; in [tunnel_0_0] a bodyguard (insect 2)
    that hides a fire ant (insect 1); a thrower (insect 3) in
    [tunnel_0_3]. *)
Definition court_ops : list operation :=
  [ OpNewHive (MkPlan 3 []); OpColonyInit 0 ant_types 8 1 0 10;
    OpCommand (Deploy "tunnel_0_1" "Queen");
    OpConstruct FireAnt; OpAddInsect 2 1;
    OpConstruct BodyguardAnt; OpAddInsect 2 2;
    OpConstruct ThrowerAnt; OpAddInsect 5 3 ].

Definition court_colony : state :=
  Eval vm_compute in run_ops court_ops (empty_state (fun _ => 0%nat)).
(** * Reasoning about computations *)

Section Running.
Context {A B : Type}.

Lemma bind_ok (m : M A) (f : A -> M B) s a s' :
  m s = (Ok a, s') -> bind m f s = f a s'.
Proof. intros H. unfold bind. now rewrite H. Qed.

Lemma bind_raise (m : M A) (f : A -> M B) s e s' :
  m s = (Raise e, s') -> bind m f s = (Raise e, s').
Proof. intros H. unfold bind. now rewrite H. Qed.
End Running.

Lemma get_insect_ok s i x :
  insects s !! i = Some x -> get_insect i s = (Ok x, s).
Proof. intros H. unfold get_insect. now rewrite H. Qed.

Lemma get_place_ok s p pl :
  places s !! p = Some pl -> get_place p s = (Ok pl, s).
Proof. intros H. unfold get_place. now rewrite H. Qed.

Lemma upd_insect_ok s i x f :
  insects s !! i = Some x ->
  upd_insect i f s = (Ok tt, set_insects (fun l => <[i := f x]> l) s).
Proof.
  intros H. unfold upd_insect. now rewrite (bind_ok _ _ _ _ _ (get_insect_ok _ _ _ H)).
Qed.

Lemma upd_place_ok s p pl f :
  places s !! p = Some pl ->
  upd_place p f s = (Ok tt, set_places (fun l => <[p := f pl]> l) s).
Proof.
  intros H. unfold upd_place. now rewrite (bind_ok _ _ _ _ _ (get_place_ok _ _ _ H)).
Qed.

(** Rewriting a computation whose reads are known. *)
Ltac run_with H :=
  first
    [ rewrite (bind_ok _ _ _ _ _ (get_insect_ok _ _ _ H))
    | rewrite (bind_ok _ _ _ _ _ (get_place_ok _ _ _ H))
    | rewrite (bind_ok _ _ _ _ _ (upd_insect_ok _ _ _ _ H))
    | rewrite (bind_ok _ _ _ _ _ (upd_place_ok _ _ _ _ H))
    | rewrite (get_insect_ok _ _ _ H)
    | rewrite (get_place_ok _ _ _ H)
    | rewrite (upd_insect_ok _ _ _ _ H)
    | rewrite (upd_place_ok _ _ _ _ H) ].

Section WpRules.
Context {A B : Type}.
Implicit Types (Q : A -> state -> Prop) (E : state -> Prop).

Lemma wp_bind (m : M A) (f : A -> M B) (R : B -> state -> Prop) E s :
  wp m (fun a s' => wp (f a) R E s') E s -> wp (bind m f) R E s.
Proof. unfold wp, bind. destruct (m s) as [[a|e] s']; auto. Qed.

Lemma wp_ret (a : A) Q E s : Q a s -> wp (ret a) Q E s.
Proof. auto. Qed.

Lemma wp_raise e Q E s : E s -> wp (@raise A e) Q E s.
Proof. auto. Qed.

Lemma wp_mono (m : M A) Q Q' E E' s :
  wp m Q E s ->
  (forall a s', Q a s' -> Q' a s') -> (forall s', E s' -> E' s') ->
  wp m Q' E' s.
Proof. unfold wp. destruct (m s) as [[a|e] s']; auto. Qed.

Lemma wp_keeps I (m : M A) Q E s :
  keeps I m -> I s ->
  (forall a s', I s' -> Q a s') -> (forall s', I s' -> E s') ->
  wp m Q E s.
Proof. intros Hk HI HQ HE. eapply wp_mono; [apply Hk, HI|auto|auto]. Qed.

Lemma wp_deref (o : option A) Q E s :
  E s -> (forall x, o = Some x -> Q x s) -> wp (deref o) Q E s.
Proof. destruct o; unfold wp; simpl; auto. Qed.
End WpRules.

Lemma wp_get (Q : state -> state -> Prop) E s : Q s s -> wp get Q E s.
Proof. auto. Qed.

Lemma wp_modify f (Q : unit -> state -> Prop) E s :
  Q tt (f s) -> wp (modify f) Q E s.
Proof. auto. Qed.

Lemma wp_get_insect i (Q : insect -> state -> Prop) E s :
  E s -> (forall x, insects s !! i = Some x -> Q x s) ->
  wp (get_insect i) Q E s.
Proof. unfold wp, get_insect. destruct (insects s !! i); auto. Qed.

Lemma wp_get_place p (Q : place -> state -> Prop) E s :
  E s -> (forall x, places s !! p = Some x -> Q x s) ->
  wp (get_place p) Q E s.
Proof. unfold wp, get_place. destruct (places s !! p); auto. Qed.

Lemma wp_upd_insect i f (Q : unit -> state -> Prop) E s :
  E s ->
  (forall x, insects s !! i = Some x ->
             Q tt (set_insects (fun l => <[i := f x]> l) s)) ->
  wp (upd_insect i f) Q E s.
Proof.
  intros HE HQ. unfold upd_insect. apply wp_bind, wp_get_insect; auto.
Qed.

Lemma wp_upd_place p f (Q : unit -> state -> Prop) E s :
  E s ->
  (forall x, places s !! p = Some x ->
             Q tt (set_places (fun l => <[p := f x]> l) s)) ->
  wp (upd_place p f) Q E s.
Proof.
  intros HE HQ. unfold upd_place. apply wp_bind, wp_get_place; auto.
Qed.

Lemma wp_subscript {K V} eqb (d : list (K * V)) k
  (Q : V -> state -> Prop) E s :
  E s -> (forall v, dict_get eqb k d = Some v -> Q v s) ->
  wp (subscript eqb d k) Q E s.
Proof. unfold subscript. destruct (dict_get eqb k d); unfold wp; simpl; auto. Qed.

Lemma keeps_for_each I {A} (l : list A) (body : A -> M unit) :
  (forall x, keeps I (body x)) -> keeps I (for_each l body).
Proof.
  intros Hb. induction l as [|x l IH]; intros s HI; simpl.
  - apply wp_ret, HI.
  - apply wp_bind. eapply wp_keeps; [apply Hb|exact HI| |auto].
    intros _ s' HI'. apply IH, HI'.
Qed.

Lemma keeps_map_M I {A B} (f : A -> M B) (l : list A) :
  (forall x, keeps I (f x)) -> keeps I (map_M f l).
Proof.
  intros Hb. induction l as [|x l IH]; intros s HI; simpl.
  - apply wp_ret, HI.
  - apply wp_bind. eapply wp_keeps; [apply Hb|exact HI| |auto].
    intros y s' HI'. apply wp_bind.
    eapply wp_keeps; [apply IH|exact HI'| |auto].
    intros r s'' HI''. apply wp_ret, HI''.
Qed.

(** One step of symbolic execution. *)
Ltac wp_step :=
  lazymatch goal with
  | |- wp (bind _ _) _ _ _ => apply wp_bind
  | |- wp (ret _) _ _ _ => apply wp_ret
  | |- wp (raise _) _ _ _ => apply wp_raise
  | |- wp get _ _ _ => apply wp_get
  | |- wp (modify _) _ _ _ => apply wp_modify
  | |- wp (get_insect _) _ _ _ => apply wp_get_insect; [|intros ? ?]
  | |- wp (get_place _) _ _ _ => apply wp_get_place; [|intros ? ?]
  | |- wp (upd_insect _ _) _ _ _ => apply wp_upd_insect; [|intros ? ?]
  | |- wp (upd_place _ _) _ _ _ => apply wp_upd_place; [|intros ? ?]
  | |- wp (deref _) _ _ _ => apply wp_deref; [|intros ? ?]
  | |- wp (subscript _ _ _) _ _ _ => apply wp_subscript; [|intros ? ?]
  | |- wp (if ?b then _ else _) _ _ _ => destruct b eqn:?
  | |- wp (match ?x with _ => _ end) _ _ _ => destruct x eqn:?
  end.

(** * Running the reads *)

Lemma bind_assoc {A B C} (m : M A) (f : A -> M B) (g : B -> M C) s :
  bind (bind m f) g s = bind m (fun a => bind (f a) g) s.
Proof. unfold bind. destruct (m s) as [[a|e] s']; reflexivity. Qed.

Lemma is_ant_run s i x :
  insects s !! i = Some x -> is_ant i s = (Ok (class_is_ant (i_class x)), s).
Proof. intros H. unfold is_ant. now rewrite (bind_ok _ _ _ _ _ (get_insect_ok _ _ _ H)). Qed.

Lemma is_queen_run s i x :
  insects s !! i = Some x -> is_queen i s = (Ok (insect_is_queen x), s).
Proof. intros H. unfold is_queen. now rewrite (bind_ok _ _ _ _ _ (get_insect_ok _ _ _ H)). Qed.

Lemma contained_ant_run s i x :
  insects s !! i = Some x ->
  contained_ant i s = (Ok (insect_contained_ant x), s).
Proof.
  intros H. unfold contained_ant.
  now rewrite (bind_ok _ _ _ _ _ (get_insect_ok _ _ _ H)).
Qed.

Lemma container_run s i x :
  insects s !! i = Some x -> class_is_ant (i_class x) = true ->
  container i s = (Ok (class_container (i_class x)), s).
Proof.
  intros H Ha. unfold container.
  rewrite (bind_ok _ _ _ _ _ (get_insect_ok _ _ _ H)). now rewrite Ha.
Qed.

(** One step of a computation whose next read or write is settled by
    the lemma [L] (a result [m s = (Ok a, s')]). *)
Ltac run L := rewrite ?bind_assoc; rewrite (bind_ok _ _ _ _ _ L); cbv beta.
Ltac run_end L := rewrite ?bind_assoc; rewrite L.

(** * The invariant survives the writes *)

Lemma lookup_upd (l : list insect) i y j z :
  <[i := y]> l !! j = Some z ->
  (j = i /\ z = y /\ (i < length l)%nat) \/ (j <> i /\ l !! j = Some z).
Proof.
  intros H. apply list_lookup_insert_Some in H. destruct H as [(->&->&?)|(?&?)]; auto.
Qed.

Lemma lookup_upd_place (l : list place) i y j z :
  <[i := y]> l !! j = Some z ->
  (j = i /\ z = y /\ (i < length l)%nat) \/ (j <> i /\ l !! j = Some z).
Proof.
  intros H. apply list_lookup_insert_Some in H. destruct H as [(->&->&?)|(?&?)]; auto.
Qed.

(** After an update that keeps the class, ants are still ants. *)
Lemma is_ant_in_upd s i x y a :
  insects s !! i = Some x -> i_class y = i_class x ->
  is_ant_in s a -> is_ant_in (set_insects (fun l => <[i := y]> l) s) a.
Proof.
  intros Hi Hc (z & Hz & Hant). unfold is_ant_in; simpl.
  destruct (decide (a = i)) as [->|Hne].
  - exists y. rewrite list_lookup_insert_eq by (eapply lookup_lt_Some; eauto).
    split; [reflexivity|]. rewrite Hc. congruence.
  - exists z. rewrite list_lookup_insert_ne by auto. auto.
Qed.

Lemma plain_ant_in_upd s i x y a :
  insects s !! i = Some x -> i_class y = i_class x ->
  plain_ant_in s a -> plain_ant_in (set_insects (fun l => <[i := y]> l) s) a.
Proof.
  intros Hi Hc (z & Hz & Hant & Hpl). unfold plain_ant_in; simpl.
  destruct (decide (a = i)) as [->|Hne].
  - exists y. rewrite list_lookup_insert_eq by (eapply lookup_lt_Some; eauto).
    split; [reflexivity|]. rewrite Hc.
    assert (z = x) as -> by congruence. auto.
  - exists z. rewrite list_lookup_insert_ne by auto. auto.
Qed.

Lemma sound_soft s i x y :
  sound s -> insects s !! i = Some x -> soft x y ->
  sound (set_insects (fun l => <[i := y]> l) s).
Proof.
  intros (Hn & Hs & Hd) Hi (Hc & Ha & Hdm & Hdd). repeat split.
  - intros a z c Hz Hzc; simpl in Hz.
    apply (plain_ant_in_upd s i x y c Hi Hc).
    apply lookup_upd in Hz. destruct Hz as [(-> & -> & _)|(_ & Hz)].
    + apply (Hn i x c Hi). congruence.
    + apply (Hn a z c Hz Hzc).
  - intros p pl a Hp Hpa; simpl in Hp.
    apply (is_ant_in_upd s i x y a Hi Hc). eapply Hs; eauto.
  - intros a z Hz; simpl in Hz.
    apply lookup_upd in Hz. destruct Hz as [(-> & -> & _)|(_ & Hz)].
    + rewrite Hdm, Hdd, Hc. apply (Hd i x Hi).
    + apply (Hd a z Hz).
Qed.

Lemma sound_contain s i x a :
  sound s -> insects s !! i = Some x -> plain_ant_in s a ->
  sound (set_insects (fun l => <[i := with_ant (Some a) x]> l) s).
Proof.
  intros (Hn & Hs & Hd) Hi Ha. repeat split.
  - intros b z c Hz Hzc; simpl in Hz.
    apply (plain_ant_in_upd s i x (with_ant (Some a) x) c Hi eq_refl).
    apply lookup_upd in Hz. destruct Hz as [(-> & -> & _)|(_ & Hz)].
    + simpl in Hzc. congruence.
    + apply (Hn b z c Hz Hzc).
  - intros p pl b Hp Hpa; simpl in Hp.
    apply (is_ant_in_upd s i x (with_ant (Some a) x) b Hi eq_refl). eapply Hs; eauto.
  - intros b z Hz; simpl in Hz.
    apply lookup_upd in Hz. destruct Hz as [(-> & -> & _)|(_ & Hz)].
    + simpl. apply (Hd i x Hi).
    + apply (Hd b z Hz).
Qed.

Lemma sound_uncontain s i x :
  sound s -> insects s !! i = Some x ->
  sound (set_insects (fun l => <[i := with_ant None x]> l) s).
Proof.
  intros (Hn & Hs & Hd) Hi. repeat split.
  - intros b z c Hz Hzc; simpl in Hz.
    apply (plain_ant_in_upd s i x (with_ant None x) c Hi eq_refl).
    apply lookup_upd in Hz. destruct Hz as [(-> & -> & _)|(_ & Hz)].
    + simpl in Hzc. discriminate.
    + apply (Hn b z c Hz Hzc).
  - intros p pl b Hp Hpa; simpl in Hp.
    apply (is_ant_in_upd s i x (with_ant None x) b Hi eq_refl). eapply Hs; eauto.
  - intros b z Hz; simpl in Hz.
    apply lookup_upd in Hz. destruct Hz as [(-> & -> & _)|(_ & Hz)].
    + simpl. apply (Hd i x Hi).
    + apply (Hd b z Hz).
Qed.

Lemma sound_double s i x :
  sound s -> insects s !! i = Some x -> i_damage_doubled x = false ->
  sound (set_insects (fun l => <[i := with_damage (i_damage x * 2) true x]> l) s).
Proof.
  intros (Hn & Hs & Hd) Hi Hf. repeat split.
  - intros b z c Hz Hzc; simpl in Hz.
    apply (plain_ant_in_upd s i x (with_damage (i_damage x * 2) true x) c Hi eq_refl).
    apply lookup_upd in Hz. destruct Hz as [(-> & -> & _)|(_ & Hz)].
    + apply (Hn i x c Hi Hzc).
    + apply (Hn b z c Hz Hzc).
  - intros p pl b Hp Hpa; simpl in Hp.
    apply (is_ant_in_upd s i x (with_damage (i_damage x * 2) true x) b Hi eq_refl). eapply Hs; eauto.
  - intros b z Hz; simpl in Hz.
    apply lookup_upd in Hz. destruct Hz as [(-> & -> & _)|(_ & Hz)].
    + simpl. rewrite (Hd i x Hi), Hf. reflexivity.
    + apply (Hd b z Hz).
Qed.

Lemma sound_bees s p pl l :
  sound s -> places s !! p = Some pl ->
  sound (set_places (fun ps => <[p := with_p_bees l pl]> ps) s).
Proof.
  intros (Hn & Hs & Hd) Hp. repeat split; auto.
  intros q ql a Hq Hqa; simpl in Hq.
  apply lookup_upd_place in Hq. destruct Hq as [(-> & -> & _)|(_ & Hq)].
  - apply (Hs p pl a Hp Hqa).
  - apply (Hs q ql a Hq Hqa).
Qed.

Lemma sound_slot s p pl o :
  sound s -> places s !! p = Some pl ->
  (forall a, o = Some a -> is_ant_in s a) ->
  sound (set_places (fun ps => <[p := with_p_ant o pl]> ps) s).
Proof.
  intros (Hn & Hs & Hd) Hp Ho. repeat split; auto.
  intros q ql a Hq Hqa; simpl in Hq.
  apply lookup_upd_place in Hq. destruct Hq as [(-> & -> & _)|(_ & Hq)].
  - apply (Ho a Hqa).
  - apply (Hs q ql a Hq Hqa).
Qed.

Lemma sound_entrance s p pl o :
  sound s -> places s !! p = Some pl ->
  sound (set_places (fun ps => <[p := with_p_entrance o pl]> ps) s).
Proof.
  intros (Hn & Hs & Hd) Hp. repeat split; auto.
  intros q ql a Hq Hqa; simpl in Hq.
  apply lookup_upd_place in Hq. destruct Hq as [(-> & -> & _)|(_ & Hq)].
  - apply (Hs p pl a Hp Hqa).
  - apply (Hs q ql a Hq Hqa).
Qed.

(** [sound] reads the two stores of objects and nothing else. *)
Lemma sound_ext s s' :
  insects s' = insects s -> places s' = places s -> sound s -> sound s'.
Proof.
  intros Hi Hp (Hn & Hs & Hd). unfold sound, nesting_ok, slots_ok, damage_ok,
    plain_ant_in, is_ant_in. rewrite Hi, Hp. auto.
Qed.

Lemma is_ant_in_new s x a :
  is_ant_in s a -> is_ant_in (set_insects (fun l => l ++ [x]) s) a.
Proof.
  intros (y & Hy & Ha). exists y. simpl. split; [|exact Ha].
  apply lookup_app_l_Some, Hy.
Qed.

Lemma plain_ant_in_new s x a :
  plain_ant_in s a -> plain_ant_in (set_insects (fun l => l ++ [x]) s) a.
Proof.
  intros (y & Hy & Ha). exists y. simpl. split; [|exact Ha].
  apply lookup_app_l_Some, Hy.
Qed.

Lemma sound_new_insect s x :
  sound s -> i_ant x = None ->
  i_damage x = class_damage (i_class x) -> i_damage_doubled x = false ->
  sound (set_insects (fun l => l ++ [x]) s).
Proof.
  intros (Hn & Hs & Hd) Ha Hdm Hdd. repeat split.
  - intros b z c Hz Hzc; simpl in Hz. apply plain_ant_in_new.
    apply lookup_snoc_Some in Hz. destruct Hz as [(_ & Hz)|(_ & <-)].
    + apply (Hn b z c Hz Hzc).
    + congruence.
  - intros p pl b Hp Hpa; simpl in Hp. apply is_ant_in_new. eapply Hs; eauto.
  - intros b z Hz; simpl in Hz.
    apply lookup_snoc_Some in Hz. destruct Hz as [(_ & Hz)|(_ & <-)].
    + apply (Hd b z Hz).
    + rewrite Hdd. exact Hdm.
Qed.

Lemma sound_new_place s pl :
  sound s -> p_ant pl = None ->
  sound (set_places (fun l => l ++ [pl]) s).
Proof.
  intros (Hn & Hs & Hd) Ha. repeat split; auto.
  intros q ql a Hq Hqa; simpl in Hq.
  apply lookup_snoc_Some in Hq. destruct Hq as [(_ & Hq)|(_ & <-)].
  - apply (Hs q ql a Hq Hqa).
  - congruence.
Qed.

(** [sound] gives the slot of every place the shape the specification
    asks for. *)
Lemma sound_slot_ok s p pl :
  sound s -> places s !! p = Some pl -> slot_ok s pl.
Proof.
  intros (Hn & Hs & Hd) Hp. unfold slot_ok.
  destruct (p_ant pl) as [a|] eqn:Ha; [|exact I].
  destruct (Hs p pl a Hp Ha) as (x & Hx & Hant).
  exists x. split; [exact Hx|]. split; [exact Hant|].
  unfold insect_contained_ant.
  destruct (i_class x) eqn:Hk; try exact I.
  destruct (i_ant x) as [c|] eqn:Hc; [|exact I].
  split; [reflexivity|].
  destruct (Hn a x c Hx Hc) as (y & Hy & Hyant & Hyc).
  exists y. repeat split; auto.
  destruct (i_class y); try reflexivity; discriminate.
Qed.

(** * The computations keep the invariant *)

Ltac wp_beta := cbv beta.

(** A computation that only returns or only raises. *)
Ltac wp_leaf H :=
  lazymatch goal with
  | |- wp (ret _) _ _ _ => apply wp_ret, H
  | |- wp (raise _) _ _ _ => apply wp_raise, H
  end.

(** A call to a computation known to keep the invariant at hand. *)
Ltac wp_call L :=
  eapply wp_keeps;
  [ apply L; eauto | eassumption | wp_beta; intros ? ? ? | wp_beta; auto ].

Ltac wp_auto :=
  repeat first
    [ progress wp_beta
    | wp_step; try eassumption ].

Lemma wp_is_ant i (Q : bool -> state -> Prop) E s :
  E s ->
  (forall x, insects s !! i = Some x -> Q (class_is_ant (i_class x)) s) ->
  wp (is_ant i) Q E s.
Proof. intros HE HQ. unfold is_ant. wp_auto. apply HQ. assumption. Qed.

Lemma wp_is_queen i (Q : bool -> state -> Prop) E s :
  E s ->
  (forall x, insects s !! i = Some x -> Q (insect_is_queen x) s) ->
  wp (is_queen i) Q E s.
Proof. intros HE HQ. unfold is_queen. wp_auto. apply HQ. assumption. Qed.

Lemma wp_contained_ant i (Q : option iid -> state -> Prop) E s :
  E s ->
  (forall x, insects s !! i = Some x -> Q (insect_contained_ant x) s) ->
  wp (contained_ant i) Q E s.
Proof. intros HE HQ. unfold contained_ant. wp_auto. apply HQ. assumption. Qed.

Lemma wp_container i (Q : bool -> state -> Prop) E s :
  E s ->
  (forall x, insects s !! i = Some x -> class_is_ant (i_class x) = true ->
             Q (class_container (i_class x)) s) ->
  wp (container i) Q E s.
Proof. intros HE HQ. unfold container. wp_auto. apply HQ; assumption. Qed.

(** [can_contain] reads only; when it answers True, [self] is an empty
    bodyguard and [other] an ant that is not a container. *)
Lemma wp_can_contain self other (Q : bool -> state -> Prop) E s :
  E s ->
  Q false s ->
  ((exists x, insects s !! self = Some x /\ i_class x = BodyguardAnt /\
              i_ant x = None) ->
   plain_ant_in s other -> Q true s) ->
  wp (can_contain self other) Q E s.
Proof.
  intros HE Hf Ht. unfold can_contain.
  apply wp_bind, wp_container; [assumption|]. intros x Hx Hant. wp_beta.
  destruct (class_container (i_class x)) eqn:Hc; simpl; [|apply wp_ret, Hf].
  apply wp_bind, wp_contained_ant; [assumption|]. intros x' Hx'. wp_beta.
  assert (x' = x) as -> by congruence.
  destruct (insect_contained_ant x) eqn:Hin; [apply wp_ret, Hf|].
  apply wp_bind, wp_container; [assumption|]. intros y Hy Hyant. wp_beta.
  destruct (class_container (i_class y)) eqn:Hyc; apply wp_ret; [exact Hf|].
  assert (i_class x = BodyguardAnt) as Hk
    by (destruct (i_class x); try discriminate; reflexivity).
  apply Ht.
  - exists x. unfold insect_contained_ant in Hin. rewrite Hk in Hin. auto.
  - exists y. auto.
Qed.

Section Core.
Variable F : state -> Prop.
Hypothesis HF : frame_core F.

Let J := sound_and F.

Lemma keeps_set_armor i v : keeps J (upd_insect i (with_armor v)).
Proof.
  intros s [Hs Hf]. apply wp_upd_insect; [split; assumption|].
  intros x Hx. split.
  - apply (sound_soft s i x _ Hs Hx). repeat split.
  - apply (fc_armor F HF); assumption.
Qed.

Lemma keeps_set_place i o : keeps J (upd_insect i (with_place o)).
Proof.
  intros s [Hs Hf]. apply wp_upd_insect; [split; assumption|].
  intros x Hx. split.
  - apply (sound_soft s i x _ Hs Hx). repeat split.
  - apply (fc_place F HF); assumption.
Qed.

Lemma keeps_set_bees p f g :
  (forall pl, f pl = with_p_bees (g pl) pl) -> keeps J (upd_place p f).
Proof.
  intros Hfg s [Hs Hf]. apply wp_upd_place; [split; assumption|].
  intros x Hx. rewrite Hfg. split.
  - apply sound_bees; assumption.
  - apply (fc_bees F HF); assumption.
Qed.

(** Writing the slot of a place, with an ant or with nothing. *)
Lemma wp_set_slot p o (Q : unit -> state -> Prop) s :
  J s -> (forall a, o = Some a -> is_ant_in s a) ->
  (forall s', J s' -> Q tt s') ->
  wp (upd_place p (with_p_ant o)) Q J s.
Proof.
  intros [Hs Hf] Ho HQ. apply wp_upd_place; [split; assumption|].
  intros x Hx. apply HQ. split.
  - apply sound_slot; assumption.
  - apply (fc_slot F HF); assumption.
Qed.

(** [contain_ant] with an ant that is not a container. *)
Lemma wp_contain_ant self a (Q : unit -> state -> Prop) s :
  J s -> plain_ant_in s a ->
  (forall s', J s' -> (forall b, is_ant_in s b -> is_ant_in s' b) -> Q tt s') ->
  wp (contain_ant self a) Q J s.
Proof.
  intros [Hs Hf] Ha HQ. unfold contain_ant.
  apply wp_bind, wp_get_insect; [split; assumption|]. intros x Hx. wp_beta.
  destruct (i_class x) eqn:Hk; try (apply wp_raise; split; assumption).
  apply wp_upd_insect; [split; assumption|]. intros x' Hx'.
  assert (x' = x) as -> by congruence.
  apply HQ.
  - split.
    + apply sound_contain; assumption.
    + apply (fc_contain F HF); assumption.
  - intros b Hb.
    apply (is_ant_in_upd s self x (with_ant (Some a) x) b Hx eq_refl Hb).
Qed.

Lemma keeps_remove_insect p i : keeps J (remove_insect p i).
Proof.
  intros s HJ. unfold remove_insect.
  apply wp_bind, wp_is_queen; [assumption|]. intros x Hx. wp_beta.
  destruct (insect_is_queen x); [apply wp_ret, HJ|].
  apply wp_bind, wp_is_ant; [assumption|]. intros x' Hx'. wp_beta.
  apply wp_bind.
  assert (wp
    (if negb (class_is_ant (i_class x'))
     then let* p0 := get_place p in
          match list_remove i (p_bees p0) with
          | Some l => upd_place p (with_p_bees l)
          | None => raise ValueError
          end
     else let* p0 := get_place p in
          match p_ant p0 with
          | Some cur =>
              if Nat.eqb cur i
              then let* inner := contained_ant cur in
                   upd_place p (with_p_ant inner)
              else raise AssertionError
          | None => raise AssertionError
          end) (fun _ => J) J s) as Hbody.
  { destruct (negb (class_is_ant (i_class x'))).
    - apply wp_bind, wp_get_place; [assumption|]. intros pl Hpl. wp_beta.
      destruct (list_remove i (p_bees pl)); [|apply wp_raise, HJ].
      apply (keeps_set_bees p _ (fun _ => l)); [reflexivity|exact HJ].
    - apply wp_bind, wp_get_place; [assumption|]. intros pl Hpl. wp_beta.
      destruct (p_ant pl) as [cur|] eqn:Hcur; [|apply wp_raise, HJ].
      destruct (Nat.eqb cur i); [|apply wp_raise, HJ].
      apply wp_bind, wp_contained_ant; [assumption|]. intros y Hy. wp_beta.
      apply wp_set_slot; [assumption| |auto].
      intros a Ha. destruct HJ as [(Hn & _ & _) _].
      unfold insect_contained_ant in Ha.
      destruct (i_class y); try discriminate.
      destruct (Hn cur y a Hy Ha) as (z & Hz & Hzant & _).
      exists z. auto. }
  eapply wp_mono; [exact Hbody| |auto].
  intros ? s' HJ'. wp_beta. apply keeps_set_place, HJ'.
Qed.

Lemma keeps_Insect_reduce_armor i amount :
  keeps J (Insect_reduce_armor i amount).
Proof.
  intros s HJ. unfold Insect_reduce_armor.
  apply wp_bind, wp_get_insect; [assumption|]. intros x Hx. wp_beta.
  apply wp_bind. wp_call keeps_set_armor.
  destruct (i_armor x - amount <=? 0); [|apply wp_ret; assumption].
  apply wp_bind, wp_deref; [assumption|]. intros p Hp. wp_beta.
  apply keeps_remove_insect; assumption.
Qed.

Lemma keeps_bee_reduce_armor i amount : keeps J (bee_reduce_armor i amount).
Proof.
  intros s HJ. unfold bee_reduce_armor.
  apply wp_bind, wp_get_insect; [assumption|]. intros x Hx. wp_beta.
  destruct (i_class x); try (apply keeps_Insect_reduce_armor, HJ).
  apply wp_raise, HJ.
Qed.

Lemma keeps_FireAnt_reduce_armor i amount :
  keeps J (FireAnt_reduce_armor i amount).
Proof.
  intros s HJ. unfold FireAnt_reduce_armor.
  apply wp_bind, wp_get_insect; [assumption|]. intros x Hx. wp_beta.
  apply wp_bind.
  assert (wp (if i_armor x <=? amount
              then let* p := deref (i_place x) in
                   let* pl := get_place p in
                   for_each (p_bees pl) (fun bee =>
                     let* me := get_insect i in
                     bee_reduce_armor bee (i_damage me))
              else ret tt) (fun _ => J) J s) as Hloop.
  { destruct (i_armor x <=? amount); [|apply wp_ret, HJ].
    apply wp_bind, wp_deref; [assumption|]. intros p Hp. wp_beta.
    apply wp_bind, wp_get_place; [assumption|]. intros pl Hpl. wp_beta.
    apply keeps_for_each; [|exact HJ].
    intros b s' HJ'.
    apply wp_bind, wp_get_insect; [assumption|]. intros me Hme. wp_beta.
    apply keeps_bee_reduce_armor, HJ'. }
  eapply wp_mono; [exact Hloop| |auto].
  intros ? s' HJ'. wp_beta. apply keeps_Insect_reduce_armor, HJ'.
Qed.

Lemma keeps_reduce_armor i amount : keeps J (reduce_armor i amount).
Proof.
  intros s HJ. unfold reduce_armor.
  apply wp_bind, wp_get_insect; [assumption|]. intros x Hx. wp_beta.
  destruct (i_class x); try (apply keeps_Insect_reduce_armor, HJ).
  apply keeps_FireAnt_reduce_armor, HJ.
Qed.

Lemma keeps_Place_add_insect p i : keeps J (Place_add_insect p i).
Proof.
  intros s HJ. unfold Place_add_insect.
  apply wp_bind, wp_is_ant; [assumption|]. intros x Hx. wp_beta.
  apply wp_bind.
  assert (wp
    (if class_is_ant (i_class x)
     then let* p0 := get_place p in
          match p_ant p0 with
          | Some cur =>
              let* c1 := can_contain cur i in
              if c1 then contain_ant cur i
              else let* c2 := can_contain i cur in
                   if c2
                   then contain_ant i cur;;
                        upd_place p (with_p_ant (Some i))
                   else raise AssertionError
          | None => upd_place p (with_p_ant (Some i))
          end
     else upd_place p (fun p0 => with_p_bees (p_bees p0 ++ [i]) p0))
    (fun _ => J) J s) as Hbody.
  { destruct (class_is_ant (i_class x)) eqn:Hant.
    - assert (is_ant_in s i) as Hi by (exists x; auto).
      apply wp_bind, wp_get_place; [assumption|]. intros pl Hpl. wp_beta.
      destruct (p_ant pl) as [cur|] eqn:Hcur.
      + apply wp_bind, wp_can_contain; [assumption| |].
        * wp_beta. apply wp_bind, wp_can_contain; [assumption| |].
          -- wp_beta. apply wp_raise, HJ.
          -- intros _ Hplain. wp_beta. apply wp_bind.
             apply wp_contain_ant; [assumption|assumption|].
             intros s' HJ' Hkeep. wp_beta.
             apply wp_set_slot; [assumption| |auto].
             intros a Ha. injection Ha as <-. apply Hkeep, Hi.
        * intros _ Hplain. wp_beta.
          apply wp_contain_ant; [assumption|assumption|auto].
      + apply wp_set_slot; [assumption| |auto].
        intros a Ha. injection Ha as <-. exact Hi.
    - apply (keeps_set_bees p _ (fun p0 => p_bees p0 ++ [i]));
        [reflexivity|exact HJ]. }
  eapply wp_mono; [exact Hbody| |auto].
  intros ? s' HJ'. wp_beta. apply keeps_set_place, HJ'.
Qed.

Lemma keeps_Water_add_insect p i : keeps J (Water_add_insect p i).
Proof.
  intros s HJ. unfold Water_add_insect.
  apply wp_bind. wp_call keeps_Place_add_insect.
  apply wp_bind, wp_get_insect; [assumption|]. intros x Hx. wp_beta.
  destruct (negb (class_watersafe (i_class x))); [|apply wp_ret; assumption].
  apply wp_bind, wp_get_insect; [assumption|]. intros y Hy. wp_beta.
  apply keeps_reduce_armor; assumption.
Qed.

Lemma keeps_add_insect p i : keeps J (add_insect p i).
Proof.
  intros s HJ. unfold add_insect.
  apply wp_bind, wp_get_place; [assumption|]. intros pl Hpl. wp_beta.
  destruct (p_kind pl);
    first [apply keeps_Place_add_insect, HJ | apply keeps_Water_add_insect, HJ].
Qed.

Lemma keeps_move_to i target : keeps J (move_to i target).
Proof.
  intros s HJ. unfold move_to.
  apply wp_bind, wp_get_insect; [assumption|]. intros x Hx. wp_beta.
  apply wp_bind, wp_deref; [assumption|]. intros p Hp. wp_beta.
  apply wp_bind. wp_call keeps_remove_insect.
  apply wp_bind, wp_deref; [assumption|]. intros t Ht. wp_beta.
  apply keeps_add_insect; assumption.
Qed.

Lemma keeps_blocked i : keeps J (blocked i).
Proof.
  intros s HJ. unfold blocked. wp_auto.
Qed.

Lemma keeps_Bee__action i : keeps J (Bee__action i).
Proof.
  intros s HJ. unfold Bee__action.
  apply wp_bind. wp_call keeps_blocked.
  destruct a.
  - apply wp_bind, wp_get_insect; [assumption|]. intros x Hx. wp_beta.
    apply wp_bind, wp_deref; [assumption|]. intros p Hp. wp_beta.
    apply wp_bind, wp_get_place; [assumption|]. intros pl Hpl. wp_beta.
    apply wp_bind, wp_deref; [assumption|]. intros a Ha. wp_beta.
    apply keeps_reduce_armor; assumption.
  - apply wp_bind, wp_get_insect; [assumption|]. intros x Hx. wp_beta.
    apply wp_bind, wp_deref; [assumption|]. intros p Hp. wp_beta.
    apply wp_bind, wp_get_place; [assumption|]. intros pl Hpl. wp_beta.
    destruct (negb (p_name pl =? "Hive")%string && (i_armor x >? 0));
      [|apply wp_ret; assumption].
    apply wp_bind, wp_get_insect; [assumption|]. intros x' Hx'. wp_beta.
    apply wp_bind, wp_deref; [assumption|]. intros p' Hp'. wp_beta.
    apply wp_bind, wp_get_place; [assumption|]. intros pl' Hpl'. wp_beta.
    apply keeps_move_to; assumption.
Qed.
End Core.

#[local] Hint Resolve fe_core fa_eff : core.

Section Eff.
Variable F : state -> Prop.
Hypothesis HF : frame_eff F.

Let J := sound_and F.

Lemma keeps_set_cells f : keeps J (modify (set_cells f)).
Proof.
  intros s [Hs Hf]. apply wp_modify. split.
  - apply (sound_ext s); auto.
  - apply (fe_cells F HF), Hf.
Qed.

Lemma keeps_set_digesting i d : keeps J (upd_insect i (with_digesting d)).
Proof.
  intros s [Hs Hf]. apply wp_upd_insect; [split; assumption|].
  intros x Hx. split.
  - apply (sound_soft s i x _ Hs Hx). repeat split.
  - apply (fe_digesting F HF); assumption.
Qed.

Lemma keeps_set_effects i g :
  keeps J (upd_insect i (fun y => with_effects (g y) y)).
Proof.
  intros s [Hs Hf]. apply wp_upd_insect; [split; assumption|].
  intros x Hx. split.
  - apply (sound_soft s i x _ Hs Hx). repeat split.
  - apply (fe_effects F HF); assumption.
Qed.

Lemma keeps_next_random : keeps J next_random.
Proof.
  intros s [Hs Hf]. unfold wp, next_random. split.
  - apply (sound_ext s); auto.
  - apply (fe_rand F HF), Hf.
Qed.

Lemma keeps_random_choice {A} (l : list A) : keeps J (random_choice l).
Proof.
  intros s HJ. unfold random_choice. destruct l as [|a l]; [apply wp_raise, HJ|].
  apply wp_bind. wp_call keeps_next_random.
  destruct ((a :: l) !! _); [apply wp_ret|apply wp_raise]; assumption.
Qed.

Lemma keeps_random_or_none {A} (l : list A) : keeps J (random_or_none l).
Proof.
  intros s HJ. unfold random_or_none. destruct l as [|a l]; [apply wp_ret, HJ|].
  apply wp_bind. wp_call (@keeps_random_choice A).
  apply wp_ret. assumption.
Qed.

Lemma keeps_make_duration_effect c (act : action_method) :
  (forall i, keeps J (act i)) ->
  forall i, keeps J (make_duration_effect c act i).
Proof.
  intros Hact i s HJ. unfold make_duration_effect.
  apply wp_bind, wp_get. wp_beta.
  destruct (cells s !! cl_count c) as [count|]; [|apply wp_raise, HJ].
  destruct (count <? cl_duration c); [|apply Hact, HJ].
  apply wp_bind. wp_call keeps_set_cells.
  destruct (cl_effect c); simpl.
  - unfold make_slow. apply wp_bind, wp_get. wp_beta.
    destruct (time s' mod 2 =? 0); [apply Hact|apply wp_ret]; assumption.
  - unfold make_stun. apply wp_ret. assumption.
Qed.

Lemma keeps_wrapped effs : forall (act : action_method),
  (forall i, keeps J (act i)) ->
  forall i, keeps J
    (fold_left (fun action_fn eff => make_duration_effect eff action_fn)
       effs act i).
Proof.
  induction effs as [|c effs IH]; intros act Hact i; simpl.
  - apply Hact.
  - apply IH. apply keeps_make_duration_effect, Hact.
Qed.

Lemma keeps_Bee_action i : keeps J (Bee_action i).
Proof.
  intros s HJ. unfold Bee_action.
  apply wp_bind, wp_get_insect; [assumption|]. intros x Hx. wp_beta.
  apply keeps_wrapped; [|exact HJ].
  intros j. apply keeps_Bee__action. auto.
Qed.

Lemma keeps_apply_effect e b d : keeps J (apply_effect e b d).
Proof.
  intros s HJ. unfold apply_effect.
  apply wp_bind, wp_get. wp_beta.
  apply wp_bind. wp_call keeps_set_cells.
  apply wp_bind, wp_get_insect; [assumption|]. intros x Hx. wp_beta.
  destruct (i_class x); try (apply wp_raise; assumption).
  apply (keeps_set_effects b
           (fun y => i_effects y ++ [Closure e d (length (cells s))])).
  assumption.
Qed.

Lemma keeps_nearest_bee_loop fuel : forall k hive place range,
  keeps J (nearest_bee_loop fuel k hive place range).
Proof.
  induction fuel as [|fuel IH]; intros k hive place range s HJ; simpl.
  - apply wp_raise, HJ.
  - destruct (is_not place hive); [|apply wp_ret, HJ].
    apply wp_bind.
    assert (wp
      (if (class_min_range k <=? range) && (range <=? class_max_range k)
       then let* p := deref place in
            let* pl := get_place p in random_or_none (p_bees pl)
       else ret None) (fun _ => J) J s) as Hpick.
    { destruct ((class_min_range k <=? range) && (range <=? class_max_range k));
        [|apply wp_ret, HJ].
      apply wp_bind, wp_deref; [assumption|]. intros p Hp. wp_beta.
      apply wp_bind, wp_get_place; [assumption|]. intros pl Hpl. wp_beta.
      apply keeps_random_or_none, HJ. }
    eapply wp_mono; [exact Hpick| |auto].
    intros target s' HJ'. wp_beta.
    destruct target; [apply wp_ret, HJ'|].
    apply wp_bind, wp_deref; [assumption|]. intros p Hp. wp_beta.
    apply wp_bind, wp_get_place; [assumption|]. intros pl Hpl. wp_beta.
    apply IH, HJ'.
Qed.

Lemma keeps_nearest_bee i hive : keeps J (nearest_bee i hive).
Proof.
  intros s HJ. unfold nearest_bee.
  apply wp_bind, wp_get_insect; [assumption|]. intros x Hx. wp_beta.
  destruct (class_is_thrower (i_class x)); [|apply wp_raise, HJ].
  unfold walk_bound.
  apply wp_bind, wp_bind, wp_get. wp_beta. apply wp_ret.
  apply keeps_nearest_bee_loop, HJ.
Qed.

Lemma keeps_throw_at i target : keeps J (throw_at i target).
Proof.
  intros s HJ. unfold throw_at.
  apply wp_bind, wp_get_insect; [assumption|]. intros x Hx. wp_beta.
  destruct (i_class x); destruct target as [t|];
    try (apply wp_ret, HJ); try (apply keeps_apply_effect, HJ);
    (apply wp_bind, wp_get_insect; [assumption|]; intros me Hme; wp_beta;
     apply keeps_bee_reduce_armor; auto).
Qed.

Lemma keeps_ThrowerAnt_action i : keeps J (ThrowerAnt_action i).
Proof.
  intros s HJ. unfold ThrowerAnt_action.
  apply wp_bind, wp_get. wp_beta.
  apply wp_bind. wp_call keeps_nearest_bee.
  apply keeps_throw_at. assumption.
Qed.

Lemma keeps_NinjaAnt_action i : keeps J (NinjaAnt_action i).
Proof.
  intros s HJ. unfold NinjaAnt_action.
  apply wp_bind, wp_get_insect; [assumption|]. intros x Hx. wp_beta.
  apply wp_bind, wp_deref; [assumption|]. intros p Hp. wp_beta.
  apply wp_bind, wp_get_place; [assumption|]. intros pl Hpl. wp_beta.
  apply keeps_for_each; [|exact HJ].
  intros b s' HJ'.
  apply wp_bind, wp_get_insect; [assumption|]. intros me Hme. wp_beta.
  apply keeps_bee_reduce_armor; auto.
Qed.

Lemma keeps_eat_bee i b : keeps J (eat_bee i b).
Proof.
  intros s HJ. unfold eat_bee.
  apply wp_bind, wp_get_insect; [assumption|]. intros y Hy. wp_beta.
  apply wp_bind. wp_call keeps_bee_reduce_armor.
  apply keeps_set_digesting. assumption.
Qed.

Lemma keeps_HungryAnt_action i : keeps J (HungryAnt_action i).
Proof.
  intros s HJ. unfold HungryAnt_action.
  apply wp_bind, wp_get_insect; [assumption|]. intros x Hx. wp_beta.
  destruct (i_digesting x >? 0); [apply keeps_set_digesting, HJ|].
  apply wp_bind, wp_deref; [assumption|]. intros p Hp. wp_beta.
  apply wp_bind, wp_get_place; [assumption|]. intros pl Hpl. wp_beta.
  apply wp_bind. wp_call (@keeps_random_or_none iid).
  destruct a; [apply keeps_eat_bee|apply wp_ret]; assumption.
Qed.
End Eff.

Section All.
Variable F : state -> Prop.
Hypothesis HE : frame_eff F.
Hypothesis Hdamage : forall s i x d b, F s -> insects s !! i = Some x ->
  F (set_insects (fun l' => <[i := with_damage d b x]> l') s).
Hypothesis Hfood : forall s n, F s -> F (set_food n s).
Hypothesis Htime : forall s n, F s -> F (set_time n s).
Hypothesis Hc_queen : forall s q, F s -> F (set_c_queen q s).
Hypothesis Hflag : forall s b, F s -> F (set_queen_class_flag b s).
Hypothesis Hnew : forall s x, F s -> F (set_insects (fun l => l ++ [x]) s).

Let J := sound_and F.

(** What the constructors must keep, for the computations that call
    them. *)
Hypothesis Hcons : forall k, keeps J (construct k).

Lemma keeps_pure_write f :
  (forall s, insects (f s) = insects s) ->
  (forall s, places (f s) = places s) ->
  (forall s, F s -> F (f s)) ->
  keeps J (modify f).
Proof.
  intros Hi Hp Hfr s [Hs Hf]. apply wp_modify. split.
  - apply (sound_ext s); auto.
  - apply Hfr, Hf.
Qed.

Lemma keeps_double_damage i : keeps J (double_damage i).
Proof.
  intros s HJ. unfold double_damage.
  apply wp_bind, wp_get_insect; [assumption|]. intros x Hx. wp_beta.
  destruct (i_damage_doubled x) eqn:Hd; [apply wp_ret, HJ|].
  apply wp_upd_insect; [assumption|]. intros x' Hx'.
  assert (x' = x) as -> by congruence.
  destruct HJ as [Hs Hf]. split.
  - apply sound_double; assumption.
  - apply Hdamage; assumption.
Qed.

Lemma keeps__double_place_damage p : keeps J (_double_place_damage p).
Proof.
  intros s HJ. unfold _double_place_damage.
  apply wp_bind, wp_get_place; [assumption|]. intros pl Hpl. wp_beta.
  destruct (p_ant pl) as [a|]; [|apply wp_ret, HJ].
  apply wp_bind, wp_is_queen; [assumption|]. intros x Hx. wp_beta.
  destruct (insect_is_queen x); [apply wp_ret, HJ|].
  apply wp_bind. wp_call keeps_double_damage.
  apply wp_bind, wp_contained_ant; [assumption|]. intros y Hy. wp_beta.
  destruct (insect_contained_ant y) as [c|]; [|apply wp_ret; assumption].
  apply wp_bind, wp_is_queen; [assumption|]. intros z Hz. wp_beta.
  destruct (insect_is_queen z); [apply wp_ret; assumption|].
  apply keeps_double_damage. assumption.
Qed.

Lemma keeps_double_walk fuel next : forall place,
  keeps J (double_walk fuel next place).
Proof.
  induction fuel as [|fuel IH]; intros place s HJ; simpl.
  - apply wp_raise, HJ.
  - destruct place as [p|]; [|apply wp_ret, HJ].
    apply wp_bind. wp_call keeps__double_place_damage.
    apply wp_bind, wp_get_place; [assumption|]. intros pl Hpl. wp_beta.
    apply IH. assumption.
Qed.

Lemma keeps_QueenAnt_action i : keeps J (QueenAnt_action i).
Proof.
  intros s HJ. unfold QueenAnt_action.
  apply wp_bind, wp_get_insect; [assumption|]. intros x Hx. wp_beta.
  destruct (negb (i_is_true_queen x)).
  { apply keeps_Insect_reduce_armor; auto. }
  apply wp_bind, wp_get. wp_beta. apply wp_bind.
  assert (wp match c_queen s with
             | QPlain q => modify (set_c_queen (QueenPlace q (i_place x)))
             | QueenPlace _ _ => ret tt
             end (fun _ => J) J s) as Hq.
  { destruct (c_queen s); [|apply wp_ret, HJ].
    apply keeps_pure_write; auto. }
  eapply wp_mono; [exact Hq| |auto]. intros ? s1 HJ1. wp_beta.
  apply wp_bind. wp_call keeps_ThrowerAnt_action.
  unfold walk_bound.
  apply wp_bind, wp_bind, wp_get. wp_beta. apply wp_ret.
  apply wp_bind, wp_get_insect; [assumption|]. intros x1 Hx1. wp_beta.
  apply wp_bind. wp_call keeps_double_walk.
  apply wp_bind, wp_get_insect; [assumption|]. intros x2 Hx2. wp_beta.
  apply wp_bind, wp_deref; [assumption|]. intros p Hp. wp_beta.
  apply wp_bind, wp_get_place; [assumption|]. intros pl Hpl. wp_beta.
  apply keeps_double_walk. assumption.
Qed.

Lemma keeps_harvest : keeps J (modify (fun s => set_food (food s + 1) s)).
Proof.
  apply keeps_pure_write; auto.
Qed.

Lemma keeps_own_action k i : keeps J (own_action k i).
Proof.
  intros s HJ. destruct k; simpl;
    first [ wp_leaf HJ
          | apply (keeps_Bee_action F HE), HJ
          | apply keeps_harvest, HJ
          | apply (keeps_ThrowerAnt_action F HE), HJ
          | apply (keeps_NinjaAnt_action F HE), HJ
          | apply (keeps_HungryAnt_action F HE), HJ
          | apply keeps_QueenAnt_action, HJ ].
Qed.

Lemma keeps_action i : keeps J (action i).
Proof.
  intros s HJ. unfold action.
  apply wp_bind, wp_get_insect; [assumption|]. intros x Hx. wp_beta.
  destruct (i_class x) eqn:Hk; try (apply keeps_own_action, HJ).
  destruct (i_ant x) as [a|]; [|apply wp_ret, HJ].
  apply wp_bind, wp_get_insect; [assumption|]. intros y Hy. wp_beta.
  apply keeps_own_action, HJ.
Qed.

Lemma keeps_new_insect x :
  i_ant x = None -> i_damage x = class_damage (i_class x) ->
  i_damage_doubled x = false -> keeps J (new_insect x).
Proof.
  intros H1 H2 H3 s [Hs Hf]. unfold wp, new_insect. split.
  - apply sound_new_insect; assumption.
  - apply Hnew, Hf.
Qed.

Lemma keeps_construct k : keeps J (construct k).
Proof.
  intros s HJ. destruct k; simpl;
    try (apply wp_raise, HJ);
    try (apply keeps_new_insect; auto; reflexivity).
  apply wp_bind, wp_get. wp_beta.
  apply wp_bind. wp_call keeps_new_insect.
  apply wp_bind.
  eapply wp_keeps;
    [apply keeps_pure_write; auto
    |eassumption| |auto].
  intros ? s1 HJ1. wp_beta. apply wp_ret, HJ1.
Qed.

Lemma keeps_place_values : keeps J place_values.
Proof.
  intros s HJ. unfold place_values. apply wp_bind, wp_get. wp_beta.
  apply keeps_map_M; [|exact HJ].
  intros p s' HJ'. apply wp_get_place; auto.
Qed.

Lemma keeps_ants : keeps J ants.
Proof.
  intros s HJ. unfold ants. apply wp_bind. wp_call keeps_place_values.
  apply wp_ret. assumption.
Qed.

Lemma keeps_bees : keeps J bees.
Proof.
  intros s HJ. unfold bees. apply wp_bind. wp_call keeps_place_values.
  apply wp_ret. assumption.
Qed.

Lemma keeps_queen_bees : keeps J queen_bees.
Proof.
  intros s HJ. unfold queen_bees. apply wp_bind, wp_get. wp_beta.
  destruct (c_queen s).
  - apply wp_bind, wp_get_place; [assumption|]. intros pl Hpl. wp_beta.
    apply wp_ret, HJ.
  - apply wp_bind, wp_get_place; [assumption|]. intros pl Hpl. wp_beta.
    apply wp_bind, wp_deref; [assumption|]. intros a Ha. wp_beta.
    apply wp_bind, wp_get_place; [assumption|]. intros pl2 Hpl2. wp_beta.
    apply wp_ret, HJ.
Qed.

Lemma keeps_verdict : keeps J verdict.
Proof.
  intros s HJ. unfold verdict. apply wp_bind. wp_call keeps_queen_bees.
  destruct a; apply wp_ret; assumption.
Qed.

Lemma keeps_Hive_strategy h : keeps J (Hive_strategy h).
Proof.
  intros s HJ. unfold Hive_strategy.
  apply wp_bind, wp_get_place; [assumption|]. intros hv Hhv. wp_beta.
  destruct (p_kind hv); try (apply wp_raise, HJ).
  apply wp_bind, wp_get. wp_beta.
  apply wp_bind. wp_call keeps_place_values.
  apply keeps_for_each; [|assumption].
  intros b s1 HJ1.
  apply wp_bind. wp_call (@keeps_random_choice F HE pid).
  apply keeps_move_to; auto.
Qed.

Lemma keeps_deploy_ant place_name ant_type_name :
  keeps J (deploy_ant place_name ant_type_name).
Proof.
  intros s HJ. unfold deploy_ant, food_cost.
  apply wp_bind, wp_get. wp_beta.
  apply wp_bind, wp_subscript; [assumption|]. intros k Hk. wp_beta.
  apply wp_bind.
  destruct (class_is_ant k); [apply wp_ret|apply wp_raise, HJ]. wp_beta.
  destruct (food s <? class_food_cost k); [apply wp_ret, HJ|].
  apply wp_bind, wp_subscript; [assumption|]. intros p Hp. wp_beta.
  apply wp_bind. wp_call Hcons.
  apply wp_bind. wp_call keeps_add_insect.
  apply wp_bind, wp_ret. wp_beta.
  apply keeps_pure_write; auto.
Qed.

Lemma keeps_remove_ant place_name : keeps J (remove_ant place_name).
Proof.
  intros s HJ. unfold remove_ant.
  apply wp_bind, wp_get. wp_beta.
  apply wp_bind, wp_subscript; [assumption|]. intros p Hp. wp_beta.
  apply wp_bind, wp_get_place; [assumption|]. intros pl Hpl. wp_beta.
  destruct (p_ant pl); [|apply wp_ret, HJ].
  apply keeps_remove_insect; auto.
Qed.

Lemma keeps_acting l :
  keeps J (for_each l (fun a =>
    let* x := get_insect a in
    if i_armor x >? 0 then action a else ret tt)).
Proof.
  apply keeps_for_each. intros a s HJ.
  apply wp_bind, wp_get_insect; [assumption|]. intros x Hx. wp_beta.
  destruct (i_armor x >? 0); [apply keeps_action|apply wp_ret]; assumption.
Qed.

Lemma keeps_turn strategy : keeps J strategy -> keeps J (turn strategy).
Proof.
  intros Hst s HJ. unfold turn.
  apply wp_bind, wp_get. wp_beta.
  apply wp_bind. wp_call keeps_Hive_strategy.
  apply wp_bind. wp_call Hst.
  apply wp_bind. wp_call keeps_ants.
  apply wp_bind. wp_call keeps_acting.
  apply wp_bind. wp_call keeps_bees.
  apply wp_bind. wp_call keeps_acting.
  apply keeps_pure_write; auto.
Qed.

Lemma keeps_simulate fuel strategy :
  keeps J strategy -> keeps J (simulate fuel strategy).
Proof.
  intros Hst. induction fuel as [|fuel IH]; intros s HJ; simpl.
  - apply wp_raise, HJ.
  - apply wp_bind. wp_call keeps_queen_bees.
    destruct a; [|apply keeps_verdict; assumption].
    apply wp_bind. wp_call keeps_bees.
    destruct a; [apply keeps_verdict; assumption|].
    apply wp_bind. wp_call keeps_turn.
    apply IH. assumption.
Qed.
End All.

(** * Frames on their own

    An invariant that the writes of a computation cannot touch needs no
    help from [sound]: it is kept from any store at all. *)

Section Frame.
Variable F : state -> Prop.
Hypothesis HF : frame_core F.

Lemma frames_set_armor i v : keeps F (upd_insect i (with_armor v)).
Proof.
  intros s Hf. apply wp_upd_insect; [assumption|].
  intros x Hx. apply (fc_armor F HF); assumption.
Qed.

Lemma frames_set_place i o : keeps F (upd_insect i (with_place o)).
Proof.
  intros s Hf. apply wp_upd_insect; [assumption|].
  intros x Hx. apply (fc_place F HF); assumption.
Qed.

Lemma frames_set_ant i o : keeps F (upd_insect i (with_ant o)).
Proof.
  intros s Hf. apply wp_upd_insect; [assumption|].
  intros x Hx. apply (fc_contain F HF); assumption.
Qed.

Lemma frames_set_bees p f g :
  (forall pl, f pl = with_p_bees (g pl) pl) -> keeps F (upd_place p f).
Proof.
  intros Hfg s Hf. apply wp_upd_place; [assumption|].
  intros x Hx. rewrite Hfg. apply (fc_bees F HF); assumption.
Qed.

Lemma frames_set_slot p o : keeps F (upd_place p (with_p_ant o)).
Proof.
  intros s Hf. apply wp_upd_place; [assumption|].
  intros x Hx. apply (fc_slot F HF); assumption.
Qed.

Lemma frames_can_contain a b : keeps F (can_contain a b).
Proof.
  intros s Hf. apply wp_can_contain; auto.
Qed.

Lemma frames_contain_ant self a : keeps F (contain_ant self a).
Proof.
  intros s Hf. unfold contain_ant.
  apply wp_bind, wp_get_insect; [assumption|]. intros x Hx. wp_beta.
  destruct (i_class x); try (apply wp_raise; assumption).
  apply frames_set_ant, Hf.
Qed.

Lemma frames_remove_insect p i : keeps F (remove_insect p i).
Proof.
  intros s Hf. unfold remove_insect.
  apply wp_bind, wp_is_queen; [assumption|]. intros x Hx. wp_beta.
  destruct (insect_is_queen x); [apply wp_ret, Hf|].
  apply wp_bind, wp_is_ant; [assumption|]. intros x' Hx'. wp_beta.
  apply wp_bind.
  eapply (wp_mono _ (fun _ => F) _ F).
  - destruct (negb (class_is_ant (i_class x'))).
    + apply wp_bind, wp_get_place; [assumption|]. intros pl Hpl. wp_beta.
      destruct (list_remove i (p_bees pl)); [|apply wp_raise, Hf].
      apply (frames_set_bees p _ (fun _ => l)); [reflexivity|exact Hf].
    + apply wp_bind, wp_get_place; [assumption|]. intros pl Hpl. wp_beta.
      destruct (p_ant pl) as [cur|]; [|apply wp_raise, Hf].
      destruct (Nat.eqb cur i); [|apply wp_raise, Hf].
      apply wp_bind, wp_contained_ant; [assumption|]. intros y Hy. wp_beta.
      apply frames_set_slot, Hf.
  - intros ? s' Hf'. wp_beta. apply frames_set_place, Hf'.
  - auto.
Qed.

Lemma frames_Insect_reduce_armor i amount :
  keeps F (Insect_reduce_armor i amount).
Proof.
  intros s Hf. unfold Insect_reduce_armor.
  apply wp_bind, wp_get_insect; [assumption|]. intros x Hx. wp_beta.
  apply wp_bind. wp_call frames_set_armor.
  destruct (i_armor x - amount <=? 0); [|apply wp_ret; assumption].
  apply wp_bind, wp_deref; [assumption|]. intros p Hp. wp_beta.
  apply frames_remove_insect; assumption.
Qed.

Lemma frames_bee_reduce_armor i amount : keeps F (bee_reduce_armor i amount).
Proof.
  intros s Hf. unfold bee_reduce_armor.
  apply wp_bind, wp_get_insect; [assumption|]. intros x Hx. wp_beta.
  destruct (i_class x); try (apply frames_Insect_reduce_armor, Hf).
  apply wp_raise, Hf.
Qed.

Lemma frames_FireAnt_reduce_armor i amount :
  keeps F (FireAnt_reduce_armor i amount).
Proof.
  intros s Hf. unfold FireAnt_reduce_armor.
  apply wp_bind, wp_get_insect; [assumption|]. intros x Hx. wp_beta.
  apply wp_bind.
  eapply (wp_mono _ (fun _ => F) _ F).
  - destruct (i_armor x <=? amount); [|apply wp_ret, Hf].
    apply wp_bind, wp_deref; [assumption|]. intros p Hp. wp_beta.
    apply wp_bind, wp_get_place; [assumption|]. intros pl Hpl. wp_beta.
    apply keeps_for_each; [|exact Hf].
    intros b s' Hf'.
    apply wp_bind, wp_get_insect; [assumption|]. intros me Hme. wp_beta.
    apply frames_bee_reduce_armor, Hf'.
  - intros ? s' Hf'. wp_beta. apply frames_Insect_reduce_armor, Hf'.
  - auto.
Qed.

Lemma frames_reduce_armor i amount : keeps F (reduce_armor i amount).
Proof.
  intros s Hf. unfold reduce_armor.
  apply wp_bind, wp_get_insect; [assumption|]. intros x Hx. wp_beta.
  destruct (i_class x); try (apply frames_Insect_reduce_armor, Hf).
  apply frames_FireAnt_reduce_armor, Hf.
Qed.

Lemma frames_Place_add_insect p i : keeps F (Place_add_insect p i).
Proof.
  intros s Hf. unfold Place_add_insect.
  apply wp_bind, wp_is_ant; [assumption|]. intros x Hx. wp_beta.
  apply wp_bind.
  eapply (wp_mono _ (fun _ => F) _ F).
  - destruct (class_is_ant (i_class x)).
    + apply wp_bind, wp_get_place; [assumption|]. intros pl Hpl. wp_beta.
      destruct (p_ant pl) as [cur|]; [|apply frames_set_slot, Hf].
      apply wp_bind. wp_call frames_can_contain.
      destruct a; [apply frames_contain_ant; assumption|].
      apply wp_bind. wp_call frames_can_contain.
      destruct a; [|apply wp_raise; assumption].
      apply wp_bind. wp_call frames_contain_ant.
      apply frames_set_slot. assumption.
    + apply (frames_set_bees p _ (fun p0 => p_bees p0 ++ [i]));
        [reflexivity|exact Hf].
  - intros ? s' Hf'. wp_beta. apply frames_set_place, Hf'.
  - auto.
Qed.

Lemma frames_Water_add_insect p i : keeps F (Water_add_insect p i).
Proof.
  intros s Hf. unfold Water_add_insect.
  apply wp_bind. wp_call frames_Place_add_insect.
  apply wp_bind, wp_get_insect; [assumption|]. intros x Hx. wp_beta.
  destruct (negb (class_watersafe (i_class x))); [|apply wp_ret; assumption].
  apply wp_bind, wp_get_insect; [assumption|]. intros y Hy. wp_beta.
  apply frames_reduce_armor; assumption.
Qed.

Lemma frames_add_insect p i : keeps F (add_insect p i).
Proof.
  intros s Hf. unfold add_insect.
  apply wp_bind, wp_get_place; [assumption|]. intros pl Hpl. wp_beta.
  destruct (p_kind pl);
    first [apply frames_Place_add_insect, Hf | apply frames_Water_add_insect, Hf].
Qed.

Lemma frames_move_to i target : keeps F (move_to i target).
Proof.
  intros s Hf. unfold move_to.
  apply wp_bind, wp_get_insect; [assumption|]. intros x Hx. wp_beta.
  apply wp_bind, wp_deref; [assumption|]. intros p Hp. wp_beta.
  apply wp_bind. wp_call frames_remove_insect.
  apply wp_bind, wp_deref; [assumption|]. intros t Ht. wp_beta.
  apply frames_add_insect; assumption.
Qed.

Lemma frames_blocked i : keeps F (blocked i).
Proof.
  intros s Hf. unfold blocked. wp_auto.
Qed.

Lemma frames_Bee__action i : keeps F (Bee__action i).
Proof.
  intros s Hf. unfold Bee__action.
  apply wp_bind. wp_call frames_blocked.
  destruct a.
  - apply wp_bind, wp_get_insect; [assumption|]. intros x Hx. wp_beta.
    apply wp_bind, wp_deref; [assumption|]. intros p Hp. wp_beta.
    apply wp_bind, wp_get_place; [assumption|]. intros pl Hpl. wp_beta.
    apply wp_bind, wp_deref; [assumption|]. intros a Ha. wp_beta.
    apply frames_reduce_armor; assumption.
  - apply wp_bind, wp_get_insect; [assumption|]. intros x Hx. wp_beta.
    apply wp_bind, wp_deref; [assumption|]. intros p Hp. wp_beta.
    apply wp_bind, wp_get_place; [assumption|]. intros pl Hpl. wp_beta.
    destruct (negb (p_name pl =? "Hive")%string && (i_armor x >? 0));
      [|apply wp_ret; assumption].
    apply wp_bind, wp_get_insect; [assumption|]. intros x' Hx'. wp_beta.
    apply wp_bind, wp_deref; [assumption|]. intros p' Hp'. wp_beta.
    apply wp_bind, wp_get_place; [assumption|]. intros pl' Hpl'. wp_beta.
    apply frames_move_to; assumption.
Qed.
End Frame.

(** * Every reachable store is sound *)

Lemma frame_all_no_frame : frame_all no_frame.
Proof. repeat constructor. Qed.

Lemma keeps_exec I {A} (m : M A) s : keeps I m -> I s -> I (exec m s).
Proof.
  intros Hk HI. specialize (Hk s HI). unfold wp, exec in *.
  destruct (m s) as [[a|e] s']; exact Hk.
Qed.

Lemma keeps_sound {A} (m : M A) : keeps (sound_and no_frame) m -> keeps sound m.
Proof.
  intros Hk s Hs. eapply wp_mono; [apply Hk; split; [exact Hs|exact I]| |].
  - intros a s' [H _]. exact H.
  - intros s' [H _]. exact H.
Qed.

Lemma keeps_new_place kind name exit : keeps sound (new_place kind name exit).
Proof.
  intros s Hs. unfold new_place.
  apply wp_bind, wp_get. wp_beta.
  apply wp_bind, wp_modify. wp_beta.
  assert (sound (set_places
    (fun l => l ++ [MkPlace kind name exit [] None None []]) s)) as Hs'
    by (apply sound_new_place; auto).
  revert Hs'. generalize (set_places
    (fun l => l ++ [MkPlace kind name exit [] None None []]) s).
  intros s1 Hs1. apply wp_bind.
  assert (wp match exit with
             | Some e => upd_place e (with_p_entrance (Some (length (places s))))
             | None => ret tt
             end (fun _ => sound) sound s1) as He.
  { destruct exit as [e|]; [|apply wp_ret, Hs1].
    apply wp_upd_place; [assumption|]. intros pl Hpl.
    apply sound_entrance; assumption. }
  eapply wp_mono; [exact He| |auto]. intros ? s2 Hs2. wp_beta.
  apply wp_ret, Hs2.
Qed.

Lemma keeps_new_hive plan : keeps sound (new_hive plan).
Proof.
  intros s Hs. unfold new_hive.
  apply wp_bind, wp_get. wp_beta.
  apply wp_bind, wp_modify. wp_beta.
  assert (sound (set_places
    (fun l => l ++ [MkPlace HivePlace "Hive" None [] None None (waves plan)]) s))
    as Hs' by (apply sound_new_place; auto).
  revert Hs'. generalize (set_places
    (fun l => l ++ [MkPlace HivePlace "Hive" None [] None None (waves plan)]) s).
  intros s1 Hs1. apply wp_bind.
  eapply wp_keeps; [|exact Hs1| |auto].
  - apply keeps_for_each. intros b s2 Hs2.
    apply wp_bind, wp_is_ant; [assumption|]. intros x Hx. wp_beta.
    destruct (class_is_ant (i_class x)); [apply wp_raise, Hs2|].
    apply keeps_sound; [|exact Hs2].
    apply keeps_Place_add_insect. repeat constructor.
  - intros ? s2 Hs2. wp_beta. apply wp_ret, Hs2.
Qed.

Lemma keeps_register_place hive p b : keeps sound (register_place hive p b).
Proof.
  intros s Hs. unfold register_place.
  apply wp_bind, wp_get_place; [assumption|]. intros pl Hpl. wp_beta.
  apply wp_bind, wp_modify. wp_beta.
  assert (sound (set_c_places (dict_set String.eqb (p_name pl) p (c_places s)) s))
    as Hs' by (apply (sound_ext s); auto).
  revert Hs'.
  generalize (set_c_places (dict_set String.eqb (p_name pl) p (c_places s)) s).
  intros s1 Hs1. destruct b; [|apply wp_ret, Hs1].
  apply wp_bind, wp_upd_place; [assumption|]. intros pl1 Hpl1. wp_beta.
  apply wp_modify. apply (sound_ext (set_places
    (fun l => <[p := with_p_entrance (Some hive) pl1]> l) s1)); auto.
  apply sound_entrance; assumption.
Qed.

Lemma keeps_fold_M I {A S} (f : S -> A -> M S) (l : list A) :
  (forall acc x, keeps I (f acc x)) -> forall acc, keeps I (fold_M f l acc).
Proof.
  intros Hf. induction l as [|x l IH]; intros acc s HI; simpl.
  - apply wp_ret, HI.
  - apply wp_bind. eapply wp_keeps; [apply Hf|exact HI| |auto].
    intros acc' s' HI'. apply IH, HI'.
Qed.

Lemma keeps_mixed_layout length tunnels moat queen register :
  (forall p b, keeps sound (register p b)) ->
  keeps sound (mixed_layout length tunnels moat queen register).
Proof.
  intros Hreg. unfold mixed_layout. apply keeps_for_each. intros tunnel s Hs.
  apply wp_bind.
  eapply wp_keeps; [|exact Hs| |auto].
  - apply keeps_fold_M. intros exit step s1 Hs1.
    apply wp_bind.
    eapply wp_keeps; [|exact Hs1| |auto].
    + destruct (negb (Nat.eqb moat 0) && Nat.eqb ((step + 1) mod moat) 0);
        apply keeps_new_place.
    + intros e s2 Hs2. wp_beta. apply wp_bind.
      eapply wp_keeps; [apply Hreg|exact Hs2| |auto].
      intros ? s3 Hs3. wp_beta. apply wp_ret, Hs3.
  - intros ? s1 Hs1. wp_beta. apply wp_ret, Hs1.
Qed.

Lemma keeps_sound_write f :
  (forall s, insects (f s) = insects s) ->
  (forall s, places (f s) = places s) ->
  keeps sound (modify f).
Proof.
  intros Hi Hp s Hs. apply wp_modify. apply (sound_ext s); auto.
Qed.

Lemma keeps_AntColony_init hive types create_places food0 :
  (forall q register, (forall p b, keeps sound (register p b)) ->
                      keeps sound (create_places q register)) ->
  keeps sound (AntColony_init hive types create_places food0).
Proof.
  intros Hcp s Hs. unfold AntColony_init.
  apply wp_bind. eapply wp_keeps;
    [apply keeps_sound_write; auto|exact Hs| |auto]. intros ? s1 Hs1. wp_beta.
  apply wp_bind. eapply wp_keeps;
    [apply keeps_sound_write; auto|exact Hs1| |auto]. intros ? s2 Hs2. wp_beta.
  apply wp_bind. eapply wp_keeps;
    [apply keeps_sound_write; auto|exact Hs2| |auto]. intros ? s3 Hs3. wp_beta.
  apply wp_bind. eapply wp_keeps;
    [apply keeps_sound_write; auto|exact Hs3| |auto]. intros ? s4 Hs4. wp_beta.
  apply wp_bind. eapply wp_keeps;
    [apply keeps_new_place|exact Hs4| |auto]. intros q s5 Hs5. wp_beta.
  apply wp_bind. eapply wp_keeps;
    [apply keeps_sound_write; auto|exact Hs5| |auto]. intros ? s6 Hs6. wp_beta.
  apply wp_bind. eapply wp_keeps;
    [apply keeps_sound_write; auto|exact Hs6| |auto]. intros ? s7 Hs7. wp_beta.
  apply wp_bind. eapply wp_keeps;
    [apply keeps_sound_write; auto|exact Hs7| |auto]. intros ? s8 Hs8. wp_beta.
  apply wp_bind. eapply wp_keeps;
    [apply keeps_register_place|exact Hs8| |auto]. intros ? s9 Hs9. wp_beta.
  apply Hcp; [|exact Hs9]. intros p b. apply keeps_register_place.
Qed.

Lemma frame_eff_no_frame : frame_eff no_frame.
Proof. repeat constructor. Qed.

(** Closing a frame condition on [no_frame]. *)
Ltac no_frame :=
  first [ exact frame_eff_no_frame
        | exact (fe_core _ frame_eff_no_frame)
        | intros; exact I ].

Lemma keeps_construct_no_frame k : keeps (sound_and no_frame) (construct k).
Proof. apply keeps_construct; no_frame. Qed.

Lemma keeps_run_command c : keeps (sound_and no_frame) (run_command c).
Proof.
  destruct c; simpl.
  - apply keeps_deploy_ant; first [exact keeps_construct_no_frame|no_frame].
  - apply keeps_remove_ant; no_frame.
Qed.

Lemma keeps_strategy_of f : keeps (sound_and no_frame) (strategy_of f).
Proof.
  intros s HJ. unfold strategy_of. apply wp_bind, wp_get. wp_beta.
  apply keeps_for_each; [|exact HJ]. intros c. apply keeps_run_command.
Qed.

Lemma run_op_sound o s : sound s -> sound (run_op o s).
Proof.
  intros Hs. destruct o; simpl; apply keeps_exec; try exact Hs.
  - apply keeps_sound, keeps_new_insect; first [reflexivity|no_frame].
  - apply keeps_sound, keeps_construct_no_frame.
  - apply keeps_new_place.
  - apply keeps_new_hive.
  - apply keeps_AntColony_init. intros q register Hreg.
    apply keeps_mixed_layout, Hreg.
  - apply keeps_sound, keeps_add_insect; no_frame.
  - apply keeps_sound, keeps_remove_insect; no_frame.
  - apply keeps_sound, keeps_reduce_armor; no_frame.
  - apply keeps_sound, keeps_action; no_frame.
  - apply keeps_sound, keeps_apply_effect; no_frame.
  - apply keeps_sound, keeps_move_to; no_frame.
  - apply keeps_sound, keeps_run_command.
  - apply keeps_sound, keeps_Hive_strategy; no_frame.
  - apply keeps_sound, keeps_turn;
      first [exact keeps_construct_no_frame|apply keeps_strategy_of|no_frame].
  - apply keeps_sound, keeps_simulate;
      first [exact keeps_construct_no_frame|apply keeps_strategy_of|no_frame].
Qed.

Lemma sound_empty rnd : sound (empty_state rnd).
Proof.
  repeat split.
  - intros a x c H. simpl in H. rewrite lookup_nil in H. discriminate.
  - intros p pl a H. simpl in H. rewrite lookup_nil in H. discriminate.
  - intros a x H. simpl in H. rewrite lookup_nil in H. discriminate.
Qed.

Lemma reachable_sound s : reachable s -> sound s.
Proof.
  intros (rnd & ops & ->). unfold run_ops.
  generalize (sound_empty rnd). generalize (empty_state rnd).
  induction ops as [|o ops IH]; intros s Hs; simpl; [exact Hs|].
  apply IH, run_op_sound, Hs.
Qed.

(** * C1: the Defender slot *)

Lemma can_contain_run s self other x y :
  insects s !! self = Some x -> insects s !! other = Some y ->
  class_is_ant (i_class x) = true -> class_is_ant (i_class y) = true ->
  can_contain self other s = (Ok (can_contain_of x y), s).
Proof.
  intros Hx Hy Hax Hay. unfold can_contain, can_contain_of.
  run (container_run s self x Hx Hax).
  destruct (class_container (i_class x)); [|reflexivity]. cbn [negb andb].
  run (contained_ant_run s self x Hx).
  destruct (insect_contained_ant x); [reflexivity|].
  run (container_run s other y Hy Hay).
  destruct (class_container (i_class y)); reflexivity.
Qed.

Lemma upd_insect_total s i f :
  is_Some (insects s !! i) -> exists s', upd_insect i f s = (Ok tt, s').
Proof. intros [x Hx]. eexists. apply upd_insect_ok, Hx. Qed.

Lemma contain_ant_total s self a x :
  insects s !! self = Some x -> class_container (i_class x) = true ->
  contain_ant self a s =
    (Ok tt, set_insects (fun l => <[self := with_ant (Some a) x]> l) s).
Proof.
  intros Hx Hc. unfold contain_ant.
  rewrite (bind_ok _ _ _ _ _ (get_insect_ok _ _ _ Hx)).
  destruct (i_class x); try discriminate. apply upd_insect_ok, Hx.
Qed.

Lemma can_contain_of_container x y :
  can_contain_of x y = true -> class_container (i_class x) = true.
Proof.
  unfold can_contain_of. destruct (class_container (i_class x)); auto.
Qed.

Lemma can_contain_of_self x : can_contain_of x x = false.
Proof.
  unfold can_contain_of. destruct (class_container (i_class x));
    [|reflexivity].
  destruct (insect_contained_ant x); reflexivity.
Qed.

(** [Place.add_insect] of an ant, branch by branch: what it returns and
    the store it leaves. *)
Lemma Place_add_insect_run s p i pl x :
  sound s -> places s !! p = Some pl -> insects s !! i = Some x ->
  class_is_ant (i_class x) = true ->
  match p_ant pl with
  | None =>
      Place_add_insect p i s =
        (Ok tt,
         set_insects (fun l => <[i := with_place (Some p) x]> l)
           (set_places (fun l => <[p := with_p_ant (Some i) pl]> l) s))
  | Some cur =>
      match insects s !! cur with
      | None => False
      | Some y =>
          Place_add_insect p i s =
            if can_contain_of y x then
              (Ok tt,
               set_insects (fun l => <[i := with_place (Some p) x]> l)
                 (set_insects (fun l => <[cur := with_ant (Some i) y]> l) s))
            else if can_contain_of x y then
              (Ok tt,
               set_insects
                 (fun l =>
                    <[i := with_place (Some p) (with_ant (Some cur) x)]> l)
                 (set_places (fun l => <[p := with_p_ant (Some i) pl]> l)
                    (set_insects
                       (fun l => <[i := with_ant (Some cur) x]> l) s)))
            else (Raise AssertionError, s)
      end
  end.
Proof.
  intros (Hn & Hs & Hd) Hp Hi Hant.
  assert (i < length (insects s))%nat as Hli by (eapply lookup_lt_Some, Hi).
  destruct (p_ant pl) as [cur|] eqn:Hcur.
  - destruct (Hs p pl cur Hp Hcur) as (y & Hy & Hyant).
    rewrite Hy. unfold Place_add_insect.
    run (is_ant_run s i x Hi). rewrite Hant.
    run (get_place_ok s p pl Hp). rewrite Hcur.
    run (can_contain_run s cur i y x Hy Hi Hyant Hant).
    destruct (can_contain_of y x) eqn:Hc1.
    + assert (i <> cur) as Hne.
      { intros ->. assert (y = x) as -> by congruence.
        rewrite can_contain_of_self in Hc1. discriminate. }
      run (contain_ant_total s cur i y Hy (can_contain_of_container y x Hc1)).
      apply (upd_insect_ok
               (set_insects (fun l => <[cur := with_ant (Some i) y]> l) s) i x).
      cbn [insects set_insects]. rewrite list_lookup_insert_ne by auto.
      exact Hi.
    + run (can_contain_run s i cur x y Hi Hy Hant Hyant).
      destruct (can_contain_of x y) eqn:Hc2; [|reflexivity].
      run (contain_ant_total s i cur x Hi (can_contain_of_container x y Hc2)).
      run (upd_place_ok
             (set_insects (fun l => <[i := with_ant (Some cur) x]> l) s)
             p pl (with_p_ant (Some i)) Hp).
      apply (upd_insect_ok
               (set_places (fun l => <[p := with_p_ant (Some i) pl]> l)
                  (set_insects (fun l => <[i := with_ant (Some cur) x]> l) s))
               i (with_ant (Some cur) x)).
      cbn [insects set_insects set_places].
      apply list_lookup_insert_eq. exact Hli.
  - unfold Place_add_insect. run (is_ant_run s i x Hi). rewrite Hant.
    run (get_place_ok s p pl Hp). rewrite Hcur.
    run (upd_place_ok s p pl (with_p_ant (Some i)) Hp).
    apply (upd_insect_ok
             (set_places (fun l => <[p := with_p_ant (Some i) pl]> l) s) i x).
    exact Hi.
Qed.

(** C1.  In every reachable store the Defender slot of every place is
    empty, or holds one ant that is not a container, or holds one
    container that hides nothing or exactly one ant that is not a
    container.  [Place.add_insect] of an ant does one of four things
    and nothing else.  On an empty slot the ant takes the slot.  On a
    slot whose ant can contain the new ant (an empty container, the
    new ant not a container) the new ant goes inside and the slot
    stays.  Otherwise, when the new ant can contain the ant of the
    slot, it takes the slot with that ant inside.  Otherwise (two
    containers, two ants that are not containers, or a container that
    is full) it raises [AssertionError] and the store is exactly as it
    was.  After [add_insect], whatever its result, every slot still
    has the shape above. *)
Theorem C1_defender_slot_invariant s :
  reachable s ->
  (forall p pl, places s !! p = Some pl -> slot_ok s pl) /\
  (forall p i pl x,
     places s !! p = Some pl -> insects s !! i = Some x ->
     class_is_ant (i_class x) = true ->
     match p_ant pl with
     | None =>
         Place_add_insect p i s =
           (Ok tt,
            set_insects (fun l => <[i := with_place (Some p) x]> l)
              (set_places (fun l => <[p := with_p_ant (Some i) pl]> l) s))
     | Some cur =>
         match insects s !! cur with
         | None => False
         | Some y =>
             Place_add_insect p i s =
               if can_contain_of y x then
                 (Ok tt,
                  set_insects (fun l => <[i := with_place (Some p) x]> l)
                    (set_insects
                       (fun l => <[cur := with_ant (Some i) y]> l) s))
               else if can_contain_of x y then
                 (Ok tt,
                  set_insects
                    (fun l =>
                       <[i := with_place (Some p) (with_ant (Some cur) x)]> l)
                    (set_places (fun l => <[p := with_p_ant (Some i) pl]> l)
                       (set_insects
                          (fun l => <[i := with_ant (Some cur) x]> l) s)))
               else (Raise AssertionError, s)
         end
     end /\
     (forall q ql, places (exec (add_insect p i) s) !! q = Some ql ->
                   slot_ok (exec (add_insect p i) s) ql)).
Proof.
  intros Hr. pose proof (reachable_sound s Hr) as Hs. split.
  - intros p pl Hp. apply (sound_slot_ok s p pl Hs Hp).
  - intros p i pl x Hp Hi Hant. split.
    + apply (Place_add_insect_run s p i pl x Hs Hp Hi Hant).
    + intros q ql Hq. eapply sound_slot_ok; [|exact Hq].
      apply (run_op_sound (OpAddInsect p i) s Hs).
Qed.

Lemma C1_witness :
  reachable guarded_state /\
  (forall p pl, places guarded_state !! p = Some pl -> slot_ok guarded_state pl) /\
  Place_add_insect 0 2 guarded_state = (Raise AssertionError, guarded_state).
Proof.
  assert (reachable guarded_state) as Hr.
  { exists (fun _ => 0%nat), guarded_ops. vm_compute. reflexivity. }
  split; [exact Hr|].
  pose proof (C1_defender_slot_invariant guarded_state Hr) as [Hslots Hadd].
  split; [exact Hslots|].
  exact (proj1 (Hadd 0%nat 2%nat
                  (MkPlace PlainPlace "tunnel_0_0" None [] (Some 1%nat) None [])
                  (MkInsect BodyguardAnt 2 None [] 0 false None 0 false)
                  eq_refl eq_refl eq_refl)).
Defined.

(** * C3: what a slowed or stunned bee does *)

Lemma wrapped_app (effs : list closure) c (act : action_method) :
  fold_left (fun action_fn eff => make_duration_effect eff action_fn)
    (effs ++ [c]) act
  = make_duration_effect c
      (fold_left (fun action_fn eff => make_duration_effect eff action_fn)
         effs act).
Proof. rewrite fold_left_app. reflexivity. Qed.

(** One call of a duration effect that still has turns left. *)
Lemma make_duration_effect_active c (act : action_method) b s k :
  cells s !! cl_count c = Some k -> k < cl_duration c ->
  make_duration_effect c act b s =
    match cl_effect c with
    | MakeSlow =>
        if time s mod 2 =? 0 then act b (count_up (cl_count c) (k + 1) s)
        else (Ok tt, count_up (cl_count c) (k + 1) s)
    | MakeStun => (Ok tt, count_up (cl_count c) (k + 1) s)
    end.
Proof.
  intros Hk Hlt. unfold make_duration_effect.
  unfold bind at 1. cbn [get]. rewrite Hk.
  assert ((k <? cl_duration c) = true) as -> by lia.
  unfold bind at 1. cbn [modify].
  destruct (cl_effect c); cbn [effect_fn]; [|reflexivity].
  unfold make_slow, bind. cbn [get]. unfold count_up. cbn [time set_cells].
  destruct (time s mod 2 =? 0); reflexivity.
Qed.

(** One call of a duration effect that has run out. *)
Lemma make_duration_effect_spent c (act : action_method) b s k :
  cells s !! cl_count c = Some k -> cl_duration c <= k ->
  make_duration_effect c act b s = act b s.
Proof.
  intros Hk Hge. unfold make_duration_effect.
  unfold bind at 1. cbn [get]. rewrite Hk.
  assert ((k <? cl_duration c) = false) as -> by lia. reflexivity.
Qed.

(** A call that gets through the effects registered later reaches the
    action they wrap, in the store [passes] gives, at the same tick. *)
Lemma passes_through b (act : action_method) : forall outer s s1,
  passes (rev outer) s = Some s1 ->
  fold_left (fun action_fn eff => make_duration_effect eff action_fn)
    outer act b s = act b s1 /\
  time s1 = time s.
Proof.
  induction outer as [|o outer IH] using rev_ind; intros s s1 Hp.
  - injection Hp as <-. split; reflexivity.
  - rewrite rev_unit in Hp. cbn [passes] in Hp. rewrite wrapped_app.
    destruct (cells s !! cl_count o) as [n|] eqn:Hn; [|discriminate Hp].
    destruct (Z.ltb_spec n (cl_duration o)) as [Hlt|Hge].
    + rewrite (make_duration_effect_active o _ b s n Hn Hlt).
      destruct (cl_effect o); [|discriminate Hp].
      rewrite Zmod_even.
      destruct (Z.even (time s)); [|discriminate Hp]. cbn [Z.eqb].
      destruct (IH _ s1 Hp) as [Hrun Ht]. split; [exact Hrun|].
      rewrite Ht. reflexivity.
    + rewrite (make_duration_effect_spent o _ b s n Hn Hge).
      apply IH, Hp.
Qed.

(** C3, as the code has it.  Take any effect [c] of a bee, wherever it
    stands among the effects of the bee, and a call of [Bee.action]
    that reaches it: every effect registered later lets the call
    through, because it has run out or is a slow on an even tick.  If
    [c] still has turns left, it steps its counter and then: a slow
    runs the action it wraps (the effects registered before it, around
    [Bee._action]) when [colony.time] is even and does nothing when it
    is odd; a stun does nothing. *)
Theorem C3_slow_acts_on_even_ticks s b x inner c outer s1 k :
  insects s !! b = Some x -> i_effects x = inner ++ c :: outer ->
  reaches outer s = Some s1 ->
  cells s1 !! cl_count c = Some k -> k < cl_duration c ->
  Bee_action b s =
    match cl_effect c with
    | MakeSlow =>
        if Z.even (time s)
        then fold_left (fun action_fn eff => make_duration_effect eff action_fn)
               inner Bee__action b (count_up (cl_count c) (k + 1) s1)
        else (Ok tt, count_up (cl_count c) (k + 1) s1)
    | MakeStun => (Ok tt, count_up (cl_count c) (k + 1) s1)
    end.
Proof.
  intros Hx He Hreach Hk Hlt. unfold Bee_action.
  run (get_insect_ok s b x Hx). rewrite He, fold_left_app. cbn [fold_left].
  destruct (passes_through b
              (make_duration_effect c
                 (fold_left
                    (fun action_fn eff => make_duration_effect eff action_fn)
                    inner Bee__action))
              outer s s1 Hreach) as [-> Ht].
  rewrite (make_duration_effect_active c _ b s1 k Hk Hlt).
  destruct (cl_effect c); [|reflexivity].
  rewrite Zmod_even, Ht. destruct (Z.even (time s)); reflexivity.
Qed.

Lemma C3_witness :
  Bee_action 0 spent_stun_state = (Ok tt, count_up 0 1 spent_stun_state).
Proof.
  exact (C3_slow_acts_on_even_ticks spent_stun_state 0%nat
           (MkInsect Bee 3 (Some 9%nat)
              [Closure MakeSlow 3 0; Closure MakeStun 1 1] 0 false None 0 false)
           [] (Closure MakeSlow 3 0) [Closure MakeStun 1 1]
           spent_stun_state 0
           eq_refl eq_refl eq_refl eq_refl ltac:(simpl; lia)).
Defined.

(** The claim of the specification fails: at tick 0, an even tick, the
    slowed bee moves from [tunnel_0_7] to [tunnel_0_6]. *)
Lemma C3_counterexample : ~ slow_skips_even_ticks slowed_state 0.
Proof.
  unfold slow_skips_even_ticks. intros H.
  specialize (H eq_refl). vm_compute in H. discriminate H.
Qed.

(** * C4: a stun and then a slow *)

Lemma bind_ext_keeps {A B} J (m : M A) (f g : A -> M B) s :
  keeps J m -> J s -> (forall a s', J s' -> f a s' = g a s') ->
  bind m f s = bind m g s.
Proof.
  intros Hk HJ Hfg. specialize (Hk s HJ). unfold wp in Hk. unfold bind.
  destruct (m s) as [[a|e] s']; [apply Hfg, Hk|reflexivity].
Qed.

Lemma frame_core_effects cs t b effs : frame_core (effects_frame cs t b effs).
Proof.
  assert (forall s i x y, effects_frame cs t b effs s ->
            insects s !! i = Some x -> i_effects y = i_effects x ->
            effects_frame cs t b effs
              (set_insects (fun l => <[i := y]> l) s)) as Hupd.
  { intros s i x y (Hc & Ht & z & Hz & Hze) Hx Hy. repeat split; auto.
    simpl. destruct (decide (b = i)) as [->|Hne].
    - exists y. rewrite list_lookup_insert_eq by (eapply lookup_lt_Some; eauto).
      split; [reflexivity|]. rewrite Hy. congruence.
    - exists z. rewrite list_lookup_insert_ne by auto. auto. }
  split.
  - intros s i x v Hf Hx. apply (Hupd s i x _ Hf Hx). reflexivity.
  - intros s i x o Hf Hx. apply (Hupd s i x _ Hf Hx). reflexivity.
  - intros s i x o Hf Hx. apply (Hupd s i x _ Hf Hx). reflexivity.
  - intros s p pl l Hf Hp. exact Hf.
  - intros s p pl o Hf Hp. exact Hf.
Qed.

Lemma armed_count_up1 s b c1 c2 k1 k2 v :
  armed s b c1 c2 k1 k2 -> armed (count_up c1 v s) b c1 c2 v k2.
Proof.
  intros (Hx & Hne & H1 & H2). repeat split; auto; simpl.
  - apply list_lookup_insert_eq. eapply lookup_lt_Some, H1.
  - rewrite list_lookup_insert_ne by auto. exact H2.
Qed.

Lemma armed_count_up2 s b c1 c2 k1 k2 v :
  armed s b c1 c2 k1 k2 -> armed (count_up c2 v s) b c1 c2 k1 v.
Proof.
  intros (Hx & Hne & H1 & H2). repeat split; auto; simpl.
  - rewrite list_lookup_insert_ne by auto. exact H1.
  - apply list_lookup_insert_eq. eapply lookup_lt_Some, H2.
Qed.

Lemma armed_set_time s b c1 c2 k1 k2 t :
  armed s b c1 c2 k1 k2 -> armed (set_time t s) b c1 c2 k1 k2.
Proof. intros H. exact H. Qed.

(** One call of [Bee.action] on a bee that carries a stun (registered
    first) and a slow (registered last, so outermost). *)
Lemma stun_slow_call s b c1 c2 k1 k2 :
  armed s b c1 c2 k1 k2 ->
  Bee_action b s =
    if k2 <? 3 then
      if Z.even (time s) then
        if k1 <? 1
        then (Ok tt, count_up c1 (k1 + 1) (count_up c2 (k2 + 1) s))
        else Bee__action b (count_up c2 (k2 + 1) s)
      else (Ok tt, count_up c2 (k2 + 1) s)
    else if k1 <? 1 then (Ok tt, count_up c1 (k1 + 1) s)
         else Bee__action b s.
Proof.
  intros Ha. pose proof Ha as ((x & Hx & He) & Hne & H1 & H2).
  unfold Bee_action. run (get_insect_ok s b x Hx). rewrite He. cbn [fold_left].
  destruct (k2 <? 3) eqn:E2.
  - rewrite (make_duration_effect_active (Closure MakeSlow 3 c2) _ b s k2 H2)
      by (simpl; lia).
    cbn [cl_effect cl_count]. rewrite Zmod_even.
    destruct (Z.even (time s)); [|reflexivity]. cbn [Z.eqb].
    pose proof (armed_count_up2 s b c1 c2 k1 k2 (k2 + 1) Ha)
      as (_ & _ & H1' & _).
    destruct (k1 <? 1) eqn:E1.
    + rewrite (make_duration_effect_active (Closure MakeStun 1 c1) _ b _ k1 H1')
        by (simpl; lia).
      reflexivity.
    + rewrite (make_duration_effect_spent (Closure MakeStun 1 c1) _ b _ k1 H1')
        by (simpl; lia).
      reflexivity.
  - rewrite (make_duration_effect_spent (Closure MakeSlow 3 c2) _ b s k2 H2)
      by (simpl; lia).
    destruct (k1 <? 1) eqn:E1.
    + rewrite (make_duration_effect_active (Closure MakeStun 1 c1) _ b _ k1 H1)
        by (simpl; lia).
      reflexivity.
    + rewrite (make_duration_effect_spent (Closure MakeStun 1 c1) _ b _ k1 H1)
        by (simpl; lia).
      reflexivity.
Qed.

(** Once both counters are spent a turn of the bee is a plain
    [Bee._action], in every store that [Bee._action] may leave. *)
Lemma spent_turn s b c1 c2 (k : M unit) :
  armed s b c1 c2 1 3 ->
  (tick ;; Bee_action b ;; k) s = (tick ;; Bee__action b ;; k) s.
Proof.
  intros Ha.
  change (bind (Bee_action b) (fun _ => k) (set_time (time s + 1) s) =
          bind (Bee__action b) (fun _ => k) (set_time (time s + 1) s)).
  unfold bind.
  rewrite (stun_slow_call _ b c1 c2 1 3 (armed_set_time s b c1 c2 1 3 _ Ha)).
  reflexivity.
Qed.

Lemma armed_of_frame s s' b c1 c2 k1 k2 :
  armed s b c1 c2 k1 k2 ->
  effects_frame (cells s) (time s) b
    [Closure MakeStun 1 c1; Closure MakeSlow 3 c2] s' ->
  armed s' b c1 c2 k1 k2.
Proof.
  intros (_ & Hne & H1 & H2) (Hc & _ & Hx). unfold armed. rewrite Hc. auto.
Qed.

Lemma frame_of_armed s b c1 c2 k1 k2 :
  armed s b c1 c2 k1 k2 ->
  effects_frame (cells s) (time s) b
    [Closure MakeStun 1 c1; Closure MakeSlow 3 c2] s.
Proof. intros (Hx & _). repeat split; auto. Qed.

Lemma bind_tick {B} (f : unit -> M B) s :
  bind tick f s = f tt (set_time (time s + 1) s).
Proof. reflexivity. Qed.

Lemma bind_eq {A B} (m m' : M A) (f : A -> M B) s s' :
  m s = m' s' -> bind m f s = bind m' f s'.
Proof. intros H. unfold bind. rewrite H. reflexivity. Qed.

Lemma bind_modify {B} (g : state -> state) (f : unit -> M B) s :
  bind (modify g) f s = f tt (g s).
Proof. reflexivity. Qed.

Ltac unroll := repeat (first [rewrite bind_modify | rewrite bind_tick]; cbv beta).

Lemma even_next t : Z.even (t + 1) = negb (Z.even t).
Proof. rewrite Z.even_add. destruct (Z.even t); reflexivity. Qed.

(** C4, as the code has it.  A bee that carries a stun for 1 and then a
    slow for 3, both fresh, is called over four turns.  The slow was
    registered last and is the outer wrapper: its counter steps on each
    of the first three calls, and it lets a call through only on an even
    tick; the stun swallows the first call that reaches it.  From an
    even tick the bee loses two turns and acts on the third and the
    fourth; from an odd tick it loses three and acts on the fourth. *)
Theorem C4_stun_then_slow s b c1 c2 :
  armed s b c1 c2 0 0 ->
  bee_turns 4 b s =
    if Z.even (time s) then
      (modify (count_up c2 1) ;; modify (count_up c1 1) ;; tick ;;
       modify (count_up c2 2) ;; tick ;;
       modify (count_up c2 3) ;; Bee__action b ;; tick ;;
       Bee__action b ;; tick ;; ret tt) s
    else
      (modify (count_up c2 1) ;; tick ;;
       modify (count_up c2 2) ;; modify (count_up c1 1) ;; tick ;;
       modify (count_up c2 3) ;; tick ;;
       Bee__action b ;; tick ;; ret tt) s.
Proof.
  intros Ha. cbn [bee_turns].
  destruct (Z.even (time s)) eqn:E.
  - (* first turn: the slow lets the call through, the stun swallows it *)
    assert (Bee_action b s = (Ok tt, count_up c1 1 (count_up c2 1 s))) as C1.
    { rewrite (stun_slow_call s b c1 c2 0 0 Ha), E. reflexivity. }
    rewrite (bind_ok _ _ _ _ _ C1), bind_tick.
    pose proof (armed_set_time _ b c1 c2 1 1
      (time (count_up c1 1 (count_up c2 1 s)) + 1)
      (armed_count_up1 _ b c1 c2 0 1 1 (armed_count_up2 s b c1 c2 0 0 1 Ha)))
      as Ha1.
    set (s1 := set_time _ (count_up c1 1 (count_up c2 1 s))) in *.
    assert (Z.even (time s1) = false) as E1.
    { subst s1. cbn [time set_time]. rewrite even_next.
      unfold count_up. cbn [time set_cells]. rewrite E. reflexivity. }
    (* second turn: an odd tick, the slow skips *)
    assert (Bee_action b s1 = (Ok tt, count_up c2 2 s1)) as C2.
    { rewrite (stun_slow_call s1 b c1 c2 1 1 Ha1), E1. reflexivity. }
    rewrite (bind_ok _ _ _ _ _ C2), bind_tick.
    pose proof (armed_set_time _ b c1 c2 1 2 (time (count_up c2 2 s1) + 1)
      (armed_count_up2 s1 b c1 c2 1 1 2 Ha1)) as Ha2.
    set (s2 := set_time _ (count_up c2 2 s1)) in *.
    assert (Z.even (time s2) = true) as E2.
    { subst s2. cbn [time set_time]. rewrite even_next.
      unfold count_up. cbn [time set_cells]. rewrite E1. reflexivity. }
    (* third turn: the slow lets it through for the last time *)
    assert (Bee_action b s2 = Bee__action b (count_up c2 3 s2)) as C3.
    { rewrite (stun_slow_call s2 b c1 c2 1 2 Ha2), E2. reflexivity. }
    rewrite (bind_eq _ _ _ _ _ C3).
    pose proof (armed_count_up2 s2 b c1 c2 1 2 3 Ha2) as Ha3.
    subst s2 s1. unroll.
    match goal with
    | |- bind _ _ ?s3 = _ =>
        apply (bind_ext_keeps
                 (effects_frame (cells s3) (time s3) b
                    [Closure MakeStun 1 c1; Closure MakeSlow 3 c2]))
    end.
    + apply frames_Bee__action, frame_core_effects.
    + apply (frame_of_armed _ b c1 c2 1 3 Ha3).
    + intros _ s' Hf. apply (spent_turn s' b c1 c2).
      apply (armed_of_frame _ s' b c1 c2 1 3 Ha3 Hf).
  - (* first turn: an odd tick, the slow skips and the stun is not reached *)
    assert (Bee_action b s = (Ok tt, count_up c2 1 s)) as C1.
    { rewrite (stun_slow_call s b c1 c2 0 0 Ha), E. reflexivity. }
    rewrite (bind_ok _ _ _ _ _ C1), bind_tick.
    pose proof (armed_set_time _ b c1 c2 0 1 (time (count_up c2 1 s) + 1)
      (armed_count_up2 s b c1 c2 0 0 1 Ha)) as Ha1.
    set (s1 := set_time _ (count_up c2 1 s)) in *.
    assert (Z.even (time s1) = true) as E1.
    { subst s1. cbn [time set_time]. rewrite even_next.
      unfold count_up. cbn [time set_cells]. rewrite E. reflexivity. }
    (* second turn: the slow lets the call through, the stun swallows it *)
    assert (Bee_action b s1 = (Ok tt, count_up c1 1 (count_up c2 2 s1))) as C2.
    { rewrite (stun_slow_call s1 b c1 c2 0 1 Ha1), E1. reflexivity. }
    rewrite (bind_ok _ _ _ _ _ C2), bind_tick.
    pose proof (armed_set_time _ b c1 c2 1 2
      (time (count_up c1 1 (count_up c2 2 s1)) + 1)
      (armed_count_up1 _ b c1 c2 0 2 1 (armed_count_up2 s1 b c1 c2 0 1 2 Ha1)))
      as Ha2.
    set (s2 := set_time _ (count_up c1 1 (count_up c2 2 s1))) in *.
    assert (Z.even (time s2) = false) as E2.
    { subst s2. cbn [time set_time]. rewrite even_next.
      unfold count_up. cbn [time set_cells]. rewrite E1. reflexivity. }
    (* third turn: an odd tick again, the slow skips for the last time *)
    assert (Bee_action b s2 = (Ok tt, count_up c2 3 s2)) as C3.
    { rewrite (stun_slow_call s2 b c1 c2 1 2 Ha2), E2. reflexivity. }
    rewrite (bind_ok _ _ _ _ _ C3), bind_tick.
    pose proof (armed_set_time _ b c1 c2 1 3 (time (count_up c2 3 s2) + 1)
      (armed_count_up2 s2 b c1 c2 1 2 3 Ha2)) as Ha3.
    set (s3 := set_time _ (count_up c2 3 s2)) in *.
    (* fourth turn: both effects are spent *)
    assert (Bee_action b s3 = Bee__action b s3) as C4.
    { rewrite (stun_slow_call s3 b c1 c2 1 3 Ha3). reflexivity. }
    rewrite (bind_eq _ _ _ _ _ C4). subst s3 s2 s1. unroll. reflexivity.
Qed.

Lemma C4_witness :
  bee_turns 4 0 stun_slow_state =
    (modify (count_up 1 1) ;; modify (count_up 0 1) ;; tick ;;
     modify (count_up 1 2) ;; tick ;;
     modify (count_up 1 3) ;; Bee__action 0 ;; tick ;;
     Bee__action 0 ;; tick ;; ret tt) stun_slow_state.
Proof.
  assert (armed stun_slow_state 0%nat 0%nat 1%nat 0 0) as Ha.
  { repeat split; try reflexivity.
    - eexists. split; reflexivity.
    - discriminate. }
  pose proof (C4_stun_then_slow stun_slow_state 0%nat 0%nat 1%nat Ha) as H.
  assert (Z.even (time stun_slow_state) = true) as E by reflexivity.
  rewrite E in H. exact H.
Defined.

(** The claim of the specification fails.  In the colony with the lone
    bee, over the four turns after a stun for 1 and a slow for 3, the
    bee stays, stays, moves and moves: two turns lost and then no turn
    skipped, which is not one lost turn followed by every other turn. *)
Lemma C4_counterexample :
  moves 4 0 stun_slow_state = [false; false; true; true] /\
  ~ stun_then_slow_pattern (moves 4 0 stun_slow_state).
Proof.
  assert (moves 4 0 stun_slow_state = [false; false; true; true]) as H
    by (vm_compute; reflexivity).
  split; [exact H|]. rewrite H. intros [a Ha].
  destruct a; discriminate Ha.
Qed.

(** * C7: deployment *)

Lemma frame_core_food n : frame_core (food_frame n).
Proof. split; intros; assumption. Qed.

(** [add_insect] leaves the pool alone, whatever it does. *)
Lemma add_insect_food p a s : food (exec (add_insect p a) s) = food s.
Proof.
  apply (keeps_exec (food_frame (food s))); [|reflexivity].
  apply frames_add_insect, frame_core_food.
Qed.

(** A constructor returns a new ant and leaves the pool and the places
    alone. *)
Lemma construct_run k s :
  class_is_ant k = true ->
  exists x flag,
    construct k s =
      (Ok (length (insects s)),
       set_queen_class_flag flag (set_insects (fun l => l ++ [x]) s)) /\
    i_class x = k /\ i_place x = None /\ i_armor x = class_armor k.
Proof.
  intros Hk. destruct k; try discriminate Hk;
    try (eexists; exists (queen_class_flag s); split;
         [destruct s; reflexivity|repeat split]).
  eexists. exists false. split; [reflexivity|repeat split].
Qed.

(** C7, as the code has it.  A request for an ant that costs more than
    the pool holds changes nothing and raises nothing.  When the pool
    suffices and the place exists, a new ant is built and handed to
    [add_insect] of the place: if that returns, the cost and nothing
    else is taken from the pool; if it raises (the slot admits no such
    ant), the exception goes to the caller and the pool is untouched.
    In an ordinary place with an empty slot it returns, and the new ant
    is the ant of the place. *)
Theorem C7_deploy_ant s place_name type_name k :
  dict_get String.eqb type_name (c_ant_types s) = Some k ->
  class_is_ant k = true ->
  (food s < class_food_cost k ->
   deploy_ant place_name type_name s = (Ok tt, s)) /\
  (class_food_cost k <= food s ->
   forall p, dict_get String.eqb place_name (c_places s) = Some p ->
     let a := length (insects s) in
     let s1 := exec (construct k) s in
     (forall s2, add_insect p a s1 = (Ok tt, s2) ->
        deploy_ant place_name type_name s =
          (Ok tt, set_food (food s - class_food_cost k) s2)) /\
     (forall e s2, add_insect p a s1 = (Raise e, s2) ->
        deploy_ant place_name type_name s = (Raise e, s2) /\
        food s2 = food s) /\
     (forall pl, places s !! p = Some pl -> p_kind pl <> WaterPlace ->
        p_ant pl = None ->
        let s' := exec (deploy_ant place_name type_name) s in
        eval (deploy_ant place_name type_name) s = Ok tt /\
        food s' = food s - class_food_cost k /\
        place_of s' a = Some p /\
        exists pl', places s' !! p = Some pl' /\ p_ant pl' = Some a)).
Proof.
  intros Hk Hant.
  assert (forall st, subscript String.eqb (c_ant_types s) type_name st
                     = (Ok k, st)) as Hsub.
  { intros st. unfold subscript. rewrite Hk. reflexivity. }
  assert (forall st, food_cost k st = (Ok (class_food_cost k), st)) as Hcost.
  { intros st. unfold food_cost. rewrite Hant. reflexivity. }
  split.
  - intros Hlt. unfold deploy_ant. unfold bind at 1. cbn [get].
    run (Hsub s). run (Hcost s).
    assert ((food s <? class_food_cost k) = true) as -> by lia. reflexivity.
  - intros Hle p Hp a s1.
    destruct (construct_run k s Hant) as (x & flag & Hc & Hxk & Hxp & Hxa).
    assert (s1 = set_queen_class_flag flag (set_insects (fun l => l ++ [x]) s))
      as Hs1 by (unfold s1, exec; rewrite Hc; reflexivity).
    assert (forall r, add_insect p a s1 = r ->
              deploy_ant place_name type_name s =
              match r with
              | (Ok _, s2) => (Ok tt, set_food (food s2 - class_food_cost k) s2)
              | (Raise e, s2) => (Raise e, s2)
              end) as Hrun.
    { intros r Hr. unfold deploy_ant. unfold bind at 1. cbn [get].
      run (Hsub s). run (Hcost s).
      assert ((food s <? class_food_cost k) = false) as -> by lia.
      unfold bind at 1. unfold subscript. rewrite Hp. cbn [ret].
      run Hc. rewrite <- Hs1. fold a. unfold bind at 1. rewrite Hr.
      destruct r as [[[]|e] s2]; [|reflexivity].
      run (Hcost s2). reflexivity. }
    assert (food s1 = food s) as Hf1 by (rewrite Hs1; reflexivity).
    split; [|split].
    + intros s2 H2. rewrite (Hrun _ H2).
      replace (food s2) with (food s); [reflexivity|].
      rewrite <- Hf1. pose proof (add_insect_food p a s1) as Hfr.
      unfold exec in Hfr. rewrite H2 in Hfr. symmetry. exact Hfr.
    + intros e s2 H2. rewrite (Hrun _ H2). split; [reflexivity|].
      rewrite <- Hf1. pose proof (add_insect_food p a s1) as Hfr.
      unfold exec in Hfr. rewrite H2 in Hfr. exact Hfr.
    + intros pl Hpl Hkind Hslot s'.
      assert (places s1 !! p = Some pl) as Hpl1 by (rewrite Hs1; exact Hpl).
      assert (insects s1 !! a = Some x) as Hx1.
      { rewrite Hs1. simpl. apply list_lookup_middle. reflexivity. }
      assert (add_insect p a s1 =
              (Ok tt,
               set_insects (fun l => <[a := with_place (Some p) x]> l)
                 (set_places (fun l => <[p := with_p_ant (Some a) pl]> l) s1)))
        as Hadd.
      { unfold add_insect. run (get_place_ok s1 p pl Hpl1).
        assert (Place_add_insect p a s1 =
          (Ok tt,
           set_insects (fun l => <[a := with_place (Some p) x]> l)
             (set_places (fun l => <[p := with_p_ant (Some a) pl]> l) s1)))
          as HP.
        { unfold Place_add_insect. run (is_ant_run s1 a x Hx1).
          rewrite Hxk, Hant. run (get_place_ok s1 p pl Hpl1). rewrite Hslot.
          run (upd_place_ok s1 p pl (with_p_ant (Some a)) Hpl1).
          apply upd_insect_ok. exact Hx1. }
        destruct (p_kind pl); [exact HP|congruence|exact HP]. }
      pose proof (Hrun _ Hadd) as Hd. cbn iota in Hd.
      unfold s', eval, exec. rewrite Hd. cbn [fst snd].
      split; [reflexivity|]. split.
      { cbn [food set_food]. rewrite <- Hf1. reflexivity. }
      split.
      { unfold place_of. cbn [insects set_food set_insects set_places].
        rewrite list_lookup_insert_eq by (eapply lookup_lt_Some, Hx1).
        reflexivity. }
      exists (with_p_ant (Some a) pl). split; [|reflexivity].
      cbn [places set_food set_insects set_places].
      apply list_lookup_insert_eq. eapply lookup_lt_Some, Hpl1.
Qed.

Lemma C7_witness :
  deploy_ant "tunnel_0_0" "Thrower" quiet_colony = (Ok tt, quiet_colony) /\
  (eval (deploy_ant "tunnel_0_1" "Harvester") crowded_colony = Ok tt /\
   food (exec (deploy_ant "tunnel_0_1" "Harvester") crowded_colony)
     = food crowded_colony - class_food_cost HarvesterAnt /\
   place_of (exec (deploy_ant "tunnel_0_1" "Harvester") crowded_colony)
     (length (insects crowded_colony)) = Some 3%nat /\
   exists pl',
     places (exec (deploy_ant "tunnel_0_1" "Harvester") crowded_colony) !! 3%nat
       = Some pl' /\
     p_ant pl' = Some (length (insects crowded_colony))).
Proof.
  split.
  - apply (proj1 (C7_deploy_ant quiet_colony "tunnel_0_0" "Thrower" ThrowerAnt
                    eq_refl eq_refl)).
    vm_compute. reflexivity.
  - apply (proj2 (proj2 (proj2 (C7_deploy_ant crowded_colony "tunnel_0_1"
                                  "Harvester" HarvesterAnt eq_refl eq_refl)
                           ltac:(vm_compute; discriminate) 3%nat eq_refl))
             (MkPlace PlainPlace "tunnel_0_1" (Some 2%nat) [] None
                (Some 4%nat) [])).
    + reflexivity.
    + discriminate.
    + reflexivity.
Defined.

(** The claim of the specification fails.  With 6 food left and a
    thrower already in [tunnel_0_0], a second thrower (cost 4) can be
    paid for, and [deploy_ant] raises [AssertionError]. *)
Lemma C7_counterexample :
  ~ affordable_deploy_places crowded_colony "tunnel_0_0" "Thrower".
Proof.
  intros H. destruct (H ThrowerAnt eq_refl) as [Hok _].
  - vm_compute. discriminate.
  - vm_compute in Hok. discriminate Hok.
Qed.

(** * Lists of bees *)

Lemma list_remove_elem x l : x ∈ l -> is_Some (list_remove x l).
Proof.
  induction l as [|y l IH]; intros Hx; [inversion Hx|]. simpl.
  destruct (Nat.eqb_spec x y) as [_|Hne]; [eauto|].
  apply elem_of_cons in Hx as [?|Hx]; [contradiction|].
  destruct (IH Hx) as [r ->]. eauto.
Qed.

Lemma list_remove_absent x l : x ∉ l -> list_remove x l = None.
Proof.
  induction l as [|y l IH]; intros Hx; [reflexivity|]. simpl.
  apply not_elem_of_cons in Hx as [Hne Hx].
  destruct (Nat.eqb_spec x y) as [?|_]; [contradiction|].
  rewrite (IH Hx). reflexivity.
Qed.

(** In a list without repetition, [remove] takes [x] out and leaves
    the rest in order. *)
Lemma list_remove_NoDup x l r :
  NoDup l -> list_remove x l = Some r ->
  NoDup r /\ forall y, y ∈ r <-> y ∈ l /\ y <> x.
Proof.
  revert r. induction l as [|z l IH]; intros r Hnd Hr; [discriminate Hr|].
  simpl in Hr. apply NoDup_cons in Hnd as [Hz Hnd].
  destruct (Nat.eqb_spec x z) as [->|Hne].
  - injection Hr as <-. split; [exact Hnd|]. intros y. rewrite elem_of_cons.
    split.
    + intros Hy. split; [auto|]. intros ->. contradiction.
    + intros [[?|Hy] Hyz]; [contradiction|exact Hy].
  - destruct (list_remove x l) as [r'|] eqn:Hr'; [|discriminate Hr].
    injection Hr as <-. destruct (IH r' Hnd eq_refl) as [Hnd' Hiff].
    split.
    + apply NoDup_cons. split; [|exact Hnd'].
      intros Hin. apply Hiff in Hin as [Hin _]. contradiction.
    + intros y. rewrite !elem_of_cons, Hiff. split.
      * intros [->|[Hy Hyx]]; [split; [auto|congruence]|auto].
      * intros [[->|Hy] Hyx]; auto.
Qed.

(** [l.append(x)] and then [l.remove(x)] gives [l] back when [x] was
    not in it. *)
Lemma list_remove_snoc x l : x ∉ l -> list_remove x (l ++ [x]) = Some l.
Proof.
  induction l as [|y l IH]; intros Hx; simpl.
  - rewrite Nat.eqb_refl. reflexivity.
  - apply not_elem_of_cons in Hx as [Hne Hx].
    destruct (Nat.eqb_spec x y) as [?|_]; [contradiction|].
    rewrite (IH Hx). reflexivity.
Qed.

(** * Leaving a place *)

Lemma bind_get {B} (f : state -> M B) s : bind get f s = f s s.
Proof. reflexivity. Qed.

Lemma subscript_ok {K V} eqb (d : list (K * V)) k v s :
  dict_get eqb k d = Some v -> subscript eqb d k s = (Ok v, s).
Proof. intros H. unfold subscript. rewrite H. reflexivity. Qed.

Lemma subscript_missing {K V} eqb (d : list (K * V)) k s :
  dict_get eqb k d = None -> subscript eqb d k s = (Raise KeyError, s).
Proof. intros H. unfold subscript. rewrite H. reflexivity. Qed.

Lemma not_ant_not_queen x :
  class_is_ant (i_class x) = false -> insect_is_queen x = false.
Proof. unfold insect_is_queen. destruct (i_class x); auto; discriminate. Qed.

(** The true queen stays where she is. *)
Lemma remove_insect_queen s p a x :
  insects s !! a = Some x -> insect_is_queen x = true ->
  remove_insect p a s = (Ok tt, s).
Proof.
  intros Hx Hq. unfold remove_insect. run (is_queen_run s a x Hx).
  rewrite Hq. reflexivity.
Qed.

(** The ant of a place leaves it, and the ant it hid takes the slot. *)
Lemma remove_insect_ant s p a pl x :
  places s !! p = Some pl -> p_ant pl = Some a ->
  insects s !! a = Some x -> class_is_ant (i_class x) = true ->
  insect_is_queen x = false ->
  remove_insect p a s =
    (Ok tt,
     set_insects (fun l => <[a := with_place None x]> l)
       (set_places (fun l => <[p := with_p_ant (insect_contained_ant x) pl]> l)
          s)).
Proof.
  intros Hp Ha Hx Hant Hq. unfold remove_insect.
  run (is_queen_run s a x Hx). rewrite Hq.
  run (is_ant_run s a x Hx). rewrite Hant. cbn [negb].
  run (get_place_ok s p pl Hp). rewrite Ha, Nat.eqb_refl.
  run (contained_ant_run s a x Hx).
  run (upd_place_ok s p pl (with_p_ant (insect_contained_ant x)) Hp).
  apply upd_insect_ok. exact Hx.
Qed.

(** An ant that is not the ant of the place cannot be taken out of it:
    the assertion of [remove_insect] fails before anything is written. *)
Lemma remove_insect_not_in_slot s p a pl x :
  places s !! p = Some pl -> p_ant pl <> Some a ->
  insects s !! a = Some x -> class_is_ant (i_class x) = true ->
  insect_is_queen x = false ->
  remove_insect p a s = (Raise AssertionError, s).
Proof.
  intros Hp Ha Hx Hant Hq. unfold remove_insect.
  run (is_queen_run s a x Hx). rewrite Hq.
  run (is_ant_run s a x Hx). rewrite Hant. cbn [negb].
  run (get_place_ok s p pl Hp).
  destruct (p_ant pl) as [cur|]; [|reflexivity].
  destruct (Nat.eqb_spec cur a) as [->|_]; [congruence|reflexivity].
Qed.

(** A bee leaves the bees of its place. *)
Lemma remove_insect_bee s p b pl y l :
  places s !! p = Some pl -> insects s !! b = Some y ->
  class_is_ant (i_class y) = false -> list_remove b (p_bees pl) = Some l ->
  remove_insect p b s =
    (Ok tt,
     set_insects (fun l' => <[b := with_place None y]> l')
       (set_places (fun ps => <[p := with_p_bees l pl]> ps) s)).
Proof.
  intros Hp Hy Hant Hl. unfold remove_insect.
  run (is_queen_run s b y Hy). rewrite (not_ant_not_queen y Hant).
  run (is_ant_run s b y Hy). rewrite Hant. cbn [negb].
  run (get_place_ok s p pl Hp). rewrite Hl.
  run (upd_place_ok s p pl (with_p_bees l) Hp).
  apply upd_insect_ok. exact Hy.
Qed.

(** [remove_ant] where there is nothing it may remove: a name that is
    not a place of the colony raises [KeyError]; an empty slot, and a
    slot that holds the true queen, make it return; in all three cases
    the store is as it was. *)
Theorem remove_ant_leaves_store s name :
  match dict_get String.eqb name (c_places s) with
  | None => remove_ant name s = (Raise KeyError, s)
  | Some p =>
      forall pl, places s !! p = Some pl ->
        match p_ant pl with
        | None => remove_ant name s = (Ok tt, s)
        | Some a =>
            forall x, insects s !! a = Some x -> insect_is_queen x = true ->
              remove_ant name s = (Ok tt, s)
        end
  end.
Proof.
  unfold remove_ant. rewrite bind_get.
  destruct (dict_get String.eqb name (c_places s)) as [p|] eqn:Hn.
  - intros pl Hp. run (subscript_ok String.eqb (c_places s) name p s Hn).
    run (get_place_ok s p pl Hp).
    destruct (p_ant pl) as [a|]; [|reflexivity].
    intros x Hx Hq. apply (remove_insect_queen s p a x Hx Hq).
  - rewrite (bind_raise _ _ _ _ _
               (subscript_missing String.eqb (c_places s) name s Hn)).
    reflexivity.
Qed.

(** [remove_ant] on a place whose ant is not the true queen: the ant
    leaves, its [place] is [None], and the slot goes to the ant it
    contained; that is [None] for every ant but a bodyguard, and for a
    bodyguard the ant it hid, which stays in the place.  No other
    insect and no other place is touched. *)
Theorem remove_ant_hands_slot_over s name p pl a x :
  dict_get String.eqb name (c_places s) = Some p ->
  places s !! p = Some pl -> p_ant pl = Some a ->
  insects s !! a = Some x -> class_is_ant (i_class x) = true ->
  insect_is_queen x = false ->
  exists s',
    remove_ant name s = (Ok tt, s') /\
    ant_at s' p = insect_contained_ant x /\
    place_of s' a = None /\
    bees_at s' p = bees_at s p /\
    (forall i, i <> a -> insects s' !! i = insects s !! i) /\
    (forall q, q <> p -> places s' !! q = places s !! q).
Proof.
  intros Hn Hp Ha Hx Hant Hq. eexists. split.
  - unfold remove_ant. rewrite bind_get.
    run (subscript_ok String.eqb (c_places s) name p s Hn).
    run (get_place_ok s p pl Hp). rewrite Ha.
    apply (remove_insect_ant s p a pl x Hp Ha Hx Hant Hq).
  - unfold ant_at, place_of, bees_at.
    cbn [insects places set_insects set_places].
    rewrite !list_lookup_insert_eq by (eapply lookup_lt_Some; eauto).
    rewrite Hp. repeat split.
    + intros i Hi. apply list_lookup_insert_ne. auto.
    + intros q Hq'. apply list_lookup_insert_ne. auto.
Qed.

Lemma remove_ant_leaves_store_witness :
  remove_ant "nowhere" quiet_colony = (Raise KeyError, quiet_colony) /\
  remove_ant "tunnel_0_0" quiet_colony = (Ok tt, quiet_colony).
Proof.
  split.
  - exact (remove_ant_leaves_store quiet_colony "nowhere").
  - exact (remove_ant_leaves_store quiet_colony "tunnel_0_0"
             (MkPlace PlainPlace "tunnel_0_0" (Some 1%nat) [] None (Some 3%nat) [])
             eq_refl).
Defined.

Lemma remove_ant_hands_slot_over_witness :
  exists s',
    remove_ant "tunnel_0_0" impostor_colony = (Ok tt, s') /\
    ant_at s' 2 = Some 1%nat /\
    place_of s' 2 = None /\
    bees_at s' 2 = bees_at impostor_colony 2 /\
    (forall i, i <> 2%nat ->
       insects s' !! i = insects impostor_colony !! i) /\
    (forall q, q <> 2%nat -> places s' !! q = places impostor_colony !! q).
Proof.
  exact (remove_ant_hands_slot_over impostor_colony "tunnel_0_0" 2%nat
           (MkPlace PlainPlace "tunnel_0_0" (Some 1%nat) [] (Some 2%nat)
              (Some 3%nat) [])
           2%nat
           (MkInsect BodyguardAnt 2 (Some 2%nat) [] 0 false (Some 1%nat) 0 false)
           eq_refl eq_refl eq_refl eq_refl eq_refl eq_refl).
Defined.

(** * Deploying: the errors and the pool *)

Lemma food_cost_run k s :
  class_is_ant k = true -> food_cost k s = (Ok (class_food_cost k), s).
Proof. intros H. unfold food_cost. rewrite H. reflexivity. Qed.

Lemma food_cost_not_ant k s :
  class_is_ant k = false -> food_cost k s = (Raise AttributeError, s).
Proof. intros H. unfold food_cost. rewrite H. reflexivity. Qed.

Lemma class_food_cost_nonneg k : 0 <= class_food_cost k.
Proof. destruct k; simpl; lia. Qed.

(** A deployment that the pool can pay for, in a place that exists:
    what [add_insect] does decides the outcome. *)
Lemma deploy_ant_run s place_name type_name k p :
  dict_get String.eqb type_name (c_ant_types s) = Some k ->
  class_is_ant k = true -> class_food_cost k <= food s ->
  dict_get String.eqb place_name (c_places s) = Some p ->
  deploy_ant place_name type_name s =
    match add_insect p (length (insects s)) (exec (construct k) s) with
    | (Ok _, s2) => (Ok tt, set_food (food s2 - class_food_cost k) s2)
    | (Raise e, s2) => (Raise e, s2)
    end.
Proof.
  intros Hk Hant Hle Hp.
  destruct (construct_run k s Hant) as (x & flag & Hc & _).
  unfold deploy_ant. rewrite bind_get.
  run (subscript_ok String.eqb (c_ant_types s) type_name k s Hk).
  run (food_cost_run k s Hant).
  assert ((food s <? class_food_cost k) = false) as -> by lia.
  run (subscript_ok String.eqb (c_places s) place_name p s Hp).
  unfold exec. rewrite Hc. cbn [snd]. run Hc. unfold bind at 1.
  destruct (add_insect p _ _) as [[[]|e] s2]; [|reflexivity].
  run (food_cost_run k s2 Hant). reflexivity.
Qed.

Lemma deploy_ant_unknown_type s place_name type_name :
  dict_get String.eqb type_name (c_ant_types s) = None ->
  deploy_ant place_name type_name s = (Raise KeyError, s).
Proof.
  intros Hk. unfold deploy_ant. rewrite bind_get.
  rewrite (bind_raise _ _ _ _ _
             (subscript_missing String.eqb (c_ant_types s) type_name s Hk)).
  reflexivity.
Qed.

Lemma deploy_ant_unknown_place s place_name type_name k :
  dict_get String.eqb type_name (c_ant_types s) = Some k ->
  class_is_ant k = true -> class_food_cost k <= food s ->
  dict_get String.eqb place_name (c_places s) = None ->
  deploy_ant place_name type_name s = (Raise KeyError, s).
Proof.
  intros Hk Hant Hle Hp. unfold deploy_ant. rewrite bind_get.
  run (subscript_ok String.eqb (c_ant_types s) type_name k s Hk).
  run (food_cost_run k s Hant).
  assert ((food s <? class_food_cost k) = false) as -> by lia.
  rewrite (bind_raise _ _ _ _ _
             (subscript_missing String.eqb (c_places s) place_name s Hp)).
  reflexivity.
Qed.

(** [deploy_ant] looks both names up before it builds anything.  An
    ant type that the colony does not know raises [KeyError]; so does,
    when the pool can pay, a place that the colony does not know.  The
    store is then as it was: no ant was constructed, and the class
    flag of the queen was not taken. *)
Theorem deploy_ant_unknown_names s place_name type_name :
  (dict_get String.eqb type_name (c_ant_types s) = None ->
   deploy_ant place_name type_name s = (Raise KeyError, s)) /\
  (forall k, dict_get String.eqb type_name (c_ant_types s) = Some k ->
     class_is_ant k = true -> class_food_cost k <= food s ->
     dict_get String.eqb place_name (c_places s) = None ->
     deploy_ant place_name type_name s = (Raise KeyError, s)).
Proof.
  split.
  - apply deploy_ant_unknown_type.
  - apply deploy_ant_unknown_place.
Qed.

Lemma deploy_ant_unknown_names_witness :
  deploy_ant "tunnel_0_0" "Dragon" crowded_colony
    = (Raise KeyError, crowded_colony) /\
  deploy_ant "tunnel_9_9" "Thrower" crowded_colony
    = (Raise KeyError, crowded_colony).
Proof.
  split.
  - apply (proj1 (deploy_ant_unknown_names crowded_colony "tunnel_0_0" "Dragon")).
    reflexivity.
  - apply (proj2 (deploy_ant_unknown_names crowded_colony "tunnel_9_9" "Thrower")
             ThrowerAnt); [reflexivity|reflexivity|simpl; lia|reflexivity].
Defined.

(** Whatever [deploy_ant] does, returning or raising, the pool never
    grows and never goes below zero. *)
Theorem deploy_ant_pool_bounds s place_name type_name :
  0 <= food s ->
  0 <= food (exec (deploy_ant place_name type_name) s) <= food s.
Proof.
  intros H0.
  destruct (dict_get String.eqb type_name (c_ant_types s)) as [k|] eqn:Hk.
  2:{ unfold exec.
      rewrite (deploy_ant_unknown_type s place_name type_name Hk).
      simpl. lia. }
  destruct (class_is_ant k) eqn:Hant.
  2:{ unfold exec, deploy_ant. rewrite bind_get.
      run (subscript_ok String.eqb (c_ant_types s) type_name k s Hk).
      rewrite (bind_raise _ _ _ _ _ (food_cost_not_ant k s Hant)).
      simpl. lia. }
  destruct (Z.ltb_spec (food s) (class_food_cost k)) as [Hlt|Hle].
  { unfold exec, deploy_ant. rewrite bind_get.
    run (subscript_ok String.eqb (c_ant_types s) type_name k s Hk).
    run (food_cost_run k s Hant).
    assert ((food s <? class_food_cost k) = true) as -> by lia.
    simpl. lia. }
  destruct (dict_get String.eqb place_name (c_places s)) as [p|] eqn:Hp.
  2:{ unfold exec.
      rewrite (deploy_ant_unknown_place s place_name type_name k
                 Hk Hant Hle Hp).
      simpl. lia. }
  change (exec (deploy_ant place_name type_name) s)
    with (snd (deploy_ant place_name type_name s)).
  rewrite (deploy_ant_run s place_name type_name k p Hk Hant Hle Hp).
  assert (food (exec (construct k) s) = food s) as Hc.
  { destruct (construct_run k s Hant) as (x & flag & Hc & _).
    unfold exec. rewrite Hc. reflexivity. }
  set (s1 := exec (construct k) s) in *.
  pose proof (add_insect_food p (length (insects s)) s1) as Hfood.
  unfold exec in Hfood.
  destruct (add_insect p (length (insects s)) s1) as [[[]|e] s2];
    cbn [snd food set_food] in *.
  - pose proof (class_food_cost_nonneg k). lia.
  - lia.
Qed.

Lemma deploy_ant_pool_bounds_witness :
  0 <= food (exec (deploy_ant "tunnel_0_0" "Thrower") crowded_colony)
    <= food crowded_colony.
Proof.
  apply (deploy_ant_pool_bounds crowded_colony "tunnel_0_0" "Thrower").
  vm_compute. discriminate.
Defined.

(** * Blows on the bees of a place *)

Lemma bind_ret {A B} (a : A) (f : A -> M B) s : bind (ret a) f s = f a s.
Proof. reflexivity. Qed.

Lemma set_insects_twice (f g : list insect -> list insect) s :
  set_insects f (set_insects g s) = set_insects (fun l => f (g l)) s.
Proof. reflexivity. Qed.

Lemma set_places_insects (f : list place -> list place)
  (g : list insect -> list insect) s :
  set_insects g (set_places f s) = set_places f (set_insects g s).
Proof. reflexivity. Qed.

(** [reduce_armor] on a bee that is among the bees of its place. *)
Lemma Insect_reduce_armor_bee s p b y pl amount :
  insects s !! b = Some y -> class_is_ant (i_class y) = false ->
  i_place y = Some p -> places s !! p = Some pl -> b ∈ p_bees pl ->
  Insect_reduce_armor b amount s = (Ok tt, strike p amount s b).
Proof.
  intros Hy Hant Hpl Hp Hin. unfold Insect_reduce_armor, strike, struck.
  rewrite Hy, Hp. cbv zeta.
  run (get_insect_ok s b y Hy).
  run (upd_insect_ok s b y (with_armor (i_armor y - amount)) Hy).
  destruct (i_armor y - amount <=? 0); [|reflexivity].
  rewrite Hpl. cbn [deref]. rewrite bind_ret.
  destruct (list_remove_elem b (p_bees pl) Hin) as [l Hl]. rewrite Hl.
  set (y1 := with_armor (i_armor y - amount) y).
  set (s1 := set_insects (fun l0 => <[b := y1]> l0) s).
  assert (insects s1 !! b = Some y1) as Hy1.
  { apply list_lookup_insert_eq. eapply lookup_lt_Some, Hy. }
  rewrite (remove_insect_bee s1 p b pl y1 l Hp Hy1 Hant Hl).
  f_equal. unfold s1, set_insects, set_places.
  cbn [insects places cells queen_class_flag time food c_places c_queen
       c_hive c_ant_types c_bee_entrances rand_src rand_pos].
  rewrite list_insert_insert_eq. reflexivity.
Qed.

Lemma bee_reduce_armor_bee s p b y pl amount :
  insects s !! b = Some y -> class_is_ant (i_class y) = false ->
  i_place y = Some p -> places s !! p = Some pl -> b ∈ p_bees pl ->
  bee_reduce_armor b amount s = (Ok tt, strike p amount s b).
Proof.
  intros Hy Hant Hpl Hp Hin. unfold bee_reduce_armor.
  run (get_insect_ok s b y Hy).
  pose proof (Insect_reduce_armor_bee s p b y pl amount Hy Hant Hpl Hp Hin)
    as Hrun.
  destruct (i_class y); try discriminate Hant; exact Hrun.
Qed.

Lemma list_remove_middle b pre l :
  b ∉ pre -> list_remove b (pre ++ b :: l) = Some (pre ++ l).
Proof.
  induction pre as [|z pre IH]; intros Hb; simpl.
  - rewrite Nat.eqb_refl. reflexivity.
  - apply not_elem_of_cons in Hb as [Hne Hb].
    destruct (Nat.eqb_spec b z) as [?|_]; [contradiction|].
    rewrite (IH Hb). reflexivity.
Qed.

Lemma with_p_bees_same pl : with_p_bees (p_bees pl) pl = pl.
Proof. destruct pl; reflexivity. Qed.

(** What one blow writes. *)
Lemma strike_spec s p d b y pl pre l :
  insects s !! b = Some y -> places s !! p = Some pl ->
  p_bees pl = pre ++ b :: l -> b ∉ pre ->
  insects (strike p d s b) = <[b := struck d y]> (insects s) /\
  places (strike p d s b) =
    (if dies s d b then <[p := with_p_bees (pre ++ l) pl]> (places s)
     else places s).
Proof.
  intros Hy Hp Hbees Hpre. unfold strike, dies. rewrite Hy, Hp. cbv zeta.
  destruct (i_armor y - d <=? 0); [|split; reflexivity].
  rewrite Hbees, (list_remove_middle b pre l Hpre). split; reflexivity.
Qed.

(** A blow writes to the insects and to the places only. *)
Lemma strike_rest s p d b :
  let s' := strike p d s b in
  cells s' = cells s /\ queen_class_flag s' = queen_class_flag s /\
  time s' = time s /\ food s' = food s /\ c_places s' = c_places s /\
  c_queen s' = c_queen s /\ c_hive s' = c_hive s /\
  rand_src s' = rand_src s /\ rand_pos s' = rand_pos s.
Proof.
  unfold strike. destruct (insects s !! b); [|repeat split].
  destruct (places s !! p) as [pl|]; [|repeat split].
  destruct (_ <=? 0); [|repeat split].
  destruct (list_remove b (p_bees pl)); repeat split.
Qed.

(** The loop over the bees of a place: [pre] are the bees of the place
    that the loop has left behind, [l] the bees it has still to
    strike. *)
Lemma strike_loop_run p self x : forall l pre s pl,
  insects s !! self = Some x -> self ∉ l ->
  places s !! p = Some pl -> p_bees pl = pre ++ l -> NoDup (pre ++ l) ->
  (forall b, b ∈ l -> exists y, insects s !! b = Some y /\
       class_is_ant (i_class y) = false /\ i_place y = Some p) ->
  exists s',
    strike_loop self l s = (Ok tt, s') /\
    places s' !! p =
      Some (with_p_bees
              (pre ++ List.filter (fun b => negb (dies s (i_damage x) b)) l)
              pl) /\
    (forall q, q <> p -> places s' !! q = places s !! q) /\
    (forall i, i ∉ l -> insects s' !! i = insects s !! i) /\
    (forall b y, b ∈ l -> insects s !! b = Some y ->
       insects s' !! b = Some (struck (i_damage x) y)).
Proof.
  induction l as [|b l IH]; intros pre s pl Hx Hself Hp Hbees Hnd Hl.
  - exists s. split; [reflexivity|]. split.
    + cbn [List.filter]. rewrite Hp, <- Hbees, with_p_bees_same. reflexivity.
    + repeat split; auto. intros b y Hb. inversion Hb.
  - apply not_elem_of_cons in Hself as [Hsb Hself].
    destruct (Hl b) as (y & Hy & Hant & Hpl); [left|].
    assert ((b ∉ pre) /\ (b ∉ l) /\ NoDup (pre ++ l)) as (Hbpre & Hbl & Hnd').
    { apply NoDup_app in Hnd as (Hnpre & Hdisj & Hnl).
      apply NoDup_cons in Hnl as [Hbl Hnl].
      split; [intros Hin; apply (Hdisj b Hin); left|].
      split; [exact Hbl|]. apply NoDup_app. split; [exact Hnpre|].
      split; [|exact Hnl]. intros z Hz Hz'. apply (Hdisj z Hz). right. exact Hz'. }
    assert (b ∈ p_bees pl) as Hin.
    { rewrite Hbees. apply elem_of_app. right. left. }
    destruct (strike_spec s p (i_damage x) b y pl pre l Hy Hp Hbees Hbpre)
      as [Hins Hpls].
    set (s1 := strike p (i_damage x) s b) in *.
    assert (forall i, i <> b -> insects s1 !! i = insects s !! i) as Hoth.
    { intros i Hi. rewrite Hins. apply list_lookup_insert_ne. auto. }
    assert (forall c, c ∈ l -> dies s1 (i_damage x) c = dies s (i_damage x) c)
      as Hdies.
    { intros c Hc. unfold dies. rewrite Hoth; [reflexivity|].
      intros ->. contradiction. }
    assert (strike_loop self (b :: l) s = strike_loop self l s1) as Hstep.
    { unfold strike_loop. cbn [for_each].
      run (get_insect_ok s self x Hx).
      run (bee_reduce_armor_bee s p b y pl (i_damage x) Hy Hant Hpl Hp Hin).
      reflexivity. }
    rewrite Hstep.
    assert (insects s1 !! self = Some x) as Hx1 by (rewrite Hoth; auto).
    assert (forall c, c ∈ l -> exists z, insects s1 !! c = Some z /\
              class_is_ant (i_class z) = false /\ i_place z = Some p) as Hl1.
    { intros c Hc. rewrite Hoth by (intros ->; contradiction).
      apply Hl. right. exact Hc. }
    assert (length (places s) > p)%nat as Hlen
      by (apply lookup_lt_Some in Hp; lia).
    cbn [List.filter]. destruct (dies s (i_damage x) b) eqn:Hd; cbn [negb].
    + destruct (IH pre s1 (with_p_bees (pre ++ l) pl) Hx1 Hself)
        as (s' & Hrun & Hp' & Hq' & Hi' & Hb'); auto.
      { rewrite Hpls. apply list_lookup_insert_eq. lia. }
      exists s'. split; [exact Hrun|]. split.
      { rewrite Hp'. f_equal.
        rewrite (filter_ext_in _ (fun c => negb (dies s (i_damage x) c)));
          [reflexivity|].
        intros c Hc. rewrite Hdies; [reflexivity|]. apply list_elem_of_In, Hc. }
      split.
      { intros q Hq. rewrite Hq' by auto. rewrite Hpls.
        apply list_lookup_insert_ne. auto. }
      split.
      { intros i Hi. apply not_elem_of_cons in Hi as [Hib Hi].
        rewrite Hi' by auto. apply Hoth, Hib. }
      intros c z Hc Hz. apply elem_of_cons in Hc as [->|Hc].
      * rewrite Hi' by auto. rewrite Hins.
        assert (z = y) as -> by congruence.
        apply list_lookup_insert_eq. eapply lookup_lt_Some, Hy.
      * apply Hb'; [exact Hc|]. rewrite Hoth; [exact Hz|].
        intros ->. contradiction.
    + destruct (IH (pre ++ [b]) s1 pl Hx1 Hself)
        as (s' & Hrun & Hp' & Hq' & Hi' & Hb'); auto.
      { rewrite Hpls. exact Hp. }
      { rewrite Hbees, <- app_assoc. reflexivity. }
      { rewrite <- app_assoc. exact Hnd. }
      exists s'. split; [exact Hrun|]. split.
      { rewrite Hp', <- app_assoc. cbn [app].
        rewrite (filter_ext_in _ (fun c => negb (dies s (i_damage x) c)));
          [reflexivity|].
        intros c Hc. rewrite Hdies; [reflexivity|]. apply list_elem_of_In, Hc. }
      split.
      { intros q Hq. rewrite Hq' by auto. rewrite Hpls. reflexivity. }
      split.
      { intros i Hi. apply not_elem_of_cons in Hi as [Hib Hi].
        rewrite Hi' by auto. apply Hoth, Hib. }
      intros c z Hc Hz. apply elem_of_cons in Hc as [->|Hc].
      * rewrite Hi' by auto. rewrite Hins.
        assert (z = y) as -> by congruence.
        apply list_lookup_insert_eq. eapply lookup_lt_Some, Hy.
      * apply Hb'; [exact Hc|]. rewrite Hoth; [exact Hz|].
        intros ->. contradiction.
Qed.

(** A blow that leaves armor changes the armor and nothing else. *)
Lemma Insect_reduce_armor_survives s i x amount :
  insects s !! i = Some x -> 0 < i_armor x - amount ->
  Insect_reduce_armor i amount s =
    (Ok tt, set_insects (fun l => <[i := struck amount x]> l) s).
Proof.
  intros Hx Hpos. unfold Insect_reduce_armor, struck.
  run (get_insect_ok s i x Hx).
  run (upd_insect_ok s i x (with_armor (i_armor x - amount)) Hx).
  assert ((i_armor x - amount <=? 0) = false) as -> by lia. reflexivity.
Qed.

(** The ant of a place, not the true queen, loses its last armor: it
    leaves the place, and the ant it contained takes the slot. *)
Lemma Insect_reduce_armor_ant_falls s a x p pl amount :
  insects s !! a = Some x -> class_is_ant (i_class x) = true ->
  insect_is_queen x = false -> i_place x = Some p ->
  places s !! p = Some pl -> p_ant pl = Some a ->
  i_armor x - amount <= 0 ->
  Insect_reduce_armor a amount s =
    (Ok tt,
     set_insects (fun l => <[a := struck amount x]> l)
       (set_places (fun l => <[p := with_p_ant (insect_contained_ant x) pl]> l)
          s)).
Proof.
  intros Hx Hant Hq Hpl Hp Ha Hle. unfold Insect_reduce_armor, struck.
  run (get_insect_ok s a x Hx).
  run (upd_insect_ok s a x (with_armor (i_armor x - amount)) Hx).
  assert ((i_armor x - amount <=? 0) = true) as -> by lia.
  rewrite Hpl. cbn [deref]. rewrite bind_ret.
  set (x1 := with_armor (i_armor x - amount) x).
  set (s1 := set_insects (fun l => <[a := x1]> l) s).
  assert (insects s1 !! a = Some x1) as Hx1.
  { apply list_lookup_insert_eq. eapply lookup_lt_Some, Hx. }
  rewrite (remove_insect_ant s1 p a pl x1 Hp Ha Hx1 Hant Hq).
  f_equal. unfold s1, set_insects, set_places.
  cbn [insects places cells queen_class_flag time food c_places c_queen
       c_hive c_ant_types c_bee_entrances rand_src rand_pos].
  rewrite list_insert_insert_eq. reflexivity.
Qed.

Lemma bees_ok_not_ant s p a x :
  bees_ok s p -> insects s !! a = Some x ->
  class_is_ant (i_class x) = true -> a ∉ bees_at s p.
Proof.
  intros [_ Hb] Hx Hant Hin. destruct (Hb a Hin) as (y & Hy & Hya & _).
  congruence.
Qed.

(** The loop on all the bees of the place of [self]. *)
Lemma strike_all_run s self x p pl :
  insects s !! self = Some x -> class_is_ant (i_class x) = true ->
  places s !! p = Some pl -> bees_ok s p ->
  exists s',
    strike_loop self (p_bees pl) s = (Ok tt, s') /\
    places s' !! p =
      Some (with_p_bees
              (List.filter (fun b => negb (dies s (i_damage x) b)) (p_bees pl))
              pl) /\
    (forall q, q <> p -> places s' !! q = places s !! q) /\
    (forall i, i ∉ p_bees pl -> insects s' !! i = insects s !! i) /\
    (forall b y, b ∈ p_bees pl -> insects s !! b = Some y ->
       insects s' !! b = Some (struck (i_damage x) y)).
Proof.
  intros Hx Hant Hp Hok.
  assert (bees_at s p = p_bees pl) as Hbees by (unfold bees_at; rewrite Hp; auto).
  pose proof (bees_ok_not_ant s p self x Hok Hx Hant) as Hself.
  destruct Hok as [Hnd Hb]. rewrite Hbees in *.
  apply (strike_loop_run p self x (p_bees pl) [] s pl); auto.
Qed.

(** [NinjaAnt.action]: every bee in the place of the ninja takes its
    damage once, the bees left without armor are out of the place and
    the others stay, in their order; nothing else changes. *)
Theorem NinjaAnt_strikes_every_bee s a x p pl :
  insects s !! a = Some x -> i_class x = NinjaAnt -> i_place x = Some p ->
  places s !! p = Some pl -> bees_ok s p ->
  exists s',
    action a s = (Ok tt, s') /\
    bees_at s' p =
      List.filter (fun b => negb (dies s (i_damage x) b)) (bees_at s p) /\
    (forall b y, b ∈ bees_at s p -> insects s !! b = Some y ->
       insects s' !! b = Some (struck (i_damage x) y)) /\
    (forall i, i ∉ bees_at s p -> insects s' !! i = insects s !! i) /\
    ant_at s' p = ant_at s p /\
    (forall q, q <> p -> places s' !! q = places s !! q).
Proof.
  intros Hx Hk Hpl Hp Hok.
  assert (class_is_ant (i_class x) = true) as Hant by (rewrite Hk; reflexivity).
  destruct (strike_all_run s a x p pl Hx Hant Hp Hok)
    as (s' & Hrun & Hp' & Hq' & Hi' & Hb').
  assert (bees_at s p = p_bees pl) as Hbees by (unfold bees_at; rewrite Hp; auto).
  exists s'. split.
  - unfold action. run (get_insect_ok s a x Hx). rewrite Hk.
    cbn [own_action]. unfold NinjaAnt_action.
    run (get_insect_ok s a x Hx). rewrite Hpl. cbn [deref]. rewrite bind_ret.
    run (get_place_ok s p pl Hp). exact Hrun.
  - rewrite Hbees. unfold bees_at, ant_at. rewrite Hp', Hp. auto.
Qed.

Lemma NinjaAnt_strikes_every_bee_witness :
  exists s',
    action 2 ninja_colony = (Ok tt, s') /\
    bees_at s' 9 =
      List.filter (fun b => negb (dies ninja_colony 1 b)) (bees_at ninja_colony 9) /\
    (forall b y, b ∈ bees_at ninja_colony 9 ->
       insects ninja_colony !! b = Some y ->
       insects s' !! b = Some (struck 1 y)) /\
    (forall i, i ∉ bees_at ninja_colony 9 ->
       insects s' !! i = insects ninja_colony !! i) /\
    ant_at s' 9 = ant_at ninja_colony 9 /\
    (forall q, q <> 9%nat -> places s' !! q = places ninja_colony !! q).
Proof.
  apply (NinjaAnt_strikes_every_bee ninja_colony 2%nat
           (MkInsect NinjaAnt 1 (Some 9%nat) [] 1 false None 0 false) 9%nat
           (MkPlace PlainPlace "tunnel_0_7" (Some 8%nat) [0%nat; 1%nat]
              (Some 2%nat) (Some 0%nat) []));
    try reflexivity.
  split.
  - apply (bool_decide_unpack _). vm_compute. exact I.
  - intros b Hb. vm_compute in Hb.
    apply elem_of_cons in Hb as [->|Hb];
      [|apply elem_of_cons in Hb as [->|Hb]; [|inversion Hb]];
      eexists; (split; [reflexivity|split; reflexivity]).
Defined.

(** * The fire ant *)

Lemma FireAnt_survives_run s a x amount :
  insects s !! a = Some x -> i_class x = FireAnt -> amount < i_armor x ->
  reduce_armor a amount s =
    (Ok tt, set_insects (fun l => <[a := struck amount x]> l) s).
Proof.
  intros Hx Hk Hlt. unfold reduce_armor. run (get_insect_ok s a x Hx).
  rewrite Hk. unfold FireAnt_reduce_armor. run (get_insect_ok s a x Hx).
  assert ((i_armor x <=? amount) = false) as -> by lia. rewrite bind_ret.
  apply Insect_reduce_armor_survives; [exact Hx|lia].
Qed.

(** The last blow on a fire ant that is the ant of its place. *)
Lemma FireAnt_falls_run s a x amount p pl :
  insects s !! a = Some x -> i_class x = FireAnt -> i_armor x <= amount ->
  i_place x = Some p -> places s !! p = Some pl ->
  p_ant pl = Some a -> bees_ok s p ->
  exists s',
    reduce_armor a amount s = (Ok tt, s') /\
    bees_at s' p =
      List.filter (fun b => negb (dies s (i_damage x) b)) (bees_at s p) /\
    (forall b y, b ∈ bees_at s p -> insects s !! b = Some y ->
       insects s' !! b = Some (struck (i_damage x) y)) /\
    insects s' !! a = Some (struck amount x) /\
    ant_at s' p = None /\
    (forall i, i <> a -> i ∉ bees_at s p ->
       insects s' !! i = insects s !! i) /\
    (forall q, q <> p -> places s' !! q = places s !! q).
Proof.
  intros Hx Hk Hle Hpl Hp Ha Hok.
  assert (class_is_ant (i_class x) = true) as Hant by (rewrite Hk; reflexivity).
  assert (insect_is_queen x = false) as Hq
    by (unfold insect_is_queen; rewrite Hk; reflexivity).
  assert (insect_contained_ant x = None) as Hin
    by (unfold insect_contained_ant; rewrite Hk; reflexivity).
  destruct (strike_all_run s a x p pl Hx Hant Hp Hok)
    as (s1 & Hrun & Hp1 & Hq1 & Hi1 & Hb1).
  assert (bees_at s p = p_bees pl) as Hbees
    by (unfold bees_at; rewrite Hp; auto).
  pose proof (bees_ok_not_ant s p a x Hok Hx Hant) as Hself.
  rewrite Hbees in *.
  assert (insects s1 !! a = Some x) as Hx1 by (rewrite Hi1; auto).
  assert (i_armor x - amount <= 0) as Hle' by lia.
  pose proof (Insect_reduce_armor_ant_falls s1 a x p _ amount
                Hx1 Hant Hq Hpl Hp1 Ha Hle') as Hfall.
  eexists. split.
  - unfold reduce_armor. run (get_insect_ok s a x Hx). rewrite Hk.
    unfold FireAnt_reduce_armor. run (get_insect_ok s a x Hx).
    assert ((i_armor x <=? amount) = true) as -> by lia.
    rewrite Hpl. cbn [deref]. run (eq_refl : ret p s = (Ok p, s)).
    run (get_place_ok s p pl Hp).
    unfold strike_loop in Hrun. run Hrun. exact Hfall.
  - unfold bees_at, ant_at. cbn [insects places set_insects set_places].
    assert (p < length (places s1))%nat as Hlen
      by (eapply lookup_lt_Some, Hp1).
    assert (a < length (insects s1))%nat as Hlena
      by (eapply lookup_lt_Some, Hx1).
    rewrite !list_lookup_insert_eq by assumption. rewrite Hin.
    split; [reflexivity|]. split.
    { intros b y Hb Hy. rewrite list_lookup_insert_ne
        by (intros ->; contradiction).
      apply Hb1; assumption. }
    split; [reflexivity|]. split; [reflexivity|]. split.
    { intros i Hia Hi. rewrite list_lookup_insert_ne by auto.
      apply Hi1, Hi. }
    intros q Hqp. rewrite list_lookup_insert_ne by auto. apply Hq1, Hqp.
Qed.

(** [FireAnt.reduce_armor].  A blow that leaves the fire ant some armor
    changes its armor and nothing else.  A blow that takes its last
    armor first strikes every bee of its place with the damage of the
    ant, once each: the bees left without armor are out of the place,
    the others stay in their order; then the ant leaves the slot. *)
Theorem FireAnt_burns_when_it_falls s a x amount :
  insects s !! a = Some x -> i_class x = FireAnt ->
  (amount < i_armor x ->
   reduce_armor a amount s =
     (Ok tt, set_insects (fun l => <[a := struck amount x]> l) s)) /\
  (i_armor x <= amount ->
   forall p pl, i_place x = Some p -> places s !! p = Some pl ->
     p_ant pl = Some a -> bees_ok s p ->
     exists s',
       reduce_armor a amount s = (Ok tt, s') /\
       bees_at s' p =
         List.filter (fun b => negb (dies s (i_damage x) b)) (bees_at s p) /\
       (forall b y, b ∈ bees_at s p -> insects s !! b = Some y ->
          insects s' !! b = Some (struck (i_damage x) y)) /\
       insects s' !! a = Some (struck amount x) /\
       ant_at s' p = None /\
       (forall i, i <> a -> i ∉ bees_at s p ->
          insects s' !! i = insects s !! i) /\
       (forall q, q <> p -> places s' !! q = places s !! q)).
Proof.
  intros Hx Hk. split.
  - apply FireAnt_survives_run; assumption.
  - intros Hle p pl. apply FireAnt_falls_run; assumption.
Qed.

Lemma FireAnt_burns_when_it_falls_witness :
  exists s',
    reduce_armor 2 1 fire_colony = (Ok tt, s') /\
    bees_at s' 9 =
      List.filter (fun b => negb (dies fire_colony 3 b)) (bees_at fire_colony 9) /\
    (forall b y, b ∈ bees_at fire_colony 9 ->
       insects fire_colony !! b = Some y ->
       insects s' !! b = Some (struck 3 y)) /\
    insects s' !! 2%nat =
      Some (struck 1 (MkInsect FireAnt 1 (Some 9%nat) [] 3 false None 0 false)) /\
    ant_at s' 9 = None /\
    (forall i, i <> 2%nat -> i ∉ bees_at fire_colony 9 ->
       insects s' !! i = insects fire_colony !! i) /\
    (forall q, q <> 9%nat -> places s' !! q = places fire_colony !! q).
Proof.
  apply (proj2 (FireAnt_burns_when_it_falls fire_colony 2%nat
                  (MkInsect FireAnt 1 (Some 9%nat) [] 3 false None 0 false) 1
                  eq_refl eq_refl)
           ltac:(simpl; lia) 9%nat
           (MkPlace PlainPlace "tunnel_0_7" (Some 8%nat) [0%nat; 1%nat]
              (Some 2%nat) (Some 0%nat) []) eq_refl eq_refl eq_refl).
  split.
  - apply (bool_decide_unpack _). vm_compute. exact I.
  - intros b Hb. vm_compute in Hb.
    apply elem_of_cons in Hb as [->|Hb];
      [|apply elem_of_cons in Hb as [->|Hb]; [|inversion Hb]];
      eexists; (split; [reflexivity|split; reflexivity]).
Defined.

(** * The moves of a bee *)

(** [add_insect] of a bee: it comes last among the bees of the place,
    Water or not, and points to it. *)
Lemma add_insect_bee s t b y tl :
  places s !! t = Some tl -> insects s !! b = Some y -> i_class y = Bee ->
  add_insect t b s =
    (Ok tt,
     set_insects (fun l => <[b := with_place (Some t) y]> l)
       (set_places (fun l => <[t := with_p_bees (p_bees tl ++ [b]) tl]> l) s)).
Proof.
  intros Ht Hy Hk.
  set (s1 := set_places (fun l => <[t := with_p_bees (p_bees tl ++ [b]) tl]> l) s).
  set (s2 := set_insects (fun l => <[b := with_place (Some t) y]> l) s1).
  assert (Place_add_insect t b s = (Ok tt, s2)) as HP.
  { unfold Place_add_insect. run (is_ant_run s b y Hy). rewrite Hk.
    cbn [class_is_ant].
    run (upd_place_ok s t tl (fun p => with_p_bees (p_bees p ++ [b]) p) Ht).
    apply (upd_insect_ok s1 b y). exact Hy. }
  unfold add_insect. run (get_place_ok s t tl Ht).
  destruct (p_kind tl); try exact HP.
  unfold Water_add_insect. run HP.
  assert (insects s2 !! b = Some (with_place (Some t) y)) as Hy2.
  { apply list_lookup_insert_eq. eapply lookup_lt_Some, Hy. }
  run (get_insect_ok s2 b _ Hy2). cbn [i_class with_place]. rewrite Hk.
  reflexivity.
Qed.

Lemma blocked_free s b y p pl :
  insects s !! b = Some y -> i_place y = Some p -> places s !! p = Some pl ->
  p_ant pl = None -> blocked b s = (Ok false, s).
Proof.
  intros Hy Hpl Hp Ha. unfold blocked. run (get_insect_ok s b y Hy).
  rewrite Hpl. cbn [deref]. rewrite bind_ret.
  run (get_place_ok s p pl Hp). rewrite Ha. reflexivity.
Qed.

Lemma blocked_by s b y p pl a z :
  insects s !! b = Some y -> i_place y = Some p -> places s !! p = Some pl ->
  p_ant pl = Some a -> insects s !! a = Some z ->
  blocked b s = (Ok (class_blocks_path (i_class z)), s).
Proof.
  intros Hy Hpl Hp Ha Hz. unfold blocked. run (get_insect_ok s b y Hy).
  rewrite Hpl. cbn [deref]. rewrite bind_ret.
  run (get_place_ok s p pl Hp). rewrite Ha.
  run (get_insect_ok s a z Hz). reflexivity.
Qed.

(** The store after the bee [b] left the place [p]. *)
Lemma move_to_leaves s b y p pl l :
  insects s !! b = Some y -> i_class y = Bee -> i_place y = Some p ->
  places s !! p = Some pl -> list_remove b (p_bees pl) = Some l ->
  forall target,
  move_to b target s =
    bind (deref target) (fun t => add_insect t b)
      (set_insects (fun l' => <[b := with_place None y]> l')
         (set_places (fun ps => <[p := with_p_bees l pl]> ps) s)).
Proof.
  intros Hy Hk Hpl Hp Hl target. unfold move_to.
  run (get_insect_ok s b y Hy). rewrite Hpl. cbn [deref]. rewrite bind_ret.
  assert (class_is_ant (i_class y) = false) as Hant by (rewrite Hk; reflexivity).
  run (remove_insect_bee s p b pl y l Hp Hy Hant Hl). reflexivity.
Qed.

(** [Bee.move_to(None)]: the bee has left its place when the missing
    target is noticed, so the call raises [AttributeError] and leaves
    the bee in no place at all. *)
Theorem move_to_None_strands_the_bee s b y p pl :
  insects s !! b = Some y -> i_class y = Bee -> i_place y = Some p ->
  places s !! p = Some pl -> b ∈ p_bees pl -> NoDup (p_bees pl) ->
  exists s',
    move_to b None s = (Raise AttributeError, s') /\
    place_of s' b = None /\
    (b ∉ bees_at s' p) /\
    (forall c, c <> b -> c ∈ bees_at s' p <-> c ∈ bees_at s p).
Proof.
  intros Hy Hk Hpl Hp Hin Hnd.
  destruct (list_remove_elem b (p_bees pl) Hin) as [l Hl].
  destruct (list_remove_NoDup b (p_bees pl) l Hnd Hl) as [_ Hiff].
  eexists. split.
  - rewrite (move_to_leaves s b y p pl l Hy Hk Hpl Hp Hl). reflexivity.
  - unfold place_of, bees_at. cbn [insects places set_insects set_places].
    rewrite !list_lookup_insert_eq by (eapply lookup_lt_Some; eauto).
    rewrite Hp. cbn [p_bees with_p_bees i_place with_place].
    split; [reflexivity|]. split.
    + intros Hb. apply Hiff in Hb as [_ Hb]. congruence.
    + intros c Hc. rewrite Hiff. tauto.
Qed.

Lemma move_to_None_strands_the_bee_witness :
  exists s',
    move_to 0 None ninja_colony = (Raise AttributeError, s') /\
    place_of s' 0 = None /\
    (0%nat ∉ bees_at s' 9) /\
    (forall c, c <> 0%nat -> c ∈ bees_at s' 9 <-> c ∈ bees_at ninja_colony 9).
Proof.
  apply (move_to_None_strands_the_bee ninja_colony 0%nat
           (MkInsect Bee 3 (Some 9%nat) [] 0 false None 0 false) 9%nat
           (MkPlace PlainPlace "tunnel_0_7" (Some 8%nat) [0%nat; 1%nat]
              (Some 2%nat) (Some 0%nat) []));
    try reflexivity.
  - left.
  - apply (bool_decide_unpack _). vm_compute. exact I.
Defined.

(** [Bee._action] of a bee with armor that nothing blocks, outside the
    Hive: the bee moves to the exit of its place.  It is out of the
    bees of the place it leaves, the last of the bees of the exit, and
    points to the exit; nothing else changes.  A ninja in the place of
    the bee does not block it. *)
Theorem Bee_advances_to_the_exit s b y p pl e el :
  insects s !! b = Some y -> i_class y = Bee -> i_place y = Some p ->
  places s !! p = Some pl -> b ∈ p_bees pl -> NoDup (p_bees pl) ->
  0 < i_armor y -> p_name pl <> "Hive" ->
  match p_ant pl with
  | None => True
  | Some a => exists z, insects s !! a = Some z /\ i_class z = NinjaAnt
  end ->
  p_exit pl = Some e -> places s !! e = Some el -> e <> p ->
  exists s',
    Bee__action b s = (Ok tt, s') /\
    insects s' !! b = Some (with_place (Some e) y) /\
    bees_at s' e = bees_at s e ++ [b] /\
    (b ∉ bees_at s' p) /\
    (forall c, c <> b -> c ∈ bees_at s' p <-> c ∈ bees_at s p) /\
    ant_at s' p = ant_at s p /\
    (forall i, i <> b -> insects s' !! i = insects s !! i) /\
    (forall q, q <> p -> q <> e -> places s' !! q = places s !! q).
Proof.
  intros Hy Hk Hpl Hp Hin Hnd Harm Hname Hfree He Hel Hne.
  destruct (list_remove_elem b (p_bees pl) Hin) as [l Hl].
  destruct (list_remove_NoDup b (p_bees pl) l Hnd Hl) as [_ Hiff].
  assert (blocked b s = (Ok false, s)) as Hblocked.
  { destruct (p_ant pl) as [a|] eqn:Ha.
    - destruct Hfree as (z & Hz & Hzk).
      rewrite (blocked_by s b y p pl a z Hy Hpl Hp Ha Hz), Hzk. reflexivity.
    - apply (blocked_free s b y p pl Hy Hpl Hp Ha). }
  set (s1 := set_insects (fun l' => <[b := with_place None y]> l')
               (set_places (fun ps => <[p := with_p_bees l pl]> ps) s)).
  assert (places s1 !! e = Some el) as Hel1.
  { cbn [places s1 set_insects set_places].
    rewrite list_lookup_insert_ne by auto. exact Hel. }
  assert (insects s1 !! b = Some (with_place None y)) as Hy1.
  { apply list_lookup_insert_eq. eapply lookup_lt_Some, Hy. }
  eexists. split.
  - unfold Bee__action. run Hblocked.
    run (get_insect_ok s b y Hy). rewrite Hpl. cbn [deref]. rewrite bind_ret.
    run (get_place_ok s p pl Hp).
    assert ((negb (p_name pl =? "Hive")%string && (i_armor y >? 0)) = true)
      as ->.
    { apply andb_true_intro. split; [|lia].
      destruct (String.eqb_spec (p_name pl) "Hive"); [contradiction|reflexivity]. }
    run (get_insect_ok s b y Hy). rewrite Hpl. cbn [deref]. rewrite bind_ret.
    run (get_place_ok s p pl Hp). rewrite He.
    rewrite (move_to_leaves s b y p pl l Hy Hk Hpl Hp Hl). cbn [deref].
    rewrite bind_ret. fold s1.
    apply (add_insect_bee s1 e b (with_place None y) el Hel1 Hy1 Hk).
  - unfold bees_at, ant_at. cbn [insects places set_insects set_places s1].
    assert (p < length (places s))%nat as Hlp by (eapply lookup_lt_Some, Hp).
    assert (e < length (places s))%nat as Hle by (eapply lookup_lt_Some, Hel).
    assert (b < length (insects s))%nat as Hlb by (eapply lookup_lt_Some, Hy).
    rewrite list_lookup_insert_eq by (rewrite length_insert; exact Hlb).
    rewrite list_lookup_insert_eq by (rewrite length_insert; exact Hle).
    rewrite list_lookup_insert_ne by auto.
    rewrite list_lookup_insert_eq by exact Hlp.
    rewrite Hel, Hp. cbn [p_bees p_ant with_p_bees].
    split; [destruct y; reflexivity|]. split; [reflexivity|]. split.
    { intros Hb. apply Hiff in Hb as [_ Hb]. congruence. }
    split.
    { intros c Hc. rewrite Hiff. tauto. }
    split; [reflexivity|]. split.
    { intros i Hi. rewrite !list_lookup_insert_ne by auto. reflexivity. }
    intros q Hqp Hqe. rewrite !list_lookup_insert_ne by auto. reflexivity.
Qed.

Lemma Bee_advances_to_the_exit_witness :
  exists s',
    Bee__action 0 ninja_colony = (Ok tt, s') /\
    insects s' !! 0%nat =
      Some (with_place (Some 8%nat)
              (MkInsect Bee 3 (Some 9%nat) [] 0 false None 0 false)) /\
    bees_at s' 8 = bees_at ninja_colony 8 ++ [0%nat] /\
    (0%nat ∉ bees_at s' 9) /\
    (forall c, c <> 0%nat -> c ∈ bees_at s' 9 <-> c ∈ bees_at ninja_colony 9) /\
    ant_at s' 9 = ant_at ninja_colony 9 /\
    (forall i, i <> 0%nat -> insects s' !! i = insects ninja_colony !! i) /\
    (forall q, q <> 9%nat -> q <> 8%nat ->
       places s' !! q = places ninja_colony !! q).
Proof.
  apply (Bee_advances_to_the_exit ninja_colony 0%nat
           (MkInsect Bee 3 (Some 9%nat) [] 0 false None 0 false) 9%nat
           (MkPlace PlainPlace "tunnel_0_7" (Some 8%nat) [0%nat; 1%nat]
              (Some 2%nat) (Some 0%nat) [])
           8%nat
           (MkPlace PlainPlace "tunnel_0_6" (Some 7%nat) [] None (Some 9%nat) []));
    try reflexivity.
  - left.
  - apply (bool_decide_unpack _). vm_compute. exact I.
  - discriminate.
  - eexists. split; reflexivity.
  - discriminate.
Defined.

(** [Bee._action] where the bee has nowhere to go: a bee that nothing
    blocks (its place has no ant, or the ant is a ninja) stays where
    it is when its place is the one named Hive, and when it has no
    armor left; the store is as it was. *)
Theorem Bee_waits_in_the_Hive s b y p pl :
  insects s !! b = Some y -> i_place y = Some p ->
  places s !! p = Some pl ->
  match p_ant pl with
  | None => True
  | Some a => exists z, insects s !! a = Some z /\ i_class z = NinjaAnt
  end ->
  p_name pl = "Hive" \/ i_armor y <= 0 ->
  Bee__action b s = (Ok tt, s).
Proof.
  intros Hy Hpl Hp Hfree Hstay. unfold Bee__action.
  assert (blocked b s = (Ok false, s)) as Hblocked.
  { destruct (p_ant pl) as [a|] eqn:Ha.
    - destruct Hfree as (z & Hz & Hzk).
      rewrite (blocked_by s b y p pl a z Hy Hpl Hp Ha Hz), Hzk. reflexivity.
    - apply (blocked_free s b y p pl Hy Hpl Hp Ha). }
  run Hblocked.
  run (get_insect_ok s b y Hy). rewrite Hpl. cbn [deref]. rewrite bind_ret.
  run (get_place_ok s p pl Hp).
  assert ((negb (p_name pl =? "Hive")%string && (i_armor y >? 0)) = false)
    as ->; [|reflexivity].
  destruct Hstay as [-> | Hle]; [reflexivity|].
  apply andb_false_intro2. lia.
Qed.

Lemma Bee_waits_in_the_Hive_witness :
  Bee__action 0 hive_ninja_state = (Ok tt, hive_ninja_state).
Proof.
  apply (Bee_waits_in_the_Hive hive_ninja_state 0%nat
           (MkInsect Bee 3 (Some 0%nat) [] 0 false None 0 false) 0%nat
           (MkPlace HivePlace "Hive" None [0%nat] (Some 1%nat) None
              [(100, [0%nat])]));
    try reflexivity.
  - eexists. split; reflexivity.
  - left. reflexivity.
Defined.

(** * A bee in front of an ant *)

Lemma reduce_armor_plain s i x amount :
  insects s !! i = Some x -> i_class x <> FireAnt ->
  reduce_armor i amount s = Insect_reduce_armor i amount s.
Proof.
  intros Hx Hk. unfold reduce_armor. run (get_insect_ok s i x Hx).
  destruct (i_class x); try reflexivity. congruence.
Qed.

(** [Bee._action] of a bee whose place holds an ant that blocks the
    path (any ant but a ninja; here not a fire ant and not the true
    queen): the bee stays and stings, and the ant of the place loses 1
    armor.  An ant it contains is not touched: a bodyguard takes the
    sting for the ant it hides.  When the ant of the place is left
    without armor it leaves, and the ant it hid, if any, is then the
    ant of the place. *)
Theorem Bee_stings_the_ant_of_its_place s b y p pl g z :
  insects s !! b = Some y -> i_place y = Some p ->
  places s !! p = Some pl -> p_ant pl = Some g ->
  insects s !! g = Some z -> i_place z = Some p ->
  class_is_ant (i_class z) = true ->
  i_class z <> NinjaAnt -> i_class z <> FireAnt ->
  insect_is_queen z = false ->
  exists s',
    Bee__action b s = (Ok tt, s') /\
    insects s' !! g = Some (struck 1 z) /\
    ant_at s' p =
      (if i_armor z - 1 <=? 0 then insect_contained_ant z else Some g) /\
    bees_at s' p = bees_at s p /\
    (forall i, i <> g -> insects s' !! i = insects s !! i) /\
    (forall q, q <> p -> places s' !! q = places s !! q).
Proof.
  intros Hy Hpl Hp Hg Hz Hzp Hant Hninja Hfire Hq.
  assert (class_blocks_path (i_class z) = true) as Hblocks
    by (destruct (i_class z); try reflexivity; congruence).
  assert (Bee__action b s = Insect_reduce_armor g 1 s) as Hrun.
  { unfold Bee__action.
    run (blocked_by s b y p pl g z Hy Hpl Hp Hg Hz). rewrite Hblocks.
    run (get_insect_ok s b y Hy). rewrite Hpl. cbn [deref]. rewrite bind_ret.
    run (get_place_ok s p pl Hp). rewrite Hg. cbn [deref]. rewrite bind_ret.
    unfold sting. apply (reduce_armor_plain s g z 1 Hz Hfire). }
  assert (g < length (insects s))%nat as Hlg by (eapply lookup_lt_Some, Hz).
  assert (p < length (places s))%nat as Hlp by (eapply lookup_lt_Some, Hp).
  rewrite Hrun. unfold ant_at, bees_at.
  destruct (Z.leb_spec (i_armor z - 1) 0) as [Hle|Hgt].
  - eexists. split.
    + apply (Insect_reduce_armor_ant_falls s g z p pl 1 Hz Hant Hq Hzp Hp Hg Hle).
    + cbn [insects places set_insects set_places].
      rewrite !list_lookup_insert_eq by assumption. rewrite Hp.
      repeat split.
      * intros i Hi. apply list_lookup_insert_ne. auto.
      * intros q Hqp. apply list_lookup_insert_ne. auto.
  - eexists. split.
    + apply (Insect_reduce_armor_survives s g z 1 Hz). lia.
    + cbn [insects places set_insects].
      rewrite !list_lookup_insert_eq by assumption. rewrite Hp, Hg.
      repeat split.
      intros i Hi. apply list_lookup_insert_ne. auto.
Qed.

Lemma Bee_stings_the_ant_of_its_place_witness :
  exists s',
    Bee__action 0 stung_colony = (Ok tt, s') /\
    insects s' !! 2%nat =
      Some (struck 1 (MkInsect BodyguardAnt 1 (Some 2%nat) [] 0 false
                        (Some 1%nat) 0 false)) /\
    ant_at s' 2 = Some 1%nat /\
    bees_at s' 2 = bees_at stung_colony 2 /\
    (forall i, i <> 2%nat -> insects s' !! i = insects stung_colony !! i) /\
    (forall q, q <> 2%nat -> places s' !! q = places stung_colony !! q).
Proof.
  apply (Bee_stings_the_ant_of_its_place stung_colony 0%nat
           (MkInsect Bee 3 (Some 2%nat) [] 0 false None 0 false) 2%nat
           (MkPlace PlainPlace "tunnel_0_0" (Some 1%nat) [0%nat] (Some 2%nat)
              (Some 3%nat) [])
           2%nat
           (MkInsect BodyguardAnt 1 (Some 2%nat) [] 0 false (Some 1%nat) 0 false));
    try reflexivity; discriminate.
Defined.

(** * Impostor queens *)

(** An ant without armor left that is not the ant of its place: the
    assertion of [remove_insect] fails, after the armor was written. *)
Lemma Insect_reduce_armor_hidden s a x p pl amount :
  insects s !! a = Some x -> class_is_ant (i_class x) = true ->
  insect_is_queen x = false -> i_place x = Some p ->
  places s !! p = Some pl -> p_ant pl <> Some a ->
  i_armor x - amount <= 0 ->
  Insect_reduce_armor a amount s =
    (Raise AssertionError,
     set_insects (fun l => <[a := with_armor (i_armor x - amount) x]> l) s).
Proof.
  intros Hx Hant Hq Hpl Hp Ha Hle. unfold Insect_reduce_armor.
  run (get_insect_ok s a x Hx).
  run (upd_insect_ok s a x (with_armor (i_armor x - amount)) Hx).
  assert ((i_armor x - amount <=? 0) = true) as -> by lia.
  rewrite Hpl. cbn [deref]. rewrite bind_ret.
  apply (remove_insect_not_in_slot _ p a pl (with_armor (i_armor x - amount) x));
    auto.
  apply list_lookup_insert_eq. eapply lookup_lt_Some, Hx.
Qed.

(** [QueenAnt.action] of an impostor that is the ant of its place: she
    gives up all her armor and leaves the place, whose slot is then
    empty; she throws nothing and doubles nothing. *)
Theorem impostor_queen_dies_on_her_first_action s q x p pl :
  insects s !! q = Some x -> i_class x = QueenAnt ->
  i_is_true_queen x = false -> i_place x = Some p ->
  places s !! p = Some pl -> p_ant pl = Some q ->
  action q s =
    (Ok tt,
     set_insects (fun l => <[q := with_place None (with_armor 0 x)]> l)
       (set_places (fun l => <[p := with_p_ant None pl]> l) s)).
Proof.
  intros Hx Hk Htrue Hpl Hp Ha.
  assert (class_is_ant (i_class x) = true) as Hant by (rewrite Hk; reflexivity).
  assert (insect_is_queen x = false) as Hq
    by (unfold insect_is_queen; rewrite Hk; exact Htrue).
  unfold action. run (get_insect_ok s q x Hx). rewrite Hk.
  cbn [own_action]. unfold QueenAnt_action.
  run (get_insect_ok s q x Hx). rewrite Htrue. cbn [negb].
  rewrite (Insect_reduce_armor_ant_falls s q x p pl (i_armor x)
             Hx Hant Hq Hpl Hp Ha) by lia.
  unfold struck, insect_contained_ant. rewrite Hk, Z.sub_diag. reflexivity.
Qed.

Lemma impostor_queen_dies_on_her_first_action_witness :
  action 1 (exec (remove_ant "tunnel_0_0") impostor_colony) =
    (Ok tt,
     set_insects (fun l => <[1%nat := with_place None (with_armor 0
         (MkInsect QueenAnt 1 (Some 2%nat) [] 1 false None 0 false))]> l)
       (set_places (fun l => <[2%nat := with_p_ant None
         (MkPlace PlainPlace "tunnel_0_0" (Some 1%nat) [] (Some 1%nat)
            (Some 3%nat) [])]> l)
          (exec (remove_ant "tunnel_0_0") impostor_colony))).
Proof.
  apply (impostor_queen_dies_on_her_first_action
           (exec (remove_ant "tunnel_0_0") impostor_colony) 1%nat
           (MkInsect QueenAnt 1 (Some 2%nat) [] 1 false None 0 false) 2%nat
           (MkPlace PlainPlace "tunnel_0_0" (Some 1%nat) [] (Some 1%nat)
              (Some 3%nat) []));
    reflexivity.
Defined.

(** [BodyguardAnt.action] over an impostor queen.  The bodyguard hands
    the action to the queen it hides; she gives up her armor and asks
    her place to remove her; the ant of the place is the bodyguard, not
    her, so the assertion of [remove_insect] fails: the action raises
    [AssertionError], and the impostor stays hidden in the bodyguard
    with no armor. *)
Theorem hidden_impostor_queen_breaks_the_action s g z q x p pl :
  insects s !! g = Some z -> i_class z = BodyguardAnt -> i_ant z = Some q ->
  insects s !! q = Some x -> i_class x = QueenAnt ->
  i_is_true_queen x = false -> i_place x = Some p ->
  places s !! p = Some pl -> p_ant pl = Some g -> g <> q ->
  action g s =
    (Raise AssertionError,
     set_insects (fun l => <[q := with_armor 0 x]> l) s).
Proof.
  intros Hz Hzk Hza Hx Hk Htrue Hpl Hp Ha Hne.
  assert (class_is_ant (i_class x) = true) as Hant by (rewrite Hk; reflexivity).
  assert (insect_is_queen x = false) as Hq
    by (unfold insect_is_queen; rewrite Hk; exact Htrue).
  unfold action. run (get_insect_ok s g z Hz). rewrite Hzk, Hza.
  run (get_insect_ok s q x Hx). rewrite Hk.
  cbn [own_action]. unfold QueenAnt_action.
  run (get_insect_ok s q x Hx). rewrite Htrue. cbn [negb].
  rewrite (Insect_reduce_armor_hidden s q x p pl (i_armor x)
             Hx Hant Hq Hpl Hp) by (congruence || lia).
  rewrite Z.sub_diag. reflexivity.
Qed.

Lemma hidden_impostor_queen_breaks_the_action_witness :
  action 2 impostor_colony =
    (Raise AssertionError,
     set_insects (fun l => <[1%nat := with_armor 0
         (MkInsect QueenAnt 1 (Some 2%nat) [] 1 false None 0 false)]> l)
       impostor_colony).
Proof.
  apply (hidden_impostor_queen_breaks_the_action impostor_colony 2%nat
           (MkInsect BodyguardAnt 2 (Some 2%nat) [] 0 false (Some 1%nat) 0 false)
           1%nat
           (MkInsect QueenAnt 1 (Some 2%nat) [] 1 false None 0 false) 2%nat
           (MkPlace PlainPlace "tunnel_0_0" (Some 1%nat) [] (Some 2%nat)
              (Some 3%nat) []));
    try reflexivity.
  discriminate.
Defined.

(** * The hungry ant *)

Lemma set_insects_id s l :
  l = insects s -> set_insects (fun _ => l) s = s.
Proof. intros ->. destruct s; reflexivity. Qed.

Lemma HungryAnt_counts_down s a x :
  insects s !! a = Some x -> i_class x = HungryAnt -> 0 < i_digesting x ->
  action a s =
    (Ok tt,
     set_insects (fun l => <[a := with_digesting (i_digesting x - 1) x]> l) s).
Proof.
  intros Hx Hk Hd. unfold action. run (get_insect_ok s a x Hx). rewrite Hk.
  cbn [own_action]. unfold HungryAnt_action. run (get_insect_ok s a x Hx).
  assert ((i_digesting x >? 0) = true) as -> by lia.
  apply upd_insect_ok, Hx.
Qed.

(** [HungryAnt.action] while the ant digests.  With [digesting] at [n]
    the next [n] actions of the ant only count down: they bring
    [digesting] to 0 and change nothing else, so no bee is eaten and
    no random number is drawn.  After a meal that is 3 actions. *)
Theorem HungryAnt_digests_before_it_eats_again n : forall s a x,
  insects s !! a = Some x -> i_class x = HungryAnt ->
  i_digesting x = Z.of_nat n ->
  acts n a s =
    (Ok tt, set_insects (fun l => <[a := with_digesting 0 x]> l) s).
Proof.
  induction n as [|n IH]; intros s a x Hx Hk Hd.
  - cbn [acts]. unfold ret. f_equal. symmetry.
    apply (set_insects_id s (<[a := with_digesting 0 x]> (insects s))).
    apply list_insert_id. rewrite Hx. f_equal.
    destruct x; cbn in *. subst. reflexivity.
  - cbn [acts].
    run (HungryAnt_counts_down s a x Hx Hk ltac:(lia)).
    set (x1 := with_digesting (i_digesting x - 1) x).
    rewrite (IH _ a x1).
    + f_equal. unfold set_insects.
      cbn [insects places cells queen_class_flag time food c_places c_queen
           c_hive c_ant_types c_bee_entrances rand_src rand_pos].
      rewrite list_insert_insert_eq. reflexivity.
    + apply list_lookup_insert_eq. eapply lookup_lt_Some, Hx.
    + exact Hk.
    + cbn [x1 i_digesting with_digesting]. lia.
Qed.

Lemma HungryAnt_digests_before_it_eats_again_witness :
  acts 3 2 (exec (action 2) hungry_colony) =
    (Ok tt,
     set_insects (fun l => <[2%nat := with_digesting 0
         (MkInsect HungryAnt 1 (Some 9%nat) [] 0 false None 3 false)]> l)
       (exec (action 2) hungry_colony)).
Proof.
  apply (HungryAnt_digests_before_it_eats_again 3
           (exec (action 2) hungry_colony) 2%nat
           (MkInsect HungryAnt 1 (Some 9%nat) [] 0 false None 3 false));
    reflexivity.
Defined.

Lemma random_choice_run {A} (l : list A) s k x :
  k = (rand_src s (rand_pos s) mod length l)%nat -> l !! k = Some x ->
  random_choice l s = (Ok x, set_rand_pos (S (rand_pos s)) s).
Proof.
  intros -> Hx. unfold random_choice.
  destruct l as [|z l']; [rewrite lookup_nil in Hx; discriminate|].
  unfold bind at 1. unfold next_random. rewrite Hx. reflexivity.
Qed.

Lemma random_or_none_run {A} (l : list A) s k x :
  k = (rand_src s (rand_pos s) mod length l)%nat -> l !! k = Some x ->
  random_or_none l s = (Ok (Some x), set_rand_pos (S (rand_pos s)) s).
Proof.
  intros Hk Hx. pose proof (random_choice_run l s k x Hk Hx) as Hrun.
  unfold random_or_none.
  destruct l; [rewrite lookup_nil in Hx; discriminate|].
  rewrite (bind_ok _ _ _ _ _ Hrun). reflexivity.
Qed.

(** [HungryAnt.action] of an ant that is not digesting.  With no bee in
    its place nothing happens.  Otherwise one bee of the place, the
    one that [random.choice] picks, loses all its armor and leaves the
    place; the other bees stay as they are, in their order, and the
    ant starts to digest for 3 turns. *)
Theorem HungryAnt_eats_one_bee s a x p pl :
  insects s !! a = Some x -> i_class x = HungryAnt -> i_digesting x <= 0 ->
  i_place x = Some p -> places s !! p = Some pl -> bees_ok s p ->
  (p_bees pl = [] -> action a s = (Ok tt, s)) /\
  (forall k b y,
     k = (rand_src s (rand_pos s) mod length (p_bees pl))%nat ->
     p_bees pl !! k = Some b -> insects s !! b = Some y ->
     exists s',
       action a s = (Ok tt, s') /\
       insects s' !! b = Some (with_place None (with_armor 0 y)) /\
       insects s' !! a = Some (with_digesting time_to_digest x) /\
       bees_at s' p = take k (p_bees pl) ++ drop (S k) (p_bees pl) /\
       rand_pos s' = S (rand_pos s) /\
       (forall i, i <> a -> i <> b -> insects s' !! i = insects s !! i) /\
       (forall q, q <> p -> places s' !! q = places s !! q)).
Proof.
  intros Hx Hk Hd Hpl Hp Hok.
  assert (action a s =
          bind (random_or_none (p_bees pl))
            (fun bee => match bee with
                        | Some b => eat_bee a b
                        | None => ret tt
                        end) s) as Hact.
  { unfold action. run (get_insect_ok s a x Hx). rewrite Hk.
    cbn [own_action]. unfold HungryAnt_action. run (get_insect_ok s a x Hx).
    assert ((i_digesting x >? 0) = false) as -> by lia.
    rewrite Hpl. cbn [deref]. rewrite bind_ret.
    run (get_place_ok s p pl Hp). reflexivity. }
  split.
  - intros Hnil. rewrite Hact, Hnil. reflexivity.
  - intros k b y Hkk Hb Hy.
    assert (bees_at s p = p_bees pl) as Hbees
      by (unfold bees_at; rewrite Hp; auto).
    assert (class_is_ant (i_class x) = true) as Hant
      by (rewrite Hk; reflexivity).
    pose proof (bees_ok_not_ant s p a x Hok Hx Hant) as Hself.
    destruct Hok as [Hnd Hall]. rewrite Hbees in *.
    assert (b ∈ p_bees pl) as Hin by (eapply list_elem_of_lookup_2, Hb).
    destruct (Hall b Hin) as (y' & Hy' & Hyant & Hypl).
    assert (y' = y) as -> by congruence.
    assert (a <> b) as Hab by (intros ->; contradiction).
    pose proof (take_drop_middle (p_bees pl) k b Hb) as Hsplit.
    assert (b ∉ take k (p_bees pl)) as Hpre.
    { rewrite <- Hsplit in Hnd. apply NoDup_app in Hnd as (_ & Hdisj & _).
      intros Hin'. apply (Hdisj b Hin'). left. }
    set (s0 := set_rand_pos (S (rand_pos s)) s).
    destruct (strike_spec s0 p (i_armor y) b y pl (take k (p_bees pl))
                (drop (S k) (p_bees pl)) Hy Hp (eq_sym Hsplit) Hpre)
      as [Hins Hpls].
    assert (dies s0 (i_armor y) b = true) as Hdies.
    { unfold dies. cbn [insects s0 set_rand_pos]. rewrite Hy. lia. }
    rewrite Hdies in Hpls.
    set (s1 := strike p (i_armor y) s0 b) in *.
    assert (insects s1 !! a = Some x) as Hx1.
    { rewrite Hins. rewrite list_lookup_insert_ne by auto. exact Hx. }
    eexists. split.
    + rewrite Hact. run (random_or_none_run (p_bees pl) s k b Hkk Hb).
      unfold eat_bee. run (get_insect_ok s0 b y Hy).
      run (bee_reduce_armor_bee s0 p b y pl (i_armor y) Hy Hyant Hypl Hp Hin).
      apply (upd_insect_ok s1 a x). exact Hx1.
    + unfold bees_at. cbn [insects places rand_pos set_insects].
      rewrite Hins, Hpls. cbn [insects places rand_pos s0 set_rand_pos].
      assert (a < length (insects s))%nat by (eapply lookup_lt_Some, Hx).
      assert (b < length (insects s))%nat by (eapply lookup_lt_Some, Hy).
      assert (p < length (places s))%nat by (eapply lookup_lt_Some, Hp).
      rewrite list_lookup_insert_ne by auto.
      rewrite !list_lookup_insert_eq by (rewrite ?length_insert; assumption).
      split.
      { unfold struck. rewrite Z.sub_diag. reflexivity. }
      split; [reflexivity|]. split; [reflexivity|]. split.
      { pose proof (strike_rest s0 p (i_armor y) b) as Hrest.
        cbv zeta in Hrest. fold s1 in Hrest.
        destruct Hrest as (_ & _ & _ & _ & _ & _ & _ & _ & ->). reflexivity. }
      split.
      * intros i Hia Hib. rewrite !list_lookup_insert_ne by auto. reflexivity.
      * intros q Hq. rewrite list_lookup_insert_ne by auto. reflexivity.
Qed.

Lemma HungryAnt_eats_one_bee_witness :
  exists s',
    action 2 hungry_colony = (Ok tt, s') /\
    insects s' !! 0%nat =
      Some (with_place None (with_armor 0
              (MkInsect Bee 3 (Some 9%nat) [] 0 false None 0 false))) /\
    insects s' !! 2%nat =
      Some (with_digesting time_to_digest
              (MkInsect HungryAnt 1 (Some 9%nat) [] 0 false None 0 false)) /\
    bees_at s' 9 = take 0 [0%nat; 1%nat] ++ drop 1 [0%nat; 1%nat] /\
    rand_pos s' = S (rand_pos hungry_colony) /\
    (forall i, i <> 2%nat -> i <> 0%nat ->
       insects s' !! i = insects hungry_colony !! i) /\
    (forall q, q <> 9%nat -> places s' !! q = places hungry_colony !! q).
Proof.
  assert (bees_ok hungry_colony 9) as Hok.
  { split.
    - apply (bool_decide_unpack _). vm_compute. exact I.
    - intros b Hb. vm_compute in Hb.
      apply elem_of_cons in Hb as [->|Hb];
        [|apply elem_of_cons in Hb as [->|Hb]; [|inversion Hb]];
        eexists; (split; [reflexivity|split; reflexivity]). }
  apply (proj2 (HungryAnt_eats_one_bee hungry_colony 2%nat
                  (MkInsect HungryAnt 1 (Some 9%nat) [] 0 false None 0 false)
                  9%nat
                  (MkPlace PlainPlace "tunnel_0_7" (Some 8%nat) [0%nat; 1%nat]
                     (Some 2%nat) (Some 0%nat) [])
                  eq_refl eq_refl ltac:(simpl; lia) eq_refl eq_refl Hok)
           0%nat 0%nat (MkInsect Bee 3 (Some 9%nat) [] 0 false None 0 false)
           eq_refl eq_refl eq_refl).
Defined.

(** * The hive *)

(** [colony.places.values()] reads the registered places and changes
    nothing. *)
Lemma map_M_get_place_run s : forall ids,
  Forall (fun q => is_Some (places s !! q)) ids ->
  exists pls, map_M get_place ids s = (Ok pls, s) /\
              Forall2 (fun q pl => places s !! q = Some pl) ids pls.
Proof.
  induction ids as [|q ids IH]; intros Hall.
  - exists []. split; [reflexivity|constructor].
  - apply Forall_cons in Hall as [[pl Hq] Hall].
    destruct (IH Hall) as (pls & Hrun & Hpls).
    exists (pl :: pls). split; [|constructor; assumption].
    cbn [map_M]. run (get_place_ok s q pl Hq). run Hrun. reflexivity.
Qed.

Lemma place_values_run s :
  places_registered s ->
  exists pls, place_values s = (Ok pls, s) /\
              Forall2 (fun q pl => places s !! q = Some pl)
                (map snd (c_places s)) pls.
Proof.
  intros Hreg. unfold place_values. rewrite bind_get.
  apply map_M_get_place_run, Hreg.
Qed.

(** The exits that [Hive.strategy] computes. *)
Lemma exits_of_values s h : forall ids pls,
  Forall2 (fun q pl => places s !! q = Some pl) ids pls ->
  map fst (List.filter (fun e => negb (is_not (p_entrance (snd e)) h))
             (zip ids pls)) =
  List.filter (fun q =>
      match places s !! q with
      | Some pl => negb (is_not (p_entrance pl) h)
      | None => false
      end) ids.
Proof.
  induction 1 as [|q pl ids pls Hq _ IH]; [reflexivity|].
  cbn [zip zip_with List.filter snd]. rewrite Hq.
  destruct (negb (is_not (p_entrance pl) h)); cbn [map fst]; rewrite IH;
    reflexivity.
Qed.

(** [Hive.strategy], up to its loop. *)
Lemma Hive_strategy_run s h hv :
  places s !! h = Some hv -> p_kind hv = HivePlace -> places_registered s ->
  Hive_strategy h s =
    for_each (default [] (dict_get Z.eqb (time s) (p_assault_plan hv)))
      (fun bee => let* e := random_choice (hive_exits s h) in
                  move_to bee (Some e)) s.
Proof.
  intros Hh Hk Hreg. destruct (place_values_run s Hreg) as (pls & Hrun & Hpls).
  unfold Hive_strategy. run (get_place_ok s h hv Hh). rewrite Hk.
  rewrite bind_get. run Hrun.
  rewrite (exits_of_values s h _ pls Hpls). reflexivity.
Qed.

(** [Hive.strategy] at its edges.  At a time for which the plan has no
    wave it changes nothing.  When a wave is due and no registered
    place has the hive as its entrance, [random.choice] is asked to
    pick from an empty list: the call raises [IndexError], and the
    bees of the wave are still in the hive. *)
Theorem Hive_strategy_without_wave_or_entrance s h hv :
  places s !! h = Some hv -> p_kind hv = HivePlace -> places_registered s ->
  (dict_get Z.eqb (time s) (p_assault_plan hv) = None ->
   Hive_strategy h s = (Ok tt, s)) /\
  (forall b l, dict_get Z.eqb (time s) (p_assault_plan hv) = Some (b :: l) ->
     hive_exits s h = [] ->
     Hive_strategy h s = (Raise IndexError, s)).
Proof.
  intros Hh Hk Hreg. rewrite (Hive_strategy_run s h hv Hh Hk Hreg). split.
  - intros ->. reflexivity.
  - intros b l -> ->. reflexivity.
Qed.

Lemma Hive_strategy_without_wave_or_entrance_witness :
  Hive_strategy 0 quiet_colony = (Ok tt, quiet_colony) /\
  Hive_strategy 0 sealed_colony = (Raise IndexError, sealed_colony).
Proof.
  split.
  - apply (proj1 (Hive_strategy_without_wave_or_entrance quiet_colony 0%nat
                    (MkPlace HivePlace "Hive" None [] None None [])
                    eq_refl eq_refl
                    ltac:(apply (bool_decide_unpack _); vm_compute; exact I))).
    reflexivity.
  - apply (proj2 (Hive_strategy_without_wave_or_entrance sealed_colony 0%nat
                    (MkPlace HivePlace "Hive" None [0%nat] None None
                       [(0, [0%nat])])
                    eq_refl eq_refl
                    ltac:(apply (bool_decide_unpack _); vm_compute; exact I))
             0%nat []); reflexivity.
Defined.

Lemma random_choice_picks {A} (l : list A) s :
  l <> [] ->
  exists x, x ∈ l /\
    random_choice l s = (Ok x, set_rand_pos (S (rand_pos s)) s).
Proof.
  intros Hne.
  assert (rand_src s (rand_pos s) mod length l < length l)%nat as Hlt.
  { apply Nat.mod_upper_bound. destruct l; [congruence|simpl; lia]. }
  apply lookup_lt_is_Some in Hlt as [x Hx]. exists x. split.
  - eapply list_elem_of_lookup_2, Hx.
  - apply (random_choice_run l s _ x eq_refl Hx).
Qed.

(** The loop of [Hive.strategy] over the bees [l] of a wave that are
    still in the hive [h]; [E] are the exits. *)
Lemma Hive_wave_loop E h :
  (forall e, e ∈ E -> e <> h) -> E <> [] ->
  forall l s,
  NoDup l ->
  (forall e, e ∈ E -> is_Some (places s !! e)) ->
  (exists hv, places s !! h = Some hv /\ NoDup (p_bees hv) /\
              forall b, b ∈ l -> b ∈ p_bees hv) ->
  (forall b, b ∈ l -> exists y, insects s !! b = Some y /\
       i_class y = Bee /\ i_place y = Some h) ->
  exists s',
    for_each l (fun bee => let* e := random_choice E in
                           move_to bee (Some e)) s = (Ok tt, s') /\
    (forall b, b ∈ l ->
       (b ∉ bees_at s' h) /\
       exists e, e ∈ E /\ place_of s' b = Some e /\ b ∈ bees_at s' e) /\
    (forall c, c ∉ l -> insects s' !! c = insects s !! c) /\
    (forall c e, e ∈ E -> c ∈ bees_at s e -> c ∈ bees_at s' e) /\
    (forall c, c ∉ bees_at s h -> c ∉ bees_at s' h).
Proof.
  intros HEh HE. induction l as [|b l IH]; intros s Hnd Hex Hhive Hbees.
  - exists s. split; [reflexivity|]. repeat split; auto.
    + inversion H.
    + inversion H.
  - apply NoDup_cons in Hnd as [Hbl Hnd].
    destruct Hhive as (hv & Hh & Hndh & Hin).
    destruct (Hbees b) as (y & Hy & Hk & Hpl); [left|].
    destruct (random_choice_picks E s HE) as (e & He & Hpick).
    set (s0 := set_rand_pos (S (rand_pos s)) s) in *.
    assert (b ∈ p_bees hv) as Hbin by (apply Hin; left).
    destruct (list_remove_elem b (p_bees hv) Hbin) as [l' Hl'].
    destruct (list_remove_NoDup b (p_bees hv) l' Hndh Hl') as [Hndl' Hiff].
    destruct (Hex e He) as [el Hel].
    pose proof (HEh e He) as Hne.
    set (s1 := set_insects (fun l0 => <[b := with_place None y]> l0)
                 (set_places (fun ps => <[h := with_p_bees l' hv]> ps) s0)).
    assert (places s1 !! e = Some el) as Hel1.
    { cbn [places s1 s0 set_insects set_places set_rand_pos].
      rewrite list_lookup_insert_ne by auto. exact Hel. }
    assert (insects s1 !! b = Some (with_place None y)) as Hy1.
    { apply list_lookup_insert_eq. eapply lookup_lt_Some, Hy. }
    set (s2 := set_insects
                 (fun l0 => <[b := with_place (Some e) (with_place None y)]> l0)
                 (set_places
                    (fun l0 => <[e := with_p_bees (p_bees el ++ [b]) el]> l0)
                    s1)).
    assert (for_each (b :: l)
              (fun bee => let* e := random_choice E in move_to bee (Some e)) s
            = for_each l
                (fun bee => let* e := random_choice E in move_to bee (Some e))
                s2) as Hstep.
    { cbn [for_each]. run Hpick.
      rewrite (bind_ok _ _ _ _ s2
                 (eq_trans (move_to_leaves s0 b y h hv l' Hy Hk Hpl Hh Hl' (Some e))
                    (add_insect_bee s1 e b (with_place None y) el Hel1 Hy1 Hk))).
      reflexivity. }
    assert (h < length (places s))%nat as Hlh by (eapply lookup_lt_Some, Hh).
    assert (e < length (places s))%nat as Hle by (eapply lookup_lt_Some, Hel).
    assert (b < length (insects s))%nat as Hlb by (eapply lookup_lt_Some, Hy).
    assert (places s2 !! h = Some (with_p_bees l' hv)) as Hh2.
    { cbn [places s2 s1 s0 set_insects set_places set_rand_pos].
      rewrite list_lookup_insert_ne by auto.
      apply list_lookup_insert_eq. exact Hlh. }
    assert (places s2 !! e = Some (with_p_bees (p_bees el ++ [b]) el)) as He2.
    { cbn [places s2 s1 s0 set_insects set_places set_rand_pos].
      apply list_lookup_insert_eq. rewrite length_insert. exact Hle. }
    assert (forall q, q <> h -> q <> e -> places s2 !! q = places s !! q)
      as Hq2.
    { intros q Hqh Hqe.
      cbn [places s2 s1 s0 set_insects set_places set_rand_pos].
      rewrite !list_lookup_insert_ne by auto. reflexivity. }
    assert (forall c, c <> b -> insects s2 !! c = insects s !! c) as Hc2.
    { intros c Hcb.
      cbn [insects s2 s1 s0 set_insects set_places set_rand_pos].
      rewrite !list_lookup_insert_ne by auto. reflexivity. }
    assert (insects s2 !! b = Some (with_place (Some e) (with_place None y)))
      as Hb2.
    { cbn [insects s2 s1 s0 set_insects set_places set_rand_pos].
      apply list_lookup_insert_eq. rewrite length_insert. exact Hlb. }
    destruct (IH s2 Hnd) as (s' & Hrun & Hmoved & Hfr & Hstay & Hout).
    { intros e' He'. destruct (decide (e' = e)) as [->|Hee]; [eauto|].
      rewrite Hq2; auto. }
    { exists (with_p_bees l' hv). split; [exact Hh2|]. split; [exact Hndl'|].
      intros c Hc. apply Hiff. split; [apply Hin; right; exact Hc|].
      intros ->. contradiction. }
    { intros c Hc. rewrite Hc2 by (intros ->; contradiction).
      apply Hbees. right. exact Hc. }
    exists s'. rewrite Hstep. split; [exact Hrun|]. split; [|split; [|split]].
    + intros c Hc. apply elem_of_cons in Hc as [->|Hc]; [|apply Hmoved, Hc].
      split.
      * apply Hout. unfold bees_at. rewrite Hh2. cbn [p_bees with_p_bees].
        intros Hb. apply Hiff in Hb as [_ Hb]. congruence.
      * exists e. split; [exact He|]. split.
        -- unfold place_of. rewrite (Hfr b Hbl), Hb2. reflexivity.
        -- apply Hstay; [exact He|]. unfold bees_at. rewrite He2.
           cbn [p_bees with_p_bees]. apply elem_of_app. right. left.
    + intros c Hc. apply not_elem_of_cons in Hc as [Hcb Hc].
      rewrite (Hfr c Hc). apply Hc2, Hcb.
    + intros c e' He' Hc. apply Hstay; [exact He'|].
      destruct (decide (e' = e)) as [->|Hee].
      * unfold bees_at in *. rewrite He2. rewrite Hel in Hc.
        cbn [p_bees with_p_bees]. apply elem_of_app. left. exact Hc.
      * unfold bees_at in *. rewrite Hq2; auto.
    + intros c Hc. apply Hout. unfold bees_at in *. rewrite Hh2.
      rewrite Hh in Hc. cbn [p_bees with_p_bees]. intros Hc'.
      apply Hiff in Hc' as [Hc' _]. contradiction.
Qed.

(** [Hive.strategy] when a wave is due.  Every bee of the wave leaves
    the hive, and the place it enters is one of the registered places
    whose entrance is the hive; each choice is one call of
    [random.choice].  Bees that are not in the wave are not touched,
    and no bee already in a tunnel entrance leaves it. *)
Theorem Hive_strategy_sends_the_wave_in s h hv wave :
  places s !! h = Some hv -> p_kind hv = HivePlace ->
  p_entrance hv = None -> places_registered s ->
  dict_get Z.eqb (time s) (p_assault_plan hv) = Some wave ->
  hive_exits s h <> [] ->
  NoDup wave -> NoDup (p_bees hv) ->
  (forall b, b ∈ wave -> b ∈ p_bees hv /\
     exists y, insects s !! b = Some y /\ i_class y = Bee /\
               i_place y = Some h) ->
  exists s',
    Hive_strategy h s = (Ok tt, s') /\
    (forall b, b ∈ wave ->
       (b ∉ bees_at s' h) /\
       exists e, e ∈ hive_exits s h /\ place_of s' b = Some e /\
                 b ∈ bees_at s' e) /\
    (forall c, c ∉ wave -> insects s' !! c = insects s !! c) /\
    (forall c e, e ∈ hive_exits s h -> c ∈ bees_at s e -> c ∈ bees_at s' e).
Proof.
  intros Hh Hk Hent Hreg Hwave HE Hnd Hndh Hbees.
  rewrite (Hive_strategy_run s h hv Hh Hk Hreg), Hwave. cbn [default].
  assert (forall e, e ∈ hive_exits s h ->
            exists el, places s !! e = Some el /\ p_entrance el = Some h)
    as Hexits.
  { intros e He. unfold hive_exits in He.
    apply list_elem_of_In, filter_In in He as [_ He].
    destruct (places s !! e) as [el|]; [|discriminate].
    exists el. split; [reflexivity|].
    destruct (p_entrance el) as [q|]; [|discriminate]. cbn [is_not] in He.
    destruct (Nat.eqb_spec q h) as [Hqh|]; [congruence|discriminate]. }
  destruct (Hive_wave_loop (hive_exits s h) h) with (l := wave) (s := s)
    as (s' & Hrun & Hmoved & Hfr & Hstay & _); auto.
  - intros e He ->. destruct (Hexits h He) as (el & Hel & Hele). congruence.
  - intros e He. destruct (Hexits e He) as (el & Hel & _). eauto.
  - exists hv. split; [exact Hh|]. split; [exact Hndh|].
    intros b Hb. apply Hbees, Hb.
  - intros b Hb. apply Hbees, Hb.
  - exists s'. auto.
Qed.

Lemma Hive_strategy_sends_the_wave_in_witness :
  exists s',
    Hive_strategy 0 wave_colony = (Ok tt, s') /\
    (forall b, b ∈ [0%nat; 1%nat] ->
       (b ∉ bees_at s' 0) /\
       exists e, e ∈ hive_exits wave_colony 0 /\ place_of s' b = Some e /\
                 b ∈ bees_at s' e) /\
    (forall c, c ∉ [0%nat; 1%nat] ->
       insects s' !! c = insects wave_colony !! c) /\
    (forall c e, e ∈ hive_exits wave_colony 0 ->
       c ∈ bees_at wave_colony e -> c ∈ bees_at s' e).
Proof.
  apply (Hive_strategy_sends_the_wave_in wave_colony 0%nat
           (MkPlace HivePlace "Hive" None [0%nat; 1%nat] None None
              [(0, [0%nat; 1%nat])])
           [0%nat; 1%nat]); try reflexivity.
  - apply (bool_decide_unpack _). vm_compute. exact I.
  - vm_compute. discriminate.
  - apply (bool_decide_unpack _). vm_compute. exact I.
  - apply (bool_decide_unpack _). vm_compute. exact I.
  - intros b Hb. split; [exact Hb|].
    apply elem_of_cons in Hb as [->|Hb];
      [|apply elem_of_cons in Hb as [->|Hb]; [|inversion Hb]];
      eexists; (split; [reflexivity|split; reflexivity]).
Defined.

(** * Building places, hives and plans *)

(** [Place(name, exit)]: the new place is the next object of the
    store, and its exit learns it as its entrance, whatever entrance
    the exit had before; no other place and no insect changes. *)
Theorem new_place_links_exit s kind name e el :
  places s !! e = Some el ->
  exists s',
    new_place kind name (Some e) s = (Ok (length (places s)), s') /\
    places s' !! length (places s) =
      Some (MkPlace kind name (Some e) [] None None []) /\
    places s' !! e = Some (with_p_entrance (Some (length (places s))) el) /\
    (forall q, q <> e -> q <> length (places s) ->
       places s' !! q = places s !! q) /\
    insects s' = insects s.
Proof.
  intros He.
  set (new := MkPlace kind name (Some e) [] None None []).
  set (s1 := set_places (fun l => l ++ [new]) s).
  assert (e < length (places s))%nat as Hlt by (eapply lookup_lt_Some, He).
  assert (places s1 !! e = Some el) as He1.
  { cbn [places s1 set_places]. rewrite lookup_app_l by exact Hlt. exact He. }
  eexists. split.
  - unfold new_place. rewrite bind_get.
    run (eq_refl : modify (set_places (fun l => l ++ [new])) s = (Ok tt, s1)).
    run (upd_place_ok s1 e el (with_p_entrance (Some (length (places s)))) He1).
    reflexivity.
  - cbn [places insects s1 set_places].
    split.
    { rewrite list_lookup_insert_ne by lia. apply list_lookup_middle.
      reflexivity. }
    split.
    { apply list_lookup_insert_eq. rewrite length_app. lia. }
    split; [|reflexivity].
    intros q Hqe Hql. rewrite list_lookup_insert_ne by auto.
    destruct (decide (q < length (places s))%nat) as [Hq|Hq].
    + apply lookup_app_l. exact Hq.
    + rewrite !lookup_ge_None_2; [reflexivity|lia|].
      rewrite length_app. simpl. lia.
Qed.

Lemma new_place_links_exit_witness :
  exists s',
    new_place PlainPlace "annex" (Some 1%nat) quiet_colony
      = (Ok (length (places quiet_colony)), s') /\
    places s' !! length (places quiet_colony) =
      Some (MkPlace PlainPlace "annex" (Some 1%nat) [] None None []) /\
    places s' !! 1%nat =
      Some (with_p_entrance (Some (length (places quiet_colony)))
              (MkPlace PlainPlace "AntQueen" None [] None (Some 2%nat) [])) /\
    (forall q, q <> 1%nat -> q <> length (places quiet_colony) ->
       places s' !! q = places quiet_colony !! q) /\
    insects s' = insects quiet_colony.
Proof.
  apply (new_place_links_exit quiet_colony PlainPlace "annex" 1%nat
           (MkPlace PlainPlace "AntQueen" None [] None (Some 2%nat) [])).
  reflexivity.
Defined.

(** The loop of [Hive.__init__]: [add_insect] on each bee of the plan. *)
Lemma new_hive_loop h : forall l s hv,
  places s !! h = Some hv ->
  (forall b, b ∈ l -> exists y, insects s !! b = Some y /\
                                 class_is_ant (i_class y) = false) ->
  exists s',
    for_each l (fun bee =>
      let* a := is_ant bee in
      if a then raise AttributeError else Place_add_insect h bee) s
      = (Ok tt, s') /\
    places s' !! h = Some (with_p_bees (p_bees hv ++ l) hv) /\
    (forall q, q <> h -> places s' !! q = places s !! q) /\
    (forall b, b ∈ l -> exists y, insects s !! b = Some y /\
       insects s' !! b = Some (with_place (Some h) y)) /\
    (forall c, c ∉ l -> insects s' !! c = insects s !! c).
Proof.
  induction l as [|b l IH]; intros s hv Hh Hl.
  - exists s. split; [reflexivity|]. rewrite app_nil_r, with_p_bees_same.
    repeat split; auto. intros b Hb. inversion Hb.
  - destruct (Hl b) as (y & Hy & Hant); [left|].
    set (s1 := set_places
                 (fun ps => <[h := with_p_bees (p_bees hv ++ [b]) hv]> ps) s).
    set (s2 := set_insects (fun l0 => <[b := with_place (Some h) y]> l0) s1).
    assert (Place_add_insect h b s = (Ok tt, s2)) as Hadd.
    { unfold Place_add_insect. run (is_ant_run s b y Hy). rewrite Hant.
      run (upd_place_ok s h hv (fun p => with_p_bees (p_bees p ++ [b]) p) Hh).
      apply (upd_insect_ok s1 b y). exact Hy. }
    assert (h < length (places s))%nat as Hlh by (eapply lookup_lt_Some, Hh).
    assert (b < length (insects s))%nat as Hlb by (eapply lookup_lt_Some, Hy).
    assert (places s2 !! h = Some (with_p_bees (p_bees hv ++ [b]) hv)) as Hh2.
    { apply list_lookup_insert_eq. exact Hlh. }
    assert (forall c, c <> b -> insects s2 !! c = insects s !! c) as Hc2.
    { intros c Hc. cbn [insects s2 s1 set_insects set_places].
      apply list_lookup_insert_ne. auto. }
    assert (insects s2 !! b = Some (with_place (Some h) y)) as Hb2.
    { apply list_lookup_insert_eq. exact Hlb. }
    destruct (IH s2 _ Hh2) as (s' & Hrun & Hh' & Hq' & Hb' & Hc').
    { intros c Hc. destruct (decide (c = b)) as [->|Hcb].
      - eexists. split; [exact Hb2|]. exact Hant.
      - rewrite Hc2 by exact Hcb. apply Hl. right. exact Hc. }
    exists s'. split.
    { cbn [for_each]. run (is_ant_run s b y Hy). rewrite Hant. run Hadd.
      exact Hrun. }
    split.
    { rewrite Hh'. cbn [p_bees with_p_bees]. rewrite <- app_assoc. reflexivity. }
    split.
    { intros q Hq. rewrite Hq' by exact Hq.
      cbn [places s2 s1 set_insects set_places].
      apply list_lookup_insert_ne. auto. }
    split.
    { intros c Hc. destruct (decide (c ∈ l)) as [Hin|Hnin].
      - destruct (Hb' c Hin) as (y' & Hy' & Hy'').
        destruct (decide (c = b)) as [->|Hcb].
        + exists y. split; [exact Hy|]. rewrite Hy''.
          rewrite Hb2 in Hy'. injection Hy' as <-. reflexivity.
        + rewrite Hc2 in Hy' by exact Hcb. eauto.
      - apply elem_of_cons in Hc as [->|Hc]; [|contradiction].
        exists y. split; [exact Hy|]. rewrite Hc' by exact Hnin. exact Hb2. }
    intros c Hc. apply not_elem_of_cons in Hc as [Hcb Hc].
    rewrite Hc' by exact Hc. apply Hc2, Hcb.
Qed.

(** [Hive(assault_plan)]: the hive is a new place named Hive, without
    exit, entrance or ant; its bees are all the bees of the plan, wave
    after wave, and each of them points to the hive.  No other insect
    and no other place changes. *)
Theorem new_hive_holds_every_bee_of_the_plan s plan :
  (forall b, b ∈ all_bees (waves plan) ->
     exists y, insects s !! b = Some y /\ class_is_ant (i_class y) = false) ->
  exists s',
    new_hive plan s = (Ok (length (places s)), s') /\
    places s' !! length (places s) =
      Some (MkPlace HivePlace "Hive" None (all_bees (waves plan)) None None
              (waves plan)) /\
    (forall b, b ∈ all_bees (waves plan) ->
       place_of s' b = Some (length (places s))) /\
    (forall c, c ∉ all_bees (waves plan) ->
       insects s' !! c = insects s !! c) /\
    (forall q, q <> length (places s) -> places s' !! q = places s !! q).
Proof.
  intros Hbees.
  set (h := length (places s)).
  set (hv := MkPlace HivePlace "Hive" None [] None None (waves plan)).
  set (s1 := set_places (fun l => l ++ [hv]) s).
  assert (places s1 !! h = Some hv) as Hh.
  { apply list_lookup_middle. reflexivity. }
  destruct (new_hive_loop h (all_bees (waves plan)) s1 hv Hh Hbees)
    as (s' & Hrun & Hh' & Hq' & Hb' & Hc').
  exists s'. split; [|split; [exact Hh'|split; [|split]]].
  - unfold new_hive. rewrite bind_get.
    run (eq_refl : modify (set_places (fun l => l ++ [hv])) s = (Ok tt, s1)).
    run Hrun. reflexivity.
  - intros b Hb. destruct (Hb' b Hb) as (y & _ & Hy).
    unfold place_of. rewrite Hy. reflexivity.
  - exact Hc'.
  - intros q Hq. rewrite Hq' by exact Hq. cbn [places s1 set_places].
    destruct (decide (q < h)%nat) as [Hlt|Hge].
    + apply lookup_app_l. exact Hlt.
    + rewrite !lookup_ge_None_2; [reflexivity|unfold h in *; lia|].
      rewrite length_app. simpl. unfold h in *. lia.
Qed.

Lemma new_hive_holds_every_bee_of_the_plan_witness :
  exists s',
    new_hive (MkPlan 3 [(0, [0%nat; 1%nat])])
      (exec (new_bees 2 3) (empty_state (fun _ => 0%nat)))
      = (Ok 0%nat, s') /\
    places s' !! 0%nat =
      Some (MkPlace HivePlace "Hive" None [0%nat; 1%nat] None None
              [(0, [0%nat; 1%nat])]) /\
    (forall b, b ∈ [0%nat; 1%nat] -> place_of s' b = Some 0%nat) /\
    (forall c, c ∉ [0%nat; 1%nat] ->
       insects s' !! c =
       insects (exec (new_bees 2 3) (empty_state (fun _ => 0%nat))) !! c) /\
    (forall q, q <> 0%nat ->
       places s' !! q =
       places (exec (new_bees 2 3) (empty_state (fun _ => 0%nat))) !! q).
Proof.
  apply (new_hive_holds_every_bee_of_the_plan
           (exec (new_bees 2 3) (empty_state (fun _ => 0%nat)))
           (MkPlan 3 [(0, [0%nat; 1%nat])])).
  intros b Hb. vm_compute in Hb.
  apply elem_of_cons in Hb as [->|Hb];
    [|apply elem_of_cons in Hb as [->|Hb]; [|inversion Hb]];
    eexists; (split; reflexivity).
Defined.

(** The waves of a plan, as a dictionary. *)
Lemma dict_get_set_eq {V} k (v : V) d :
  dict_get Z.eqb k (dict_set Z.eqb k v d) = Some v.
Proof.
  induction d as [|[k' v'] d IH]; simpl.
  - rewrite Z.eqb_refl. reflexivity.
  - destruct (Z.eqb_spec k k') as [->|Hne]; simpl.
    + rewrite Z.eqb_refl. reflexivity.
    + destruct (Z.eqb_spec k k'); [contradiction|exact IH].
Qed.

Lemma dict_get_set_ne {V} k k' (v : V) d :
  k' <> k -> dict_get Z.eqb k' (dict_set Z.eqb k v d) = dict_get Z.eqb k' d.
Proof.
  intros Hne. induction d as [|[k0 v0] d IH]; simpl.
  - destruct (Z.eqb_spec k' k); [contradiction|reflexivity].
  - destruct (Z.eqb_spec k k0) as [->|Hk]; simpl.
    + destruct (Z.eqb_spec k' k0); [contradiction|reflexivity].
    + destruct (Z.eqb_spec k' k0); [reflexivity|exact IH].
Qed.

Lemma new_bees_run n armor : forall s,
  new_bees n armor s =
    (Ok (seq (length (insects s)) n),
     set_insects (fun l =>
       l ++ replicate n (MkInsect Bee armor None [] 0 false None 0 false)) s).
Proof.
  induction n as [|n IH]; intros s.
  - cbn [new_bees seq replicate]. unfold ret. f_equal. symmetry.
    apply (set_insects_id s (insects s ++ [])). apply app_nil_r.
  - cbn [new_bees].
    set (bee := MkInsect Bee armor None [] 0 false None 0 false).
    run (eq_refl : new_bee armor s =
                   (Ok (length (insects s)),
                    set_insects (fun l => l ++ [bee]) s)).
    run (IH (set_insects (fun l => l ++ [bee]) s)).
    unfold ret. cbn [insects set_insects seq replicate].
    rewrite length_app. cbn [length]. rewrite Nat.add_1_r. f_equal.
    unfold set_insects.
    cbn [insects places cells queen_class_flag time food c_places c_queen
         c_hive c_ant_types c_bee_entrances rand_src rand_pos].
    rewrite <- app_assoc. reflexivity.
Qed.

(** [AssaultPlan.add_wave(time, count)] builds [count] new bees, all
    with the armor of the plan and in no place, and puts them at the
    end of the wave of that time, which it creates if the plan had
    none; the other waves and the armor of the plan stay. *)
Theorem add_wave_appends_fresh_bees s t count plan :
  exists plan',
    add_wave t count plan s =
      (Ok plan',
       set_insects (fun l =>
         l ++ replicate count
                (MkInsect Bee (bee_armor plan) None [] 0 false None 0 false))
         s) /\
    bee_armor plan' = bee_armor plan /\
    dict_get Z.eqb t (waves plan') =
      Some (default [] (dict_get Z.eqb t (waves plan))
            ++ seq (length (insects s)) count) /\
    (forall t', t' <> t ->
       dict_get Z.eqb t' (waves plan') = dict_get Z.eqb t' (waves plan)).
Proof.
  eexists. split.
  - unfold add_wave. run (new_bees_run count (bee_armor plan) s). reflexivity.
  - cbn [bee_armor waves]. split; [reflexivity|]. split.
    + apply dict_get_set_eq.
    + intros t' Ht. apply dict_get_set_ne, Ht.
Qed.

(** * The verdict of the game *)

(** Computations that read the store and leave it as it is. *)
Lemma reads_bind {A B} (m : M A) (f : A -> M B) :
  (forall s, snd (m s) = s) -> (forall a s, snd (f a s) = s) ->
  forall s, snd (bind m f s) = s.
Proof.
  intros Hm Hf s. unfold bind. specialize (Hm s).
  destruct (m s) as [[a|e] s1]; simpl in Hm; subst; [apply Hf|reflexivity].
Qed.

Lemma reads_get_place p s : snd (get_place p s) = s.
Proof. unfold get_place. destruct (places s !! p); reflexivity. Qed.

Lemma reads_map_M_get_place ids : forall s, snd (map_M get_place ids s) = s.
Proof.
  induction ids as [|q ids IH]; [reflexivity|]. cbn [map_M].
  apply reads_bind; [apply reads_get_place|]. intros pl.
  apply reads_bind; [apply IH|]. reflexivity.
Qed.

Lemma reads_place_values s : snd (place_values s) = s.
Proof.
  unfold place_values. rewrite bind_get. apply reads_map_M_get_place.
Qed.

Lemma reads_bees s : snd (bees s) = s.
Proof.
  revert s. unfold bees. apply reads_bind; [apply reads_place_values|].
  reflexivity.
Qed.

Lemma reads_queen_bees s : snd (queen_bees s) = s.
Proof.
  unfold queen_bees. rewrite bind_get. destruct (c_queen s) as [q|cq aq].
  - revert s. apply reads_bind; [apply reads_get_place|]. reflexivity.
  - revert s. apply reads_bind; [apply reads_get_place|]. intros pl1.
    apply reads_bind; [destruct aq; reflexivity|]. intros a.
    apply reads_bind; [apply reads_get_place|]. reflexivity.
Qed.

(** [simulate] announces what the store it leaves shows.  When it
    returns with the bees vanquished, no bee is in the queen's place
    and no bee is left in any place of the colony; when it returns
    with the queen perished, a bee is in the queen's place. *)
Theorem simulate_verdict_fits fuel strategy : forall s o s',
  simulate fuel strategy s = (Ok o, s') -> verdict_fits o s'.
Proof.
  induction fuel as [|fuel IH]; intros s o s' Hrun; [discriminate Hrun|].
  cbn [simulate] in Hrun. unfold bind at 1 in Hrun.
  pose proof (reads_queen_bees s) as Hq.
  destruct (queen_bees s) as [[qb|e] s1] eqn:Hqb; [|discriminate Hrun].
  cbn [snd] in Hq. subst s1. destruct qb as [|b qb].
  - unfold bind at 1 in Hrun. pose proof (reads_bees s) as Hb.
    destruct (bees s) as [[bs|e] s1] eqn:Hbs; [|discriminate Hrun].
    cbn [snd] in Hb. subst s1. destruct bs as [|c bs].
    + unfold verdict in Hrun. rewrite (bind_ok _ _ _ _ _ Hqb) in Hrun.
      injection Hrun as <- <-. unfold verdict_fits, eval.
      rewrite Hqb, Hbs. split; reflexivity.
    + unfold bind at 1 in Hrun.
      destruct (turn strategy s) as [[[]|e] s1]; [|discriminate Hrun].
      apply (IH s1 o s' Hrun).
  - unfold verdict in Hrun. rewrite (bind_ok _ _ _ _ _ Hqb) in Hrun.
    injection Hrun as <- <-. unfold verdict_fits, eval.
    rewrite Hqb. eauto.
Qed.

Lemma simulate_verdict_fits_witness :
  verdict_fits Lost (exec (simulate 20 (ret tt)) wave_colony).
Proof.
  apply (simulate_verdict_fits 20 (ret tt) wave_colony Lost
           (exec (simulate 20 (ret tt)) wave_colony)).
  vm_compute. reflexivity.
Defined.

(** * One true queen *)

Lemma keeps_both I J {A} (m : M A) :
  keeps I m -> keeps J m -> keeps (fun s => I s /\ J s) m.
Proof.
  intros HI HJ s [Hi Hj]. specialize (HI s Hi). specialize (HJ s Hj).
  unfold wp in *. destruct (m s) as [[a|e] s']; auto.
Qed.

(** [one_true_queen] looks at the insects and at the class flag, and of
    an insect at its class and its [is_true_queen]. *)
Lemma queen_ext s s' :
  insects s' = insects s -> queen_class_flag s' = queen_class_flag s ->
  one_true_queen s -> one_true_queen s'.
Proof.
  intros Hi Hf. unfold one_true_queen, is_true_queen_in. rewrite Hi, Hf. auto.
Qed.

Lemma queen_upd s i x y :
  one_true_queen s -> insects s !! i = Some x ->
  insect_is_queen y = insect_is_queen x ->
  one_true_queen (set_insects (fun l => <[i := y]> l) s).
Proof.
  intros [Hflag Huniq] Hx Hq.
  assert (forall j, is_true_queen_in (set_insects (fun l => <[i := y]> l) s) j
                    -> is_true_queen_in s j) as Hback.
  { intros j (z & Hz & Hzq). cbn [insects set_insects] in Hz.
    destruct (decide (j = i)) as [->|Hne].
    - rewrite list_lookup_insert_eq in Hz by (eapply lookup_lt_Some, Hx).
      injection Hz as <-. exists x. split; [exact Hx|congruence].
    - rewrite list_lookup_insert_ne in Hz by auto. exists z. auto. }
  split.
  - intros Hfl j Hj. apply (Hflag Hfl j), Hback, Hj.
  - intros j k Hj Hk. apply Huniq; apply Hback; assumption.
Qed.

Lemma queen_new_plain s x :
  one_true_queen s -> insect_is_queen x = false ->
  one_true_queen (set_insects (fun l => l ++ [x]) s).
Proof.
  intros [Hflag Huniq] Hq.
  assert (forall j, is_true_queen_in (set_insects (fun l => l ++ [x]) s) j
                    -> is_true_queen_in s j) as Hback.
  { intros j (z & Hz & Hzq). cbn [insects set_insects] in Hz.
    apply lookup_app_Some in Hz as [Hz|[_ Hz]]; [exists z; auto|].
    apply list_lookup_singleton_Some in Hz as [_ <-]. congruence. }
  split.
  - intros Hfl j Hj. apply (Hflag Hfl j), Hback, Hj.
  - intros j k Hj Hk. apply Huniq; apply Hback; assumption.
Qed.

(** [QueenAnt()]: the new queen is the true one exactly when the flag
    was still up, and the flag is down afterwards. *)
Lemma queen_new_queen s x :
  one_true_queen s -> i_is_true_queen x = queen_class_flag s ->
  one_true_queen
    (set_queen_class_flag false (set_insects (fun l => l ++ [x]) s)).
Proof.
  intros [Hflag Huniq] Hx. split; [discriminate|].
  assert (forall j,
            is_true_queen_in
              (set_queen_class_flag false (set_insects (fun l => l ++ [x]) s)) j
            -> is_true_queen_in s j \/
               (j = length (insects s) /\ queen_class_flag s = true)) as Hback.
  { intros j (z & Hz & Hzq).
    cbn [insects set_insects set_queen_class_flag] in Hz.
    apply lookup_app_Some in Hz as [Hz|[Hge Hz]]; [left; exists z; auto|].
    apply list_lookup_singleton_Some in Hz as [Hj <-]. right. split; [lia|].
    rewrite <- Hx. unfold insect_is_queen in Hzq.
    destruct (i_class x); try discriminate. exact Hzq. }
  intros j k Hj Hk.
  destruct (Hback j Hj) as [Hj'|[-> Hfl]], (Hback k Hk) as [Hk'|[-> Hfl']];
    try reflexivity.
  - apply Huniq; assumption.
  - destruct (Hflag Hfl' j Hj').
  - destruct (Hflag Hfl k Hk').
Qed.

Lemma frame_eff_queen : frame_eff one_true_queen.
Proof.
  split; [split|..].
  - intros s i x v Hf Hx. apply (queen_upd s i x); auto.
  - intros s i x o Hf Hx. apply (queen_upd s i x); auto.
  - intros s i x o Hf Hx. apply (queen_upd s i x); auto.
  - intros s p pl l Hf Hp. apply (queen_ext s); auto.
  - intros s p pl o Hf Hp. apply (queen_ext s); auto.
  - intros s i x l Hf Hx. apply (queen_upd s i x); auto.
  - intros s i x d Hf Hx. apply (queen_upd s i x); auto.
  - intros s f Hf. apply (queen_ext s); auto.
  - intros s n Hf. apply (queen_ext s); auto.
Qed.

Lemma queen_construct k : keeps one_true_queen (construct k).
Proof.
  intros s Hq.
  destruct k; try (apply wp_raise, Hq);
    try (apply (queen_new_plain s _ Hq); reflexivity).
  apply (queen_new_queen s _ Hq). reflexivity.
Qed.

(** The writes that build places and set up the colony. *)
Lemma queen_modify f :
  (forall s, insects (f s) = insects s) ->
  (forall s, queen_class_flag (f s) = queen_class_flag s) ->
  keeps one_true_queen (modify f).
Proof. intros Hi Hf s Hq. apply wp_modify, (queen_ext s); auto. Qed.

Lemma queen_upd_place p g : keeps one_true_queen (upd_place p g).
Proof.
  intros s Hq. apply wp_upd_place; [exact Hq|]. intros pl _.
  apply (queen_ext s); auto.
Qed.

Lemma queen_seq {A B} (m : M A) (f : A -> M B) :
  keeps one_true_queen m -> (forall a, keeps one_true_queen (f a)) ->
  keeps one_true_queen (bind m f).
Proof.
  intros Hm Hf s Hq. apply wp_bind.
  eapply wp_keeps; [exact Hm|exact Hq| |auto]. intros a s' Hq'. apply Hf, Hq'.
Qed.

Lemma queen_ret {A} (a : A) : keeps one_true_queen (ret a).
Proof. intros s Hq. exact Hq. Qed.

Lemma queen_reads {A} (m : M A) :
  (forall s, snd (m s) = s) -> keeps one_true_queen m.
Proof.
  intros Hm s Hq. unfold wp. specialize (Hm s).
  destruct (m s) as [[a|e] s']; simpl in Hm; subst; exact Hq.
Qed.

Lemma queen_get_place p : keeps one_true_queen (get_place p).
Proof. apply queen_reads, reads_get_place. Qed.

Lemma queen_new_place kind name exit :
  keeps one_true_queen (new_place kind name exit).
Proof.
  unfold new_place. apply queen_seq; [apply queen_reads; reflexivity|].
  intros s0.
  apply queen_seq; [apply queen_modify; auto|]. intros _.
  apply queen_seq; [|intros _; apply queen_ret].
  destruct exit; [apply queen_upd_place|apply queen_ret].
Qed.

Lemma queen_new_hive plan : keeps one_true_queen (new_hive plan).
Proof.
  unfold new_hive. apply queen_seq; [apply queen_reads; reflexivity|].
  intros s0.
  apply queen_seq; [apply queen_modify; auto|]. intros _.
  apply queen_seq; [|intros _; apply queen_ret].
  apply keeps_for_each. intros b s Hq.
  apply wp_bind, wp_is_ant; [exact Hq|]. intros x Hx. wp_beta.
  destruct (class_is_ant (i_class x)); [apply wp_raise, Hq|].
  apply frames_Place_add_insect; [apply frame_eff_queen|exact Hq].
Qed.

Lemma queen_register_place hive p b :
  keeps one_true_queen (register_place hive p b).
Proof.
  unfold register_place. apply queen_seq; [apply queen_get_place|].
  intros pl.
  apply queen_seq; [apply queen_modify; auto|]. intros _.
  destruct b; [|apply queen_ret].
  apply queen_seq; [apply queen_upd_place|]. intros _.
  apply queen_modify; auto.
Qed.

Lemma queen_mixed_layout length tunnels moat queen register :
  (forall p b, keeps one_true_queen (register p b)) ->
  keeps one_true_queen (mixed_layout length tunnels moat queen register).
Proof.
  intros Hreg. unfold mixed_layout. apply keeps_for_each. intros tunnel.
  apply queen_seq; [|intros _; apply queen_ret].
  apply keeps_fold_M. intros exit step.
  apply queen_seq.
  - destruct (negb (Nat.eqb moat 0) && Nat.eqb ((step + 1) mod moat) 0);
      apply queen_new_place.
  - intros e. apply queen_seq; [apply Hreg|]. intros _. apply queen_ret.
Qed.

Lemma queen_AntColony_init hive types length tunnels moat food0 :
  keeps one_true_queen
    (AntColony_init hive types (mixed_layout length tunnels moat) food0).
Proof.
  unfold AntColony_init.
  repeat (apply queen_seq; [apply queen_modify; auto|]; intros _).
  apply queen_seq; [apply queen_new_place|]. intros q.
  repeat (apply queen_seq; [apply queen_modify; auto|]; intros _).
  apply queen_seq; [apply queen_register_place|]. intros _.
  apply queen_mixed_layout. intros p b. apply queen_register_place.
Qed.

(** With the frame of the queens, the constructors keep the invariant
    of the store too. *)
Lemma keeps_construct_queen k :
  keeps (sound_and one_true_queen) (construct k).
Proof.
  apply (keeps_both sound one_true_queen).
  - apply keeps_sound, keeps_construct_no_frame.
  - apply queen_construct.
Qed.

Ltac queen_frame :=
  first [ exact frame_eff_queen
        | exact (fe_core _ frame_eff_queen)
        | exact keeps_construct_queen
        | intros; eapply queen_upd; eauto; reflexivity
        | intros; eapply queen_ext; eauto; reflexivity ].

Lemma keeps_run_command_queen c :
  keeps (sound_and one_true_queen) (run_command c).
Proof.
  destruct c; simpl.
  - apply keeps_deploy_ant; queen_frame.
  - apply keeps_remove_ant; queen_frame.
Qed.

Lemma keeps_strategy_of_queen f :
  keeps (sound_and one_true_queen) (strategy_of f).
Proof.
  intros s HJ. unfold strategy_of. apply wp_bind, wp_get. wp_beta.
  apply keeps_for_each; [|exact HJ]. intros c. apply keeps_run_command_queen.
Qed.

Lemma run_op_queen o s :
  sound_and one_true_queen s -> sound_and one_true_queen (run_op o s).
Proof.
  intros Hs. destruct o; simpl; apply keeps_exec; try exact Hs.
  - apply (keeps_both sound one_true_queen).
    + apply keeps_sound, keeps_new_insect; first [reflexivity|no_frame].
    + intros s0 Hq. apply (queen_new_plain s0 _ Hq). reflexivity.
  - apply keeps_construct_queen.
  - apply (keeps_both sound one_true_queen);
      [apply keeps_new_place|apply queen_new_place].
  - apply (keeps_both sound one_true_queen);
      [apply keeps_new_hive|apply queen_new_hive].
  - apply (keeps_both sound one_true_queen).
    + apply keeps_AntColony_init. intros q register Hreg.
      apply keeps_mixed_layout, Hreg.
    + apply queen_AntColony_init.
  - apply keeps_add_insect; queen_frame.
  - apply keeps_remove_insect; queen_frame.
  - apply keeps_reduce_armor; queen_frame.
  - apply keeps_action; queen_frame.
  - apply keeps_apply_effect; queen_frame.
  - apply keeps_move_to; queen_frame.
  - apply keeps_run_command_queen.
  - apply keeps_Hive_strategy; queen_frame.
  - apply keeps_turn; first [apply keeps_strategy_of_queen|queen_frame].
  - apply keeps_simulate; first [apply keeps_strategy_of_queen|queen_frame].
Qed.

(** The class flag [QueenAnt.is_true_queen] does its work in every
    store the program can reach: there is never more than one true
    queen, and while the flag is still up there is none.  So the first
    [QueenAnt] ever constructed is the only one that can be the true
    queen, whatever is deployed, removed or killed afterwards. *)
Theorem one_true_queen_in_every_reachable_store s :
  reachable s -> one_true_queen s.
Proof.
  intros (rnd & ops & ->). unfold run_ops.
  assert (sound_and one_true_queen (empty_state rnd)) as H0.
  { split; [apply sound_empty|]. split.
    - intros _ i (x & Hx & _). simpl in Hx. rewrite lookup_nil in Hx.
      discriminate.
    - intros i j (x & Hx & _). simpl in Hx. rewrite lookup_nil in Hx.
      discriminate. }
  revert H0. generalize (empty_state rnd).
  induction ops as [|o ops IH]; intros s Hs; simpl; [apply Hs|].
  apply IH, run_op_queen, Hs.
Qed.

Lemma one_true_queen_in_every_reachable_store_witness :
  one_true_queen impostor_colony.
Proof.
  apply (one_true_queen_in_every_reachable_store impostor_colony).
  exists (fun _ => 0%nat).
  exists [ OpNewHive (MkPlan 3 []);
           OpColonyInit 0 ant_types 8 1 0 10;
           OpConstruct QueenAnt; OpConstruct QueenAnt;
           OpConstruct BodyguardAnt;
           OpAddInsect 2 1; OpAddInsect 2 2 ].
  vm_compute. reflexivity.
Defined.

(** * The clock of the colony *)

Lemma frame_eff_clock t : frame_eff (clock_frame t).
Proof. split; [split|..]; intros; assumption. Qed.

Ltac clock_frame :=
  first [ exact (frame_eff_clock _)
        | exact (fe_core _ (frame_eff_clock _))
        | intros; match goal with H : clock_frame _ _ |- _ => exact H end ].

Lemma keeps_construct_clock t k :
  keeps (sound_and (clock_frame t)) (construct k).
Proof. apply keeps_construct; clock_frame. Qed.

Lemma keeps_strategy_of_clock t f :
  keeps (sound_and (clock_frame t)) (strategy_of f).
Proof.
  intros s HJ. unfold strategy_of. apply wp_bind, wp_get. wp_beta.
  apply keeps_for_each; [|exact HJ]. intros [p k|p]; simpl.
  - apply keeps_deploy_ant;
      first [exact (keeps_construct_clock t)|clock_frame].
  - apply keeps_remove_ant; clock_frame.
Qed.

(** One turn: whatever happens in it leaves the clock alone, and its
    last step moves the clock by one. *)
Lemma turn_clock s f :
  sound s ->
  wp (turn (strategy_of f))
    (fun _ s' => sound s' /\ time s' = time s + 1)
    (fun s' => sound s' /\ time s' = time s) s.
Proof.
  intros Hs. set (J := sound_and (clock_frame (time s))).
  assert (J s) as HJ by (split; [exact Hs|reflexivity]).
  assert (forall l, keeps J (for_each l (fun a =>
            let* x := get_insect a in
            if i_armor x >? 0 then action a else ret tt))) as Hact.
  { intros l. apply keeps_for_each. intros a s0 HJ0.
    apply wp_bind, wp_get_insect; [exact HJ0|]. intros x Hx. wp_beta.
    destruct (i_armor x >? 0); [|apply wp_ret, HJ0].
    apply keeps_action; first [exact HJ0|clock_frame]. }
  unfold turn. apply wp_bind, wp_get. wp_beta.
  apply wp_bind.
  eapply (wp_keeps J); [apply keeps_Hive_strategy; clock_frame|exact HJ| |auto].
  intros _ s1 HJ1. wp_beta. apply wp_bind.
  eapply (wp_keeps J); [apply keeps_strategy_of_clock|exact HJ1| |auto].
  intros _ s2 HJ2. wp_beta. apply wp_bind.
  eapply (wp_keeps J); [apply keeps_ants; clock_frame|exact HJ2| |auto].
  intros l s3 HJ3. wp_beta. apply wp_bind.
  eapply (wp_keeps J); [apply Hact|exact HJ3| |auto].
  intros _ s4 HJ4. wp_beta. apply wp_bind.
  eapply (wp_keeps J); [apply keeps_bees; clock_frame|exact HJ4| |auto].
  intros l' s5 HJ5. wp_beta. apply wp_bind.
  eapply (wp_keeps J); [apply Hact|exact HJ5| |auto].
  intros _ s6 [Hs6 Ht6]. wp_beta. apply wp_modify. split.
  - apply (sound_ext s6); auto.
  - cbn [time set_time]. rewrite Ht6. reflexivity.
Qed.

(** The clock moves only at the end of a turn.  In a sound store, a
    turn of the colony that completes has moved [time] by exactly one,
    and a turn that an exception cuts short has left it as it was:
    neither the hive, nor a deployment or removal, nor the action of
    any insect writes to the clock. *)
Theorem turn_moves_the_clock_by_one s f :
  sound s ->
  wp (turn (strategy_of f))
    (fun _ s' => time s' = time s + 1)
    (fun s' => time s' = time s) s.
Proof.
  intros Hs. eapply wp_mono; [apply (turn_clock s f Hs)| |];
    cbv beta; intros; tauto.
Qed.

Lemma turn_moves_the_clock_by_one_witness :
  wp (turn (strategy_of (fun _ => [Deploy "tunnel_0_0" "Thrower"])))
    (fun _ s' => time s' = time wave_colony + 1)
    (fun s' => time s' = time wave_colony) wave_colony.
Proof.
  apply (turn_moves_the_clock_by_one wave_colony).
  apply reachable_sound.
  exists (fun _ => 0%nat).
  exists [ OpNewBee 3; OpNewBee 3;
           OpNewHive (MkPlan 3 [(0, [0%nat; 1%nat])]);
           OpColonyInit 0 ant_types 8 1 0 2 ].
  vm_compute. reflexivity.
Defined.

Lemma reads_verdict s : snd (verdict s) = s.
Proof.
  revert s. unfold verdict. apply reads_bind; [apply reads_queen_bees|].
  intros [|b l] s; reflexivity.
Qed.

Lemma turns_step n strategy s s1 :
  turn strategy s = (Ok tt, s1) ->
  turns (S n) strategy s = turns n strategy s1.
Proof. intros H. cbn [turns]. unfold bind. rewrite H. reflexivity. Qed.

(** [simulate] counts its turns on the clock.  When it returns, the
    store it leaves is the store after some number [n] of passes of
    the body of its loop, all of them completed, with [n] below the
    number of turns allowed, and [time] has grown by exactly [n].
    When it raises, [n] passes were completed, [time] had grown by
    [n] after them, and what came next (the test of the loop, the
    verdict, or a pass that an exception cut short) has left the
    clock where it was. *)
Theorem simulate_counts_turns_on_the_clock fuel f : forall s,
  sound s ->
  wp (simulate fuel (strategy_of f))
    (fun _ s' =>
       exists n, (n < fuel)%nat /\
         turns n (strategy_of f) s = (Ok tt, s') /\
         time s' = time s + Z.of_nat n)
    (fun s' =>
       exists n sn, (n <= fuel)%nat /\
         turns n (strategy_of f) s = (Ok tt, sn) /\
         time sn = time s + Z.of_nat n /\ time s' = time sn) s.
Proof.
  induction fuel as [|fuel IH]; intros s Hs.
  - apply wp_raise. exists 0%nat, s.
    split; [lia|]. split; [reflexivity|]. split; simpl; lia.
  - assert (exists n sn, (n <= S fuel)%nat /\
              turns n (strategy_of f) s = (Ok tt, sn) /\
              time sn = time s + Z.of_nat n /\ time s = time sn) as Hhere.
    { exists 0%nat, s.
      split; [lia|]. split; [reflexivity|]. split; simpl; lia. }
    assert (exists n, (n < S fuel)%nat /\
              turns n (strategy_of f) s = (Ok tt, s) /\
              time s = time s + Z.of_nat n) as Hnow.
    { exists 0%nat. split; [lia|]. split; [reflexivity|]. simpl. lia. }
    cbn [simulate]. unfold wp, bind.
    pose proof (reads_queen_bees s) as Hq.
    destruct (queen_bees s) as [[qb|e] s1]; cbn [snd] in Hq; subst s1;
      [|exact Hhere].
    assert (match verdict s with
            | (Ok _, s') =>
                exists n, (n < S fuel)%nat /\
                  turns n (strategy_of f) s = (Ok tt, s') /\
                  time s' = time s + Z.of_nat n
            | (Raise _, s') =>
                exists n sn, (n <= S fuel)%nat /\
                  turns n (strategy_of f) s = (Ok tt, sn) /\
                  time sn = time s + Z.of_nat n /\ time s' = time sn
            end) as Hv.
    { pose proof (reads_verdict s) as Hr.
      destruct (verdict s) as [[o|e] s1]; cbn [snd] in Hr; subst s1;
        assumption. }
    destruct qb as [|b qb]; [|exact Hv].
    pose proof (reads_bees s) as Hb.
    destruct (bees s) as [[bs|e] s1]; cbn [snd] in Hb; subst s1;
      [|exact Hhere].
    destruct bs as [|c bs]; [exact Hv|].
    pose proof (turn_clock s f Hs) as Ht. unfold wp in Ht.
    destruct (turn (strategy_of f) s) as [[[]|e] s1] eqn:Hturn.
    + destruct Ht as [Hs1 Ht1]. specialize (IH s1 Hs1). unfold wp in IH.
      destruct (simulate fuel (strategy_of f) s1) as [[o|e] s2].
      * destruct IH as (n & Hn & Hrun & Htn). exists (S n).
        split; [lia|]. split.
        -- rewrite (turns_step n _ s s1 Hturn). exact Hrun.
        -- rewrite Htn, Ht1. lia.
      * destruct IH as (n & sn & Hn & Hrun & Htn & Hts). exists (S n), sn.
        split; [lia|]. split.
        -- rewrite (turns_step n _ s s1 Hturn). exact Hrun.
        -- split; [rewrite Htn, Ht1; lia|exact Hts].
    + destruct Ht as [_ Ht1]. exists 0%nat, s.
      split; [lia|]. split; [reflexivity|]. split; [simpl; lia|exact Ht1].
Qed.

Lemma simulate_counts_turns_on_the_clock_witness :
  wp (simulate 20 (strategy_of (fun _ => [])))
    (fun _ s' =>
       exists n, (n < 20)%nat /\
         turns n (strategy_of (fun _ => [])) wave_colony = (Ok tt, s') /\
         time s' = time wave_colony + Z.of_nat n)
    (fun s' =>
       exists n sn, (n <= 20)%nat /\
         turns n (strategy_of (fun _ => [])) wave_colony = (Ok tt, sn) /\
         time sn = time wave_colony + Z.of_nat n /\ time s' = time sn)
    wave_colony.
Proof.
  apply (simulate_counts_turns_on_the_clock 20 (fun _ => []) wave_colony).
  apply reachable_sound.
  exists (fun _ => 0%nat).
  exists [ OpNewBee 3; OpNewBee 3;
           OpNewHive (MkPlan 3 [(0, [0%nat; 1%nat])]);
           OpColonyInit 0 ant_types 8 1 0 2 ].
  vm_compute. reflexivity.
Defined.

(** * The place of the queen *)

Lemma frame_eff_queen_place w : frame_eff (queen_frame w).
Proof. split; [split|..]; intros; assumption. Qed.

Lemma wp_bind_ok {A B} (m : M A) (f : A -> M B) Q E s a s' :
  m s = (Ok a, s') -> wp (f a) Q E s' -> wp (bind m f) Q E s.
Proof. intros Hm Hf. unfold wp. rewrite (bind_ok _ _ _ _ _ Hm). exact Hf. Qed.

(** [QueenAnt.action] of the true queen and [colony.queen].  The first
    thing the action does is to make [colony.queen] a [QueenPlace]
    over the place it was and the place of the queen, unless it is a
    [QueenPlace] already; nothing in the rest of the action, the throw
    and the two walks that double damage, writes to it again.  So
    from her first action on, whether the action returns or raises, a
    bee in the place of the queen is a bee that has found the queen,
    and later actions never wrap the place a second time. *)
Theorem true_queen_claims_her_place s a x :
  sound s -> insects s !! a = Some x -> i_class x = QueenAnt ->
  i_is_true_queen x = true ->
  wp (action a)
    (fun _ s' => c_queen s' = wrapped_queen (c_queen s) (i_place x))
    (fun s' => c_queen s' = wrapped_queen (c_queen s) (i_place x)) s.
Proof.
  intros Hs Hx Hk Htrue.
  set (w := wrapped_queen (c_queen s) (i_place x)).
  set (J := sound_and (queen_frame w)).
  pose proof (frame_eff_queen_place w) as HE.
  assert (forall s0 i y d b, queen_frame w s0 -> insects s0 !! i = Some y ->
            queen_frame w
              (set_insects (fun l' => <[i := with_damage d b y]> l') s0))
    as Hdamage by (intros; assumption).
  assert (wp (action a) (fun _ => J) J s) as Hwp.
  { unfold action. apply (wp_bind_ok _ _ _ _ s x s (get_insect_ok s a x Hx)).
    rewrite Hk. cbn [own_action]. unfold QueenAnt_action.
    apply (wp_bind_ok _ _ _ _ s x s (get_insect_ok s a x Hx)).
    rewrite Htrue. cbn [negb].
    apply wp_bind, wp_get. wp_beta. apply wp_bind.
    assert (wp match c_queen s with
               | QPlain q => modify (set_c_queen (QueenPlace q (i_place x)))
               | QueenPlace _ _ => ret tt
               end (fun _ => J) J s) as Hq.
    { unfold w, wrapped_queen. destruct (c_queen s) eqn:Hc.
      - apply wp_modify. split; [apply (sound_ext s); auto|reflexivity].
      - apply wp_ret. split; [exact Hs|exact Hc]. }
    eapply wp_mono; [exact Hq| |auto]. intros ? s1 HJ1. wp_beta.
    apply wp_bind.
    eapply (wp_keeps J); [apply keeps_ThrowerAnt_action, HE|exact HJ1| |auto].
    intros _ s2 HJ2. wp_beta. unfold walk_bound.
    apply wp_bind, wp_bind, wp_get. wp_beta. apply wp_ret.
    apply wp_bind, wp_get_insect; [exact HJ2|]. intros x1 Hx1. wp_beta.
    apply wp_bind.
    eapply (wp_keeps J);
      [apply keeps_double_walk; exact Hdamage|exact HJ2| |auto].
    intros _ s3 HJ3. wp_beta.
    apply wp_bind, wp_get_insect; [exact HJ3|]. intros x2 Hx2. wp_beta.
    apply wp_bind, wp_deref; [exact HJ3|]. intros p Hp. wp_beta.
    apply wp_bind, wp_get_place; [exact HJ3|]. intros pl Hpl. wp_beta.
    apply keeps_double_walk; [exact Hdamage|exact HJ3]. }
  eapply wp_mono; [exact Hwp| |]; cbv beta; intros; match goal with
    | H : J _ |- _ => exact (proj2 H) end.
Qed.

Lemma true_queen_claims_her_place_witness :
  wp (action 0)
    (fun _ s' => c_queen s' = wrapped_queen (c_queen royal_colony) (Some 2%nat))
    (fun s' => c_queen s' = wrapped_queen (c_queen royal_colony) (Some 2%nat))
    royal_colony.
Proof.
  apply (true_queen_claims_her_place royal_colony 0%nat
           (MkInsect QueenAnt 1 (Some 2%nat) [] 1 false None 0 true));
    try reflexivity.
  apply reachable_sound.
  exists (fun _ => 0%nat).
  exists [ OpNewHive (MkPlan 3 []);
           OpColonyInit 0 ant_types 8 1 0 10;
           OpCommand (Deploy "tunnel_0_0" "Queen") ].
  vm_compute. reflexivity.
Defined.

(** * A bodyguard over an ant *)

Lemma with_p_ant_same pl : with_p_ant (p_ant pl) pl = pl.
Proof. destruct pl; reflexivity. Qed.

(** [Place.add_insect] of an empty bodyguard on a place that holds an
    ant which is not a container, and [Place.remove_insect] of the
    bodyguard afterwards.  The bodyguard takes the slot and contains
    the ant, which is not touched; when the bodyguard is removed the
    ant is the ant of the place again and the place is exactly as it
    was before.  The bodyguard, now in no place, still contains the
    ant. *)
Theorem bodyguard_wraps_and_unwraps s p pl c xc g xg :
  places s !! p = Some pl -> p_ant pl = Some c ->
  insects s !! c = Some xc -> class_is_ant (i_class xc) = true ->
  class_container (i_class xc) = false ->
  insects s !! g = Some xg -> i_class xg = BodyguardAnt -> i_ant xg = None ->
  exists s1 s2,
    Place_add_insect p g s = (Ok tt, s1) /\
    ant_at s1 p = Some g /\
    insects s1 !! g = Some (with_place (Some p) (with_ant (Some c) xg)) /\
    insects s1 !! c = Some xc /\
    remove_insect p g s1 = (Ok tt, s2) /\
    places s2 !! p = Some pl /\
    insects s2 !! c = Some xc /\
    insects s2 !! g = Some (with_place None (with_ant (Some c) xg)).
Proof.
  intros Hp Hc Hxc Hcant Hccont Hxg Hgk Hgant.
  assert (g <> c) as Hne.
  { intros ->. rewrite Hxc in Hxg. injection Hxg as ->.
    rewrite Hgk in Hccont. discriminate. }
  assert (class_is_ant (i_class xg) = true) as Hgisant
    by (rewrite Hgk; reflexivity).
  assert (can_contain_of xc xg = false) as Hc1.
  { unfold can_contain_of. rewrite Hccont. reflexivity. }
  assert (can_contain_of xg xc = true) as Hc2.
  { unfold can_contain_of, insect_contained_ant.
    rewrite Hgk, Hgant, Hccont. reflexivity. }
  assert (p < length (places s))%nat as Hlp by (eapply lookup_lt_Some, Hp).
  assert (g < length (insects s))%nat as Hlg by (eapply lookup_lt_Some, Hxg).
  set (g1 := with_ant (Some c) xg).
  set (sa := set_insects (fun l => <[g := g1]> l) s).
  set (sb := set_places (fun l => <[p := with_p_ant (Some g) pl]> l) sa).
  set (s1 := set_insects (fun l => <[g := with_place (Some p) g1]> l) sb).
  assert (Place_add_insect p g s = (Ok tt, s1)) as Hadd.
  { unfold Place_add_insect. run (is_ant_run s g xg Hxg). rewrite Hgisant.
    run (get_place_ok s p pl Hp). rewrite Hc.
    run (can_contain_run s c g xc xg Hxc Hxg Hcant Hgisant). rewrite Hc1.
    run (can_contain_run s g c xg xc Hxg Hxc Hgisant Hcant). rewrite Hc2.
    assert (class_container (i_class xg) = true) as Hgc
      by (rewrite Hgk; reflexivity).
    run (contain_ant_total s g c xg Hxg Hgc).
    run (upd_place_ok sa p pl (with_p_ant (Some g)) Hp).
    apply (upd_insect_ok sb g g1).
    apply list_lookup_insert_eq. exact Hlg. }
  assert (places s1 !! p = Some (with_p_ant (Some g) pl)) as Hp1.
  { apply list_lookup_insert_eq. exact Hlp. }
  assert (insects s1 !! g = Some (with_place (Some p) g1)) as Hg1.
  { cbn [insects s1 sb sa set_insects set_places].
    apply list_lookup_insert_eq. rewrite length_insert. exact Hlg. }
  assert (insects s1 !! c = Some xc) as Hc1'.
  { cbn [insects s1 sb sa set_insects set_places].
    rewrite !list_lookup_insert_ne by auto. exact Hxc. }
  exists s1. eexists. split; [exact Hadd|]. split.
  { unfold ant_at. rewrite Hp1. reflexivity. }
  split; [exact Hg1|]. split; [exact Hc1'|]. split.
  { apply (remove_insect_ant s1 p g (with_p_ant (Some g) pl)
             (with_place (Some p) g1) Hp1 eq_refl Hg1).
    - cbn. rewrite Hgk. reflexivity.
    - unfold insect_is_queen. cbn. rewrite Hgk. reflexivity. }
  cbn [insects places set_insects set_places s1 sb sa].
  split.
  { rewrite list_insert_insert_eq.
    rewrite list_lookup_insert_eq by exact Hlp.
    unfold insect_contained_ant. cbn. rewrite Hgk.
    rewrite <- Hc. destruct pl; reflexivity. }
  split.
  { rewrite !list_lookup_insert_ne by auto. exact Hxc. }
  rewrite !list_insert_insert_eq.
  rewrite list_lookup_insert_eq by exact Hlg. reflexivity.
Qed.

Lemma bodyguard_wraps_and_unwraps_witness :
  exists s1 s2,
    Place_add_insect 2 1 (exec (construct BodyguardAnt) crowded_colony)
      = (Ok tt, s1) /\
    ant_at s1 2 = Some 1%nat /\
    insects s1 !! 1%nat =
      Some (with_place (Some 2%nat) (with_ant (Some 0%nat)
              (MkInsect BodyguardAnt 2 None [] 0 false None 0 false))) /\
    insects s1 !! 0%nat =
      Some (MkInsect ThrowerAnt 1 (Some 2%nat) [] 1 false None 0 false) /\
    remove_insect 2 1 s1 = (Ok tt, s2) /\
    places s2 !! 2%nat =
      Some (MkPlace PlainPlace "tunnel_0_0" (Some 1%nat) [] (Some 0%nat)
              (Some 3%nat) []) /\
    insects s2 !! 0%nat =
      Some (MkInsect ThrowerAnt 1 (Some 2%nat) [] 1 false None 0 false) /\
    insects s2 !! 1%nat =
      Some (with_place None (with_ant (Some 0%nat)
              (MkInsect BodyguardAnt 2 None [] 0 false None 0 false))).
Proof.
  exact (bodyguard_wraps_and_unwraps
           (exec (construct BodyguardAnt) crowded_colony) 2%nat
           (MkPlace PlainPlace "tunnel_0_0" (Some 1%nat) [] (Some 0%nat)
              (Some 3%nat) [])
           0%nat
           (MkInsect ThrowerAnt 1 (Some 2%nat) [] 1 false None 0 false)
           1%nat
           (MkInsect BodyguardAnt 2 None [] 0 false None 0 false)
           eq_refl eq_refl eq_refl eq_refl eq_refl eq_refl eq_refl eq_refl).
Defined.

(** * Walks along the tunnel *)

Lemma path_ext next s s' stop place l :
  places s' = places s -> path next s stop place l -> path next s' stop place l.
Proof.
  intros Heq H. induction H as [|p pl l Hne Hp _ IH]; [constructor|].
  apply (path_step next s' stop p pl l Hne); [rewrite Heq; exact Hp|exact IH].
Qed.

Lemma path_unique next s stop place l :
  path next s stop place l -> forall l', path next s stop place l' -> l = l'.
Proof.
  induction 1 as [|p pl l Hne Hp _ IH]; intros l' H'.
  - inversion H' as [|p' pl' l0 Hne' Hp' Hrest]; [reflexivity|].
    subst. congruence.
  - inversion H' as [Hstop|p' pl' l0 Hne' Hp' Hrest]; [congruence|].
    subst. assert (pl' = pl) as -> by congruence.
    f_equal. apply IH, Hrest.
Qed.

Lemma path_suffix next s stop place l :
  path next s stop place l -> forall l1 q l2, l = l1 ++ q :: l2 ->
  path next s stop (Some q) (q :: l2).
Proof.
  induction 1 as [|p pl l Hne Hp Hrest IH]; intros l1 q l2 Heq.
  - destruct l1; discriminate Heq.
  - destruct l1 as [|p1 l1]; simpl in Heq; injection Heq as -> ->.
    + apply (path_step next s stop q pl l2 Hne Hp Hrest).
    + apply (IH l1 q l2 eq_refl).
Qed.

Lemma path_NoDup next s stop place l :
  path next s stop place l -> NoDup l.
Proof.
  intros H. induction H as [|p pl l Hne Hp Hrest IH]; [constructor|].
  apply NoDup_cons. split; [|exact IH].
  intros Hin. apply list_elem_of_split in Hin as (l1 & l2 & Heq).
  pose proof (path_step next s stop p pl l Hne Hp Hrest) as Hall.
  pose proof (path_suffix next s stop _ _ Hall (p :: l1) p l2) as Hsuf.
  simpl in Hsuf. rewrite <- Heq in Hsuf. specialize (Hsuf eq_refl).
  apply (path_unique next s stop _ _ Hall) in Hsuf.
  apply (f_equal length) in Hsuf. rewrite Heq in Hsuf. simpl in Hsuf.
  rewrite length_app in Hsuf. simpl in Hsuf. lia.
Qed.

Lemma path_in_places next s stop place l :
  path next s stop place l -> forall p, p ∈ l -> is_Some (places s !! p).
Proof.
  induction 1 as [|p pl l Hne Hp Hrest IH]; intros q Hq.
  - inversion Hq.
  - apply elem_of_cons in Hq as [->|Hq]; [eexists; exact Hp|apply IH, Hq].
Qed.

(** A walk that ends visits no place twice, so it is no longer than
    the colony has places. *)
Lemma path_length next s stop place l :
  path next s stop place l -> (length l <= length (places s))%nat.
Proof.
  intros H.
  assert (length l <= length (seq 0 (length (places s))))%nat as Hle.
  { apply NoDup_incl_length;
      [apply NoDup_ListNoDup, (path_NoDup next s stop place l H)|].
    intros p Hp. apply in_seq. split; [lia|]. simpl.
    apply lookup_lt_is_Some, (path_in_places next s stop place l H).
    apply list_elem_of_In, Hp. }
  rewrite length_seq in Hle. exact Hle.
Qed.

(** The walk to the end goes through the hive: the part before it. *)
Lemma path_before next s place l h :
  path next s None place l -> h ∈ l ->
  exists la lb, l = la ++ h :: lb /\ path next s (Some h) place la.
Proof.
  induction 1 as [|p pl l Hne Hp Hrest IH]; intros Hin.
  - inversion Hin.
  - destruct (decide (p = h)) as [->|Hph].
    + exists [], l. split; [reflexivity|constructor].
    + apply elem_of_cons in Hin as [Heq|Hin]; [congruence|].
      destruct (IH Hin) as (la & lb & -> & Hla).
      exists (p :: la), lb. split; [reflexivity|].
      apply (path_step next s (Some h) p pl la); [congruence|exact Hp|exact Hla].
Qed.

(** ** [ThrowerAnt.nearest_bee] *)

Lemma random_or_none_picks {A} (l : list A) s :
  l <> [] ->
  exists x, x ∈ l /\
    random_or_none l s = (Ok (Some x), set_rand_pos (S (rand_pos s)) s).
Proof.
  intros Hne. destruct (random_choice_picks l s Hne) as (x & Hx & Hrun).
  exists x. split; [exact Hx|]. unfold random_or_none.
  destruct l; [congruence|]. rewrite (bind_ok _ _ _ _ _ Hrun). reflexivity.
Qed.

(** The loop of [nearest_bee] on a walk that reaches the hive: it
    draws from the bees of the first place in range that has any. *)
Lemma nearest_bee_loop_run k hive s place l :
  path p_entrance s (Some hive) place l -> forall d fuel,
  (length l < fuel)%nat ->
  nearest_bee_loop fuel k hive place (Z.of_nat d) s =
    match first_bees k s l d with
    | None => (Ok None, s)
    | Some (_, r) => random_or_none (bees_at s r) s
    end.
Proof.
  induction 1 as [|p pl l Hne Hp Hrest IH]; intros d fuel Hfuel;
    (destruct fuel as [|fuel]; [simpl in Hfuel; lia|]);
    cbn [nearest_bee_loop first_bees].
  - unfold is_not. rewrite Nat.eqb_refl. reflexivity.
  - assert (is_not (Some p) hive = true) as ->.
    { unfold is_not. apply negb_true_iff, Nat.eqb_neq. congruence. }
    assert (bees_at s p = p_bees pl) as Hb
      by (unfold bees_at; rewrite Hp; reflexivity).
    assert ((let* q := deref (Some p) in
             let* ql := get_place q in
             nearest_bee_loop fuel k hive (p_entrance ql) (Z.of_nat d + 1)) s
            = match first_bees k s l (S d) with
              | None => (Ok None, s)
              | Some (_, r) => random_or_none (bees_at s r) s
              end) as Hnext.
    { cbn [deref]. rewrite bind_ret. run (get_place_ok s p pl Hp).
      rewrite <- (IH (S d) fuel) by (simpl in Hfuel; lia).
      rewrite Nat2Z.inj_succ, <- Z.add_1_r. reflexivity. }
    unfold in_range.
    destruct ((class_min_range k <=? Z.of_nat d)
              && (Z.of_nat d <=? class_max_range k)); cbn [andb].
    + rewrite bind_assoc. cbn [deref]. rewrite bind_ret.
      rewrite bind_assoc. run (get_place_ok s p pl Hp). rewrite Hb.
      destruct (p_bees pl) as [|b bs] eqn:Hbs.
      * cbn [random_or_none]. rewrite bind_ret.
        rewrite bool_decide_eq_true_2 by reflexivity. cbn [negb].
        exact Hnext.
      * rewrite bool_decide_eq_false_2 by discriminate. cbn [negb].
        cbv beta iota. rewrite ?Hb, ?Hbs.
        destruct (random_or_none_picks (b :: bs) s ltac:(discriminate))
          as (x & _ & Hrun).
        rewrite (bind_ok _ _ _ _ _ Hrun), Hrun. reflexivity.
    + rewrite bind_ret. exact Hnext.
Qed.

Lemma first_bees_Some k s : forall l d0 d r,
  first_bees k s l d0 = Some (d, r) ->
  exists j, d = (d0 + j)%nat /\ l !! j = Some r /\ in_range k d = true /\
    bees_at s r <> [] /\
    forall i r', (i < j)%nat -> l !! i = Some r' ->
      in_range k (d0 + i) = true -> bees_at s r' = [].
Proof.
  induction l as [|p l IH]; intros d0 d r H; [discriminate H|].
  cbn [first_bees] in H.
  destruct (in_range k d0) eqn:Hr; cbn [andb] in H.
  - destruct (bool_decide (bees_at s p = [])) eqn:Hb; cbn [negb] in H.
    + apply bool_decide_eq_true_1 in Hb.
      destruct (IH _ _ _ H) as (j & -> & Hj & Hin & Hne & Hbefore).
      exists (S j). split; [lia|]. split; [exact Hj|].
      split; [exact Hin|]. split; [exact Hne|].
      intros [|i] r' Hi Hr' Hin'.
      * injection Hr' as <-. exact Hb.
      * apply (Hbefore i r'); [lia|exact Hr'|].
        replace (S d0 + i)%nat with (d0 + S i)%nat by lia. exact Hin'.
    + apply bool_decide_eq_false_1 in Hb. injection H as <- <-.
      exists 0%nat. rewrite Nat.add_0_r. split; [reflexivity|].
      split; [reflexivity|]. split; [exact Hr|]. split; [exact Hb|].
      intros i r' Hi. lia.
  - destruct (IH _ _ _ H) as (j & -> & Hj & Hin & Hne & Hbefore).
    exists (S j). split; [lia|]. split; [exact Hj|].
    split; [exact Hin|]. split; [exact Hne|].
    intros [|i] r' Hi Hr' Hin'.
    + rewrite Nat.add_0_r in Hin'. congruence.
    + apply (Hbefore i r'); [lia|exact Hr'|].
      replace (S d0 + i)%nat with (d0 + S i)%nat by lia. exact Hin'.
Qed.

Lemma first_bees_None k s : forall l d0,
  first_bees k s l d0 = None ->
  forall i r, l !! i = Some r -> in_range k (d0 + i) = true ->
    bees_at s r = [].
Proof.
  induction l as [|p l IH]; intros d0 H i r Hi Hin;
    [rewrite lookup_nil in Hi; discriminate|].
  cbn [first_bees] in H.
  destruct (in_range k d0 && negb (bool_decide (bees_at s p = []))) eqn:Ht;
    [discriminate H|].
  destruct i as [|i].
  - injection Hi as <-. rewrite Nat.add_0_r in Hin. rewrite Hin in Ht.
    cbn [andb] in Ht. apply negb_false_iff, bool_decide_eq_true_1 in Ht.
    exact Ht.
  - apply (IH (S d0) H i r Hi).
    replace (S d0 + i)%nat with (d0 + S i)%nat by lia. exact Hin.
Qed.

(** ** A leaf thrown *)

Lemma strike_insects s p d b y pl :
  insects s !! b = Some y -> places s !! p = Some pl ->
  insects (strike p d s b) = <[b := struck d y]> (insects s).
Proof.
  intros Hy Hp. unfold strike. rewrite Hy, Hp. cbv zeta.
  destruct (_ <=? 0); [|reflexivity].
  destruct (list_remove b (p_bees pl)); reflexivity.
Qed.

(** A blow on a bee leaves the slots and the links of the places. *)
Lemma strike_places s p d b q ql :
  places (strike p d s b) !! q = Some ql ->
  exists ql0, places s !! q = Some ql0 /\ p_exit ql = p_exit ql0 /\
    p_entrance ql = p_entrance ql0 /\ p_ant ql = p_ant ql0.
Proof.
  unfold strike. destruct (insects s !! b) as [y|]; [|eauto].
  destruct (places s !! p) as [pl|] eqn:Hp; [|eauto]. cbv zeta.
  destruct (_ <=? 0); [|eauto].
  destruct (list_remove b (p_bees pl)); [|eauto].
  cbn [places set_places set_insects]. intros Hq.
  destruct (decide (q = p)) as [->|Hne].
  - rewrite list_lookup_insert_eq in Hq by (eapply lookup_lt_Some, Hp).
    injection Hq as <-. eauto.
  - rewrite list_lookup_insert_ne in Hq by auto. eauto.
Qed.

Lemma strike_places_back s p d b q ql0 :
  places s !! q = Some ql0 ->
  exists ql, places (strike p d s b) !! q = Some ql /\ p_exit ql = p_exit ql0 /\
    p_entrance ql = p_entrance ql0 /\ p_ant ql = p_ant ql0.
Proof.
  intros Hq.
  assert (is_Some (places (strike p d s b) !! q)) as [ql Hql].
  { apply lookup_lt_is_Some. unfold strike.
    destruct (insects s !! b); [|eapply lookup_lt_Some, Hq].
    destruct (places s !! p) as [pl|]; [|eapply lookup_lt_Some, Hq]. cbv zeta.
    destruct (_ <=? 0); [|eapply lookup_lt_Some, Hq].
    destruct (list_remove b (p_bees pl)); [|eapply lookup_lt_Some, Hq].
    cbn [places set_places set_insects]. rewrite length_insert.
    eapply lookup_lt_Some, Hq. }
  exists ql. split; [exact Hql|].
  destruct (strike_places s p d b q ql Hql) as (ql1 & Hq1 & He & Hn & Ha).
  assert (ql1 = ql0) as -> by congruence. auto.
Qed.

(** [ThrowerAnt.action] of a thrower of leaves whose place leads to the
    hive along [entrance]: nothing when no place in range short of the
    hive holds a bee, and otherwise a blow on the bee that
    [random_or_none] draws from the first such place. *)
Lemma ThrowerAnt_action_run s self x p l :
  insects s !! self = Some x -> throws_leaf (i_class x) = true ->
  i_place x = Some p ->
  path p_entrance s (Some (c_hive s)) (Some p) l ->
  (forall r, r ∈ l -> bees_ok s r) ->
  match first_bees (i_class x) s l 0 with
  | None => ThrowerAnt_action self s = (Ok tt, s)
  | Some (_, r) =>
      exists t,
        bees_at s r !! (rand_src s (rand_pos s) mod length (bees_at s r))%nat
          = Some t /\
        ThrowerAnt_action self s =
          (Ok tt, strike r (i_damage x) (set_rand_pos (S (rand_pos s)) s) t)
  end.
Proof.
  intros Hx Hleaf Hpl Hpath Hok.
  assert (class_is_thrower (i_class x) = true) as Hthrower
    by (destruct (i_class x); try discriminate Hleaf; reflexivity).
  assert (forall s0 target,
            insects s0 !! self = Some x ->
            throw_at self target s0 =
              match target with
              | Some t => bee_reduce_armor t (i_damage x) s0
              | None => (Ok tt, s0)
              end) as Hthrow.
  { intros s0 target Hx0. unfold throw_at. run (get_insect_ok s0 self x Hx0).
    destruct (i_class x); try discriminate Hleaf;
      (destruct target; [run (get_insect_ok s0 self x Hx0)|]; reflexivity). }
  assert (nearest_bee self (c_hive s) s =
            match first_bees (i_class x) s l 0 with
            | None => (Ok None, s)
            | Some (_, r) => random_or_none (bees_at s r) s
            end) as Hnear.
  { unfold nearest_bee. run (get_insect_ok s self x Hx). rewrite Hthrower.
    unfold walk_bound. rewrite bind_assoc, bind_get, bind_ret, Hpl.
    apply (nearest_bee_loop_run (i_class x) (c_hive s) s (Some p) l Hpath 0%nat).
    pose proof (path_length _ _ _ _ _ Hpath). lia. }
  unfold ThrowerAnt_action. rewrite bind_get.
  destruct (first_bees (i_class x) s l 0) as [[d r]|] eqn:Hfirst.
  - destruct (first_bees_Some _ _ _ _ _ _ Hfirst)
      as (j & -> & Hj & Hin & Hne & _).
    assert (r ∈ l) as Hr by (eapply list_elem_of_lookup_2, Hj).
    assert (rand_src s (rand_pos s) mod length (bees_at s r)
            < length (bees_at s r))%nat as Hlt.
    { apply Nat.mod_upper_bound. destruct (bees_at s r); [congruence|].
      simpl. lia. }
    apply lookup_lt_is_Some in Hlt as [t Ht]. exists t. split; [exact Ht|].
    rewrite (bind_ok _ _ _ _ _
               (eq_trans Hnear (random_or_none_run _ s _ t eq_refl Ht))).
    rewrite Hthrow by exact Hx.
    assert (t ∈ bees_at s r) as Hin_t by (eapply list_elem_of_lookup_2, Ht).
    destruct (Hok r Hr) as [_ Hall].
    destruct (Hall t Hin_t) as (y & Hy & Hyant & Hyp).
    unfold bees_at in Hin_t.
    destruct (places s !! r) as [rl|] eqn:Hrl; [|inversion Hin_t].
    apply (bee_reduce_armor_bee _ r t y rl); assumption.
  - rewrite (bind_ok _ _ _ _ _ Hnear). rewrite Hthrow by exact Hx.
    reflexivity.
Qed.
(** * Lethal damage needs a place *)

Lemma Insect_reduce_armor_unplaced s i x amount :
  insects s !! i = Some x -> i_place x = None -> i_armor x <= amount ->
  eval (Insect_reduce_armor i amount) s = Raise AttributeError.
Proof.
  intros Hi Hp Ha. unfold eval, Insect_reduce_armor.
  run_with Hi. run_with Hi.
  assert ((i_armor x - amount <=? 0) = true) as -> by lia.
  rewrite Hp. reflexivity.
Qed.

Lemma reduce_armor_unplaced s i x amount :
  insects s !! i = Some x -> i_place x = None -> i_armor x <= amount ->
  eval (reduce_armor i amount) s = Raise AttributeError.
Proof.
  intros Hi Hp Ha. unfold eval, reduce_armor. run_with Hi.
  destruct (i_class x) eqn:Hk;
    try (apply (Insect_reduce_armor_unplaced s i x amount Hi Hp Ha)).
  unfold FireAnt_reduce_armor. run_with Hi.
  assert ((i_armor x <=? amount) = true) as -> by lia.
  rewrite Hp. reflexivity.
Qed.

(** C10.  [reduce_armor(amount)] on an insect whose [place] is [None]
    raises (the removal branch reads an attribute of [None]) as soon as
    [amount >= armor]; so a call that completes was made on a placed
    insect or left its armor strictly positive. *)
Theorem C10_lethal_damage_requires_place s i x amount :
  insects s !! i = Some x ->
  (i_place x = None -> i_armor x <= amount ->
   eval (reduce_armor i amount) s = Raise AttributeError) /\
  (eval (reduce_armor i amount) s = Ok tt ->
   i_place x <> None \/ i_armor x - amount > 0).
Proof.
  intros Hi. split.
  - apply reduce_armor_unplaced, Hi.
  - intros Hok. destruct (i_place x) eqn:Hp; [left; discriminate|].
    destruct (Z_le_gt_dec (i_armor x) amount) as [Hle|Hgt]; [|right; lia].
    rewrite (reduce_armor_unplaced s i x amount Hi Hp Hle) in Hok.
    discriminate.
Qed.


Lemma C10_witness :
  eval (reduce_armor 0 3) (exec (new_bee 3) (empty_state (fun _ => 0%nat)))
  = Raise AttributeError.
Proof.
  apply (proj1 (C10_lethal_damage_requires_place
                  (exec (new_bee 3) (empty_state (fun _ => 0%nat))) 0%nat
                  (MkInsect Bee 3 None [] 0 false None 0 false) 3 eq_refl));
    [reflexivity|simpl; lia].
Defined.

(** * C2: what a blow leaves of an actor *)

Lemma class_FireAnt_dec k : {k = FireAnt} + {k <> FireAnt}.
Proof. destruct k; (left; reflexivity) || (right; discriminate). Qed.

Lemma reduce_armor_survives s i x amount :
  insects s !! i = Some x -> 0 < i_armor x - amount ->
  reduce_armor i amount s =
    (Ok tt, set_insects (fun l => <[i := struck amount x]> l) s).
Proof.
  intros Hx Hpos. destruct (class_FireAnt_dec (i_class x)) as [Hk|Hk].
  - apply FireAnt_survives_run; [exact Hx|exact Hk|lia].
  - rewrite (reduce_armor_plain s i x amount Hx Hk).
    apply Insect_reduce_armor_survives; assumption.
Qed.

(** The true queen without armor: [remove_insect] returns at once. *)
Lemma reduce_armor_queen s i x amount :
  insects s !! i = Some x -> insect_is_queen x = true ->
  i_place x <> None ->
  reduce_armor i amount s =
    (Ok tt,
     set_insects (fun l => <[i := with_armor (i_armor x - amount) x]> l) s).
Proof.
  intros Hx Hq Hpl.
  assert (i_class x <> FireAnt) as Hk.
  { unfold insect_is_queen in Hq. destruct (i_class x); discriminate. }
  rewrite (reduce_armor_plain s i x amount Hx Hk). unfold Insect_reduce_armor.
  run (get_insect_ok s i x Hx).
  run (upd_insect_ok s i x (with_armor (i_armor x - amount)) Hx).
  destruct (i_armor x - amount <=? 0); [|reflexivity].
  destruct (i_place x) as [p|]; [|congruence]. cbn [deref]. rewrite bind_ret.
  apply (remove_insect_queen _ p i (with_armor (i_armor x - amount) x)).
  - apply list_lookup_insert_eq. eapply lookup_lt_Some, Hx.
  - exact Hq.
Qed.

(** The outcome of [reduce_armor] on the ant of a slot or a bee of a place
    with well-formed bees, by what armor is left. *)
Lemma reduce_armor_leaves s i x p pl amount :
  sound s -> bees_ok s p ->
  insects s !! i = Some x -> i_place x = Some p ->
  places s !! p = Some pl -> held s i p ->
  exists s',
    reduce_armor i amount s = (Ok tt, s') /\
    armor_of s' i = Some (i_armor x - amount) /\
    if 0 <? i_armor x - amount then present s' i p
    else if insect_is_queen x then present s' i p
    else absent s' i p.
Proof.
  intros Hs Hok Hx Hpl Hp Hheld.
  assert (i < length (insects s))%nat as Hli by (eapply lookup_lt_Some, Hx).
  assert (p < length (places s))%nat as Hlp by (eapply lookup_lt_Some, Hp).
  assert (bees_at s p = p_bees pl) as Hbees
    by (unfold bees_at; rewrite Hp; auto).
  assert (ant_at s p = p_ant pl) as Hslot
    by (unfold ant_at; rewrite Hp; auto).
  assert (forall y, i_place y = Some p -> i_armor y = i_armor x - amount ->
            let s' := set_insects (fun l => <[i := y]> l) s in
            armor_of s' i = Some (i_armor x - amount) /\ present s' i p)
    as Hstay.
  { intros y Hyp Hya s'. unfold armor_of, present, place_of, held, ant_at,
      bees_at. cbn [insects places s' set_insects].
    rewrite list_lookup_insert_eq by exact Hli. rewrite Hya, Hyp, Hp.
    split; [reflexivity|]. split; [reflexivity|].
    unfold held, ant_at, bees_at in Hheld. rewrite Hp in Hheld. exact Hheld. }
  destruct (Z.ltb_spec 0 (i_armor x - amount)) as [Hpos|Hle].
  { eexists. split; [apply (reduce_armor_survives s i x amount Hx Hpos)|].
    apply Hstay; unfold struck;
      (assert ((i_armor x - amount <=? 0) = false) as -> by lia); auto. }
  destruct (insect_is_queen x) eqn:Hq.
  { eexists. split.
    - apply (reduce_armor_queen s i x amount Hx Hq). congruence.
    - apply Hstay; auto. }
  destruct (class_is_ant (i_class x)) eqn:Hant.
  - (* an ant: it is the ant of the slot *)
    pose proof (bees_ok_not_ant s p i x Hok Hx Hant) as Hnotbee.
    assert (p_ant pl = Some i) as Ha.
    { destruct Hheld as [Ha|Hb]; [congruence|contradiction]. }
    assert (insect_contained_ant x <> Some i) as Hinner.
    { intros Hin. destruct Hs as (Hn & _ & _).
      unfold insect_contained_ant in Hin.
      destruct (i_class x) eqn:Hk; try discriminate Hin.
      destruct (Hn i x i Hx Hin) as (z & Hz & _ & Hzc).
      assert (z = x) as -> by congruence. rewrite Hk in Hzc. discriminate. }
    clear Hstay.
    destruct (class_FireAnt_dec (i_class x)) as [Hk|Hk].
    + destruct (FireAnt_falls_run s i x amount p pl Hx Hk ltac:(lia) Hpl Hp
                  Ha Hok) as (s' & Hrun & Hb' & _ & Hi' & Ha' & _).
      exists s'. split; [exact Hrun|].
      unfold armor_of, absent, place_of, held. rewrite Hi', Ha', Hb'.
      unfold struck. assert ((i_armor x - amount <=? 0) = true) as -> by lia.
      split; [reflexivity|]. split; [reflexivity|].
      intros [Hc|Hc]; [discriminate|].
      apply list_elem_of_In, filter_In in Hc as [Hc _].
      apply Hnotbee, list_elem_of_In, Hc.
    + eexists. split.
      * rewrite (reduce_armor_plain s i x amount Hx Hk).
        apply (Insect_reduce_armor_ant_falls s i x p pl amount
                 Hx Hant Hq Hpl Hp Ha Hle).
      * unfold armor_of, absent, place_of, held, ant_at, bees_at.
        cbn [insects places set_insects set_places].
        rewrite !list_lookup_insert_eq by assumption.
        unfold struck. assert ((i_armor x - amount <=? 0) = true) as -> by lia.
        split; [reflexivity|]. split; [reflexivity|].
        cbn [p_ant p_bees with_p_ant].
        intros [Hc|Hc]; [congruence|].
        apply Hnotbee. rewrite Hbees. exact Hc.
  - (* a bee: it is one of the bees *)
    assert (i ∈ p_bees pl) as Hin.
    { destruct Hheld as [Ha|Hb]; [|rewrite <- Hbees; exact Hb].
      destruct Hs as (_ & Hsl & _). rewrite Hslot in Ha.
      destruct (Hsl p pl i Hp Ha) as (z & Hz & Hza). congruence. }
    assert (i_class x <> FireAnt) as Hk by (intros Hk; rewrite Hk in Hant;
                                             discriminate).
    destruct Hok as [Hnd _]. rewrite Hbees in Hnd.
    apply list_elem_of_split in Hin as (pre & l & Hsplit).
    assert ((i ∉ pre) /\ (i ∉ l)) as [Hpre Hl].
    { rewrite Hsplit in Hnd. apply NoDup_app in Hnd as (_ & Hdisj & Hnd).
      apply NoDup_cons in Hnd as [Hl _]. split; [|exact Hl].
      intros Hin. apply (Hdisj i Hin). left. }
    assert (i ∈ p_bees pl) as Hin.
    { rewrite Hsplit. apply elem_of_app. right. left. }
    destruct (strike_spec s p amount i x pl pre l Hx Hp Hsplit Hpre)
      as [Hins Hpls].
    eexists. split.
    + rewrite (reduce_armor_plain s i x amount Hx Hk).
      apply (Insect_reduce_armor_bee s p i x pl amount Hx Hant Hpl Hp Hin).
    + unfold armor_of, absent, place_of, held, ant_at, bees_at.
      rewrite Hins, Hpls. unfold dies. rewrite Hx.
      assert ((i_armor x - amount <=? 0) = true) as Hdead by lia.
      rewrite Hdead.
      rewrite !list_lookup_insert_eq by assumption.
      unfold struck. rewrite Hdead.
      split; [reflexivity|]. split; [reflexivity|].
      cbn [p_ant p_bees with_p_bees].
      intros [Hc|Hc].
      * destruct Hs as (_ & Hsl & _).
        destruct (Hsl p pl i Hp Hc) as (z & Hz & Hza). congruence.
      * apply elem_of_app in Hc as [Hc|Hc]; contradiction.
Qed.

(** C2, as the code has it.  Take an actor of a place: the ant of its
    slot or one of its bees.  [reduce_armor(amount)] returns and
    leaves the actor with its armor less by [amount]; if armor is
    left the actor is still in its place; if none is left the actor is
    gone from the place and points to no place, unless it is the true
    queen, who stays in her place whatever her armor. *)
Theorem C2_reduce_armor_outcomes s i x p pl amount :
  sound s -> bees_ok s p ->
  insects s !! i = Some x -> i_place x = Some p ->
  places s !! p = Some pl -> held s i p ->
  exists s',
    reduce_armor i amount s = (Ok tt, s') /\
    armor_of s' i = Some (i_armor x - amount) /\
    if 0 <? i_armor x - amount then present s' i p
    else if insect_is_queen x then present s' i p
    else absent s' i p.
Proof. apply reduce_armor_leaves. Qed.

Lemma C2_witness :
  (exists s',
     reduce_armor 0 1 crowded_colony = (Ok tt, s') /\
     armor_of s' 0 = Some (1 - 1) /\
     absent s' 0 2) /\
  (exists s',
     reduce_armor 0 1 royal_colony = (Ok tt, s') /\
     armor_of s' 0 = Some (1 - 1) /\
     present s' 0 2).
Proof.
  split.
  - apply (C2_reduce_armor_outcomes crowded_colony 0%nat
             (MkInsect ThrowerAnt 1 (Some 2%nat) [] 1 false None 0 false) 2%nat
             (MkPlace PlainPlace "tunnel_0_0" (Some 1%nat) [] (Some 0%nat)
                (Some 3%nat) []) 1);
      try reflexivity.
    + apply reachable_sound. exists (fun _ => 0%nat), crowded_ops.
      vm_compute. reflexivity.
    + split; [apply NoDup_nil_2|]. intros b Hb. inversion Hb.
    + left. reflexivity.
  - apply (C2_reduce_armor_outcomes royal_colony 0%nat
             (MkInsect QueenAnt 1 (Some 2%nat) [] 1 false None 0 true) 2%nat
             (MkPlace PlainPlace "tunnel_0_0" (Some 1%nat) [] (Some 0%nat)
                (Some 3%nat) []) 1);
      try reflexivity.
    + apply reachable_sound.
      exists (fun _ => 0%nat),
        [ OpNewHive (MkPlan 3 []); OpColonyInit 0 ant_types 8 1 0 10;
          OpCommand (Deploy "tunnel_0_0" "Queen") ].
      vm_compute. reflexivity.
    + split; [apply NoDup_nil_2|]. intros b Hb. inversion Hb.
    + left. reflexivity.
Defined.

(** The claim of the specification fails.  The true queen in
    [tunnel_0_0], with 1 armor, takes a blow of 1: she is left with no
    armor and is still in her place, a third outcome. *)
Lemma C2_counterexample : ~ two_outcomes royal_colony 0 2 1.
Proof.
  intros H. destruct (H 1 eq_refl) as [(_ & _ & Hpos)|([Hgone _] & _)].
  - lia.
  - vm_compute in Hgone. discriminate Hgone.
Qed.

(** * C5: what a thrower hits *)

Lemma path_hop s stop : forall l p d r,
  path p_entrance s stop (Some p) l -> l !! d = Some r ->
  hop s d p = Some r /\ Some r <> stop.
Proof.
  induction l as [|q l IH]; intros p d r Hpath Hd;
    [rewrite lookup_nil in Hd; discriminate|].
  inversion Hpath as [|p' pl l' Hne Hp Hrest]; subst.
  destruct d as [|d].
  - injection Hd as <-. split; [reflexivity|exact Hne].
  - cbn [hop]. rewrite Hp. simpl in Hd.
    destruct (p_entrance pl) as [e|] eqn:He.
    + apply (IH e d r Hrest Hd).
    + inversion Hrest; subst. rewrite lookup_nil in Hd. discriminate.
Qed.

(** C5, as the code has it.  Take a thrower of leaves (thrower, long,
    short or scuba thrower, or the queen) whose place leads to the
    hive along [entrance], [l] being the places on the way, the hive
    left out, each with well-formed bees.  The place at index [d] of
    [l] is the place [d] hops away, and is not the hive.
    [ThrowerAnt.action] returns, whatever the random draw.  An insect
    that it changes is a bee of a place of [l] whose hop count is in
    the range of the class, no place in range nearer to the ant holds
    a bee, and the change is the ant's damage taken off its armor.
    When, among the places of [l] in range, there is exactly one bee,
    that bee is hit.  A bee in the hive is never hit. *)
Theorem C5_thrower_hits_in_range s self x p l :
  insects s !! self = Some x -> throws_leaf (i_class x) = true ->
  i_place x = Some p ->
  path p_entrance s (Some (c_hive s)) (Some p) l ->
  (forall r, r ∈ l -> bees_ok s r) ->
  (forall d r, l !! d = Some r -> hop s d p = Some r /\ r <> c_hive s) /\
  exists s',
    ThrowerAnt_action self s = (Ok tt, s') /\
    (forall b y, insects s !! b = Some y ->
       insects s' !! b = Some y \/
       insects s' !! b = Some (struck (i_damage x) y) /\
       exists d r, l !! d = Some r /\ in_range (i_class x) d = true /\
         b ∈ bees_at s r /\
         forall j r', (j < d)%nat -> l !! j = Some r' ->
           in_range (i_class x) j = true -> bees_at s r' = []) /\
    (forall b d r, l !! d = Some r -> in_range (i_class x) d = true ->
       b ∈ bees_at s r ->
       (forall d' r' b', l !! d' = Some r' ->
          in_range (i_class x) d' = true -> b' ∈ bees_at s r' -> b' = b) ->
       exists y, insects s !! b = Some y /\
                 insects s' !! b = Some (struck (i_damage x) y)).
Proof.
  intros Hx Hleaf Hpl Hpath Hok. split.
  { intros d r Hd. destruct (path_hop s _ l p d r Hpath Hd) as [Hh Hne].
    split; [exact Hh|congruence]. }
  pose proof (ThrowerAnt_action_run s self x p l Hx Hleaf Hpl Hpath Hok) as Hrun.
  destruct (first_bees (i_class x) s l 0) as [[d r]|] eqn:Hfirst.
  - destruct Hrun as (t & Ht & Hrun).
    destruct (first_bees_Some _ _ _ _ _ _ Hfirst)
      as (j & Hdj & Hj & Hin & Hne & Hbefore). simpl in Hdj. subst j.
    assert (t ∈ bees_at s r) as Hin_t by (eapply list_elem_of_lookup_2, Ht).
    assert (r ∈ l) as Hr by (eapply list_elem_of_lookup_2, Hj).
    destruct (Hok r Hr) as [_ Hall].
    destruct (Hall t Hin_t) as (y & Hy & Hyant & Hyp).
    assert (is_Some (places s !! r)) as [rl Hrl].
    { unfold bees_at in Hin_t. destruct (places s !! r); [eauto|].
      inversion Hin_t. }
    set (s1 := set_rand_pos (S (rand_pos s)) s) in *.
    assert (insects (strike r (i_damage x) s1 t)
            = <[t := struck (i_damage x) y]> (insects s)) as Hins
      by (apply (strike_insects s1 r (i_damage x) t y rl); assumption).
    assert (insects (strike r (i_damage x) s1 t) !! t
            = Some (struck (i_damage x) y)) as Hhit.
    { rewrite Hins. apply list_lookup_insert_eq. eapply lookup_lt_Some, Hy. }
    eexists. split; [exact Hrun|]. split.
    + intros b y0 Hy0. destruct (decide (b = t)) as [->|Hbt].
      * right. assert (y0 = y) as -> by congruence.
        split; [exact Hhit|]. exists d, r. auto.
      * left. rewrite Hins, list_lookup_insert_ne by auto. exact Hy0.
    + intros b d0 r0 Hd0 Hin0 Hb0 Honly.
      assert (t = b) as <- by (apply (Honly d r t Hj Hin Hin_t)).
      exists y. split; [exact Hy|exact Hhit].
  - exists s. split; [exact Hrun|]. split.
    + intros b y Hy. left. exact Hy.
    + intros b d0 r0 Hd0 Hin0 Hb0 _.
      rewrite (first_bees_None _ _ _ _ Hfirst d0 r0 Hd0 Hin0) in Hb0.
      inversion Hb0.
Qed.

Lemma C5_witness :
  exists s',
    ThrowerAnt_action 1 far_bee_colony = (Ok tt, s') /\
    armor_of s' 0 = Some 2.
Proof.
  assert (forall r, r ∈ [5; 6; 7; 8; 9]%nat -> bees_ok far_bee_colony r)
    as Hok.
  { intros r Hr. unfold bees_ok.
    repeat (apply elem_of_cons in Hr as [->|Hr]);
      [..|inversion Hr];
      (split; [apply (bool_decide_unpack _); vm_compute; exact I|]);
      intros b Hb; vm_compute in Hb;
      repeat (apply elem_of_cons in Hb as [->|Hb]); try (inversion Hb; fail);
      eexists; repeat split. }
  destruct (C5_thrower_hits_in_range far_bee_colony 1%nat
              (MkInsect ThrowerAnt 1 (Some 5%nat) [] 1 false None 0 false)
              5%nat [5; 6; 7; 8; 9]%nat eq_refl eq_refl eq_refl
              ltac:(repeat (eapply path_step;
                              [discriminate|reflexivity|cbn]);
                    apply path_end)
              Hok) as (_ & s' & Hrun & _ & Hone).
  exists s'. split; [exact Hrun|].
  destruct (Hone 0%nat 4%nat 9%nat eq_refl eq_refl) as (y & Hy & Hy').
  - vm_compute. left.
  - intros d' r' b' Hd' _ Hb'.
    destruct d' as [|[|[|[|[|d']]]]]; simpl in Hd';
      try (injection Hd' as <-; vm_compute in Hb';
           first [inversion Hb'; fail
                 |apply elem_of_cons in Hb' as [->|Hb'];
                  [reflexivity|inversion Hb']]).
    rewrite lookup_nil in Hd'. discriminate.
  - vm_compute in Hy. injection Hy as <-.
    unfold armor_of. rewrite Hy'. reflexivity.
Defined.

(** The claim of the specification fails for a bee in the Hive.  The
    thrower in [tunnel_0_7] has the range 0 to 10; the bee in the
    Hive, one hop away, is the only bee within range; the thrower's
    action leaves its armor at 3. *)
Lemma C5_counterexample : ~ single_target_is_hit hive_bee_colony 1 0.
Proof.
  intros H.
  assert (within_range hive_bee_colony 1 0) as Hin.
  { exists (MkInsect ThrowerAnt 1 (Some 9%nat) [] 1 false None 0 false),
      9%nat, 1%nat, 0%nat.
    repeat split. vm_compute. left. }
  assert (forall b', within_range hive_bee_colony 1 b' -> b' = 0%nat) as Honly.
  { intros b' (x & p & d & r & Hx & Hp & Hd & _ & Hb').
    vm_compute in Hx. injection Hx as <-. injection Hp as <-.
    destruct d as [|[|d]]; vm_compute in Hd; try discriminate Hd;
      injection Hd as <-; vm_compute in Hb'.
    - inversion Hb'.
    - apply elem_of_cons in Hb' as [->|Hb']; [reflexivity|inversion Hb']. }
  specialize (H Hin Honly _ _ eq_refl eq_refl).
  vm_compute in H. discriminate H.
Qed.

(** * C6: an empty plan ends the game before it starts *)

(** With no bee in the queen's place and none in the colony, the test
    at the top of the loop of [simulate] fails at once. *)
Lemma simulate_without_bees fuel strategy s :
  eval queen_bees s = Ok [] -> eval bees s = Ok [] ->
  simulate (S fuel) strategy s = (Ok Won, s).
Proof.
  unfold eval. intros Hq Hb.
  pose proof (reads_queen_bees s) as Hqs. pose proof (reads_bees s) as Hbs.
  destruct (queen_bees s) as [rq sq] eqn:Eq. destruct (bees s) as [rb sb] eqn:Eb.
  cbn [fst snd] in *. subst.
  cbn [simulate]. run Eq. run Eb. unfold verdict. run Eq. reflexivity.
Qed.

(** C6, as the code has it.  When no bee is in the colony, as with an
    empty assault plan, the test at the top of the loop of [simulate]
    sees no bee at the first tick: the body of the loop never runs,
    the strategy is never called, and the game is won with the store
    exactly as it was, so with the clock and the pool where they
    were and no ant deployed. *)
Theorem C6_empty_plan_won_at_tick_0 s strategy fuel :
  eval queen_bees s = Ok [] -> eval bees s = Ok [] ->
  simulate (S fuel) strategy s = (Ok Won, s) /\
  time (exec (simulate (S fuel) strategy) s) = time s /\
  food (exec (simulate (S fuel) strategy) s) = food s /\
  eval ants (exec (simulate (S fuel) strategy) s) = eval ants s.
Proof.
  intros Hq Hb. unfold exec.
  rewrite (simulate_without_bees fuel strategy s Hq Hb). auto.
Qed.

Lemma C6_witness :
  simulate 6 harvester_strategy quiet_colony = (Ok Won, quiet_colony) /\
  time (exec (simulate 6 harvester_strategy) quiet_colony) = time quiet_colony /\
  food (exec (simulate 6 harvester_strategy) quiet_colony) = food quiet_colony /\
  eval ants (exec (simulate 6 harvester_strategy) quiet_colony)
    = eval ants quiet_colony.
Proof.
  apply (C6_empty_plan_won_at_tick_0 quiet_colony harvester_strategy 5%nat);
    vm_compute; reflexivity.
Defined.

(** The claim of the specification fails.  In the test colony with an
    empty plan and 2 food, where the clock is at 0 and no ant is
    deployed, no run of the scheduler plays five turns or brings the
    pool to 5: it stops at tick 0 with the pool at 2. *)
Lemma C6_counterexample :
  time quiet_colony = 0 /\ food quiet_colony = 2 /\
  eval ants quiet_colony = Ok [] /\
  ~ five_turns_then_won.
Proof.
  split; [reflexivity|]. split; [reflexivity|]. split; [reflexivity|].
  intros (fuel & s' & Hrun & Ht & Hf).
  destruct fuel as [|fuel]; [discriminate Hrun|].
  rewrite (simulate_without_bees fuel harvester_strategy quiet_colony) in Hrun;
    [|vm_compute; reflexivity|vm_compute; reflexivity].
  injection Hrun as <-. vm_compute in Hf. discriminate Hf.
Qed.

(** * C8: the queen doubles damage *)

Lemma double_damage_run s a y :
  insects s !! a = Some y -> double_damage a s = (Ok tt, double_ant s a).
Proof.
  intros Hy. unfold double_damage, double_ant. rewrite Hy.
  run (get_insect_ok s a y Hy).
  destruct (i_damage_doubled y); [reflexivity|]. apply upd_insect_ok, Hy.
Qed.

Lemma double_ant_places s a : places (double_ant s a) = places s.
Proof.
  unfold double_ant. destruct (insects s !! a) as [y|]; [|reflexivity].
  destruct (i_damage_doubled y); reflexivity.
Qed.

Lemma double_ant_lookup s a b y :
  insects s !! b = Some y ->
  insects (double_ant s a) !! b = Some y \/
  b = a /\ i_damage_doubled y = false /\
  insects (double_ant s a) !! b
    = Some (with_damage (i_damage y * 2) true y).
Proof.
  intros Hy. unfold double_ant.
  destruct (insects s !! a) as [z|] eqn:Hz; [|left; exact Hy].
  destruct (i_damage_doubled z) eqn:Hf; [left; exact Hy|].
  cbn [insects set_insects]. destruct (decide (b = a)) as [->|Hne].
  - right. assert (z = y) as -> by congruence.
    split; [reflexivity|]. split; [exact Hf|].
    apply list_lookup_insert_eq. eapply lookup_lt_Some, Hy.
  - left. rewrite list_lookup_insert_ne by auto. exact Hy.
Qed.

Lemma double_ant_flagged s a y :
  insects s !! a = Some y -> flagged (double_ant s a) a.
Proof.
  intros Hy. unfold flagged, double_ant. rewrite Hy.
  destruct (i_damage_doubled y) eqn:Hf; [exists y; split; assumption|].
  exists (with_damage (i_damage y * 2) true y). split; [|reflexivity].
  cbn [insects set_insects].
  rewrite list_lookup_insert_eq by (eapply lookup_lt_Some, Hy). reflexivity.
Qed.

Lemma doubling_refl s : doubling s s.
Proof. split; [reflexivity|]. intros a y Hy. left. exact Hy. Qed.

Lemma doubling_trans s1 s2 s3 :
  doubling s1 s2 -> doubling s2 s3 -> doubling s1 s3.
Proof.
  intros [Hp1 H1] [Hp2 H2]. split; [congruence|]. intros a y Hy.
  destruct (H1 a y Hy) as [Hy2|(Hf & Hq & Hy2)].
  - apply (H2 a y Hy2).
  - right. split; [exact Hf|]. split; [exact Hq|].
    destruct (H2 a _ Hy2) as [Hy3|(Hf3 & _)]; [exact Hy3|discriminate Hf3].
Qed.

Lemma doubling_double_ant s a :
  (forall y, insects s !! a = Some y -> insect_is_queen y = false) ->
  doubling s (double_ant s a).
Proof.
  intros Hq. split; [apply double_ant_places|]. intros b y Hy.
  destruct (double_ant_lookup s a b y Hy) as [H|(-> & Hf & H)];
    [left; exact H|].
  right. split; [exact Hf|]. split; [apply (Hq y Hy)|exact H].
Qed.

Lemma doubling_double_place s r : doubling s (double_place s r).
Proof.
  unfold double_place. destruct (ant_at s r) as [a|]; [|apply doubling_refl].
  destruct (insects s !! a) as [y|] eqn:Hy; [|apply doubling_refl].
  destruct (insect_is_queen y) eqn:Hq; [apply doubling_refl|]. cbv zeta.
  assert (doubling s (double_ant s a)) as H1.
  { apply doubling_double_ant. intros y0 Hy0. congruence. }
  destruct (insect_contained_ant y) as [c|]; [|exact H1].
  destruct (insects (double_ant s a) !! c) as [z|] eqn:Hz; [|exact H1].
  destruct (insect_is_queen z) eqn:Hqz; [exact H1|].
  apply (doubling_trans _ _ _ H1), doubling_double_ant.
  intros z0 Hz0. congruence.
Qed.

Lemma doubling_fold l : forall s, doubling s (fold_left double_place l s).
Proof.
  induction l as [|r l IH]; intros s; simpl; [apply doubling_refl|].
  eapply doubling_trans; [apply doubling_double_place|apply IH].
Qed.

Lemma flagged_doubling s s' a : doubling s s' -> flagged s a -> flagged s' a.
Proof.
  intros [_ H] (y & Hy & Hf). destruct (H a y Hy) as [Hy'|(Hf' & _)].
  - exists y. auto.
  - congruence.
Qed.

(** An ant that [s'] has flagged, after a doubling from [s], is what
    [double_damage] makes of the ant of [s]. *)
Lemma flagged_doubling_value s s' a y :
  doubling s s' -> insects s !! a = Some y -> flagged s' a ->
  insects s' !! a = Some (double_insect y).
Proof.
  intros [_ H] Hy (y' & Hy' & Hf'). unfold double_insect.
  destruct (H a y Hy) as [Hs|(Hf & _ & Hs)].
  - assert (y' = y) as -> by congruence. rewrite Hf'. exact Hs.
  - rewrite Hf. exact Hs.
Qed.

Lemma tunnel_ant_doubling s s' r a :
  doubling s s' -> tunnel_ant s r a -> tunnel_ant s' r a.
Proof.
  intros [Hp H] (y & Hy & Hq & Hwhere).
  assert (forall b z, insects s !! b = Some z ->
            exists z', insects s' !! b = Some z' /\
              insect_is_queen z' = insect_is_queen z /\
              insect_contained_ant z' = insect_contained_ant z) as Hsame.
  { intros b z Hz. destruct (H b z Hz) as [Hz'|(_ & _ & Hz')];
      eexists; (split; [exact Hz'|split; reflexivity]). }
  assert (ant_at s' r = ant_at s r) as Hslot
    by (unfold ant_at; rewrite Hp; reflexivity).
  destruct (Hsame a y Hy) as (y' & Hy' & Hq' & _).
  exists y'. split; [exact Hy'|]. split; [congruence|]. rewrite Hslot.
  destruct Hwhere as [Ha|(b & z & Hb & Hz & Hqz & Hc)]; [left; exact Ha|].
  right. destruct (Hsame b z Hz) as (z' & Hz' & Hqz' & Hc').
  exists b, z'. split; [exact Hb|]. split; [exact Hz'|].
  split; congruence.
Qed.

Lemma double_place_flags s r a :
  tunnel_ant s r a -> flagged (double_place s r) a.
Proof.
  intros (y & Hy & Hq & [Ha|(b & z & Hb & Hz & Hqz & Hc)]);
    unfold double_place.
  - rewrite Ha, Hy, Hq. cbv zeta.
    pose proof (double_ant_flagged s a y Hy) as Hfl.
    destruct (insect_contained_ant y) as [c|]; [|exact Hfl].
    destruct (insects (double_ant s a) !! c) as [z|] eqn:Hz; [|exact Hfl].
    destruct (insect_is_queen z) eqn:Hqz; [exact Hfl|].
    apply (flagged_doubling (double_ant s a)); [|exact Hfl].
    apply doubling_double_ant. intros z0 Hz0. congruence.
  - rewrite Hb, Hz, Hqz, Hc. cbv zeta.
    destruct (double_ant_lookup s b a y Hy) as [Hy1|(_ & _ & Hy1)];
      rewrite Hy1.
    + rewrite Hq. eapply double_ant_flagged, Hy1.
    + change (insect_is_queen (with_damage (i_damage y * 2) true y))
        with (insect_is_queen y).
      rewrite Hq. eapply double_ant_flagged, Hy1.
Qed.

Lemma fold_double_place_flags l : forall s r a,
  r ∈ l -> tunnel_ant s r a -> flagged (fold_left double_place l s) a.
Proof.
  induction l as [|r0 l IH]; intros s r a Hr Ha; [inversion Hr|].
  simpl. destruct (decide (r = r0)) as [->|Hne].
  - eapply flagged_doubling; [apply doubling_fold|].
    apply double_place_flags, Ha.
  - apply elem_of_cons in Hr as [?|Hr]; [contradiction|].
    apply (IH _ r a Hr).
    apply (tunnel_ant_doubling s); [apply doubling_double_place|exact Ha].
Qed.

(** [_double_place_damage] on a place of a sound store. *)
Lemma _double_place_damage_run s r pl :
  sound s -> places s !! r = Some pl ->
  _double_place_damage r s = (Ok tt, double_place s r).
Proof.
  intros (Hn & Hs & _) Hp. unfold _double_place_damage, double_place, ant_at.
  rewrite Hp. run (get_place_ok s r pl Hp).
  destruct (p_ant pl) as [a|] eqn:Ha; [|reflexivity].
  destruct (Hs r pl a Hp Ha) as (y & Hy & _). rewrite Hy.
  run (is_queen_run s a y Hy).
  destruct (insect_is_queen y) eqn:Hq; [reflexivity|]. cbv zeta.
  run (double_damage_run s a y Hy).
  assert (exists y1, insects (double_ant s a) !! a = Some y1 /\
            insect_contained_ant y1 = insect_contained_ant y)
    as (y1 & Hy1 & Hc1).
  { destruct (double_ant_lookup s a a y Hy) as [H|(_ & _ & H)];
      eexists; (split; [exact H|reflexivity]). }
  run (contained_ant_run _ a y1 Hy1). rewrite Hc1.
  destruct (insect_contained_ant y) as [c|] eqn:Hc; [|reflexivity].
  assert (is_Some (insects s !! c)) as [z0 Hz0].
  { assert (i_ant y = Some c) as Hi.
    { unfold insect_contained_ant in Hc. destruct (i_class y);
        try discriminate Hc; exact Hc. }
    destruct (Hn a y c Hy Hi) as (z & Hz & _). eauto. }
  assert (is_Some (insects (double_ant s a) !! c)) as [z Hz].
  { destruct (double_ant_lookup s a c z0 Hz0) as [H|(_ & _ & H)]; eauto. }
  rewrite Hz. run (is_queen_run _ c z Hz).
  destruct (insect_is_queen z); [reflexivity|].
  apply (double_damage_run _ c z Hz).
Qed.

Lemma sound_double_place s r : sound s -> sound (double_place s r).
Proof.
  intros Hs. destruct (places s !! r) as [pl|] eqn:Hp.
  - pose proof (keeps_exec sound (_double_place_damage r) s) as H.
    unfold exec in H. rewrite (_double_place_damage_run s r pl Hs Hp) in H.
    apply H; [|exact Hs].
    apply keeps_sound, keeps__double_place_damage; no_frame.
  - unfold double_place, ant_at. rewrite Hp. exact Hs.
Qed.

(** The loop [while place is not None] of [QueenAnt.action] on a walk
    that ends. *)
Lemma double_walk_run next : forall l place s fuel,
  sound s -> path next s None place l -> (length l < fuel)%nat ->
  double_walk fuel next place s = (Ok tt, fold_left double_place l s).
Proof.
  induction l as [|r l IH]; intros place s fuel Hs Hpath Hfuel;
    (destruct fuel as [|fuel]; [simpl in Hfuel; lia|]);
    inversion Hpath as [Hend|p pl l' Hne Hp Hrest]; subst;
    cbn [double_walk fold_left].
  - reflexivity.
  - run (_double_place_damage_run s r pl Hs Hp).
    pose proof (doubling_double_place s r) as [Hpl _].
    assert (places (double_place s r) !! r = Some pl) as Hp'
      by (rewrite Hpl; exact Hp).
    run (get_place_ok _ r pl Hp').
    apply IH; [apply sound_double_place, Hs| |simpl in Hfuel; lia].
    apply (path_ext next s); [exact Hpl|exact Hrest].
Qed.

Lemma path_same next s s' stop place l :
  (forall q ql, places s !! q = Some ql ->
     exists ql', places s' !! q = Some ql' /\ next ql' = next ql) ->
  path next s stop place l -> path next s' stop place l.
Proof.
  intros Hsame H. induction H as [|p pl l Hne Hp _ IH]; [constructor|].
  destruct (Hsame p pl Hp) as (pl' & Hp' & Hnext).
  apply (path_step next s' stop p pl' l Hne Hp'). rewrite Hnext. exact IH.
Qed.

Lemma tunnel_ant_kept s s' r a :
  sound s -> ants_kept s s' -> tunnel_ant s r a -> tunnel_ant s' r a.
Proof.
  intros (Hn & Hs & _) [Hpl Hins] (y & Hy & Hq & Hwhere).
  assert (forall b, ant_at s r = Some b ->
            ant_at s' r = Some b /\
            exists z, insects s !! b = Some z /\
                      class_is_ant (i_class z) = true) as Hslot.
  { intros b Hb. unfold ant_at in *.
    destruct (places s !! r) as [pl|] eqn:Hp; [|discriminate Hb].
    destruct (Hpl r pl Hp) as (pl' & -> & _ & _ & Ha). split; [congruence|].
    apply (Hs r pl b Hp Hb). }
  destruct Hwhere as [Ha|(b & z & Hb & Hz & Hqz & Hc)].
  - destruct (Hslot a Ha) as (Ha' & y0 & Hy0 & Hant).
    assert (y0 = y) as -> by congruence.
    exists y. split; [apply Hins; assumption|]. split; [exact Hq|].
    left. exact Ha'.
  - destruct (Hslot b Hb) as (Hb' & z0 & Hz0 & Hant).
    assert (z0 = z) as -> by congruence.
    assert (class_is_ant (i_class y) = true) as Hyant.
    { assert (i_ant z = Some a) as Hi.
      { unfold insect_contained_ant in Hc. destruct (i_class z);
          try discriminate Hc; exact Hc. }
      destruct (Hn b z a Hz Hi) as (y0 & Hy0 & Hy0ant & _). congruence. }
    exists y. split; [apply Hins; assumption|]. split; [exact Hq|].
    right. exists b, z. split; [exact Hb'|].
    split; [apply Hins; assumption|]. split; assumption.
Qed.

Lemma double_insect_twice y : double_insect (double_insect y) = double_insect y.
Proof.
  unfold double_insect. destruct (i_damage_doubled y) eqn:Hf.
  - rewrite Hf. reflexivity.
  - reflexivity.
Qed.

Lemma sound_fold_double_place l : forall s,
  sound s -> sound (fold_left double_place l s).
Proof.
  induction l as [|r l IH]; intros s Hs; simpl; [exact Hs|].
  apply IH, sound_double_place, Hs.
Qed.

Lemma tunnel_ant_is_ant s r a y :
  sound s -> tunnel_ant s r a -> insects s !! a = Some y ->
  class_is_ant (i_class y) = true.
Proof.
  intros (Hn & Hs & _) (y0 & Hy0 & _ & Hwhere) Hy.
  assert (y0 = y) as -> by congruence.
  destruct Hwhere as [Ha|(b & z & Hb & Hz & _ & Hc)].
  - unfold ant_at in Ha. destruct (places s !! r) as [pl|] eqn:Hp;
      [|discriminate Ha].
    destruct (Hs r pl a Hp Ha) as (y1 & Hy1 & Hant). congruence.
  - assert (i_ant z = Some a) as Hi.
    { unfold insect_contained_ant in Hc. destruct (i_class z);
        try discriminate Hc; exact Hc. }
    destruct (Hn b z a Hz Hi) as (y1 & Hy1 & Hant & _). congruence.
Qed.

(** The leaf that the queen throws first. *)
Lemma queen_throw s q x p le :
  sound s -> insects s !! q = Some x -> i_class x = QueenAnt ->
  i_place x = Some p ->
  path p_entrance s None (Some p) le -> c_hive s ∈ le ->
  (forall r, r ∈ le -> bees_ok s r) ->
  exists s2,
    ThrowerAnt_action q s = (Ok tt, s2) /\ sound s2 /\ ants_kept s s2.
Proof.
  intros Hs Hx Hk Hpl Hle Hhive Hok.
  destruct (path_before p_entrance s (Some p) le (c_hive s) Hle Hhive)
    as (la & lb & Heq & Hla).
  assert (forall r, r ∈ la -> bees_ok s r) as Hok_la.
  { intros r Hr. apply Hok. rewrite Heq. apply elem_of_app. left. exact Hr. }
  assert (throws_leaf (i_class x) = true) as Hleaf by (rewrite Hk; reflexivity).
  pose proof (ThrowerAnt_action_run s q x p la Hx Hleaf Hpl Hla Hok_la) as Hrun.
  assert (sound (exec (ThrowerAnt_action q) s)) as Hsound.
  { apply keeps_exec; [|exact Hs].
    apply keeps_sound, keeps_ThrowerAnt_action; no_frame. }
  destruct (first_bees (i_class x) s la 0) as [[d r]|] eqn:Hfirst.
  - destruct Hrun as (t & Ht & Hrun). unfold exec in Hsound.
    rewrite Hrun in Hsound. cbn [snd] in Hsound.
    eexists. split; [exact Hrun|]. split; [exact Hsound|].
    destruct (first_bees_Some _ _ _ _ _ _ Hfirst) as (j & _ & Hj & _).
    assert (r ∈ la) as Hr by (eapply list_elem_of_lookup_2, Hj).
    assert (t ∈ bees_at s r) as Hin_t by (eapply list_elem_of_lookup_2, Ht).
    destruct (Hok_la r Hr) as [_ Hall].
    destruct (Hall t Hin_t) as (y & Hy & Hyant & _).
    assert (is_Some (places s !! r)) as [rl Hrl].
    { unfold bees_at in Hin_t. destruct (places s !! r); [eauto|].
      inversion Hin_t. }
    split.
    + intros q0 ql Hq0.
      apply (strike_places_back (set_rand_pos (S (rand_pos s)) s)
               r (i_damage x) t q0 ql Hq0).
    + intros a ya Hya Hant.
      rewrite (strike_insects (set_rand_pos (S (rand_pos s)) s)
                 r (i_damage x) t y rl Hy Hrl).
      cbn [insects set_rand_pos].
      rewrite list_lookup_insert_ne; [exact Hya|].
      intros ->. congruence.
  - exists s. split; [exact Hrun|]. split; [exact Hs|]. split.
    + intros q0 ql Hq0. exists ql. auto.
    + intros a ya Hya _. exact Hya.
Qed.

(** [QueenAnt.action] of the true queen from the throw on. *)
Lemma queen_throws_and_walks s q x p lx le :
  sound s ->
  insects s !! q = Some x -> i_class x = QueenAnt ->
  i_is_true_queen x = true -> i_place x = Some p ->
  path p_exit s None (Some p) lx ->
  path p_entrance s None (Some p) le ->
  c_hive s ∈ le -> (forall r, r ∈ le -> bees_ok s r) ->
  exists s',
    (ThrowerAnt_action q ;;
     let* n := walk_bound in
     let* x1 := get_insect q in
     double_walk n p_exit (i_place x1) ;;
     let* x2 := get_insect q in
     let* p0 := deref (i_place x2) in
     let* pl := get_place p0 in
     double_walk n p_entrance (p_entrance pl)) s = (Ok tt, s') /\
    (forall r a y, r ∈ lx ++ le -> tunnel_ant s r a ->
       insects s !! a = Some y ->
       insects s' !! a = Some (double_insect y)) /\
    insects s' !! q = Some x /\
    (forall a y, insects s !! a = Some y -> class_is_ant (i_class y) = true ->
       insects s' !! a = Some y \/ insects s' !! a = Some (double_insect y)) /\
    damage_ok s'.
Proof.
  intros Hs Hx Hk Htrue Hpl Hlx Hle Hhive Hok.
  destruct (queen_throw s q x p le Hs Hx Hk Hpl Hle Hhive Hok)
    as (s2 & Hthrow & Hs2 & Hkept).
  assert (class_is_ant (i_class x) = true) as Hxant
    by (rewrite Hk; reflexivity).
  assert (insect_is_queen x = true) as Hxq
    by (unfold insect_is_queen; rewrite Hk; exact Htrue).
  pose proof (proj2 Hkept q x Hx Hxant) as Hx2.
  assert (path p_exit s2 None (Some p) lx) as Hlx2.
  { apply (path_same p_exit s); [|exact Hlx]. intros q0 ql Hq0.
    destruct (proj1 Hkept q0 ql Hq0) as (ql' & H & He & _). eauto. }
  assert (path p_entrance s2 None (Some p) le) as Hle2.
  { apply (path_same p_entrance s); [|exact Hle]. intros q0 ql Hq0.
    destruct (proj1 Hkept q0 ql Hq0) as (ql' & H & _ & He & _). eauto. }
  set (s3 := fold_left double_place lx s2).
  pose proof (doubling_fold lx s2) as Hd3. fold s3 in Hd3.
  pose proof (sound_fold_double_place lx s2 Hs2) as Hs3. fold s3 in Hs3.
  assert (forall s0, doubling s2 s0 -> insects s0 !! q = Some x) as Hqueen.
  { intros s0 [_ H]. destruct (H q x Hx2) as [H0|(_ & Hq & _)];
      [exact H0|congruence]. }
  inversion Hle2 as [|p' pl2 le' _ Hp2 Hle2']; subst p' le.
  assert (places s3 !! p = Some pl2) as Hp3
    by (rewrite (proj1 Hd3); exact Hp2).
  assert (path p_entrance s3 None (p_entrance pl2) le') as Hle3
    by (apply (path_ext p_entrance s2); [exact (proj1 Hd3)|exact Hle2']).
  set (s4 := fold_left double_place le' s3).
  pose proof (doubling_fold le' s3) as Hd4. fold s4 in Hd4.
  pose proof (doubling_trans _ _ _ Hd3 Hd4) as Hd.
  exists s4. split; [|split; [|split; [|split]]].
  - run Hthrow. unfold walk_bound. rewrite bind_assoc, bind_get, bind_ret.
    run (get_insect_ok s2 q x Hx2). rewrite Hpl.
    assert (length lx < S (length (places s2)))%nat as Hfuel
      by (pose proof (path_length _ _ _ _ _ Hlx2); lia).
    run (double_walk_run p_exit lx (Some p) s2 _ Hs2 Hlx2 Hfuel).
    fold s3. run (get_insect_ok s3 q x (Hqueen s3 Hd3)). rewrite Hpl.
    cbn [deref]. rewrite bind_ret. run (get_place_ok s3 p pl2 Hp3).
    apply (double_walk_run p_entrance le' _ s3 _ Hs3 Hle3).
    pose proof (path_length _ _ _ _ _ Hle3) as Hlen.
    rewrite (proj1 Hd3) in Hlen. lia.
  - intros r a y Hr Hta Hy.
    pose proof (tunnel_ant_is_ant s r a y Hs Hta Hy) as Hyant.
    pose proof (proj2 Hkept a y Hy Hyant) as Hy2.
    pose proof (tunnel_ant_kept s s2 r a Hs Hkept Hta) as Hta2.
    apply (flagged_doubling_value s2 s4 a y Hd Hy2).
    assert (p ∈ lx) as Hplx.
    { inversion Hlx; subst. left. }
    assert (r ∈ lx \/ r ∈ le') as [Hin|Hin].
    { apply elem_of_app in Hr as [Hr|Hr]; [left; exact Hr|].
      apply elem_of_cons in Hr as [->|Hr]; [left; exact Hplx|right; exact Hr]. }
    + apply (flagged_doubling s3 s4 a Hd4).
      apply (fold_double_place_flags lx s2 r a Hin Hta2).
    + apply (fold_double_place_flags le' s3 r a Hin).
      apply (tunnel_ant_doubling s2 s3 r a Hd3 Hta2).
  - apply (Hqueen s4 Hd).
  - intros a y Hy Hyant. pose proof (proj2 Hkept a y Hy Hyant) as Hy2.
    destruct (proj2 Hd a y Hy2) as [H|(Hf & _ & H)]; [left; exact H|].
    right. unfold double_insect. rewrite Hf. exact H.
  - apply (sound_fold_double_place le' s3 Hs3).
Qed.

(** C8, as the code has it.  Take the true queen in a place [p] of a
    sound store, [lx] the places from [p] along [exit] to the end,
    [le] the places from [p] along [entrance] to the end, the hive
    among them, each with well-formed bees.  Her action returns.
    After it, every ant of a slot of these places, and every ant that
    such an ant contains, the true queen herself left out, is what
    [double_damage] makes of it: its damage is doubled if it was not,
    and it is as it was if it was.  The queen herself is as she was:
    her own damage is never doubled.  Any ant of the colony is as it
    was or what [double_damage] makes of it; [double_damage] a second
    time changes nothing; and the damage of every insect is the damage
    of its class, or twice that when and only when [damage_doubled] is
    set, so never more than twice its first value. *)
Theorem C8_queen_doubles_the_tunnel s q x p lx le :
  sound s ->
  insects s !! q = Some x -> i_class x = QueenAnt ->
  i_is_true_queen x = true -> i_place x = Some p ->
  path p_exit s None (Some p) lx ->
  path p_entrance s None (Some p) le ->
  c_hive s ∈ le -> (forall r, r ∈ le -> bees_ok s r) ->
  exists s',
    action q s = (Ok tt, s') /\
    (forall r a y, r ∈ lx ++ le -> tunnel_ant s r a ->
       insects s !! a = Some y ->
       insects s' !! a = Some (double_insect y)) /\
    insects s' !! q = Some x /\
    (forall a y, insects s !! a = Some y -> class_is_ant (i_class y) = true ->
       insects s' !! a = Some y \/ insects s' !! a = Some (double_insect y)) /\
    (forall y, double_insect (double_insect y) = double_insect y) /\
    damage_ok s'.
Proof.
  intros Hs Hx Hk Htrue Hpl Hlx Hle Hhive Hok.
  assert (action q s = QueenAnt_action q s) as ->.
  { unfold action. run (get_insect_ok s q x Hx). rewrite Hk. reflexivity. }
  unfold QueenAnt_action. run (get_insect_ok s q x Hx). rewrite Htrue.
  cbn [negb]. rewrite bind_get.
  assert (forall s0 : state,
            insects s0 = insects s -> places s0 = places s ->
            c_hive s0 = c_hive s ->
            exists s',
              (ThrowerAnt_action q ;;
               let* n := walk_bound in
               let* x1 := get_insect q in
               double_walk n p_exit (i_place x1) ;;
               let* x2 := get_insect q in
               let* p0 := deref (i_place x2) in
               let* pl := get_place p0 in
               double_walk n p_entrance (p_entrance pl)) s0 = (Ok tt, s') /\
              (forall r a y, r ∈ lx ++ le -> tunnel_ant s r a ->
                 insects s !! a = Some y ->
                 insects s' !! a = Some (double_insect y)) /\
              insects s' !! q = Some x /\
              (forall a y, insects s !! a = Some y ->
                 class_is_ant (i_class y) = true ->
                 insects s' !! a = Some y \/
                 insects s' !! a = Some (double_insect y)) /\
              damage_ok s') as Hrest.
  { intros s0 Hi0 Hp0 Hh0.
    destruct (queen_throws_and_walks s0 q x p lx le) as (s' & Hrun & H1 & H2 & H3 & H4).
    - apply (sound_ext s); assumption.
    - rewrite Hi0. exact Hx.
    - exact Hk.
    - exact Htrue.
    - exact Hpl.
    - apply (path_ext p_exit s); assumption.
    - apply (path_ext p_entrance s); assumption.
    - rewrite Hh0. exact Hhive.
    - intros r Hr. pose proof (Hok r Hr) as H.
      unfold bees_ok, bees_at in *. rewrite Hi0, Hp0. exact H.
    - exists s'. split; [exact Hrun|]. split; [|split; [exact H2|split; [|exact H4]]].
      + intros r a y Hr Hta Hy. apply (H1 r a y Hr).
        * unfold tunnel_ant, ant_at in *. rewrite Hi0, Hp0. exact Hta.
        * rewrite Hi0. exact Hy.
      + intros a y Hy. apply H3. rewrite Hi0. exact Hy. }
  assert (exists s',
            (match c_queen s with
             | QPlain q0 => modify (set_c_queen (QueenPlace q0 (i_place x)))
             | QueenPlace _ _ => ret tt
             end ;;
             ThrowerAnt_action q ;;
             let* n := walk_bound in
             let* x1 := get_insect q in
             double_walk n p_exit (i_place x1) ;;
             let* x2 := get_insect q in
             let* p0 := deref (i_place x2) in
             let* pl := get_place p0 in
             double_walk n p_entrance (p_entrance pl)) s = (Ok tt, s') /\
            (forall r a y, r ∈ lx ++ le -> tunnel_ant s r a ->
               insects s !! a = Some y ->
               insects s' !! a = Some (double_insect y)) /\
            insects s' !! q = Some x /\
            (forall a y, insects s !! a = Some y ->
               class_is_ant (i_class y) = true ->
               insects s' !! a = Some y \/
               insects s' !! a = Some (double_insect y)) /\
            damage_ok s') as (s' & Hrun & H1 & H2 & H3 & H4).
  { destruct (c_queen s) as [q0|q0 q1].
    - rewrite bind_modify. apply Hrest; reflexivity.
    - rewrite bind_ret. apply Hrest; reflexivity. }
  exists s'. split; [exact Hrun|]. split; [exact H1|]. split; [exact H2|].
  split; [exact H3|]. split; [apply double_insect_twice|exact H4].
Qed.

Lemma C8_witness :
  exists s',
    action 0 court_colony = (Ok tt, s') /\
    damage_of s' 1 = Some 6 /\ damage_of s' 2 = Some 0 /\
    damage_of s' 3 = Some 2 /\ damage_of s' 0 = Some 1.
Proof.
  assert (sound court_colony) as Hs.
  { apply reachable_sound. exists (fun _ => 0%nat), court_ops.
    vm_compute. reflexivity. }
  assert (forall r, r ∈ [3; 4; 5; 6; 7; 8; 9; 0]%nat -> bees_ok court_colony r)
    as Hok.
  { intros r Hr. unfold bees_ok.
    repeat (apply elem_of_cons in Hr as [->|Hr]);
      [..|inversion Hr];
      (split; [apply NoDup_nil_2|]); intros b Hb; inversion Hb. }
  destruct (C8_queen_doubles_the_tunnel court_colony 0%nat
              (MkInsect QueenAnt 1 (Some 3%nat) [] 1 false None 0 true)
              3%nat [3; 2; 1]%nat [3; 4; 5; 6; 7; 8; 9; 0]%nat
              Hs eq_refl eq_refl eq_refl eq_refl
              ltac:(repeat (eapply path_step;
                              [discriminate|reflexivity|cbn]);
                    apply path_end)
              ltac:(repeat (eapply path_step;
                              [discriminate|reflexivity|cbn]);
                    apply path_end)
              ltac:(apply (bool_decide_unpack _); vm_compute; exact I)
              Hok) as (s' & Hrun & Hall & Hq & _).
  exists s'. split; [exact Hrun|].
  assert (forall r a y, r ∈ [3; 2; 1; 3; 4; 5; 6; 7; 8; 9; 0]%nat ->
            tunnel_ant court_colony r a ->
            insects court_colony !! a = Some y ->
            damage_of s' a = Some (i_damage (double_insect y))) as Hd.
  { intros r a y Hr Hta Hy. unfold damage_of.
    rewrite (Hall r a y Hr Hta Hy). reflexivity. }
  assert (tunnel_ant court_colony 2 1) as Hfire.
  { eexists. split; [reflexivity|]. split; [reflexivity|].
    right. eexists 2%nat, _. split; [reflexivity|].
    split; [reflexivity|]. split; reflexivity. }
  assert (tunnel_ant court_colony 2 2) as Hguard.
  { eexists. split; [reflexivity|]. split; [reflexivity|].
    left. reflexivity. }
  assert (tunnel_ant court_colony 5 3) as Hthrower.
  { eexists. split; [reflexivity|]. split; [reflexivity|].
    left. reflexivity. }
  split; [|split; [|split]].
  - exact (Hd 2%nat 1%nat _ ltac:(right; left) Hfire eq_refl).
  - exact (Hd 2%nat 2%nat _ ltac:(right; left) Hguard eq_refl).
  - exact (Hd 5%nat 3%nat _ ltac:(do 5 right; left) Hthrower eq_refl).
  - unfold damage_of. rewrite Hq. reflexivity.
Defined.

(** The claim of the specification fails for the queen herself.  Her
    place is on the path through her place, and she is the ant of its
    slot; after her action her damage is not doubled:
    [_double_place_damage] returns at once for an ant whose
    [is_queen()] is true. *)
Lemma C8_counterexample : ~ queen_doubles_every_defender royal_colony 0.
Proof.
  intros H.
  destruct (H (MkInsect QueenAnt 1 (Some 2%nat) [] 1 false None 0 true)
              2%nat [2; 1]%nat 2%nat 0%nat eq_refl eq_refl) as (y & Hy & Hf).
  - left. repeat (eapply path_step; [discriminate|reflexivity|cbn]).
    apply path_end.
  - left.
  - reflexivity.
  - vm_compute in Hy. injection Hy as <-. discriminate Hf.
Qed.

(** * C9: Water *)

Lemma keeps_sound_Place_add_insect p i s :
  sound s -> sound (exec (Place_add_insect p i) s).
Proof.
  intros Hs. apply keeps_exec; [|exact Hs].
  apply keeps_sound, keeps_Place_add_insect; no_frame.
Qed.

(** [Place.add_insect] of an insect that is not an ant. *)
Lemma Place_add_insect_not_ant s p i pl x :
  places s !! p = Some pl -> insects s !! i = Some x ->
  class_is_ant (i_class x) = false ->
  Place_add_insect p i s =
    (Ok tt,
     set_insects (fun l => <[i := with_place (Some p) x]> l)
       (set_places (fun l => <[p := with_p_bees (p_bees pl ++ [i]) pl]> l) s)).
Proof.
  intros Hp Hx Hant. unfold Place_add_insect.
  run (is_ant_run s i x Hx). rewrite Hant.
  run (upd_place_ok s p pl (fun q => with_p_bees (p_bees q ++ [i]) q) Hp).
  apply (upd_insect_ok _ i x). exact Hx.
Qed.

(** What [Water.add_insect] does after [Place.add_insect] returned. *)
Lemma Water_add_insect_after s p i s1 x1 :
  Place_add_insect p i s = (Ok tt, s1) -> insects s1 !! i = Some x1 ->
  Water_add_insect p i s =
    if class_watersafe (i_class x1) then (Ok tt, s1)
    else reduce_armor i (i_armor x1) s1.
Proof.
  intros HP Hx1. unfold Water_add_insect. run HP.
  run (get_insect_ok s1 i x1 Hx1).
  destruct (class_watersafe (i_class x1)); cbn [negb]; [reflexivity|].
  run (get_insect_ok s1 i x1 Hx1). reflexivity.
Qed.

Lemma watersafe_not_queen x :
  class_watersafe (i_class x) = false -> insect_is_queen x = false.
Proof.
  unfold insect_is_queen. destruct (i_class x); try reflexivity. discriminate.
Qed.

(** An actor that is not watersafe, put in its place by
    [Place.add_insect], loses all its armor and leaves. *)
Lemma Water_drowns s p i s1 x1 pl1 :
  Place_add_insect p i s = (Ok tt, s1) ->
  sound s -> bees_ok s1 p ->
  insects s1 !! i = Some x1 -> i_place x1 = Some p ->
  places s1 !! p = Some pl1 -> held s1 i p ->
  class_watersafe (i_class x1) = false ->
  exists s',
    Water_add_insect p i s = (Ok tt, s') /\
    armor_of s' i = Some 0 /\ absent s' i p.
Proof.
  intros HP Hs Hok Hx1 Hpl Hp1 Hheld Hw.
  assert (sound s1) as Hs1.
  { pose proof (keeps_sound_Place_add_insect p i s Hs) as H.
    unfold exec in H. rewrite HP in H. exact H. }
  destruct (reduce_armor_leaves s1 i x1 p pl1 (i_armor x1)
              Hs1 Hok Hx1 Hpl Hp1 Hheld) as (s' & Hrun & Harm & Hout).
  exists s'. rewrite (Water_add_insect_after s p i s1 x1 HP Hx1), Hw.
  split; [exact Hrun|]. rewrite Z.sub_diag in Harm, Hout.
  split; [exact Harm|]. cbn in Hout.
  rewrite (watersafe_not_queen x1 Hw) in Hout. exact Hout.
Qed.

(** The bees of a place after an insect was put there that was not
    among them. *)
Lemma bees_ok_after_add s s1 p pl1 i :
  bees_ok s p -> places s1 !! p = Some pl1 ->
  (forall b, b <> i -> insects s1 !! b = insects s !! b) ->
  (i ∉ bees_at s p) ->
  (p_bees pl1 = bees_at s p \/
   p_bees pl1 = bees_at s p ++ [i] /\
   exists x1, insects s1 !! i = Some x1 /\
              class_is_ant (i_class x1) = false /\ i_place x1 = Some p) ->
  bees_ok s1 p.
Proof.
  intros [Hnd Hall] Hp1 Hsame Hnotin Hbees.
  unfold bees_ok, bees_at. rewrite Hp1.
  assert (forall b, b ∈ bees_at s p ->
            exists y, insects s1 !! b = Some y /\
                      class_is_ant (i_class y) = false /\ i_place y = Some p)
    as Hold.
  { intros b Hb. rewrite Hsame; [apply Hall, Hb|].
    intros ->. contradiction. }
  destruct Hbees as [->|[-> Hi]].
  - split; assumption.
  - split.
    + apply NoDup_app. split; [exact Hnd|]. split.
      * intros b Hb Hb'. apply list_elem_of_singleton in Hb'. subst b.
        contradiction.
      * apply NoDup_singleton.
    + intros b Hb. apply elem_of_app in Hb as [Hb|Hb]; [apply Hold, Hb|].
      apply list_elem_of_singleton in Hb. subst b. exact Hi.
Qed.

(** C9.  Take a Water place [p] and an actor [i] of a sound store.  If
    the actor is watersafe, [add_insect] on [p] does exactly what
    [Place.add_insect], the method of an ordinary place, does (the
    same result, the same store), and the actor has the armor it had.
    If the actor is not watersafe, let the slot of [p] hold no ant
    that is not watersafe and let the actor not be among the bees of
    [p] already.  Then, whenever [Place.add_insect] takes the actor
    (it is no ant, or the slot is empty, or it can contain the ant of
    the slot), [add_insect] returns and leaves the actor with armor 0,
    out of the place and pointing to no place; and when
    [Place.add_insect] refuses it, so does [add_insect], with
    [AssertionError] and the store as it was. *)
Theorem C9_water_add_insect s p pl i x :
  sound s -> places s !! p = Some pl -> p_kind pl = WaterPlace ->
  insects s !! i = Some x ->
  (class_watersafe (i_class x) = true ->
     add_insect p i s = Place_add_insect p i s /\
     armor_of (exec (add_insect p i) s) i = Some (i_armor x)) /\
  (class_watersafe (i_class x) = false ->
     bees_ok s p -> watersafe_slot s pl -> (i ∉ p_bees pl) ->
     let drowned :=
       exists s', add_insect p i s = (Ok tt, s') /\
                  armor_of s' i = Some 0 /\ absent s' i p in
     if class_is_ant (i_class x) then
       match p_ant pl with
       | None => drowned
       | Some cur =>
           match insects s !! cur with
           | None => False
           | Some y =>
               if can_contain_of x y then drowned
               else Place_add_insect p i s = (Raise AssertionError, s) /\
                    add_insect p i s = (Raise AssertionError, s)
           end
       end
     else drowned).
Proof.
  intros Hs Hp Hkind Hx.
  assert (i < length (insects s))%nat as Hli by (eapply lookup_lt_Some, Hx).
  assert (p < length (places s))%nat as Hlp by (eapply lookup_lt_Some, Hp).
  assert (add_insect p i s = Water_add_insect p i s) as Hadd.
  { unfold add_insect. run (get_place_ok s p pl Hp). rewrite Hkind.
    reflexivity. }
  assert (bees_at s p = p_bees pl) as Hbees
    by (unfold bees_at; rewrite Hp; reflexivity).
  split.
  - (* watersafe *)
    intros Hw.
    assert (forall s1 x1, Place_add_insect p i s = (Ok tt, s1) ->
              insects s1 !! i = Some x1 -> i_class x1 = i_class x ->
              i_armor x1 = i_armor x ->
              add_insect p i s = Place_add_insect p i s /\
              armor_of (exec (add_insect p i) s) i = Some (i_armor x)) as Hok.
    { intros s1 x1 HP Hx1 Hk Ha. rewrite Hadd.
      rewrite (Water_add_insect_after s p i s1 x1 HP Hx1), Hk, Hw.
      split; [symmetry; exact HP|].
      unfold exec. rewrite Hadd, (Water_add_insect_after s p i s1 x1 HP Hx1),
        Hk, Hw. cbn [snd]. unfold armor_of. rewrite Hx1, Ha. reflexivity. }
    assert (Place_add_insect p i s = (Raise AssertionError, s) ->
              add_insect p i s = Place_add_insect p i s /\
              armor_of (exec (add_insect p i) s) i = Some (i_armor x))
      as Hraise.
    { intros HP. rewrite Hadd.
      assert (Water_add_insect p i s = (Raise AssertionError, s)) as HW
        by (unfold Water_add_insect; apply bind_raise, HP).
      split; [rewrite HW, HP; reflexivity|].
      unfold exec. rewrite Hadd, HW. cbn [snd]. unfold armor_of.
      rewrite Hx. reflexivity. }
    destruct (class_is_ant (i_class x)) eqn:Hant.
    + pose proof (Place_add_insect_run s p i pl x Hs Hp Hx Hant) as HP.
      destruct (p_ant pl) as [cur|].
      * destruct (insects s !! cur) as [y|] eqn:Hy; [|contradiction].
        destruct (can_contain_of y x) eqn:Hc1.
        { assert (i <> cur) as Hne.
          { intros ->. assert (y = x) as -> by congruence.
            rewrite can_contain_of_self in Hc1. discriminate. }
          apply (Hok _ (with_place (Some p) x) HP); [|reflexivity|reflexivity].
          cbn [insects set_insects].
          apply list_lookup_insert_eq. rewrite length_insert. exact Hli. }
        destruct (can_contain_of x y) eqn:Hc2; [|apply Hraise, HP].
        apply (Hok _ (with_place (Some p) (with_ant (Some cur) x)) HP);
          [|reflexivity|reflexivity].
        cbn [insects set_insects set_places].
        apply list_lookup_insert_eq. rewrite length_insert. exact Hli.
      * apply (Hok _ (with_place (Some p) x) HP); [|reflexivity|reflexivity].
        cbn [insects set_insects set_places].
        apply list_lookup_insert_eq. exact Hli.
    + apply (Hok _ (with_place (Some p) x)
               (Place_add_insect_not_ant s p i pl x Hp Hx Hant));
        [|reflexivity|reflexivity].
      cbn [insects set_insects set_places].
      apply list_lookup_insert_eq. exact Hli.
  - (* not watersafe *)
    intros Hw Hbok Hslot Hnotin. cbv zeta. rewrite <- Hbees in Hnotin.
    rewrite Hadd.
    destruct (class_is_ant (i_class x)) eqn:Hant.
    + pose proof (Place_add_insect_run s p i pl x Hs Hp Hx Hant) as HP.
      destruct (p_ant pl) as [cur|] eqn:Hcur.
      * destruct (insects s !! cur) as [y|] eqn:Hy; [|contradiction].
        assert (can_contain_of y x = false) as Hc1.
        { pose proof (Hslot cur y Hcur Hy) as Hyw.
          unfold can_contain_of. destruct (i_class y); try reflexivity;
            discriminate Hyw. }
        rewrite Hc1 in HP.
        destruct (can_contain_of x y) eqn:Hc2.
        { eapply (Water_drowns s p i _ _ (with_p_ant (Some i) pl) HP Hs).
          - apply (bees_ok_after_add s _ p (with_p_ant (Some i) pl) i Hbok).
            + cbn [places set_insects set_places].
              apply list_lookup_insert_eq. exact Hlp.
            + intros b Hb. cbn [insects set_insects set_places].
              rewrite !list_lookup_insert_ne by auto. reflexivity.
            + exact Hnotin.
            + left. cbn [p_bees with_p_ant]. symmetry. exact Hbees.
          - cbn [insects set_insects set_places].
            apply list_lookup_insert_eq. rewrite length_insert. exact Hli.
          - reflexivity.
          - cbn [places set_insects set_places].
            apply list_lookup_insert_eq. exact Hlp.
          - left. unfold ant_at. cbn [places set_insects set_places].
            rewrite list_lookup_insert_eq by exact Hlp. reflexivity.
          - exact Hw. }
        split; [exact HP|]. unfold Water_add_insect. apply bind_raise, HP.
      * eapply (Water_drowns s p i _ _ (with_p_ant (Some i) pl) HP Hs).
        -- apply (bees_ok_after_add s _ p (with_p_ant (Some i) pl) i Hbok).
           ++ cbn [places set_insects set_places].
              apply list_lookup_insert_eq. exact Hlp.
           ++ intros b Hb. cbn [insects set_insects set_places].
              rewrite list_lookup_insert_ne by auto. reflexivity.
           ++ exact Hnotin.
           ++ left. cbn [p_bees with_p_ant]. symmetry. exact Hbees.
        -- cbn [insects set_insects set_places].
           apply list_lookup_insert_eq. exact Hli.
        -- reflexivity.
        -- cbn [places set_insects set_places].
           apply list_lookup_insert_eq. exact Hlp.
        -- left. unfold ant_at. cbn [places set_insects set_places].
           rewrite list_lookup_insert_eq by exact Hlp. reflexivity.
        -- exact Hw.
    + pose proof (Place_add_insect_not_ant s p i pl x Hp Hx Hant) as HP.
      assert (insects
                (set_insects (fun l => <[i := with_place (Some p) x]> l)
                   (set_places
                      (fun l => <[p := with_p_bees (p_bees pl ++ [i]) pl]> l)
                      s)) !! i = Some (with_place (Some p) x)) as Hx1.
      { cbn [insects set_insects set_places].
        apply list_lookup_insert_eq. exact Hli. }
      eapply (Water_drowns s p i _ _ (with_p_bees (p_bees pl ++ [i]) pl)
                HP Hs).
      * apply (bees_ok_after_add s _ p (with_p_bees (p_bees pl ++ [i]) pl) i
                 Hbok).
        -- cbn [places set_insects set_places].
           apply list_lookup_insert_eq. exact Hlp.
        -- intros b Hb. cbn [insects set_insects set_places].
           rewrite list_lookup_insert_ne by auto. reflexivity.
        -- exact Hnotin.
        -- right. cbn [p_bees with_p_bees]. rewrite Hbees.
           split; [reflexivity|]. eexists. split; [exact Hx1|].
           split; [exact Hant|reflexivity].
      * exact Hx1.
      * reflexivity.
      * cbn [places set_insects set_places].
        apply list_lookup_insert_eq. exact Hlp.
      * right. unfold bees_at. cbn [places set_insects set_places].
        rewrite list_lookup_insert_eq by exact Hlp. cbn [p_bees with_p_bees].
        apply elem_of_app. right. apply list_elem_of_singleton. reflexivity.
      * exact Hw.
Qed.

Lemma C9_witness :
  (add_insect 2 0 wet_colony = Place_add_insect 2 0 wet_colony /\
   armor_of (exec (add_insect 2 0) wet_colony) 0 = Some 1) /\
  (exists s', add_insect 2 1 wet_colony = (Ok tt, s') /\
              armor_of s' 1 = Some 0 /\ absent s' 1 2) /\
  (Place_add_insect 2 1 soaked_colony = (Raise AssertionError, soaked_colony) /\
   add_insect 2 1 soaked_colony = (Raise AssertionError, soaked_colony)).
Proof.
  assert (sound wet_colony) as Hwet.
  { apply reachable_sound. exists (fun _ => 0%nat), wet_ops.
    vm_compute. reflexivity. }
  assert (sound soaked_colony) as Hsoaked.
  { apply reachable_sound.
    exists (fun _ => 0%nat), (wet_ops ++ [OpAddInsect 2 0]).
    vm_compute. reflexivity. }
  assert (forall s, bees_at s 2 = [] -> bees_ok s 2) as Hnone.
  { intros s Hb. unfold bees_ok. rewrite Hb.
    split; [apply NoDup_nil_2|]. intros b Hin. inversion Hin. }
  split; [|split].
  - apply (proj1 (C9_water_add_insect wet_colony 2%nat
                    (MkPlace WaterPlace "water_0_0" (Some 1%nat) [] None
                       (Some 3%nat) [])
                    0%nat
                    (MkInsect ScubaThrower 1 None [] 1 false None 0 false)
                    Hwet eq_refl eq_refl eq_refl)).
    reflexivity.
  - apply (proj2 (C9_water_add_insect wet_colony 2%nat
                    (MkPlace WaterPlace "water_0_0" (Some 1%nat) [] None
                       (Some 3%nat) [])
                    1%nat
                    (MkInsect ThrowerAnt 1 None [] 1 false None 0 false)
                    Hwet eq_refl eq_refl eq_refl)).
    + reflexivity.
    + apply Hnone. reflexivity.
    + intros cur y Hcur. discriminate Hcur.
    + intros Hin. inversion Hin.
  - apply (proj2 (C9_water_add_insect soaked_colony 2%nat
                    (MkPlace WaterPlace "water_0_0" (Some 1%nat) []
                       (Some 0%nat) (Some 3%nat) [])
                    1%nat
                    (MkInsect ThrowerAnt 1 None [] 1 false None 0 false)
                    Hsoaked eq_refl eq_refl eq_refl)).
    + reflexivity.
    + apply Hnone. reflexivity.
    + intros cur y Hcur Hy. injection Hcur as <-.
      vm_compute in Hy. injection Hy as <-. reflexivity.
    + intros Hin. inversion Hin.
Defined.

(** The claim of the specification fails where the place refuses the
    actor.  [water_0_0] holds a scuba thrower; a thrower (not
    watersafe, armor 1) added there is refused by [Place.add_insect]
    with [AssertionError], and keeps its armor. *)
Lemma C9_counterexample : ~ water_drowns soaked_colony 2 1.
Proof.
  intros H.
  destruct (H (MkPlace WaterPlace "water_0_0" (Some 1%nat) [] (Some 0%nat)
                 (Some 3%nat) [])
              (MkInsect ThrowerAnt 1 None [] 1 false None 0 false)
              eq_refl eq_refl eq_refl eq_refl) as [Ha _].
  vm_compute in Ha. discriminate Ha.
Qed.
